(** * Solace C sample programs: shallow embedding and checked properties

    The samples (src/feature, src/features, src/intro) drive a closed-source
    messaging SDK.  What is modelled here is the code of the samples
    themselves: the option parser and session helpers of [common.c], the
    receive callback and publish loop of [flowControlQueue.c], the
    correlation list of [adPubAck.c], the control flow of
    [messageTTLAndDeadMessageQueue.c] and the wait loop of
    [messageReplay.c].  The SDK is an environment: the return code of every
    SDK call, the error record it leaves behind and the messages it hands to
    the callbacks are inputs of the model. *)

From Stdlib Require Import ZArith List String Ascii Bool Lia.
From stdpp Require Import base option list strings gmap.

Local Open Scope string_scope.
Local Open Scope list_scope.
Local Open Scope Z_scope.

(* ================================================================== *)
(** * Part I: definitions                                              *)
(* ================================================================== *)

(** ** C strings and fixed-size character arrays *)

Module CStr.

(** The terminating NUL of a C string. *)
Definition NUL : ascii := Ascii.zero.

Definition is_nul (c : ascii) : bool := Ascii.eqb c NUL.

(** A [char x[N]] member is a list of [N] characters. *)
Abbreviation buffer := (list ascii).

(** The C string a buffer holds: the characters before the first NUL
    (the whole buffer when it has none). *)
Fixpoint cstr (b : buffer) : string :=
  match b with
  | [] => EmptyString
  | c :: b' => if is_nul c then EmptyString else String c (cstr b')
  end.

(** [buf[0]], the test the samples use for "is this option set". *)
Definition first_char (b : buffer) : ascii :=
  match b with
  | [] => NUL
  | c :: _ => c
  end.

(** A fresh array of [n] NUL characters. *)
Definition zeroed (n : nat) : buffer := replicate n NUL.

(** [buf[0] = (char) 0]: only the first character is written. *)
Definition clear_first (b : buffer) : buffer := <[0%nat := NUL]> b.

(** POSIX [strncpy (dst, src, n)] with [n = sizeof dst]: the first [n]
    characters of [src], padded with NUL up to [n]; no NUL is written
    when [src] has [n] or more characters. *)
Definition strncpy (n : nat) (src : string) : buffer :=
  take n (list_ascii_of_string src ++ replicate n NUL).

(** [*(base + i) = c] on an array: [None] when [i] is outside of it. *)
Definition store (b : buffer) (i : nat) (c : ascii) : option buffer :=
  if (i <? length b)%nat then Some (<[i := c]> b) else None.

(** [strcasecmp (a, b) == 0] on ASCII letters. *)
Definition lower (c : ascii) : ascii :=
  let n := nat_of_ascii c in
  if ((65 <=? n) && (n <=? 90))%nat then ascii_of_nat (n + 32) else c.

Fixpoint strcasecmp_eq (a b : string) : bool :=
  match a, b with
  | EmptyString, EmptyString => true
  | String x a', String y b' => Ascii.eqb (lower x) (lower y) && strcasecmp_eq a' b'
  | _, _ => false
  end.

End CStr.

(** ** The SDK as seen by the samples

    [solclient/solClient.h] belongs to the vendor SDK, not to the
    repository: its enumerations appear here by the names the samples use,
    its string macros by their macro names. *)

Module Sdk.

Inductive solClient_returnCode_t : Type :=
| SOLCLIENT_OK
| SOLCLIENT_WOULD_BLOCK
| SOLCLIENT_IN_PROGRESS
| SOLCLIENT_NOT_READY
| SOLCLIENT_EOS
| SOLCLIENT_NOT_FOUND
| SOLCLIENT_NOEVENT
| SOLCLIENT_INCOMPLETE
| SOLCLIENT_ROLLBACK
| SOLCLIENT_FAIL.

(** [rc == SOLCLIENT_OK] and [rc == SOLCLIENT_FAIL]. *)
Definition is_OK (rc : solClient_returnCode_t) : bool :=
  match rc with SOLCLIENT_OK => true | _ => false end.

Definition is_FAIL (rc : solClient_returnCode_t) : bool :=
  match rc with SOLCLIENT_FAIL => true | _ => false end.

Inductive solClient_log_level_t : Type :=
| SOLCLIENT_LOG_EMERGENCY
| SOLCLIENT_LOG_ALERT
| SOLCLIENT_LOG_CRITICAL
| SOLCLIENT_LOG_ERROR
| SOLCLIENT_LOG_WARNING
| SOLCLIENT_LOG_NOTICE
| SOLCLIENT_LOG_INFO
| SOLCLIENT_LOG_DEBUG.

(** The session events the callbacks of the samples switch on; every
    other value of the enumeration reaches their [default:] branch. *)
Inductive solClient_session_event_t : Type :=
| SOLCLIENT_SESSION_EVENT_UP_NOTICE
| SOLCLIENT_SESSION_EVENT_ACKNOWLEDGEMENT
| SOLCLIENT_SESSION_EVENT_TE_UNSUBSCRIBE_OK
| SOLCLIENT_SESSION_EVENT_CAN_SEND
| SOLCLIENT_SESSION_EVENT_RECONNECTING_NOTICE
| SOLCLIENT_SESSION_EVENT_RECONNECTED_NOTICE
| SOLCLIENT_SESSION_EVENT_PROVISION_OK
| SOLCLIENT_SESSION_EVENT_SUBSCRIPTION_OK
| SOLCLIENT_SESSION_EVENT_DOWN_ERROR
| SOLCLIENT_SESSION_EVENT_CONNECT_FAILED_ERROR
| SOLCLIENT_SESSION_EVENT_REJECTED_MSG_ERROR
| SOLCLIENT_SESSION_EVENT_SUBSCRIPTION_ERROR
| SOLCLIENT_SESSION_EVENT_RX_MSG_TOO_BIG_ERROR
| SOLCLIENT_SESSION_EVENT_TE_UNSUBSCRIBE_ERROR
| SOLCLIENT_SESSION_EVENT_PROVISION_ERROR
| SOLCLIENT_SESSION_EVENT_other (code : Z).

Inductive solClient_flow_event_t : Type :=
| SOLCLIENT_FLOW_EVENT_UP_NOTICE
| SOLCLIENT_FLOW_EVENT_SESSION_DOWN
| SOLCLIENT_FLOW_EVENT_ACTIVE
| SOLCLIENT_FLOW_EVENT_INACTIVE
| SOLCLIENT_FLOW_EVENT_DOWN_ERROR
| SOLCLIENT_FLOW_EVENT_BIND_FAILED_ERROR
| SOLCLIENT_FLOW_EVENT_REJECTED_MSG_ERROR
| SOLCLIENT_FLOW_EVENT_other (code : Z).

Inductive solClient_deliveryMode_t : Type :=
| SOLCLIENT_DELIVERY_MODE_DIRECT
| SOLCLIENT_DELIVERY_MODE_PERSISTENT
| SOLCLIENT_DELIVERY_MODE_NONPERSISTENT.

Inductive solClient_destinationType_t : Type :=
| SOLCLIENT_TOPIC_DESTINATION
| SOLCLIENT_QUEUE_DESTINATION
| SOLCLIENT_QUEUE_TEMP_DESTINATION.

(** What [solClient_getLastErrorInfo ()] points to. *)
Record solClient_errorInfo_t : Type := {
  subCode : Z;
  responseCode : Z;
  errorStr : string
}.

(** One entry of a NULL-terminated property array ([const char *props[]]):
    a string macro of an SDK header, or a C string of the sample itself
    (a literal or the contents of one of its buffers). *)
Inductive prop_word : Type :=
| Macro (name : string)
| Str (s : string).

#[global] Instance prop_word_eq_dec : EqDecision prop_word.
Proof. solve_decision. Defined.

Definition prop_word_eqb (a b : prop_word) : bool :=
  match a, b with
  | Macro x, Macro y => String.eqb x y
  | Str x, Str y => String.eqb x y
  | _, _ => false
  end.

(** The value that follows property name [key] in a property array, read
    pairwise from the front as the SDK does. *)
Fixpoint prop_value (key : prop_word) (props : list prop_word) : option prop_word :=
  match props with
  | k :: v :: rest => if prop_word_eqb k key then Some v else prop_value key rest
  | _ => None
  end.

(** The property names of an array, in order. *)
Fixpoint prop_names (props : list prop_word) : list prop_word :=
  match props with
  | k :: _ :: rest => k :: prop_names rest
  | _ => []
  end.

(** The local handle variables the samples pass to flow functions. *)
Inductive flow_handle : Type := flow_p | dmqFlow_p.

(** The SDK functions the modelled code calls, with the arguments that
    matter to the properties below. *)
Inductive api_call : Type :=
| solClient_initialize
| solClient_version_get
| solClient_context_create
| solClient_session_create (props : list prop_word)
| solClient_session_connect
| solClient_session_disconnect
| solClient_cleanup
| solClient_session_endpointProvision (props : list prop_word) (flags : list string)
| solClient_session_endpointDeprovision (props : list prop_word) (flags : list string)
| solClient_session_endpointTopicSubscribe (props : list prop_word) (flags : list string) (topic : string)
| solClient_generateUUIDString
| solClient_session_createFlow (props : list prop_word) (out : flow_handle)
| solClient_flow_destroy (f : flow_handle)
| solClient_flow_stop (f : flow_handle)
| solClient_flow_start (f : flow_handle)
| solClient_flow_sendAck (msgId : Z)
| solClient_flow_getDestination (f : flow_handle)
| solClient_msg_alloc
| solClient_msg_setDeliveryMode (mode : solClient_deliveryMode_t)
| solClient_msg_setBinaryAttachment
| solClient_msg_setDestination (destType : solClient_destinationType_t) (dest : string)
| solClient_msg_setTimeToLive (ttl : Z)
| solClient_msg_setDMQEligible (dmqe : bool)
| solClient_msg_setCorrelationTagPtr (tag : nat)
| solClient_session_sendMsg
| solClient_msg_free
| solClient_msg_dump
| solClient_msg_getSmfPtr
| solClient_session_sendSmf
| solClient_session_topicUnsubscribeExt (flags : list string) (topic : string).

(** An argument of a [printf] or [solClient_log] format string; the
    SDK's [...ToString] functions and the string macros of headers are
    kept symbolic.  Format strings are kept as the source spells them,
    escapes included. *)
Inductive arg : Type :=
| AStr (s : string)
| AInt (z : Z)
| AReturnCode (rc : solClient_returnCode_t)
| AReturnCodeToString (rc : solClient_returnCode_t)
| ASubCodeToString (sc : Z)
| ASessionEventToString (e : solClient_session_event_t)
| AFlowEventToString (e : solClient_flow_event_t)
| AMacro (name : string).

(** The names of the variables a callback shares with [main]. *)
Inductive shared_var : Type :=
| flowRxMsgCounter
| dmqRxMsgCounter
| msgReceived_s.

(** What a run of a sample does, in order. *)
Inductive event : Type :=
| EvCall (c : api_call) (rc : solClient_returnCode_t)
| EvPrintf (fmt : string) (args : list arg)
| EvLog (level : solClient_log_level_t) (fmt : string) (args : list arg)
| EvResetLastErrorInfo
| EvSetFilterLevel (level : Z)
| EvIsCapable (capable : bool)
| EvLoad (v : shared_var) (value : Z)
| EvSleepUs (us : Z)
| EvSleepSec (s : Z)
| EvMalloc (p : nat)
| EvFree (p : nat).

Definition is_stdout (e : event) : bool :=
  match e with EvPrintf _ _ => true | _ => false end.

Definition is_log (e : event) : bool :=
  match e with EvLog _ _ _ => true | _ => false end.

(** The SDK calls of a trace, in order. *)
Definition calls_of (t : list event) : list api_call :=
  omap (fun e => match e with EvCall c _ => Some c | _ => None end) t.

(** The values a trace loaded from shared variable [v], in order. *)
Definition loads_of (v : shared_var) (t : list event) : list Z :=
  omap (fun e => match e with
                 | EvLoad v' z =>
                     match v, v' with
                     | flowRxMsgCounter, flowRxMsgCounter
                     | dmqRxMsgCounter, dmqRxMsgCounter
                     | msgReceived_s, msgReceived_s => Some z
                     | _, _ => None
                     end
                 | _ => None
                 end) t.

End Sdk.

(** ** Runs of a sample

    A sample is a sequential [main] plus callbacks that the SDK's context
    thread invokes.  A piece of code is run at a time [t] (the number of
    events of the run so far) on the sample's variables; it ends normally
    or in a jump, leaves new values in the variables and adds events to the
    trace.  The SDK is the environment [env]: it answers the call made at
    time [t] and decides which messages or events the context thread has
    handed to the callbacks by then.  Callbacks run to completion at the
    points where [main] interacts with the outside ([call], [load],
    [sleepInUs], ...), one sequentially consistent interleaving per
    environment.

    [goto] of the C code is an exception carrying the label. *)

Module Run.
Import Sdk.

Record env (D : Type) : Type := {
  sdk_rc : nat -> api_call -> solClient_returnCode_t;
  sdk_errorInfo : nat -> solClient_errorInfo_t;
  sdk_capable : nat -> bool;
  sdk_pending : nat -> list D;
  sig_gotCtlC : nat -> bool
}.
Arguments sdk_rc {D}.
Arguments sdk_errorInfo {D}.
Arguments sdk_capable {D}.
Arguments sdk_pending {D}.
Arguments sig_gotCtlC {D}.

(** A statement sequence over variables [G] that may jump to a label of
    [L] or finish with an [A]: from the time and the variables to the
    outcome, the variables after it and the events it added. *)
Definition prog (G L A : Type) : Type := nat -> G -> (L + A) * G * list event.

Definition outcome {G R} (r : R * G * list event) : R := fst (fst r).
Definition vars_after {G R} (r : R * G * list event) : G := snd (fst r).
Definition events {G R} (r : R * G * list event) : list event := snd r.

Definition ret {G L A} (a : A) : prog G L A :=
  fun _ g => (inr a, g, []).

Definition bind {G L A B} (m : prog G L A) (k : A -> prog G L B) : prog G L B :=
  fun t g =>
    match m t g with
    | (inl l, g1, es1) => (inl l, g1, es1)
    | (inr a, g1, es1) =>
        match k a (t + length es1)%nat g1 with
        | (r, g2, es2) => (r, g2, es1 ++ es2)
        end
    end.

Definition goto {G L A} (l : L) : prog G L A :=
  fun _ g => (inl l, g, []).

Declare Scope prog_scope.
Delimit Scope prog_scope with prog.
Notation "'let*' x ':=' m 'in' k" := (bind m (fun x => k))
  (at level 10, x name, m at level 100, k at level 200) : prog_scope.
Notation "m ;; k" := (bind m (fun _ => k))
  (at level 100, k at level 200, right associativity) : prog_scope.
Local Open Scope prog_scope.

(** [if (b) { p }] *)
Definition when {G L} (b : bool) (p : prog G L unit) : prog G L unit :=
  if b then p else ret tt.

Definition emit {G L} (e : event) : prog G L unit :=
  fun _ g => (inr tt, g, [e]).

Definition now {G L} : prog G L nat :=
  fun t g => (inr t, g, []).

Definition get {G L} : prog G L G :=
  fun _ g => (inr g, g, []).

Definition modify {G L} (f : G -> G) : prog G L unit :=
  fun _ g => (inr tt, f g, []).

Definition printf {G L} (fmt : string) (args : list arg) : prog G L unit :=
  emit (EvPrintf fmt args).

Definition solClient_log {G L} (level : solClient_log_level_t) (fmt : string)
    (args : list arg) : prog G L unit :=
  emit (EvLog level fmt args).

(** A function of the sample with labels of its own ([L']): a jump ends
    the block, and the code after the block is the code at the label. *)
Definition block {G L L'} (body : prog G L' unit) : prog G L unit :=
  fun t g =>
    match body t g with
    | (_, g1, es1) => (inr tt, g1, es1)
    end.

Section WithEnv.
Context {G D : Type}.
Variable E : env D.

(** An SDK call made where no callback can interleave: inside a callback
    itself. *)
Definition sdk {L} (c : api_call) : prog G L solClient_returnCode_t :=
  let* n := now in
  let rc := sdk_rc E n c in
  emit (EvCall c rc);;
  ret rc.

Definition solClient_getLastErrorInfo {L} : prog G L solClient_errorInfo_t :=
  let* n := now in
  ret (sdk_errorInfo E n).

(** The callback of the sample, run by the context thread. *)
Variable callback : D -> prog G unit unit.

(** The callbacks for [ds] run one after the other. *)
Fixpoint deliver {L} (ds : list D) : prog G L unit :=
  match ds with
  | [] => ret tt
  | d :: ds' => block (callback d);; deliver ds'
  end.

(** The context thread catches up: the callbacks due by now run, each
    to its end.  A callback runs between two statements of [main], never
    in the middle of one: the interleavings of the two threads of the C
    program inside a callback are not among the runs. *)
Definition sync {L} : prog G L unit :=
  let* n := now in
  deliver (sdk_pending E n).

(** The statements of [main] that interact with the outside. *)
Definition call {L} (c : api_call) : prog G L solClient_returnCode_t :=
  sync;; sdk c.

Definition load {L} (v : shared_var) (read : G -> Z) : prog G L Z :=
  sync;;
  let* g := get in
  emit (EvLoad v (read g));;
  ret (read g).

Definition sleepInUs {L} (us : Z) : prog G L unit :=
  sync;; emit (EvSleepUs us).

Definition sleepInSec {L} (s : Z) : prog G L unit :=
  sync;; emit (EvSleepSec s).

Definition gotCtlC {L} : prog G L bool :=
  sync;;
  let* n := now in
  ret (sig_gotCtlC E n).

Definition solClient_session_isCapable {L} : prog G L bool :=
  sync;;
  let* n := now in
  let b := sdk_capable E n in
  emit (EvIsCapable b);;
  ret b.

End WithEnv.

(** Code that cannot jump: its value. *)
Definition exec {G A} (p : prog G Empty_set A) : nat -> G -> A * G * list event :=
  fun t g =>
    match p t g with
    | (inl l, _, _) => match l with end
    | (inr a, g1, es1) => (a, g1, es1)
    end.

(** [main] with its labels: the body runs until it ends or jumps; the
    code from the label on (or from [fallthrough], the label that follows
    the body in the file) then runs to the [return]. *)
Definition with_labels {G L A} (body : prog G L unit) (fallthrough : L)
    (from : L -> prog G Empty_set A) : nat -> G -> A * G * list event :=
  fun t g =>
    match body t g with
    | (r, g1, es1) =>
        let l := match r with inl l => l | inr _ => fallthrough end in
        match exec (from l) (t + length es1)%nat g1 with
        | (a, g2, es2) => (a, g2, es1 ++ es2)
        end
    end.

End Run.

(** ** common.c *)

Module Common.
Import CStr Sdk Run.
Local Open Scope prog_scope.

(** What the samples take from [common.h] and from the SDK headers, none
    of which is in the repository: the bit masks of the option fields, the
    names of the sample queue, dead message queue and topic, and the
    numeric values of the log levels. *)
Record headers : Type := {
  HOST_PARAM_MASK : Z;
  USER_PARAM_MASK : Z;
  DEST_PARAM_MASK : Z;
  PASS_PARAM_MASK : Z;
  CACHE_PARAM_MASK : Z;
  DURABLE_MASK : Z;
  NUM_MSGS_MASK : Z;
  MSG_RATE_MASK : Z;
  WINDOW_SIZE_MASK : Z;
  LOG_LEVEL_MASK : Z;
  USE_GSS_MASK : Z;
  ZIP_LEVEL_MASK : Z;
  REPLAY_START_MASK : Z;
  COMMON_TESTQ : string;
  COMMON_DMQ_NAME : string;
  COMMON_MY_SAMPLE_TOPIC : string;
  log_level_value : solClient_log_level_t -> Z;
  SOLCLIENT_LOG_DEFAULT_FILTER : Z
}.

(** [struct commonOptions]; [sizeof] of a character array member is the
    length of the list. *)
Record commonOptions : Type := {
  targetHost : buffer;
  username : buffer;
  password : buffer;
  vpn : buffer;
  cacheName : buffer;
  replayStartLocation : buffer;
  usingTopic : bool;
  usingAD : bool;
  destinationName : buffer;
  numMsgsToSend : Z;
  msgRate : Z;
  gdWindow : Z;
  logLevel : Z;
  usingDurable : bool;
  enableCompression : bool;
  useGSS : bool;
  requiredFields : Z;
  optionalFields : Z
}.

Definition set_targetHost (v : buffer) (o : commonOptions) : commonOptions :=
  {| targetHost := v; username := username o; password := password o; vpn := vpn o;
     cacheName := cacheName o; replayStartLocation := replayStartLocation o;
     usingTopic := usingTopic o; usingAD := usingAD o;
     destinationName := destinationName o; numMsgsToSend := numMsgsToSend o;
     msgRate := msgRate o; gdWindow := gdWindow o; logLevel := logLevel o;
     usingDurable := usingDurable o; enableCompression := enableCompression o;
     useGSS := useGSS o; requiredFields := requiredFields o;
     optionalFields := optionalFields o |}.

Definition set_username_vpn (u v : buffer) (o : commonOptions) : commonOptions :=
  {| targetHost := targetHost o; username := u; password := password o; vpn := v;
     cacheName := cacheName o; replayStartLocation := replayStartLocation o;
     usingTopic := usingTopic o; usingAD := usingAD o;
     destinationName := destinationName o; numMsgsToSend := numMsgsToSend o;
     msgRate := msgRate o; gdWindow := gdWindow o; logLevel := logLevel o;
     usingDurable := usingDurable o; enableCompression := enableCompression o;
     useGSS := useGSS o; requiredFields := requiredFields o;
     optionalFields := optionalFields o |}.

Definition set_password (v : buffer) (o : commonOptions) : commonOptions :=
  {| targetHost := targetHost o; username := username o; password := v; vpn := vpn o;
     cacheName := cacheName o; replayStartLocation := replayStartLocation o;
     usingTopic := usingTopic o; usingAD := usingAD o;
     destinationName := destinationName o; numMsgsToSend := numMsgsToSend o;
     msgRate := msgRate o; gdWindow := gdWindow o; logLevel := logLevel o;
     usingDurable := usingDurable o; enableCompression := enableCompression o;
     useGSS := useGSS o; requiredFields := requiredFields o;
     optionalFields := optionalFields o |}.

Definition set_cacheName (v : buffer) (o : commonOptions) : commonOptions :=
  {| targetHost := targetHost o; username := username o; password := password o; vpn := vpn o;
     cacheName := v; replayStartLocation := replayStartLocation o;
     usingTopic := usingTopic o; usingAD := usingAD o;
     destinationName := destinationName o; numMsgsToSend := numMsgsToSend o;
     msgRate := msgRate o; gdWindow := gdWindow o; logLevel := logLevel o;
     usingDurable := usingDurable o; enableCompression := enableCompression o;
     useGSS := useGSS o; requiredFields := requiredFields o;
     optionalFields := optionalFields o |}.

Definition set_replayStartLocation (v : buffer) (o : commonOptions) : commonOptions :=
  {| targetHost := targetHost o; username := username o; password := password o; vpn := vpn o;
     cacheName := cacheName o; replayStartLocation := v;
     usingTopic := usingTopic o; usingAD := usingAD o;
     destinationName := destinationName o; numMsgsToSend := numMsgsToSend o;
     msgRate := msgRate o; gdWindow := gdWindow o; logLevel := logLevel o;
     usingDurable := usingDurable o; enableCompression := enableCompression o;
     useGSS := useGSS o; requiredFields := requiredFields o;
     optionalFields := optionalFields o |}.

Definition set_destinationName (v : buffer) (o : commonOptions) : commonOptions :=
  {| targetHost := targetHost o; username := username o; password := password o; vpn := vpn o;
     cacheName := cacheName o; replayStartLocation := replayStartLocation o;
     usingTopic := usingTopic o; usingAD := usingAD o;
     destinationName := v; numMsgsToSend := numMsgsToSend o;
     msgRate := msgRate o; gdWindow := gdWindow o; logLevel := logLevel o;
     usingDurable := usingDurable o; enableCompression := enableCompression o;
     useGSS := useGSS o; requiredFields := requiredFields o;
     optionalFields := optionalFields o |}.

Definition set_numMsgsToSend (v : Z) (o : commonOptions) : commonOptions :=
  {| targetHost := targetHost o; username := username o; password := password o; vpn := vpn o;
     cacheName := cacheName o; replayStartLocation := replayStartLocation o;
     usingTopic := usingTopic o; usingAD := usingAD o;
     destinationName := destinationName o; numMsgsToSend := v;
     msgRate := msgRate o; gdWindow := gdWindow o; logLevel := logLevel o;
     usingDurable := usingDurable o; enableCompression := enableCompression o;
     useGSS := useGSS o; requiredFields := requiredFields o;
     optionalFields := optionalFields o |}.

Definition set_msgRate (v : Z) (o : commonOptions) : commonOptions :=
  {| targetHost := targetHost o; username := username o; password := password o; vpn := vpn o;
     cacheName := cacheName o; replayStartLocation := replayStartLocation o;
     usingTopic := usingTopic o; usingAD := usingAD o;
     destinationName := destinationName o; numMsgsToSend := numMsgsToSend o;
     msgRate := v; gdWindow := gdWindow o; logLevel := logLevel o;
     usingDurable := usingDurable o; enableCompression := enableCompression o;
     useGSS := useGSS o; requiredFields := requiredFields o;
     optionalFields := optionalFields o |}.

Definition set_gdWindow (v : Z) (o : commonOptions) : commonOptions :=
  {| targetHost := targetHost o; username := username o; password := password o; vpn := vpn o;
     cacheName := cacheName o; replayStartLocation := replayStartLocation o;
     usingTopic := usingTopic o; usingAD := usingAD o;
     destinationName := destinationName o; numMsgsToSend := numMsgsToSend o;
     msgRate := msgRate o; gdWindow := v; logLevel := logLevel o;
     usingDurable := usingDurable o; enableCompression := enableCompression o;
     useGSS := useGSS o; requiredFields := requiredFields o;
     optionalFields := optionalFields o |}.

Definition set_logLevel (v : Z) (o : commonOptions) : commonOptions :=
  {| targetHost := targetHost o; username := username o; password := password o; vpn := vpn o;
     cacheName := cacheName o; replayStartLocation := replayStartLocation o;
     usingTopic := usingTopic o; usingAD := usingAD o;
     destinationName := destinationName o; numMsgsToSend := numMsgsToSend o;
     msgRate := msgRate o; gdWindow := gdWindow o; logLevel := v;
     usingDurable := usingDurable o; enableCompression := enableCompression o;
     useGSS := useGSS o; requiredFields := requiredFields o;
     optionalFields := optionalFields o |}.

Definition set_usingDurable (v : bool) (o : commonOptions) : commonOptions :=
  {| targetHost := targetHost o; username := username o; password := password o; vpn := vpn o;
     cacheName := cacheName o; replayStartLocation := replayStartLocation o;
     usingTopic := usingTopic o; usingAD := usingAD o;
     destinationName := destinationName o; numMsgsToSend := numMsgsToSend o;
     msgRate := msgRate o; gdWindow := gdWindow o; logLevel := logLevel o;
     usingDurable := v; enableCompression := enableCompression o;
     useGSS := useGSS o; requiredFields := requiredFields o;
     optionalFields := optionalFields o |}.

Definition set_enableCompression (v : bool) (o : commonOptions) : commonOptions :=
  {| targetHost := targetHost o; username := username o; password := password o; vpn := vpn o;
     cacheName := cacheName o; replayStartLocation := replayStartLocation o;
     usingTopic := usingTopic o; usingAD := usingAD o;
     destinationName := destinationName o; numMsgsToSend := numMsgsToSend o;
     msgRate := msgRate o; gdWindow := gdWindow o; logLevel := logLevel o;
     usingDurable := usingDurable o; enableCompression := v;
     useGSS := useGSS o; requiredFields := requiredFields o;
     optionalFields := optionalFields o |}.

Definition set_useGSS (v : bool) (o : commonOptions) : commonOptions :=
  {| targetHost := targetHost o; username := username o; password := password o; vpn := vpn o;
     cacheName := cacheName o; replayStartLocation := replayStartLocation o;
     usingTopic := usingTopic o; usingAD := usingAD o;
     destinationName := destinationName o; numMsgsToSend := numMsgsToSend o;
     msgRate := msgRate o; gdWindow := gdWindow o; logLevel := logLevel o;
     usingDurable := usingDurable o; enableCompression := enableCompression o;
     useGSS := v; requiredFields := requiredFields o;
     optionalFields := optionalFields o |}.

(** *** common_parseUsernameAndVpn

    [dest] walks one of the two output arrays; a write through it lands in
    that array or, when the index is outside of it, is undefined behaviour
    ([None]). *)

Inductive cursor : Type :=
| at_outUsername (i : nat)
| at_outVpn (i : nat).

Record parse_state : Type := {
  p_outUsername : buffer;
  p_outVpn : buffer;
  p_dest : cursor;
  p_remaining : nat
}.

(** [*d = c] *)
Definition store_at (st : parse_state) (d : cursor) (c : ascii) : option parse_state :=
  match d with
  | at_outUsername i =>
      match store (p_outUsername st) i c with
      | Some b => Some {| p_outUsername := b; p_outVpn := p_outVpn st;
                          p_dest := p_dest st; p_remaining := p_remaining st |}
      | None => None
      end
  | at_outVpn i =>
      match store (p_outVpn st) i c with
      | Some b => Some {| p_outUsername := p_outUsername st; p_outVpn := b;
                          p_dest := p_dest st; p_remaining := p_remaining st |}
      | None => None
      end
  end.

(** [dest + 1] and [dest - 1]; there is no element before the first. *)
Definition cursor_next (d : cursor) : cursor :=
  match d with
  | at_outUsername i => at_outUsername (S i)
  | at_outVpn i => at_outVpn (S i)
  end.

Definition cursor_prev (d : cursor) : option cursor :=
  match d with
  | at_outUsername (S i) => Some (at_outUsername i)
  | at_outVpn (S i) => Some (at_outVpn i)
  | _ => None
  end.

(** The body of [while ( *c )] for the character [c]. *)
Definition parse_char (vpnLen : nat) (c : ascii) (st : parse_state) : option parse_state :=
  if Ascii.eqb c "@" then
    match store_at st (p_dest st) NUL with
    | Some st' =>
        Some {| p_outUsername := p_outUsername st'; p_outVpn := p_outVpn st';
                p_dest := at_outVpn 0; p_remaining := vpnLen |}
    | None => None
    end
  else if negb (p_remaining st =? 0)%nat then
    match store_at st (p_dest st) c with
    | Some st' =>
        Some {| p_outUsername := p_outUsername st'; p_outVpn := p_outVpn st';
                p_dest := cursor_next (p_dest st); p_remaining := pred (p_remaining st) |}
    | None => None
    end
  else
    match cursor_prev (p_dest st) with
    | Some d => store_at st d NUL
    | None => None
    end.

(** The loop: it stops at the NUL that ends [inName]. *)
Fixpoint parse_chars (vpnLen : nat) (inName : string) (st : parse_state) : option parse_state :=
  match inName with
  | EmptyString => Some st
  | String c rest =>
      if is_nul c then Some st
      else
        match parse_char vpnLen c st with
        | Some st' => parse_chars vpnLen rest st'
        | None => None
        end
  end.

Definition common_parseUsernameAndVpn (inName : string)
    (outUsername : buffer) (usernameLen : nat)
    (outVpn : buffer) (vpnLen : nat) : option (buffer * buffer) :=
  let st0 := {| p_outUsername := outUsername; p_outVpn := outVpn;
                p_dest := at_outUsername 0; p_remaining := usernameLen |} in
  match parse_chars vpnLen inName st0 with
  | Some st =>
      match store_at st (p_dest st) NUL with
      | Some st' => Some (p_outUsername st', p_outVpn st')
      | None => None
      end
  | None => None
  end.

(** *** common_initCommandOptions

    The structure is an uninitialised local of [main]: [commonOpt] is what
    it happens to hold.  Only the first character of each array is
    written. *)
Definition common_initCommandOptions (commonOpt : commonOptions)
    (requiredParams optionals : Z) (H : headers) : commonOptions :=
  {| username := clear_first (username commonOpt);
     password := clear_first (password commonOpt);
     vpn := clear_first (vpn commonOpt);
     targetHost := clear_first (targetHost commonOpt);
     cacheName := clear_first (cacheName commonOpt);
     replayStartLocation := clear_first (replayStartLocation commonOpt);
     usingTopic := true;
     usingAD := false;
     destinationName := clear_first (destinationName commonOpt);
     numMsgsToSend := 1;
     msgRate := 1;
     gdWindow := 0;
     logLevel := SOLCLIENT_LOG_DEFAULT_FILTER H;
     usingDurable := false;
     enableCompression := false;
     useGSS := false;
     requiredFields := requiredParams;
     optionalFields := optionals |}.

(** *** common_parseCommandOptions

    [getopt_long] is the C library's: the model starts from what its
    successive calls return, the option character [c] (['?'] for an
    unknown option or a missing argument) with [optarg].  [atoi] and
    [strtol (_, &end_p, 0)] are the C library's too and stay parameters;
    [strtol] returns the value and the text [end_p] points to. *)

Section ParseCommandOptions.
Variable H : headers.
Variable atoi : string -> Z.
Variable strtol : string -> Z * string.

Definition string_head (s : string) : ascii :=
  match s with
  | EmptyString => NUL
  | String c _ => c
  end.

(** The cast of a [long] to the enumeration [solClient_log_level_t], which
    has no negative enumerator: a 32-bit unsigned value. *)
Definition to_log_level (v : Z) : Z := v mod 2 ^ 32.

(** [case 'l']: the new [logLevel] and whether [rc] stays as it is. *)
Definition parse_log_level (optarg : string) : Z * bool :=
  let (v, end_p) := strtol optarg in
  let level := to_log_level v in
  if (level >? log_level_value H SOLCLIENT_LOG_DEBUG) || negb (is_nul (string_head end_p)) then
    if strcasecmp_eq optarg "debug" then (log_level_value H SOLCLIENT_LOG_DEBUG, true)
    else if strcasecmp_eq optarg "info" then (log_level_value H SOLCLIENT_LOG_INFO, true)
    else if strcasecmp_eq optarg "notice" then (log_level_value H SOLCLIENT_LOG_NOTICE, true)
    else if strcasecmp_eq optarg "warn" then (log_level_value H SOLCLIENT_LOG_WARNING, true)
    else if strcasecmp_eq optarg "error" then (log_level_value H SOLCLIENT_LOG_ERROR, true)
    else if strcasecmp_eq optarg "critical" then (log_level_value H SOLCLIENT_LOG_CRITICAL, true)
    else (level, false)
  else (level, true).

(** The [switch ( c )] of one loop iteration: the options and [rc] after
    it; [None] when [common_parseUsernameAndVpn] wrote outside of an
    array. *)
Definition parse_option (c : ascii) (optarg : string)
    (commonOpt : commonOptions) (rc : Z) : option (commonOptions * Z) :=
  if Ascii.eqb c "a" then
    Some (set_cacheName (strncpy (length (cacheName commonOpt)) optarg) commonOpt, rc)
  else if Ascii.eqb c "c" then
    Some (set_targetHost (strncpy (length (targetHost commonOpt)) optarg) commonOpt, rc)
  else if Ascii.eqb c "d" then
    Some (set_usingDurable true commonOpt, rc)
  else if Ascii.eqb c "g" then
    Some (set_useGSS true commonOpt, rc)
  else if Ascii.eqb c "z" then
    Some (set_enableCompression true commonOpt, rc)
  else if Ascii.eqb c "R" then
    Some (set_replayStartLocation
            (strncpy (length (replayStartLocation commonOpt)) optarg) commonOpt, rc)
  else if Ascii.eqb c "l" then
    let (level, ok) := parse_log_level optarg in
    Some (set_logLevel level commonOpt, if ok then rc else 0)
  else if Ascii.eqb c "n" then
    let n := atoi optarg in
    Some (set_numMsgsToSend n commonOpt, if n <=? 0 then 0 else rc)
  else if Ascii.eqb c "r" then
    let n := atoi optarg in
    Some (set_msgRate n commonOpt, if n <=? 0 then 0 else rc)
  else if Ascii.eqb c "t" then
    Some (set_destinationName (strncpy (length (destinationName commonOpt)) optarg) commonOpt, rc)
  else if Ascii.eqb c "u" then
    match common_parseUsernameAndVpn optarg
            (username commonOpt) (length (username commonOpt))
            (vpn commonOpt) (length (vpn commonOpt)) with
    | Some (u, v) => Some (set_username_vpn u v commonOpt, rc)
    | None => None
    end
  else if Ascii.eqb c "p" then
    Some (set_password (strncpy (length (password commonOpt)) optarg) commonOpt, rc)
  else if Ascii.eqb c "w" then
    let n := atoi optarg in
    Some (set_gdWindow n commonOpt, if n <=? 0 then 0 else rc)
  else
    Some (commonOpt, 0).

(** The [while ( ( c = getopt_long (...) ) != -1 )] loop. *)
Fixpoint parse_options (opts : list (ascii * string))
    (commonOpt : commonOptions) (rc : Z) : option (commonOptions * Z) :=
  match opts with
  | [] => Some (commonOpt, rc)
  | (c, optarg) :: rest =>
      match parse_option c optarg commonOpt rc with
      | Some (commonOpt', rc') => parse_options rest commonOpt' rc'
      | None => None
      end
  end.

(** [( commonOpt->requiredFields & mask ) && ( buf[0] == ( char ) 0 )] *)
Definition required_missing (commonOpt : commonOptions) (mask : Z) (buf : buffer) : bool :=
  negb (Z.land (requiredFields commonOpt) mask =? 0) && is_nul (first_char buf).

(** The five checks that follow the loop, in order, with what they print. *)
Definition required_checks (commonOpt : commonOptions) : list (bool * string) :=
  [ (required_missing commonOpt (HOST_PARAM_MASK H) (targetHost commonOpt),
     "Missing required parameter '--cip'\n");
    (required_missing commonOpt (USER_PARAM_MASK H) (username commonOpt)
       && negb (useGSS commonOpt),
     "Missing required parameter '--cu'\n");
    (required_missing commonOpt (DEST_PARAM_MASK H) (destinationName commonOpt),
     "Missing required parameter '--topic'\n");
    (required_missing commonOpt (PASS_PARAM_MASK H) (password commonOpt),
     "Missing required parameter '--cp'\n");
    (required_missing commonOpt (CACHE_PARAM_MASK H) (cacheName commonOpt),
     "Missing required parameter '--cache'\n") ].

Definition any_missing (commonOpt : commonOptions) : bool :=
  existsb fst (required_checks commonOpt).

Definition missing_printfs (commonOpt : commonOptions) : list event :=
  omap (fun chk : bool * string =>
          if fst chk then Some (EvPrintf (snd chk) []) else None)
       (required_checks commonOpt).

(** [( fields & mask ) ? X_STRING : ""] *)
Definition usage_arg (fields mask : Z) (macro : string) : arg :=
  if negb (Z.land fields mask =? 0) then AMacro macro else AStr "".

(** The usage text printed when [rc == 0]. *)
Definition usage_printfs (argv0 : string) (commonOpt : commonOptions)
    (positionalDesc : option string) : list event :=
  let req := requiredFields commonOpt in
  let opt := optionalFields commonOpt in
  [ EvPrintf (match positionalDesc with
              | None => "\nUsage: %s PARAMETERS [OPTIONS]\n\n"
              | Some _ => "\nUsage: %s PARAMETERS [OPTIONS] [ARGUMENTS]\n\n"
              end) [AStr argv0];
    EvPrintf "Where PARAMETERS are:\n%s%s%s%s%sWhere OPTIONS are:\n%s%s%s%s%s%s%s%s%s%s%s%s\n"
      [ usage_arg req (HOST_PARAM_MASK H) "HOST_PARAM_STRING";
        usage_arg req (USER_PARAM_MASK H) "USER_PARAM_STRING";
        usage_arg req (DEST_PARAM_MASK H) "DEST_PARAM_STRING";
        usage_arg req (PASS_PARAM_MASK H) "PASS_PARAM_STRING";
        usage_arg req (CACHE_PARAM_MASK H) "CACHE_PARAM_STRING";
        usage_arg opt (HOST_PARAM_MASK H) "HOST_PARAM_STRING";
        usage_arg opt (USER_PARAM_MASK H) "USER_PARAM_STRING";
        usage_arg opt (DEST_PARAM_MASK H) "DEST_PARAM_STRING";
        usage_arg opt (PASS_PARAM_MASK H) "PASS_PARAM_STRING";
        usage_arg opt (CACHE_PARAM_MASK H) "CACHE_PARAM_STRING";
        usage_arg opt (DURABLE_MASK H) "DURABLE_STRING";
        usage_arg opt (NUM_MSGS_MASK H) "NUM_MSGS_STRING";
        usage_arg opt (MSG_RATE_MASK H) "MSG_RATE_STRING";
        usage_arg opt (WINDOW_SIZE_MASK H) "WINDOW_SIZE_STRING";
        usage_arg opt (LOG_LEVEL_MASK H) "LOG_LEVEL_STRING";
        usage_arg opt (USE_GSS_MASK H) "USE_GSS_STRING";
        usage_arg opt (ZIP_LEVEL_MASK H) "ZIP_LEVEL_STRING";
        usage_arg opt (REPLAY_START_MASK H) "REPLAY_START_STRING" ] ]
  ++ match positionalDesc with
     | None => []
     | Some d => [EvPrintf "Where ARGUMENTS are:\n%s" [AStr d]]
     end.

(** The result: [rc], the options as left in [*commonOpt], and what was
    printed. *)
Definition common_parseCommandOptions (argv0 : string) (opts : list (ascii * string))
    (commonOpt : commonOptions) (positionalDesc : option string)
    : option (Z * commonOptions * list event) :=
  match parse_options opts commonOpt 1 with
  | Some (commonOpt', rc) =>
      let rc := if any_missing commonOpt' then 0 else rc in
      Some (rc, commonOpt',
            missing_printfs commonOpt'
            ++ (if rc =? 0 then usage_printfs argv0 commonOpt' positionalDesc else []))
  | None => None
  end.

End ParseCommandOptions.

(** *** Helpers that talk to the SDK *)

(** The C type [int], as compiled: two's complement, 32 bits. *)
Definition INT_MAX : Z := 2147483647.
Definition INT_MIN : Z := -2147483648.

(** [x++] on an [int]. *)
Definition int_incr (x : Z) : Z :=
  if x =? INT_MAX then INT_MIN else x + 1.

(** A double quote inside a format string. *)
Definition dq : string := String "034" EmptyString.

(** A message handed to a flow callback: what [solClient_msg_getMsgId]
    answers for it. *)
Record message : Type := {
  getMsgId_rc : solClient_returnCode_t;
  getMsgId_msgId : Z
}.

(** An [int *] into the variables [G] of a sample. *)
Record int_ptr (G : Type) : Type := {
  deref : G -> Z;
  assign : Z -> G -> G
}.
Arguments deref {G}.
Arguments assign {G}.

Section Helpers.
Context {G D : Type}.
Variable E : env D.
Variable H : headers.

(** [common_handleError]: the error goes to the SDK's logger at ERROR
    level. *)
Definition common_handleError {L} (rc : solClient_returnCode_t) (errorStr : string)
    : prog G L unit :=
  let* errorInfo := solClient_getLastErrorInfo E in
  solClient_log SOLCLIENT_LOG_ERROR
    ("%s - ReturnCode=\" +:+ dq +:+ "%s\" +:+ dq +:+ ", SubCode=\" +:+ dq +:+ "%s\" +:+ dq
       +:+ ", ResponseCode=%d, Info=\" +:+ dq +:+ "%s\" +:+ dq)
    [ AStr errorStr; AReturnCodeToString rc;
      ASubCodeToString (Sdk.subCode errorInfo);
      AInt (Sdk.responseCode errorInfo);
      AStr (Sdk.errorStr errorInfo) ];;
  emit EvResetLastErrorInfo.

(** [common_eventCallback] *)
Definition common_eventCallback {L} (sessionEvent : solClient_session_event_t)
    : prog G L unit :=
  match sessionEvent with
  | SOLCLIENT_SESSION_EVENT_UP_NOTICE
  | SOLCLIENT_SESSION_EVENT_ACKNOWLEDGEMENT
  | SOLCLIENT_SESSION_EVENT_TE_UNSUBSCRIBE_OK
  | SOLCLIENT_SESSION_EVENT_CAN_SEND
  | SOLCLIENT_SESSION_EVENT_RECONNECTING_NOTICE
  | SOLCLIENT_SESSION_EVENT_RECONNECTED_NOTICE
  | SOLCLIENT_SESSION_EVENT_PROVISION_OK
  | SOLCLIENT_SESSION_EVENT_SUBSCRIPTION_OK =>
      solClient_log SOLCLIENT_LOG_INFO "common_eventCallback() called - %s\n"
        [ASessionEventToString sessionEvent]
  | SOLCLIENT_SESSION_EVENT_DOWN_ERROR
  | SOLCLIENT_SESSION_EVENT_CONNECT_FAILED_ERROR
  | SOLCLIENT_SESSION_EVENT_REJECTED_MSG_ERROR
  | SOLCLIENT_SESSION_EVENT_SUBSCRIPTION_ERROR
  | SOLCLIENT_SESSION_EVENT_RX_MSG_TOO_BIG_ERROR
  | SOLCLIENT_SESSION_EVENT_TE_UNSUBSCRIBE_ERROR
  | SOLCLIENT_SESSION_EVENT_PROVISION_ERROR =>
      let* errorInfo_p := solClient_getLastErrorInfo E in
      printf "common_eventCallback() called - %s; subCode %s, responseCode %d, reason %s\n"
        [ ASessionEventToString sessionEvent;
          ASubCodeToString (Sdk.subCode errorInfo_p);
          AInt (Sdk.responseCode errorInfo_p);
          AStr (Sdk.errorStr errorInfo_p) ]
  | SOLCLIENT_SESSION_EVENT_other _ =>
      printf "common_eventCallback() called - %s.  Unrecognized or deprecated event.\n"
        [ASessionEventToString sessionEvent]
  end.

(** [common_flowEventCallback] *)
Definition common_flowEventCallback {L} (flowEvent : solClient_flow_event_t)
    : prog G L unit :=
  match flowEvent with
  | SOLCLIENT_FLOW_EVENT_UP_NOTICE
  | SOLCLIENT_FLOW_EVENT_SESSION_DOWN
  | SOLCLIENT_FLOW_EVENT_ACTIVE
  | SOLCLIENT_FLOW_EVENT_INACTIVE =>
      solClient_log SOLCLIENT_LOG_INFO "common_flowEventCallback() called - %s\n"
        [AFlowEventToString flowEvent]
  | SOLCLIENT_FLOW_EVENT_DOWN_ERROR
  | SOLCLIENT_FLOW_EVENT_BIND_FAILED_ERROR
  | SOLCLIENT_FLOW_EVENT_REJECTED_MSG_ERROR =>
      let* errorInfo_p := solClient_getLastErrorInfo E in
      printf "common_flowEventCallback() called - %s; subCode %s, responseCode %d, reason %s\n"
        [ AFlowEventToString flowEvent;
          ASubCodeToString (Sdk.subCode errorInfo_p);
          AInt (Sdk.responseCode errorInfo_p);
          AStr (Sdk.errorStr errorInfo_p) ]
  | SOLCLIENT_FLOW_EVENT_other _ =>
      printf "common_flowEventCallback() called - %s.  Unrecognized or deprecated event.\n"
        [AFlowEventToString flowEvent]
  end.

(** [common_flowMessageReceiveCallback]: with a user pointer it counts the
    message in the [int] it points to. *)
Definition common_flowMessageReceiveCallback {L} (msg_p : message)
    (user_p : option (int_ptr G)) : prog G L unit :=
  match user_p with
  | None =>
      if is_OK (getMsgId_rc msg_p)
      then printf "Received message on flow. (Message ID: %lld).\n" [AInt (getMsgId_msgId msg_p)]
      else printf "Received message on flow.\n" []
  | Some counter_p =>
      modify (fun g => assign counter_p (int_incr (deref counter_p g)) g)
  end.

(** The rest is called from [main]: the callbacks of the sample may run
    in between. *)
Variable callback : D -> prog G unit unit.

(** [common_printCCSMPversion]; the version strings are the SDK's. *)
Definition common_printCCSMPversion {L} : prog G L unit :=
  let* rc := call E callback solClient_version_get in
  if negb (is_OK rc)
  then printf "Unknown library version, solClient_version_get returns FAIL\n\n" []
  else printf "CCSMP Version %s (%s)\tVariant: %s\n\n"
         [AMacro "version_p->version_p"; AMacro "version_p->dateTime_p";
          AMacro "version_p->variant_p"].

(** The property array [common_createAndConnectSession] fills, without
    its closing NULL.  A [char] array of the options is passed by address:
    the SDK reads the C string in it. *)
Definition sessionProps (commonOpts : commonOptions) : list prop_word :=
  (if negb (is_nul (first_char (targetHost commonOpts)))
   then [Macro "SOLCLIENT_SESSION_PROP_HOST"; Str (cstr (targetHost commonOpts))]
   else [])
  ++ [ Macro "SOLCLIENT_SESSION_PROP_COMPRESSION_LEVEL";
       Str (if enableCompression commonOpts then "9" else "0");
       Macro "SOLCLIENT_SESSION_PROP_CONNECT_RETRIES"; Str "3";
       Macro "SOLCLIENT_SESSION_PROP_RECONNECT_RETRIES"; Str "3";
       Macro "SOLCLIENT_SESSION_PROP_REAPPLY_SUBSCRIPTIONS"; Macro "SOLCLIENT_PROP_ENABLE_VAL";
       Macro "SOLCLIENT_SESSION_PROP_GENERATE_SEND_TIMESTAMPS"; Macro "SOLCLIENT_PROP_ENABLE_VAL";
       Macro "SOLCLIENT_SESSION_PROP_GENERATE_SENDER_ID"; Macro "SOLCLIENT_PROP_ENABLE_VAL";
       Macro "SOLCLIENT_SESSION_PROP_GENERATE_SEQUENCE_NUMBER"; Macro "SOLCLIENT_PROP_ENABLE_VAL" ]
  ++ (if negb (is_nul (first_char (vpn commonOpts)))
      then [Macro "SOLCLIENT_SESSION_PROP_VPN_NAME"; Str (cstr (vpn commonOpts))]
      else [])
  ++ [ Macro "SOLCLIENT_SESSION_PROP_SSL_VALIDATE_CERTIFICATE"; Macro "SOLCLIENT_PROP_DISABLE_VAL";
       Macro "SOLCLIENT_SESSION_PROP_USERNAME"; Str (cstr (username commonOpts));
       Macro "SOLCLIENT_SESSION_PROP_PASSWORD"; Str (cstr (password commonOpts)) ]
  ++ (if useGSS commonOpts
      then [ Macro "SOLCLIENT_SESSION_PROP_AUTHENTICATION_SCHEME";
             Macro "SOLCLIENT_SESSION_PROP_AUTHENTICATION_SCHEME_GSS_KRB" ]
      else []).

(** [common_createAndConnectSession] *)
Definition common_createAndConnectSession {L} (commonOpts : commonOptions)
    : prog G L solClient_returnCode_t :=
  let* rc := call E callback (solClient_session_create (sessionProps commonOpts)) in
  if negb (is_OK rc) then
    common_handleError rc "solClient_session_create()";;
    ret rc
  else
    let* rc := call E callback solClient_session_connect in
    if negb (is_OK rc) then
      common_handleError rc "solClient_session_connect()";;
      ret rc
    else ret SOLCLIENT_OK.

(** The flags both provisioning helpers pass, or-ed in the source. *)
Definition provision_flags : list string :=
  [ "SOLCLIENT_PROVISION_FLAGS_WAITFORCONFIRM";
    "SOLCLIENT_PROVISION_FLAGS_IGNORE_EXIST_ERRORS" ].

(** The property array of [common_createQueue], without its closing NULL. *)
Definition createQueue_props (queueName_p : string) : list prop_word :=
  [ Macro "SOLCLIENT_ENDPOINT_PROP_ID"; Macro "SOLCLIENT_ENDPOINT_PROP_QUEUE";
    Macro "SOLCLIENT_ENDPOINT_PROP_NAME"; Str queueName_p;
    Macro "SOLCLIENT_ENDPOINT_PROP_PERMISSION"; Macro "SOLCLIENT_ENDPOINT_PERM_DELETE" ]
  ++ (if negb (String.eqb queueName_p (COMMON_DMQ_NAME H))
      then [ Macro "SOLCLIENT_ENDPOINT_PROP_RESPECTS_MSG_TTL";
             Macro "SOLCLIENT_PROP_ENABLE_VAL" ]
      else []).

(** [common_createQueue] *)
Definition common_createQueue {L} (queueName_p : string)
    : prog G L solClient_returnCode_t :=
  let* rc := call E callback
               (solClient_session_endpointProvision (createQueue_props queueName_p)
                  provision_flags) in
  if is_FAIL rc then
    common_handleError rc "solClient_session_endpointProvision()";;
    ret rc
  else ret SOLCLIENT_OK.

Definition deleteQueue_props (queueName_p : string) : list prop_word :=
  [ Macro "SOLCLIENT_ENDPOINT_PROP_ID"; Macro "SOLCLIENT_ENDPOINT_PROP_QUEUE";
    Macro "SOLCLIENT_ENDPOINT_PROP_NAME"; Str queueName_p ].

(** [common_deleteQueue] *)
Definition common_deleteQueue {L} (queueName_p : string)
    : prog G L solClient_returnCode_t :=
  let* rc := call E callback
               (solClient_session_endpointDeprovision (deleteQueue_props queueName_p)
                  provision_flags) in
  if is_FAIL rc then
    common_handleError rc "solClient_session_endpointDeprovision()";;
    ret rc
  else ret SOLCLIENT_OK.

End Helpers.

End Common.

(** How a run of a [main] with an unbounded loop ends within a number of
    loop iterations: with an exit status, in undefined behaviour, or not
    yet. *)
Inductive run_result (A : Type) : Type :=
| Finished (a : A)
| Undefined
| Running.
Arguments Finished {A}.
Arguments Undefined {A}.
Arguments Running {A}.

(** ** flowControlQueue.c *)

Module FlowControlQueue.
Import CStr Sdk Run Common.
Local Open Scope prog_scope.

(** The two globals of the file and the loop counter of [main]. *)
Record vars : Type := {
  flow_receiving : Z;
  unackedMsgId : Z;
  publishCount : Z
}.

Definition set_flow_receiving (v : Z) (g : vars) : vars :=
  {| flow_receiving := v; unackedMsgId := unackedMsgId g; publishCount := publishCount g |}.

Definition set_unackedMsgId (v : Z) (g : vars) : vars :=
  {| flow_receiving := flow_receiving g; unackedMsgId := v; publishCount := publishCount g |}.

Definition set_publishCount (v : Z) (g : vars) : vars :=
  {| flow_receiving := flow_receiving g; unackedMsgId := unackedMsgId g; publishCount := v |}.

(** [int flow_receiving = 1; solClient_msgId_t unackedMsgId = 0L;] *)
Definition initial_vars (publishCount0 : Z) : vars :=
  {| flow_receiving := 1; unackedMsgId := 0; publishCount := publishCount0 |}.

Inductive label : Type := cleanupFlow | sessionConnected | cleanup | notInitialized.

Section Sample.
Variable E : env message.
Variable H : headers.

(** [flowMsgCallbackFunc]; [goto tt] is its early [return]. *)
Definition flowMsgCallbackFunc (msg_p : message) : prog vars unit unit :=
  (if is_OK (getMsgId_rc msg_p)
   then printf "Received message on flow. (Message ID: %lld).\n" [AInt (getMsgId_msgId msg_p)]
   else printf "Received message on flow.\n" []);;
  let* rc := sdk E solClient_msg_dump in
  when (negb (is_OK rc))
    (common_handleError E rc "solClient_msg_dump()";;
     goto tt);;
  let rc := getMsgId_rc msg_p in
  let msgId := getMsgId_msgId msg_p in
  if is_OK rc then
    let* g := get in
    if negb (flow_receiving g =? 0) then
      printf "Acknowledging message: %lld.\n" [AInt msgId];;
      let* rc := sdk E (solClient_flow_sendAck msgId) in
      when (negb (is_OK rc))
        (common_handleError E rc "solClient_flow_sendAck()")
    else
      when (negb (unackedMsgId g =? 0))
        (printf "Received msgId %lld, when unacked msgId %lld already exists"
           [AInt msgId; AInt (unackedMsgId g)]);;
      modify (set_unackedMsgId msgId)
  else
    common_handleError E rc "solClient_msg_getMsgId()".

(** The property array of the Flow, without its closing NULL. *)
Definition flowProps (usingDurable : bool) (queueName : string) : list prop_word :=
  [ Macro "SOLCLIENT_FLOW_PROP_MAX_UNACKED_MESSAGES"; Str "1";
    Macro "SOLCLIENT_FLOW_PROP_BIND_BLOCKING"; Macro "SOLCLIENT_PROP_ENABLE_VAL";
    Macro "SOLCLIENT_FLOW_PROP_BIND_ENTITY_ID"; Macro "SOLCLIENT_FLOW_PROP_BIND_ENTITY_QUEUE";
    Macro "SOLCLIENT_FLOW_PROP_BIND_ENTITY_DURABLE";
    Macro (if usingDurable then "SOLCLIENT_PROP_ENABLE_VAL" else "SOLCLIENT_PROP_DISABLE_VAL");
    Macro "SOLCLIENT_FLOW_PROP_BIND_NAME"; Str queueName;
    Macro "SOLCLIENT_FLOW_PROP_ACKMODE"; Macro "SOLCLIENT_FLOW_PROP_ACKMODE_CLIENT" ].

Local Abbreviation call := (call E flowMsgCallbackFunc).
Local Abbreviation handleError := (common_handleError E).

(** The end of one iteration of the publish loop: count the message and,
    on every tenth, switch between acknowledging and withholding. *)
Definition count_and_toggle : prog vars label unit :=
  modify (fun g => set_publishCount (int_incr (publishCount g)) g);;
  let* g := get in
  when (Z.rem (publishCount g) 10 =? 0)
    (if negb (flow_receiving g =? 0) then
       modify (set_flow_receiving 0)
     else
       when (negb (unackedMsgId g =? 0))
         (let* rc := call (solClient_flow_sendAck (unackedMsgId g)) in
          when (negb (is_OK rc))
            (handleError rc "solClient_flow_sendAck()");;
          modify (set_unackedMsgId 0));;
       modify (set_flow_receiving 1)).

(** What the SDK writes for a temporary queue: the name
    [solClient_generateUUIDString] generates and the destination
    [solClient_flow_getDestination] reports. *)
Variable uuid : string.
Variable flowDestination : solClient_destinationType_t * string.

(** The first part of an iteration of [while ( !gotCtlC )]: the message
    is built, sent and freed. *)
Definition build_and_send (usingDurable : bool) (queueName : string) : prog vars label unit :=
  let* rc := call solClient_msg_alloc in
  when (negb (is_OK rc))
    (handleError rc "solClient_msg_alloc()";;
     goto cleanupFlow);;
  let* rc := call (solClient_msg_setDeliveryMode SOLCLIENT_DELIVERY_MODE_PERSISTENT) in
  when (negb (is_OK rc))
    (handleError rc "solClient_msg_setDeliveryMode()";;
     goto cleanupFlow);;
  let* rc := call solClient_msg_setBinaryAttachment in
  when (negb (is_OK rc))
    (handleError rc "solClient_msg_setBinaryAttachmentPtr()";;
     goto cleanupFlow);;
  let* destination :=
    (if usingDurable then ret (SOLCLIENT_QUEUE_DESTINATION, queueName)
     else
       let* rc := call (solClient_flow_getDestination flow_p) in
       when (negb (is_OK rc))
         (handleError rc "solClient_flow_getDestination()";;
          goto sessionConnected);;
       ret flowDestination) in
  let* rc := call (solClient_msg_setDestination (fst destination) (snd destination)) in
  when (negb (is_OK rc))
    (handleError rc "solClient_msg_setDestination()";;
     goto cleanupFlow);;
  let* rc := call solClient_session_sendMsg in
  when (negb (is_OK rc))
    (handleError rc "solClient_session_send";;
     goto cleanupFlow);;
  let* rc := call solClient_msg_free in
  when (negb (is_OK rc))
    (handleError rc "solClient_msg_free()";;
     goto cleanupFlow).

(** One iteration of [while ( !gotCtlC )], after the test. *)
Definition publish_once (usingDurable : bool) (queueName : string) : prog vars label unit :=
  build_and_send usingDurable queueName;;
  count_and_toggle;;
  sleepInUs E flowMsgCallbackFunc 500000.

(** [while ( !gotCtlC ) { ... }], at most [fuel] iterations of it: [true]
    when the loop was left through its test. *)
Fixpoint publish_loop (fuel : nat) (usingDurable : bool) (queueName : string)
    : prog vars label bool :=
  match fuel with
  | O => ret false
  | S fuel' =>
      let* stop := gotCtlC E flowMsgCallbackFunc in
      if stop then ret true
      else
        publish_once usingDurable queueName;;
        publish_loop fuel' usingDurable queueName
  end.

(** [main] from [solClient_initialize] to the creation of the Flow: the
    name of the queue the Flow is bound to. *)
Definition bind_flow (commandOpts : commonOptions) : prog vars label string :=
  let* rc := call solClient_initialize in
  when (negb (is_OK rc))
    (handleError rc "solClient_initialize()";;
     goto notInitialized);;
  common_printCCSMPversion E flowMsgCallbackFunc;;
  emit (EvSetFilterLevel (logLevel commandOpts));;
  solClient_log SOLCLIENT_LOG_INFO "Creating solClient context" [];;
  let* rc := call solClient_context_create in
  when (negb (is_OK rc))
    (handleError rc "solClient_context_create()";;
     goto cleanup);;
  solClient_log SOLCLIENT_LOG_INFO "Creating solClient sessions." [];;
  let* rc := common_createAndConnectSession E flowMsgCallbackFunc commandOpts in
  when (negb (is_OK rc))
    (handleError rc "common_createAndConnectSession()";;
     goto cleanup);;
  let* queueName :=
    (if usingDurable commandOpts then ret (COMMON_TESTQ H)
     else
       let* rc := call solClient_generateUUIDString in
       when (negb (is_OK rc))
         (solClient_log SOLCLIENT_LOG_INFO
            "solClient_generateUUIDString() did not return SOLCLIENT_OK after session create. rc = %d "
            [AReturnCode rc];;
          goto sessionConnected);;
       ret uuid) in
  let* rc := call (solClient_session_createFlow
                     (flowProps (usingDurable commandOpts) queueName) flow_p) in
  when (negb (is_OK rc))
    (solClient_log SOLCLIENT_LOG_INFO
       "solClient_session_createFlow() did not return SOLCLIENT_OK after session create. rc = %d "
       [AReturnCode rc];;
     goto sessionConnected);;
  ret queueName.

(** The publish section of [main], down to the cleanup labels. *)
Definition publishing (commandOpts : commonOptions) (queueName : string) (fuel : nat)
    : prog vars label bool :=
  printf "Publishing messages to queue %s, Ctrl-C to stop.....\n" [AStr queueName];;
  modify (set_publishCount 0);;
  let* left := publish_loop fuel (usingDurable commandOpts) queueName in
  (if left then
     let* c := gotCtlC E flowMsgCallbackFunc in
     when c (printf "Got Ctrl-C, cleaning up\n" [])
   else ret tt);;
  ret left.

(** [main] from [solClient_initialize] to the end of the publish loop. *)
Definition main_body (commandOpts : commonOptions) (fuel : nat) : prog vars label bool :=
  let* queueName := bind_flow commandOpts in
  publishing commandOpts queueName fuel.

(** The code at the four labels; each falls through to the next. *)
Definition at_cleanupFlow : prog vars Empty_set unit :=
  let* rc := call (solClient_flow_destroy flow_p) in
  when (negb (is_OK rc))
    (handleError rc "solClient_flow_destroy()").

Definition at_sessionConnected : prog vars Empty_set unit :=
  let* rc := call solClient_session_disconnect in
  when (negb (is_OK rc))
    (handleError rc "solClient_session_disconnect()").

Definition at_cleanup : prog vars Empty_set unit :=
  let* rc := call solClient_cleanup in
  when (negb (is_OK rc))
    (handleError rc "solClient_cleanup()").

Definition from_label (l : label) : prog vars Empty_set Z :=
  match l with
  | cleanupFlow => at_cleanupFlow;; at_sessionConnected;; at_cleanup;; ret 0
  | sessionConnected => at_sessionConnected;; at_cleanup;; ret 0
  | cleanup => at_cleanup;; ret 0
  | notInitialized => ret 0
  end.

(** The option masks [main] passes to [common_initCommandOptions]. *)
Definition required_params : Z := USER_PARAM_MASK H.

Definition optional_params : Z :=
  Z.lor (HOST_PARAM_MASK H)
    (Z.lor (PASS_PARAM_MASK H)
       (Z.lor (DURABLE_MASK H)
          (Z.lor (LOG_LEVEL_MASK H) (Z.lor (USE_GSS_MASK H) (ZIP_LEVEL_MASK H))))).

Variable atoi : string -> Z.
Variable strtol : string -> Z * string.

(** [main]: the exit status, the variables at the end and the trace.
    [opts] is what [getopt_long] returns for the command line, [stack]
    what the uninitialised [commandOpts] holds, [g] what the globals and
    [publishCount] hold when [main] starts, [fuel] a bound on the
    iterations of the publish loop. *)
Definition banner : event :=
  EvPrintf "\nflowControlQueue.c (Copyright 2007-2018 Solace Corporation. All rights reserved.)\n" [].

Definition main (argv0 : string) (opts : list (ascii * string))
    (stack : commonOptions) (fuel : nat) (g : vars) : run_result (Z * vars * list event) :=
  match common_parseCommandOptions H atoi strtol argv0 opts
          (common_initCommandOptions stack required_params optional_params H) None with
  | None => Undefined
  | Some (rc, commandOpts, printed) =>
      let es0 := banner :: printed in
      if rc =? 0 then Finished (1, g, es0)
      else
        match main_body commandOpts fuel (length es0) g with
        | (inr false, _, _) => Running
        | (r, g1, es1) =>
            let l := match r with inl l => l | inr _ => cleanupFlow end in
            match exec (from_label l) (length es0 + length es1)%nat g1 with
            | (status, g2, es2) => Finished (status, g2, es0 ++ es1 ++ es2)
            end
        end
  end.

End Sample.

End FlowControlQueue.

(** ** messageTTLAndDeadMessageQueue.c *)

Module MessageTTL.
Import CStr Sdk Run Common.
Local Open Scope prog_scope.

(** The locals of [main] that the callbacks or the cleanup code read: the
    two counters and whether each Flow handle is non-NULL.  A handle is
    taken to be non-NULL from the [solClient_session_createFlow] that
    returned SOLCLIENT_OK for it until its [solClient_flow_destroy]. *)
Record vars : Type := {
  v_flowRxMsgCounter : Z;
  v_dmqRxMsgCounter : Z;
  v_flow_p : bool;
  v_dmqFlow_p : bool
}.

Definition set_flowRxMsgCounter (v : Z) (g : vars) : vars :=
  {| v_flowRxMsgCounter := v; v_dmqRxMsgCounter := v_dmqRxMsgCounter g;
     v_flow_p := v_flow_p g; v_dmqFlow_p := v_dmqFlow_p g |}.

Definition set_dmqRxMsgCounter (v : Z) (g : vars) : vars :=
  {| v_flowRxMsgCounter := v_flowRxMsgCounter g; v_dmqRxMsgCounter := v;
     v_flow_p := v_flow_p g; v_dmqFlow_p := v_dmqFlow_p g |}.

Definition set_flow_p (v : bool) (g : vars) : vars :=
  {| v_flowRxMsgCounter := v_flowRxMsgCounter g; v_dmqRxMsgCounter := v_dmqRxMsgCounter g;
     v_flow_p := v; v_dmqFlow_p := v_dmqFlow_p g |}.

Definition set_dmqFlow_p (v : bool) (g : vars) : vars :=
  {| v_flowRxMsgCounter := v_flowRxMsgCounter g; v_dmqRxMsgCounter := v_dmqRxMsgCounter g;
     v_flow_p := v_flow_p g; v_dmqFlow_p := v |}.

(** [flow_p = NULL; dmqFlow_p = NULL;] over whatever the counters hold. *)
Definition initial_vars (flowRxMsgCounter0 dmqRxMsgCounter0 : Z) : vars :=
  {| v_flowRxMsgCounter := flowRxMsgCounter0; v_dmqRxMsgCounter := dmqRxMsgCounter0;
     v_flow_p := false; v_dmqFlow_p := false |}.

(** [&flowRxMsgCounter] and [&dmqRxMsgCounter], the user pointers of the
    two Flows. *)
Definition ptr_flowRxMsgCounter : int_ptr vars :=
  {| deref := v_flowRxMsgCounter; assign := set_flowRxMsgCounter |}.

Definition ptr_dmqRxMsgCounter : int_ptr vars :=
  {| deref := v_dmqRxMsgCounter; assign := set_dmqRxMsgCounter |}.

(** What the context thread delivers: a message on one of the two Flows,
    a Session event or a Flow event. *)
Inductive delivery : Type :=
| FlowMessage (f : flow_handle) (msg_p : message)
| SessionEvent (e : solClient_session_event_t)
| FlowEvent (e : solClient_flow_event_t).

Inductive label : Type := sessionConnected | cleanup | notInitialized.

Section Sample.
Variable E : env delivery.
Variable H : headers.

(** The callbacks registered by [main]. *)
Definition callbacks (d : delivery) : prog vars unit unit :=
  match d with
  | FlowMessage flow_p msg_p =>
      common_flowMessageReceiveCallback msg_p (Some ptr_flowRxMsgCounter)
  | FlowMessage dmqFlow_p msg_p =>
      common_flowMessageReceiveCallback msg_p (Some ptr_dmqRxMsgCounter)
  | SessionEvent e => common_eventCallback E e
  | FlowEvent e => common_flowEventCallback E e
  end.

Local Abbreviation call := (call E callbacks).
Local Abbreviation handleError := (common_handleError E).

(** [publishMessageWithTTL]; its label [freeMessage] ends the block. *)
Definition publishMessageWithTTL {L} (ttl : Z) (dmqe : bool) : prog vars L unit :=
  solClient_log SOLCLIENT_LOG_DEBUG "About to publish\n" [];;
  let* rc := call solClient_msg_alloc in
  if negb (is_OK rc) then
    handleError rc "solClient_msg_alloc()"
  else
    block
      (let* rc := call (solClient_msg_setDeliveryMode SOLCLIENT_DELIVERY_MODE_NONPERSISTENT) in
       when (negb (is_OK rc))
         (handleError rc "solClient_msg_setDeliveryMode()";;
          goto tt);;
       let* rc := call (solClient_msg_setDestination SOLCLIENT_TOPIC_DESTINATION
                          (COMMON_MY_SAMPLE_TOPIC H)) in
       when (negb (is_OK rc))
         (handleError rc "solClient_msg_setDestination()";;
          goto tt);;
       let* rc := call (solClient_msg_setTimeToLive ttl) in
       when (negb (is_OK rc))
         (handleError rc "solClient_msg_setTimeToLive()";;
          goto tt);;
       let* rc := call (solClient_msg_setDMQEligible dmqe) in
       when (negb (is_OK rc))
         (handleError rc "solClient_msg_setDMQEligible()";;
          goto tt);;
       let* rc := call solClient_session_sendMsg in
       when (negb (is_OK rc))
         (handleError rc "solClient_session_sendMsg()";;
          goto tt));;
    let* rc := call solClient_msg_free in
    when (negb (is_OK rc))
      (handleError rc "solClient_msg_free()").

(** The five messages of one round: three with TTL 0, one with TTL 3000
    that may not go to the DMQ, one with TTL 3000 that may. *)
Definition publish_five {L} (announce : bool) : prog vars L unit :=
  publishMessageWithTTL 0 false;;
  publishMessageWithTTL 0 false;;
  publishMessageWithTTL 0 false;;
  when announce (printf "Publshing message with TTL=3000 ms and DMQ Eligible=FALSE\n" []);;
  publishMessageWithTTL 3000 false;;
  when announce (printf "Publshing message with TTL=3000 ms and DMQ Eligible=TRUE\n" []);;
  publishMessageWithTTL 3000 true.

(** [while ( ( flowRxMsgCounter != expected ) && ( i < 8 ) ) { sleepInUs ( 250 ); i++; }]
    with [left = 8 - i]. *)
Fixpoint wait_flowRxMsgCounter {L} (expected : Z) (left : nat) : prog vars L unit :=
  let* n := load E callbacks flowRxMsgCounter v_flowRxMsgCounter in
  if n =? expected then ret tt
  else
    match left with
    | O => ret tt
    | S left' =>
        sleepInUs E callbacks 250;;
        wait_flowRxMsgCounter expected left'
    end.

Definition bind_props (queue : string) : list prop_word :=
  [ Macro "SOLCLIENT_FLOW_PROP_BIND_BLOCKING"; Macro "SOLCLIENT_PROP_ENABLE_VAL";
    Macro "SOLCLIENT_FLOW_PROP_BIND_ENTITY_ID"; Macro "SOLCLIENT_FLOW_PROP_BIND_ENTITY_QUEUE";
    Macro "SOLCLIENT_FLOW_PROP_BIND_NAME"; Str queue ].

(** The line that reports success. *)
Definition success_line : event :=
  EvPrintf
    "Three messages with no TTL received and one message received on Dead Message Queue as expected\n"
    [].

(** [main] from [solClient_initialize] to the subscription of the queue
    to the topic. *)
Definition provision (commandOpts : commonOptions) : prog vars label unit :=
  let* rc := call solClient_initialize in
  when (negb (is_OK rc))
    (handleError rc "solClient_initialize()";;
     goto notInitialized);;
  common_printCCSMPversion E callbacks;;
  emit (EvSetFilterLevel (logLevel commandOpts));;
  solClient_log SOLCLIENT_LOG_INFO "Creating solClient context" [];;
  let* rc := call solClient_context_create in
  when (negb (is_OK rc))
    (handleError rc "solClient_context_create()";;
     goto cleanup);;
  solClient_log SOLCLIENT_LOG_INFO "Creating solClient sessions." [];;
  let* rc := common_createAndConnectSession E callbacks commandOpts in
  when (negb (is_OK rc))
    (handleError rc "common_createAndConnectSession()";;
     goto cleanup);;
  let* capable := solClient_session_isCapable E callbacks in
  when (negb capable)
    (solClient_log SOLCLIENT_LOG_ERROR "Time to live is not supported by appliance." [];;
     goto sessionConnected);;
  solClient_log SOLCLIENT_LOG_INFO "Creating Queue %s on appliance." [AStr (COMMON_TESTQ H)];;
  let* rc := common_createQueue E H callbacks (COMMON_TESTQ H) in
  when (negb (is_OK rc))
    (handleError rc "common_createQueue()";;
     goto sessionConnected);;
  solClient_log SOLCLIENT_LOG_INFO "Creating Queue %s on appliance." [AStr (COMMON_DMQ_NAME H)];;
  let* rc := common_createQueue E H callbacks (COMMON_DMQ_NAME H) in
  when (negb (is_OK rc))
    (handleError rc "common_createQueue()";;
     goto sessionConnected);;
  solClient_log SOLCLIENT_LOG_INFO "Adding subscription %s to queue %s through Session."
    [AStr (COMMON_MY_SAMPLE_TOPIC H); AStr (COMMON_TESTQ H)];;
  let* rc := call (solClient_session_endpointTopicSubscribe
                     [ Macro "SOLCLIENT_ENDPOINT_PROP_ID"; Macro "SOLCLIENT_ENDPOINT_PROP_QUEUE";
                       Macro "SOLCLIENT_ENDPOINT_PROP_NAME"; Str (COMMON_TESTQ H) ]
                     ["SOLCLIENT_SUBSCRIBE_FLAGS_WAITFORCONFIRM"]
                     (COMMON_MY_SAMPLE_TOPIC H)) in
  when (negb (is_OK rc))
    (handleError rc "solClient_session_endpointTopicSubscribe()";;
     goto sessionConnected).

(** First round: five messages are published, the two Flows are bound,
    and all five are expected on the queue. *)
Definition first_round : prog vars label unit :=
  printf "Publishing three messages without TTL and DMQ\n" [];;
  publish_five true;;
  solClient_log SOLCLIENT_LOG_INFO "Bind to queue %s." [AStr (COMMON_TESTQ H)];;
  modify (set_flowRxMsgCounter 0);;
  let* rc := call (solClient_session_createFlow (bind_props (COMMON_TESTQ H)) flow_p) in
  when (is_OK rc) (modify (set_flow_p true));;
  when (negb (is_OK rc))
    (handleError rc "solClient_session_createFlow() did not return SOLCLIENT_OK";;
     goto sessionConnected);;
  solClient_log SOLCLIENT_LOG_INFO "Bind to queue %s." [AStr (COMMON_DMQ_NAME H)];;
  modify (set_dmqRxMsgCounter 0);;
  let* rc := call (solClient_session_createFlow (bind_props (COMMON_DMQ_NAME H)) dmqFlow_p) in
  when (is_OK rc) (modify (set_dmqFlow_p true));;
  when (negb (is_OK rc))
    (handleError rc "solClient_session_createFlow() did not return SOLCLIENT_OK";;
     goto sessionConnected);;
  wait_flowRxMsgCounter 5 8;;
  let* n := load E callbacks flowRxMsgCounter v_flowRxMsgCounter in
  when (negb (n =? 5))
    (solClient_log SOLCLIENT_LOG_ERROR "%d messages received on flow, 5 messages expected"
       [AInt n];;
     goto sessionConnected);;
  let* n := load E callbacks dmqRxMsgCounter v_dmqRxMsgCounter in
  when (negb (n =? 0))
    (solClient_log SOLCLIENT_LOG_ERROR "%d messages received on DMQ, no messages expected"
       [AInt n];;
     goto sessionConnected);;
  printf "All sent messages received\n" [].

(** Second round: the Flow to the queue is stopped, five messages are
    published again and left to expire, one is expected on the dead
    message queue, and after the restart three on the queue. *)
Definition second_round : prog vars label unit :=
  let* rc := call (solClient_flow_stop flow_p) in
  when (negb (is_OK rc))
    (handleError rc "solClient_flow_stop()";;
     goto sessionConnected);;
  modify (set_flowRxMsgCounter 0);;
  printf "Resend 5 messages\n" [];;
  publish_five false;;
  printf "Wait five seconds to allow messages to expire\n" [];;
  sleepInSec E callbacks 5;;
  let* n := load E callbacks dmqRxMsgCounter v_dmqRxMsgCounter in
  when (negb (n =? 1))
    (solClient_log SOLCLIENT_LOG_ERROR "%d messages received on DMQ, 1 messages expected"
       [AInt n];;
     goto sessionConnected);;
  let* rc := call (solClient_flow_start flow_p) in
  when (negb (is_OK rc))
    (handleError rc "solClient_flow_start()";;
     goto sessionConnected);;
  wait_flowRxMsgCounter 3 8;;
  let* n := load E callbacks flowRxMsgCounter v_flowRxMsgCounter in
  when (negb (n =? 3))
    (solClient_log SOLCLIENT_LOG_ERROR "%d messages received on flow, 3 messages expected"
       [AInt n];;
     goto sessionConnected);;
  emit success_line.

(** [main] from [solClient_initialize] to the label [sessionConnected]. *)
Definition main_body (commandOpts : commonOptions) : prog vars label unit :=
  provision commandOpts;;
  first_round;;
  second_round.

(** The code at the labels. *)
Definition at_sessionConnected : prog vars Empty_set unit :=
  let* g := get in
  when (v_flow_p g)
    (let* rc := call (solClient_flow_destroy flow_p) in
     modify (set_flow_p false);;
     when (negb (is_OK rc))
       (handleError rc "solClient_flow_destroy()"));;
  let* g := get in
  when (v_dmqFlow_p g)
    (let* rc := call (solClient_flow_destroy dmqFlow_p) in
     modify (set_dmqFlow_p false);;
     when (negb (is_OK rc))
       (handleError rc "solClient_flow_destroy()"));;
  let* rc := common_deleteQueue E callbacks (COMMON_TESTQ H) in
  when (negb (is_OK rc))
    (handleError rc "common_deleteQueue()");;
  let* rc := common_deleteQueue E callbacks (COMMON_DMQ_NAME H) in
  when (negb (is_OK rc))
    (handleError rc "common_deleteQueue()");;
  let* rc := call solClient_session_disconnect in
  when (negb (is_OK rc))
    (handleError rc "solClient_session_disconnect()").

Definition at_cleanup : prog vars Empty_set unit :=
  let* rc := call solClient_cleanup in
  when (negb (is_OK rc))
    (handleError rc "solClient_cleanup()").

Definition from_label (l : label) : prog vars Empty_set Z :=
  match l with
  | sessionConnected => at_sessionConnected;; at_cleanup;; ret 0
  | cleanup => at_cleanup;; ret 0
  | notInitialized => ret 0
  end.

(** [main] once the options are parsed. *)
Definition run_sample (commandOpts : commonOptions) : nat -> vars -> Z * vars * list event :=
  with_labels (main_body commandOpts) sessionConnected from_label.

Definition required_params : Z := USER_PARAM_MASK H.

Definition optional_params : Z :=
  Z.lor (HOST_PARAM_MASK H)
    (Z.lor (PASS_PARAM_MASK H)
       (Z.lor (LOG_LEVEL_MASK H) (Z.lor (USE_GSS_MASK H) (ZIP_LEVEL_MASK H)))).

Variable atoi : string -> Z.
Variable strtol : string -> Z * string.

Definition banner : event :=
  EvPrintf "\nmessageTTLAndDeadMessageQueue.c (Copyright 2010-2018 Solace Corporation. All rights reserved.)\n" [].

(** [main]: the exit status, the variables at the end and the trace. *)
Definition main (argv0 : string) (opts : list (ascii * string))
    (stack : commonOptions) (g : vars) : run_result (Z * vars * list event) :=
  match common_parseCommandOptions H atoi strtol argv0 opts
          (common_initCommandOptions stack required_params optional_params H) None with
  | None => Undefined
  | Some (rc, commandOpts, printed) =>
      let es0 := banner :: printed in
      if rc =? 0 then Finished (1, g, es0)
      else
        match run_sample commandOpts (length es0) g with
        | (status, g1, es1) => Finished (status, g1, es0 ++ es1)
        end
  end.

End Sample.

End MessageTTL.

(** ** adPubAck.c *)

Module AdPubAck.
Import CStr Sdk Run Common.
Local Open Scope prog_scope.

(** [messageCorrelationStruct_t] without the opaque message pointer.  A
    pointer is an address ([nat]); [None] is NULL. *)
Record messageCorrelationStruct_t : Type := {
  next_p : option nat;
  msgId : Z;
  isAcked : bool;
  isAccepted : bool
}.

Definition set_next_p (v : option nat) (e : messageCorrelationStruct_t) :=
  {| next_p := v; msgId := msgId e; isAcked := isAcked e; isAccepted := isAccepted e |}.

Definition set_flags (acked accepted : bool) (e : messageCorrelationStruct_t) :=
  {| next_p := next_p e; msgId := msgId e; isAcked := acked; isAccepted := accepted |}.

(** The heap of live entries, the two list pointers of [main], the address
    the next [malloc] returns, and whether a pointer that is not a live
    entry has been dereferenced (undefined behaviour in C). *)
Record vars : Type := {
  heap : gmap nat messageCorrelationStruct_t;
  msgMemoryListHead_p : option nat;
  msgMemoryListTail_p : option nat;
  brk : nat;
  undefined : bool
}.

Definition set_heap (v : gmap nat messageCorrelationStruct_t) (g : vars) : vars :=
  {| heap := v; msgMemoryListHead_p := msgMemoryListHead_p g;
     msgMemoryListTail_p := msgMemoryListTail_p g; brk := brk g; undefined := undefined g |}.

Definition set_head (v : option nat) (g : vars) : vars :=
  {| heap := heap g; msgMemoryListHead_p := v;
     msgMemoryListTail_p := msgMemoryListTail_p g; brk := brk g; undefined := undefined g |}.

Definition set_tail (v : option nat) (g : vars) : vars :=
  {| heap := heap g; msgMemoryListHead_p := msgMemoryListHead_p g;
     msgMemoryListTail_p := v; brk := brk g; undefined := undefined g |}.

Definition set_brk (v : nat) (g : vars) : vars :=
  {| heap := heap g; msgMemoryListHead_p := msgMemoryListHead_p g;
     msgMemoryListTail_p := msgMemoryListTail_p g; brk := v; undefined := undefined g |}.

Definition set_undefined (g : vars) : vars :=
  {| heap := heap g; msgMemoryListHead_p := msgMemoryListHead_p g;
     msgMemoryListTail_p := msgMemoryListTail_p g; brk := brk g; undefined := true |}.

(** [msgMemoryListHead_p = NULL; msgMemoryListTail_p = NULL;] and nothing
    allocated; address 0 is never handed out. *)
Definition initial_vars : vars :=
  {| heap := ∅; msgMemoryListHead_p := None; msgMemoryListTail_p := None;
     brk := 1%nat; undefined := false |}.

(** [p->field = ...]: the entry at [p] is rewritten; a [p] that is NULL or
    not a live entry is undefined behaviour. *)
Definition write_entry (p : option nat)
    (f : messageCorrelationStruct_t -> messageCorrelationStruct_t) (g : vars) : vars :=
  match p with
  | Some a =>
      match heap g !! a with
      | Some e => set_heap (<[a := f e]> (heap g)) g
      | None => set_undefined g
      end
  | None => set_undefined g
  end.

(** What the event callback receives: the event and [correlation_p]. *)
Definition eventInfo : Type := (solClient_session_event_t * option nat)%type.

(** [printf] of a BOOL with [%i]. *)
Definition AInt_of_BOOL (b : bool) : arg := AInt (Z.b2z b).

Definition freeing_fmt : string :=
  "Freeing memory for message %i, Result: Acked (%i), Accepted (%i)\n".

Inductive label : Type := sessionConnected | cleanup | notInitialized.

Section Sample.
Variable E : env eventInfo.
Variable H : headers.

(** [correlationInfo->msgId] for the [printf] of the callback. *)
Definition correlation_msgId (correlation_p : option nat) (g : vars) : option Z :=
  match correlation_p with
  | Some a => msgId <$> heap g !! a
  | None => None
  end.

(** [adPubAck_eventCallback] *)
Definition adPubAck_eventCallback (eventInfo_p : eventInfo) : prog vars unit unit :=
  let sessionEvent := fst eventInfo_p in
  let correlationInfo := snd eventInfo_p in
  match sessionEvent with
  | SOLCLIENT_SESSION_EVENT_ACKNOWLEDGEMENT =>
      solClient_log SOLCLIENT_LOG_INFO "adPubAck_eventCallback() called - %s\n"
        [ASessionEventToString sessionEvent];;
      let* g := get in
      match correlation_msgId correlationInfo g with
      | Some id =>
          printf "adPubAck_eventCallback() correlation info - ID: %i\n" [AInt id];;
          modify (write_entry correlationInfo (set_flags true true))
      | None => modify set_undefined
      end
  | SOLCLIENT_SESSION_EVENT_REJECTED_MSG_ERROR =>
      let* errorInfo_p := solClient_getLastErrorInfo E in
      printf "adPubAck_eventCallback() called - %s; subCode %s, responseCode %d, reason %s\n"
        [ ASessionEventToString sessionEvent;
          ASubCodeToString (Sdk.subCode errorInfo_p);
          AInt (Sdk.responseCode errorInfo_p);
          AStr (Sdk.errorStr errorInfo_p) ];;
      let* g := get in
      match correlation_msgId correlationInfo g with
      | Some id =>
          printf "adPubAck_eventCallback() correlation info - ID: %i\n" [AInt id];;
          modify (write_entry correlationInfo (set_flags true false))
      | None => modify set_undefined
      end
  | SOLCLIENT_SESSION_EVENT_UP_NOTICE
  | SOLCLIENT_SESSION_EVENT_TE_UNSUBSCRIBE_OK
  | SOLCLIENT_SESSION_EVENT_CAN_SEND
  | SOLCLIENT_SESSION_EVENT_RECONNECTING_NOTICE
  | SOLCLIENT_SESSION_EVENT_RECONNECTED_NOTICE
  | SOLCLIENT_SESSION_EVENT_PROVISION_OK
  | SOLCLIENT_SESSION_EVENT_SUBSCRIPTION_OK =>
      solClient_log SOLCLIENT_LOG_INFO "adPubAck_eventCallback() called - %s\n"
        [ASessionEventToString sessionEvent]
  | SOLCLIENT_SESSION_EVENT_DOWN_ERROR
  | SOLCLIENT_SESSION_EVENT_CONNECT_FAILED_ERROR
  | SOLCLIENT_SESSION_EVENT_SUBSCRIPTION_ERROR
  | SOLCLIENT_SESSION_EVENT_TE_UNSUBSCRIBE_ERROR
  | SOLCLIENT_SESSION_EVENT_PROVISION_ERROR =>
      let* errorInfo_p := solClient_getLastErrorInfo E in
      printf "adPubAck_eventCallback() called - %s; subCode %s, responseCode %d, reason %s\n"
        [ ASessionEventToString sessionEvent;
          ASubCodeToString (Sdk.subCode errorInfo_p);
          AInt (Sdk.responseCode errorInfo_p);
          AStr (Sdk.errorStr errorInfo_p) ]
  | SOLCLIENT_SESSION_EVENT_RX_MSG_TOO_BIG_ERROR
  | SOLCLIENT_SESSION_EVENT_other _ =>
      printf "adPubAck_eventCallback() called - %s.  Unrecognized or deprecated event.\n"
        [ASessionEventToString sessionEvent]
  end.

Local Abbreviation call := (call E adPubAck_eventCallback).
Local Abbreviation handleError := (common_handleError E).

(** The "MSG ACK correlation" block: allocate the entry for message
    [loop], fill it in and append it to the list.  The result is
    [msgMemoryItem_p].  [malloc] is taken to succeed, as the source does. *)
Definition new_correlation_entry {L} (loop : Z) : prog vars L nat :=
  let* g := get in
  let msgMemoryItem_p := brk g in
  emit (EvMalloc msgMemoryItem_p);;
  modify (fun g =>
            set_brk (S msgMemoryItem_p)
              (set_heap (<[msgMemoryItem_p :=
                             {| next_p := None; msgId := loop;
                                isAcked := false; isAccepted := false |}]> (heap g)) g));;
  let* g := get in
  when (bool_decide (msgMemoryListTail_p g ≠ None))
    (modify (write_entry (msgMemoryListTail_p g) (set_next_p (Some msgMemoryItem_p))));;
  let* g := get in
  when (bool_decide (msgMemoryListHead_p g = None))
    (modify (set_head (Some msgMemoryItem_p)));;
  modify (set_tail (Some msgMemoryItem_p));;
  ret msgMemoryItem_p.

(** The body shared by the two freeing loops: print the head, unlink it,
    free its message and the entry. *)
Definition free_head {L} (p : nat) (e : messageCorrelationStruct_t) : prog vars L unit :=
  printf freeing_fmt [AInt (msgId e); AInt_of_BOOL (isAcked e); AInt_of_BOOL (isAccepted e)];;
  modify (set_head (next_p e));;
  when (bool_decide (next_p e = None))
    (modify (set_tail None));;
  let* _ := call solClient_msg_free in
  modify (fun g => set_heap (delete p (heap g)) g);;
  emit (EvFree p).

(** [while ( ( msgMemoryListHead_p != NULL ) && msgMemoryListHead_p->isAcked )],
    at most [fuel] iterations. *)
Fixpoint free_while_acked {L} (fuel : nat) : prog vars L unit :=
  let* g := get in
  match msgMemoryListHead_p g with
  | None => ret tt
  | Some p =>
      match heap g !! p with
      | None => modify set_undefined
      | Some e =>
          if isAcked e then
            match fuel with
            | O => ret tt
            | S fuel' =>
                free_head p e;;
                free_while_acked fuel'
            end
          else ret tt
      end
  end.

(** [while ( msgMemoryListHead_p != NULL )], at most [fuel] iterations. *)
Fixpoint free_all {L} (fuel : nat) : prog vars L unit :=
  let* g := get in
  match msgMemoryListHead_p g with
  | None => ret tt
  | Some p =>
      match heap g !! p with
      | None => modify set_undefined
      | Some e =>
          match fuel with
          | O => ret tt
          | S fuel' =>
              free_head p e;;
              free_all fuel'
          end
      end
  end.

(** Each iteration of a freeing loop frees one live entry: the number of
    live entries bounds the iterations. *)
Definition process_acks {L} : prog vars L unit :=
  let* g := get in
  free_while_acked (size (heap g)).

Definition free_remaining {L} : prog vars L unit :=
  let* g := get in
  free_all (size (heap g)).

(** One iteration of the publish loop for message [loop]: [false] when it
    ends in [break]. *)
Definition publish_once (loop : Z) : prog vars label bool :=
  let* rc := call solClient_msg_alloc in
  when (negb (is_OK rc))
    (handleError rc "solClient_msg_alloc()";;
     goto sessionConnected);;
  let* rc := call (solClient_msg_setDeliveryMode SOLCLIENT_DELIVERY_MODE_PERSISTENT) in
  when (negb (is_OK rc))
    (handleError rc "solClient_msg_setDeliveryMode()";;
     goto sessionConnected);;
  let* rc := call solClient_msg_setBinaryAttachment in
  when (negb (is_OK rc))
    (handleError rc "solClient_msg_setBinaryAttachmentPtr()";;
     goto sessionConnected);;
  let* rc := call (solClient_msg_setDestination SOLCLIENT_TOPIC_DESTINATION
                     (COMMON_MY_SAMPLE_TOPIC H)) in
  when (negb (is_OK rc))
    (handleError rc "solClient_msg_setDestination()";;
     goto sessionConnected);;
  let* msgMemoryItem_p := new_correlation_entry loop in
  let* rc := call (solClient_msg_setCorrelationTagPtr msgMemoryItem_p) in
  when (negb (is_OK rc))
    (handleError rc "solClient_msg_setCorrelationTag()";;
     goto sessionConnected);;
  let* rc := call solClient_session_sendMsg in
  if negb (is_OK rc) then
    handleError rc "solClient_session_send";;
    ret false
  else
    sleepInSec E adPubAck_eventCallback 1;;
    process_acks;;
    ret true.

(** [for ( loop = 0; ( loop < numMsgsToSend ) && !gotCtlC; loop++ )] with
    [todo = numMsgsToSend - loop]. *)
Fixpoint publish_loop (todo : nat) (loop : Z) : prog vars label unit :=
  match todo with
  | O => ret tt
  | S todo' =>
      let* stop := gotCtlC E adPubAck_eventCallback in
      if stop then ret tt
      else
        let* continue := publish_once loop in
        if continue then publish_loop todo' (loop + 1) else ret tt
  end.

(** [main] from [solClient_initialize] to the label [sessionConnected]. *)
Definition main_body (commandOpts : commonOptions) : prog vars label unit :=
  let* rc := call solClient_initialize in
  when (negb (is_OK rc))
    (handleError rc "solClient_initialize()";;
     goto notInitialized);;
  common_printCCSMPversion E adPubAck_eventCallback;;
  emit (EvSetFilterLevel (logLevel commandOpts));;
  solClient_log SOLCLIENT_LOG_INFO "Creating solClient context" [];;
  let* rc := call solClient_context_create in
  when (negb (is_OK rc))
    (handleError rc "solClient_context_create()";;
     goto cleanup);;
  let* rc := common_createAndConnectSession E adPubAck_eventCallback commandOpts in
  when (negb (is_OK rc))
    (handleError rc "common_createAndConnectSession()";;
     goto cleanup);;
  publish_loop (Z.to_nat (numMsgsToSend commandOpts)) 0;;
  let* c := gotCtlC E adPubAck_eventCallback in
  if c then printf "Got Ctrl-C, cleaning up\n" []
  else sleepInSec E adPubAck_eventCallback 1.

(** The code at the labels. *)
Definition at_sessionConnected : prog vars Empty_set unit :=
  let* rc := call solClient_session_disconnect in
  when (negb (is_OK rc))
    (handleError rc "solClient_session_disconnect()").

Definition at_cleanup : prog vars Empty_set unit :=
  free_remaining;;
  let* rc := call solClient_cleanup in
  when (negb (is_OK rc))
    (handleError rc "solClient_cleanup()").

Definition from_label (l : label) : prog vars Empty_set Z :=
  match l with
  | sessionConnected => at_sessionConnected;; at_cleanup;; ret 0
  | cleanup => at_cleanup;; ret 0
  | notInitialized => ret 0
  end.

(** [main] once the options are parsed. *)
Definition run_sample (commandOpts : commonOptions) : nat -> vars -> Z * vars * list event :=
  with_labels (main_body commandOpts) sessionConnected from_label.

Definition required_params : Z := USER_PARAM_MASK H.

Definition optional_params : Z :=
  Z.lor (HOST_PARAM_MASK H)
    (Z.lor (PASS_PARAM_MASK H)
       (Z.lor (NUM_MSGS_MASK H)
          (Z.lor (LOG_LEVEL_MASK H) (Z.lor (USE_GSS_MASK H) (ZIP_LEVEL_MASK H))))).

Variable atoi : string -> Z.
Variable strtol : string -> Z * string.

Definition banner : event :=
  EvPrintf "\nadPubAck.c (Copyright 2010-2018 Solace Corporation. All rights reserved.)\n" [].

(** [main]: the exit status, the variables at the end and the trace. *)
Definition main (argv0 : string) (opts : list (ascii * string))
    (stack : commonOptions) : run_result (Z * vars * list event) :=
  match common_parseCommandOptions H atoi strtol argv0 opts
          (common_initCommandOptions stack required_params optional_params H) None with
  | None => Undefined
  | Some (rc, commandOpts, printed) =>
      let es0 := banner :: printed in
      if rc =? 0 then Finished (1, initial_vars, es0)
      else
        match run_sample commandOpts (length es0) initial_vars with
        | (status, g1, es1) => Finished (status, g1, es0 ++ es1)
        end
  end.

End Sample.

End AdPubAck.

(** ** messageReplay.c: the receive callback and the wait loop *)

Module MessageReplay.
Import CStr Sdk Run Common.
Local Open Scope prog_scope.

(** [static int volatile msgReceived_s = 0;] *)
Record vars : Type := {
  v_msgReceived_s : Z
}.

Definition initial_vars : vars := {| v_msgReceived_s := 0 |}.

(** A Direct message handed to the Session's receive callback; nothing in
    it is read by the sample itself. *)
Inductive direct_message : Type := DirectMessage.

Section Sample.
Variable E : env direct_message.

(** [messageReceiveCallback]; [goto tt] is its early [return].  The
    second and third error reports pass the [rc] of the [solClient_msg_dump]
    that succeeded. *)
Definition messageReceiveCallback (msg_p : direct_message) : prog vars unit unit :=
  modify (fun g => {| v_msgReceived_s := int_incr (v_msgReceived_s g) |});;
  let* g := get in
  printf "Received message number %d\n" [AInt (v_msgReceived_s g)];;
  let* rc := sdk E solClient_msg_dump in
  when (negb (is_OK rc))
    (common_handleError E rc "solClient_msg_dump()";;
     goto tt);;
  printf "\n" [];;
  let* rc' := sdk E solClient_msg_getSmfPtr in
  when (negb (is_OK rc'))
    (common_handleError E rc "Unable to extract SMF from received message";;
     goto tt);;
  let* rc' := sdk E solClient_session_sendSmf in
  when (negb (is_OK rc'))
    (common_handleError E rc "Unable to send SMF from received message";;
     goto tt).

(** [while ( msgReceived_s < 100 );], at most [fuel] evaluations of the
    test: [true] when the loop was left.  Every evaluation reads the
    volatile counter; the body is empty. *)
Fixpoint wait_for_100 {L} (fuel : nat) : prog vars L bool :=
  match fuel with
  | O => ret false
  | S fuel' =>
      let* n := load E messageReceiveCallback msgReceived_s v_msgReceived_s in
      if n <? 100 then wait_for_100 fuel' else ret true
  end.

End Sample.

End MessageReplay.

(** ** HelloWorldWebPub.c *)

Module HelloWorldWebPub.
Import CStr Sdk Run Common.
Local Open Scope prog_scope.

Section Sample.
Variable E : env unit.

(** [messageReceiveCallback] and [eventCallback] of the file do nothing. *)
Definition callbacks (d : unit) : prog unit unit unit := ret tt.

Local Abbreviation call := (call E callbacks).

Definition usage : string :=
  "Usage: HelloWorldWebPub <http://msg_backbone_ip[:port]> <vpn> <client-username> <topic> [web-transport-protocol]\n".

(** [argv[i]] *)
Definition argv_at (argv : list string) (i : nat) : string := nth i argv "".

Definition sessionProps (argv : list string) : list prop_word :=
  [ Macro "SOLCLIENT_SESSION_PROP_HOST"; Str (argv_at argv 1);
    Macro "SOLCLIENT_SESSION_PROP_VPN_NAME"; Str (argv_at argv 2);
    Macro "SOLCLIENT_SESSION_PROP_USERNAME"; Str (argv_at argv 3) ]
  ++ (if (5 <? length argv)%nat
      then [Macro "SOLCLIENT_SESSION_PROP_WEB_TRANSPORT_PROTOCOL_LIST"; Str (argv_at argv 5)]
      else []).

(** [if (rc != SOLCLIENT_OK) { printf (...); return -1; }]; a jump carries
    the value [main] returns. *)
Definition expect_OK (what : string) (rc : solClient_returnCode_t) : prog unit Z unit :=
  when (negb (is_OK rc))
    (printf (what +:+ ": returnCode  %d (expect %d)\n") [AReturnCode rc; AReturnCode SOLCLIENT_OK];;
     goto (-1)).

(** [main], up to its last [return]. *)
Definition main_body (argv : list string) : prog unit Z Z :=
  when (length argv <? 5)%nat
    (printf usage [];;
     goto (-1));;
  when (negb (String.prefix "http" (argv_at argv 1)) && negb (String.prefix "ws" (argv_at argv 1)))
    (printf "%s: support HTTP or WS transport protocols only\n" [AStr (argv_at argv 1)];;
     printf ("\t " +:+ usage) [];;
     goto (-1));;
  let* rc := call solClient_initialize in
  expect_OK "solClient_initialize" rc;;
  printf "HelloWorldWebPub initializing...\n" [];;
  let* rc := call solClient_context_create in
  expect_OK "solClient_context_create" rc;;
  let* rc := call (solClient_session_create (sessionProps argv)) in
  expect_OK "solClient_session_create" rc;;
  let* rc := call solClient_session_connect in
  expect_OK "solClient_session_connect" rc;;
  printf "Connected.\n" [];;
  let* rc := call solClient_msg_alloc in
  expect_OK "solClient_msg_alloc" rc;;
  let* rc := call (solClient_msg_setDeliveryMode SOLCLIENT_DELIVERY_MODE_DIRECT) in
  expect_OK "solClient_msg_setDeliveryMode" rc;;
  let* rc := call (solClient_msg_setDestination SOLCLIENT_TOPIC_DESTINATION (argv_at argv 4)) in
  expect_OK "solClient_msg_setDestination" rc;;
  let* rc := call solClient_msg_setBinaryAttachment in
  expect_OK "solClient_msg_setBinaryAttachment" rc;;
  printf "About to send message '%s' to topic '%s'...\n" [AStr "Hello world!"; AStr (argv_at argv 4)];;
  let* rc := call solClient_session_sendMsg in
  expect_OK "solClient_session_sendMsg" rc;;
  printf "Message sent. Exiting.\n" [];;
  let* rc := call solClient_msg_free in
  expect_OK "solClient_msg_free" rc;;
  let* _ := call solClient_cleanup in
  ret 0.

(** [main]: the value it returns and the trace. *)
Definition main (argv : list string) : Z * list event :=
  match main_body argv 0%nat tt with
  | (inl status, _, es) => (status, es)
  | (inr status, _, es) => (status, es)
  end.

End Sample.

End HelloWorldWebPub.

(** ** perfADSub.c: the argument checks of [main] *)

Module PerfADSub.
Import CStr Sdk Run Common.

(** [subscribeMode], set from the first argument that is not an option. *)
Inductive subscribeMode_t : Type := TE | QUEUE | SUBSCRIBER.

Section Sample.
Variable H : headers.
Variable atoi : string -> Z.
Variable strtol : string -> Z * string.

Definition positionalParms : string :=
  "\tmode         Subscribe Mode (te, queue, sub - default queue).\n".

Definition banner : event :=
  EvPrintf "\nperfADSub.c (Copyright 2007-2018 Solace Corporation. All rights reserved.)\n" [].

Definition required_params : Z := Z.lor (USER_PARAM_MASK H) (DEST_PARAM_MASK H).

Definition optional_params : Z :=
  Z.lor (HOST_PARAM_MASK H)
    (Z.lor (PASS_PARAM_MASK H)
       (Z.lor (DURABLE_MASK H)
          (Z.lor (NUM_MSGS_MASK H)
             (Z.lor (WINDOW_SIZE_MASK H)
                (Z.lor (LOG_LEVEL_MASK H) (Z.lor (USE_GSS_MASK H) (ZIP_LEVEL_MASK H))))))).

(** [main] down to the end of its argument checks: the status the
    process exits with there, or the options and the mode [main] goes on
    with; and what was printed.  [positional] is what [getopt_long]
    leaves from [argv[optind]] on. *)
Definition main_start (argv0 : string) (opts : list (ascii * string))
    (positional : list string) (stack : commonOptions)
    : run_result ((Z + commonOptions * subscribeMode_t) * list event) :=
  match common_parseCommandOptions H atoi strtol argv0 opts
          (common_initCommandOptions stack required_params optional_params H)
          (Some positionalParms) with
  | None => Undefined
  | Some (rc, commandOpts, printed) =>
      let es0 := banner :: printed in
      if rc =? 0 then Finished (inl 1, es0)
      else
        match positional with
        | mode :: _ =>
            if String.eqb "te" mode then Finished (inr (commandOpts, TE), es0)
            else if String.eqb "queue" mode then Finished (inr (commandOpts, QUEUE), es0)
            else if String.eqb "sub" mode then Finished (inr (commandOpts, SUBSCRIBER), es0)
            else
              Finished
                (inl 1,
                 es0 ++ [EvPrintf
                           "Invalid mode parameter '%s': must be one of 'te', 'queue', 'sub'\n"
                           [AStr mode]])
        | [] => Finished (inr (commandOpts, QUEUE), es0)
        end
  end.

End Sample.

End PerfADSub.

(** ** Notions the properties are stated with *)

Module Terms.
Import CStr Sdk Run Common.

(** A string without ['@'] and without NUL: one side of [user@namespace]. *)
Definition plain_char (c : ascii) : bool :=
  negb (Ascii.eqb c "@") && negb (is_nul c).

Fixpoint plain (s : string) : bool :=
  match s with
  | EmptyString => true
  | String c s' => plain_char c && plain s'
  end.

(** Sample values for what the missing headers define, and for what an
    uninitialised [struct commonOptions] may hold. *)
Definition sample_headers : headers :=
  {| HOST_PARAM_MASK := 1; USER_PARAM_MASK := 2; DEST_PARAM_MASK := 4;
     PASS_PARAM_MASK := 8; CACHE_PARAM_MASK := 16; DURABLE_MASK := 32;
     NUM_MSGS_MASK := 64; MSG_RATE_MASK := 128; WINDOW_SIZE_MASK := 256;
     LOG_LEVEL_MASK := 512; USE_GSS_MASK := 1024; ZIP_LEVEL_MASK := 2048;
     REPLAY_START_MASK := 4096;
     COMMON_TESTQ := "my_sample_queue";
     COMMON_DMQ_NAME := "#DEAD_MSG_QUEUE";
     COMMON_MY_SAMPLE_TOPIC := "my/sample/topic";
     log_level_value := fun l =>
       match l with
       | SOLCLIENT_LOG_EMERGENCY => 0 | SOLCLIENT_LOG_ALERT => 1
       | SOLCLIENT_LOG_CRITICAL => 2 | SOLCLIENT_LOG_ERROR => 3
       | SOLCLIENT_LOG_WARNING => 4 | SOLCLIENT_LOG_NOTICE => 5
       | SOLCLIENT_LOG_INFO => 6 | SOLCLIENT_LOG_DEBUG => 7
       end;
     SOLCLIENT_LOG_DEFAULT_FILTER := 5 |}.

Definition junk (n : nat) : buffer := replicate n "x"%char.

Definition sample_stack : commonOptions :=
  {| targetHost := junk 256; username := junk 16; password := junk 16; vpn := junk 16;
     cacheName := junk 16; replayStartLocation := junk 16;
     usingTopic := false; usingAD := true; destinationName := junk 16;
     numMsgsToSend := -7; msgRate := 0; gdWindow := 99; logLevel := 42;
     usingDurable := true; enableCompression := true; useGSS := true;
     requiredFields := -1; optionalFields := -1 |}.

(** A decimal [atoi] and a [strtol] that reads nothing, to run the parser
    on sample command lines. *)
Fixpoint digits (s : string) (acc : Z) : Z :=
  match s with
  | EmptyString => acc
  | String c s' =>
      let n := nat_of_ascii c in
      if ((48 <=? n) && (n <=? 57))%nat
      then digits s' (10 * acc + Z.of_nat (n - 48))
      else acc
  end.

Definition sample_atoi (s : string) : Z :=
  match s with
  | String "-" s' => - digits s' 0
  | _ => digits s 0
  end.

Definition sample_strtol (s : string) : Z * string := (0, s).

(** An option that makes [common_parseCommandOptions] return 0 whatever
    else is on the command line: a [--log] level that is neither a number
    up to SOLCLIENT_LOG_DEBUG nor one of the six level names, a [-n], [-r]
    or [-w] whose number is not positive, or anything [getopt_long] does
    not return as one of the thirteen known options. *)
Definition rejected_option (H : headers) (atoi : string -> Z)
    (strtol : string -> Z * string) (opt : ascii * string) : bool :=
  let c := fst opt in
  let optarg := snd opt in
  if Ascii.eqb c "a" then false
  else if Ascii.eqb c "c" then false
  else if Ascii.eqb c "d" then false
  else if Ascii.eqb c "g" then false
  else if Ascii.eqb c "z" then false
  else if Ascii.eqb c "R" then false
  else if Ascii.eqb c "l" then negb (snd (parse_log_level H strtol optarg))
  else if Ascii.eqb c "n" then atoi optarg <=? 0
  else if Ascii.eqb c "r" then atoi optarg <=? 0
  else if Ascii.eqb c "t" then false
  else if Ascii.eqb c "u" then false
  else if Ascii.eqb c "p" then false
  else if Ascii.eqb c "w" then atoi optarg <=? 0
  else true.

(** A usage error: a rejected option, or a required parameter that is
    still empty after the options were read into [commonOpt]. *)
Definition usage_error (H : headers) (atoi : string -> Z)
    (strtol : string -> Z * string) (opts : list (ascii * string))
    (commonOpt : commonOptions) : bool :=
  existsb (rejected_option H atoi strtol) opts || any_missing H commonOpt.

(** A mode argument that perfADSub does not know. *)
Definition unknown_mode (positional : list string) : bool :=
  match positional with
  | mode :: _ =>
      negb (String.eqb "te" mode || String.eqb "queue" mode || String.eqb "sub" mode)
  | [] => false
  end.

End Terms.

(** ** flowControlQueue.c: what the properties speak of *)

Module FlowTerms.
Import CStr Sdk Run Common Terms FlowControlQueue.

(** The number the Flow property MAX_UNACKED_MESSAGES is set to. *)
Definition max_unacked (props : list prop_word) : option Z :=
  match prop_value (Macro "SOLCLIENT_FLOW_PROP_MAX_UNACKED_MESSAGES") props with
  | Some (Str s) => Some (digits s 0)
  | _ => None
  end.

(** The line printed when a message arrives while one is withheld. *)
Definition diagnostic (msgId withheld : Z) : event :=
  EvPrintf "Received msgId %lld, when unacked msgId %lld already exists"
    [AInt msgId; AInt withheld].

Definition is_sendAck (e : event) : bool :=
  match e with
  | EvCall (solClient_flow_sendAck _) _ => true
  | _ => false
  end.

Definition is_stop_or_start (e : event) : bool :=
  match e with
  | EvCall (solClient_flow_stop _) _ | EvCall (solClient_flow_start _) _ => true
  | _ => false
  end.

(** What a delivery may change: the slot, and only while the flag is
    clear. *)
Definition delivered (g g' : vars) : Prop :=
  flow_receiving g' = flow_receiving g /\ publishCount g' = publishCount g /\
  (flow_receiving g <> 0 -> unackedMsgId g' = unackedMsgId g).

(** The flag after [n] publish iterations: set during the first ten,
    clear during the next ten, and so on. *)
Definition flag_after (n : Z) : Z := if Z.even (n / 10) then 1 else 0.

Definition in_step (g : vars) : Prop :=
  0 <= publishCount g /\ flow_receiving g = flag_after (publishCount g).

(** The Flow properties ask for client acknowledgement and a window of
    one message. *)
Definition client_ack_window_1 (props : list prop_word) : bool :=
  bool_decide (prop_value (Macro "SOLCLIENT_FLOW_PROP_ACKMODE") props
               = Some (Macro "SOLCLIENT_FLOW_PROP_ACKMODE_CLIENT"))
  && bool_decide (max_unacked props = Some 1).

Definition creates_flow_as_configured (e : event) : bool :=
  match e with
  | EvCall (solClient_session_createFlow props _) _ => client_ack_window_1 props
  | _ => true
  end.

(** What the sample may add to its trace: no [solClient_flow_stop] or
    [solClient_flow_start], and no Flow other than with client
    acknowledgement and a window of one. *)
Definition expected_event (e : event) : bool :=
  creates_flow_as_configured e && negb (is_stop_or_start e).

(** The environment lets [solClient_msg_dump] succeed. *)
Definition dump_succeeds (E : env message) : Prop :=
  forall n, sdk_rc E n solClient_msg_dump = SOLCLIENT_OK.

(** What changes the variables of the sample: the callback for a
    delivered message, the end of a publish iteration, and the reset of
    the counter before the loop; each under some environment at some
    time. *)
Inductive action : Type :=
| Deliver (E : env message) (msg_p : message) (t : nat)
| CountAndToggle (E : env message) (t : nat)
| ResetCount.

Definition act (g : vars) (a : action) : vars :=
  match a with
  | Deliver E msg_p t => vars_after (flowMsgCallbackFunc E msg_p t g)
  | CountAndToggle E t => vars_after (count_and_toggle E t g)
  | ResetCount => set_publishCount 0 g
  end.

Definition run_actions (acts : list action) (g : vars) : vars :=
  fold_left act acts g.

(** [g'] comes from [g] by some actions. *)
Definition leads_to (g g' : vars) : Prop :=
  exists acts, g' = run_actions acts g.

(** A delivery, seen as a change of the variables. *)
Definition delivery_step (g g' : vars) : Prop :=
  delivered g g' /\ leads_to g g'.

(** The states that come from the initial values of the two globals by
    deliveries and ends of iterations, each run undivided.  The two
    threads of the C program share the globals without a lock: a state
    they reach by a toggle of [main] in the middle of a callback is not
    among these. *)
Definition reachable (g : vars) : Prop :=
  exists publishCount0, leads_to (initial_vars publishCount0) g.

(** A message that was published: a [solClient_session_sendMsg] that
    returned SOLCLIENT_OK. *)
Definition is_sent (e : event) : bool :=
  match e with
  | EvCall solClient_session_sendMsg SOLCLIENT_OK => true
  | _ => false
  end.

Definition sent_message (e : event) : option unit :=
  if is_sent e then Some tt else None.

(** The number of messages a trace shows as published. *)
Definition sent (es : list event) : Z := Z.of_nat (length (omap sent_message es)).

End FlowTerms.

(** ** Observations on runs *)

Module Obs.
Import Sdk Run.

(** Whenever and on whatever variables it runs, the code only adds events
    that satisfy [P] and takes the variables to values related by [R]. *)
Definition confined {G L A} (P : event -> bool) (R : G -> G -> Prop)
    (p : prog G L A) : Prop :=
  forall t g, forallb P (events (p t g)) = true /\ R g (vars_after (p t g)).

(** Whenever and on whatever variables it runs, the code relates the
    variables before, the events it adds and the variables after by [Q]. *)
Definition obeys {G L A} (Q : G -> list event -> G -> Prop) (p : prog G L A) : Prop :=
  forall t g, Q g (events (p t g)) (vars_after (p t g)).

(** Whenever and on whatever variables it runs, the code ends normally
    with a value that satisfies [V], and the events it adds, seen through
    [sel], are [l]. *)
Definition settles {G L A X} (sel : event -> option X) (l : list X) (V : A -> Prop)
    (p : prog G L A) : Prop :=
  forall t g, exists a,
    outcome (p t g) = inr a /\ V a /\ omap sel (events (p t g)) = l.

(** The code jumps to labels of [S] only. *)
Definition jumps_within {G L A} (S : L -> bool) (p : prog G L A) : Prop :=
  forall t g l, outcome (p t g) = inl l -> S l = true.

(** The variables and the events once the context thread has caught up
    at time [t]; the label type of the waiting code plays no part. *)
Definition synced_vars {G D} (E : env D) (callback : D -> prog G unit unit)
    (t : nat) (g : G) : G :=
  vars_after (sync E callback t g : (unit + unit) * G * list event).

Definition synced_events {G D} (E : env D) (callback : D -> prog G unit unit)
    (t : nat) (g : G) : list event :=
  events (sync E callback t g : (unit + unit) * G * list event).

(** An environment in which every SDK call succeeds, the appliance has
    every capability, nothing is delivered and Ctrl-C is never hit. *)
Definition calm (D : Type) : env D :=
  {| sdk_rc := fun _ _ => SOLCLIENT_OK;
     sdk_errorInfo := fun _ => {| subCode := 0; responseCode := 0; errorStr := "" |};
     sdk_capable := fun _ => true;
     sdk_pending := fun _ => [];
     sig_gotCtlC := fun _ => false |}.

(** An environment in which every SDK call fails. *)
Definition failing (D : Type) : env D :=
  {| sdk_rc := fun _ _ => SOLCLIENT_FAIL;
     sdk_errorInfo := fun _ => {| subCode := 1; responseCode := 400; errorStr := "failed" |};
     sdk_capable := fun _ => false;
     sdk_pending := fun _ => [];
     sig_gotCtlC := fun _ => false |}.

End Obs.

(** ** messageReplay.c: what the properties speak of *)

Module ReplayTerms.
Import CStr Sdk Run Common MessageReplay.

Definition is_sleep (e : event) : bool :=
  match e with
  | EvSleepUs _ | EvSleepSec _ => true
  | _ => false
  end.

(** The line the receive callback prints for each message, and the
    number of messages a trace shows as received. *)
Definition is_received_line (e : event) : bool :=
  match e with
  | EvPrintf fmt _ => String.eqb fmt "Received message number %d\n"
  | _ => false
  end.

Definition received (es : list event) : Z :=
  Z.of_nat (length (List.filter is_received_line es)).

(** The counter moves up by the number of messages received, short of
    the overflow of [int]. *)
Definition counts_messages (g : vars) (es : list event) (g' : vars) : Prop :=
  v_msgReceived_s g + received es <= INT_MAX ->
  v_msgReceived_s g' = v_msgReceived_s g + received es.

(** Nothing is delivered, ever. *)
Definition silent {D} (E : env D) : Prop :=
  forall n, sdk_pending E n = [].

(** An SDK whose calls succeed and that has [k] messages for the callback
    at the first synchronisation point and none afterwards. *)
Definition delivers_at_start (k : nat) : env direct_message :=
  {| sdk_rc := fun _ _ => SOLCLIENT_OK;
     sdk_errorInfo := fun _ => {| subCode := 0; responseCode := 0; errorStr := "" |};
     sdk_capable := fun _ => true;
     sdk_pending := fun n => match n with O => repeat DirectMessage k | S _ => [] end;
     sig_gotCtlC := fun _ => false |}.

End ReplayTerms.

(** ** adPubAck.c: what the properties speak of *)

Module AckTerms.
Import CStr Sdk Run Common Terms AdPubAck Obs.

(** A correlation entry as the publish loop creates it for message
    [loop]. *)
Definition fresh_entry (loop : Z) : messageCorrelationStruct_t :=
  {| next_p := None; msgId := loop; isAcked := false; isAccepted := false |}.

(** The line printed before an entry is freed, for entry [e]. *)
Definition freeing_line (e : messageCorrelationStruct_t) : event :=
  EvPrintf freeing_fmt [AInt (msgId e); AInt_of_BOOL (isAcked e); AInt_of_BOOL (isAccepted e)].

Definition is_freeing_line (e : event) : bool :=
  match e with
  | EvPrintf fmt _ => String.eqb fmt freeing_fmt
  | _ => false
  end.

(** No line of the trace reports the freeing of an entry that is not
    acknowledged. *)
Definition reports_acked (e : event) : bool :=
  match e with
  | EvPrintf fmt args =>
      if String.eqb fmt freeing_fmt then
        match args with
        | [_; AInt 1; _] => true
        | _ => false
        end
      else true
  | _ => true
  end.

Definition is_free (e : event) : bool :=
  match e with EvFree _ => true | _ => false end.

(** The callbacks leave the set of live entries as it is, and nothing
    becomes defined again. *)
Definition same_entries (g g' : vars) : Prop :=
  dom (heap g') = dom (heap g).

(** One message to send, and an SDK that answers every call with success
    and hands [what] to the event callback during the pause that follows
    the first send (the sixteenth event of the run). *)
Definition one_message : commonOptions :=
  set_numMsgsToSend 1 (common_initCommandOptions sample_stack 2 0 sample_headers).

Definition answering (what : list eventInfo) : env eventInfo :=
  {| sdk_rc := fun _ _ => SOLCLIENT_OK;
     sdk_errorInfo := fun _ => {| subCode := 0; responseCode := 0; errorStr := "" |};
     sdk_capable := fun _ => true;
     sdk_pending := fun n => if Nat.eqb n 15 then what else [];
     sig_gotCtlC := fun _ => false |}.

Definition unanswered_run : Z * vars * list event :=
  run_sample (answering []) sample_headers one_message 0 initial_vars.

Definition acknowledged_run : Z * vars * list event :=
  run_sample (answering [(SOLCLIENT_SESSION_EVENT_ACKNOWLEDGEMENT, Some 1%nat)])
    sample_headers one_message 0 initial_vars.

Definition rejected_run : Z * vars * list event :=
  run_sample (answering [(SOLCLIENT_SESSION_EVENT_REJECTED_MSG_ERROR, Some 1%nat)])
    sample_headers one_message 0 initial_vars.

(** The steps of a publish iteration that concern the correlation entry
    of its message: the entry is allocated, it is set as the correlation
    tag of the message, the message is sent. *)
Inductive publish_step : Type :=
| Created (p : nat)
| Tagged (p : nat) (rc : solClient_returnCode_t)
| Sent (rc : solClient_returnCode_t).

Definition publish_step_of (e : event) : option publish_step :=
  match e with
  | EvMalloc p => Some (Created p)
  | EvCall (solClient_msg_setCorrelationTagPtr p) rc => Some (Tagged p rc)
  | EvCall solClient_session_sendMsg rc => Some (Sent rc)
  | _ => None
  end.

End AckTerms.

(** ** adPubAck.c: the list of correlation entries *)

Module ListTerms.
Import CStr Sdk Run Common AdPubAck.

(** The [next_p] of every live entry. *)
Definition nexts (g : vars) : gmap nat (option nat) := next_p <$> heap g.

(** The entries at [ps] are linked in this order, the last to NULL. *)
Fixpoint linked (n : gmap nat (option nat)) (ps : list nat) : Prop :=
  match ps with
  | [] => True
  | p :: ps' => n !! p = Some (head ps') /\ linked n ps'
  end.

(** The variables hold the list [ps]: the live entries are those at [ps],
    each once, linked in this order from [msgMemoryListHead_p] to
    [msgMemoryListTail_p], and all of them were allocated before. *)
Definition holds (g : vars) (ps : list nat) : Prop :=
  NoDup ps
  /\ dom (nexts g) = list_to_set (C := gset nat) ps
  /\ linked (nexts g) ps
  /\ msgMemoryListHead_p g = head ps
  /\ msgMemoryListTail_p g = last ps
  /\ Forall (fun p => (p < brk g)%nat) ps.

Definition well_formed (g : vars) : Prop := exists ps, holds g ps.

(** Nothing is allocated and the list is empty. *)
Definition all_freed (g : vars) : Prop :=
  heap g = ∅ /\ msgMemoryListHead_p g = None /\ msgMemoryListTail_p g = None.

(** What a callback may change: the flags of live entries, and whether
    the behaviour is still defined. *)
Definition flags_only (g g' : vars) : Prop :=
  msgMemoryListHead_p g' = msgMemoryListHead_p g
  /\ msgMemoryListTail_p g' = msgMemoryListTail_p g
  /\ brk g' = brk g
  /\ nexts g' = nexts g.

(** A property of the variables that the code keeps. *)
Definition keeps {L A} (P : vars -> Prop) (p : prog vars L A) : Prop :=
  Obs.confined (fun _ => true) (fun g g' => P g -> P g') p.

(** The labels [main] jumps to once [solClient_initialize] has
    succeeded. *)
Definition initialized (l : label) : bool :=
  match l with
  | notInitialized => false
  | _ => true
  end.

End ListTerms.

(** ** messageTTLAndDeadMessageQueue.c: what the properties speak of *)

Module TtlTerms.
Import CStr Sdk Run Common Terms MessageTTL Obs.

Definition is_success_line (e : event) : bool :=
  match e with
  | EvPrintf fmt [] =>
      String.eqb fmt
        "Three messages with no TTL received and one message received on Dead Message Queue as expected\n"
  | _ => false
  end.

Definition is_dmq_load (e : event) : bool :=
  match e with
  | EvLoad dmqRxMsgCounter _ => true
  | _ => false
  end.

(** Neither the success line nor a read of the DMQ counter. *)
Definition plain_event (e : event) : bool :=
  negb (is_success_line e) && negb (is_dmq_load e).

(** The time to live and the DMQ eligibility set on messages, in the
    order of the calls. *)
Definition ttl_setting (e : event) : option (Z + bool) :=
  match e with
  | EvCall (solClient_msg_setTimeToLive ttl) _ => Some (inl ttl)
  | EvCall (solClient_msg_setDMQEligible dmqe) _ => Some (inr dmqe)
  | _ => None
  end.

Definition ttl_settings (es : list event) : list (Z + bool) := omap ttl_setting es.

(** The settings of the five messages of a round. *)
Definition five_settings : list (Z + bool) :=
  [ inl 0; inr false; inl 0; inr false; inl 0; inr false;
    inl 3000; inr false; inl 3000; inr true ].

(** The SDK accepts every call. *)
Definition obliging {D} (E : env D) : Prop :=
  forall n c, sdk_rc E n c = SOLCLIENT_OK.

(** A guaranteed message, and an appliance that behaves as the sample
    expects: every call succeeds; the five messages of the first round
    arrive on the queue Flow during the first pause of the wait (event
    64 of the run); of the second round, one message arrives on the DMQ
    Flow during the five seconds (event 113) and three on the queue Flow
    after the restart (event 116). *)
Definition some_message : message := {| getMsgId_rc := SOLCLIENT_OK; getMsgId_msgId := 1 |}.

Definition as_expected : env delivery :=
  {| sdk_rc := fun _ _ => SOLCLIENT_OK;
     sdk_errorInfo := fun _ => {| subCode := 0; responseCode := 0; errorStr := "" |};
     sdk_capable := fun _ => true;
     sdk_pending := fun n =>
       if Nat.eqb n 64 then repeat (FlowMessage flow_p some_message) 5
       else if Nat.eqb n 113 then [FlowMessage dmqFlow_p some_message]
       else if Nat.eqb n 116 then repeat (FlowMessage flow_p some_message) 3
       else [];
     sig_gotCtlC := fun _ => false |}.

(** The same, but the message that may not go to the DMQ arrives there
    too. *)
Definition two_on_dmq : env delivery :=
  {| sdk_rc := fun _ _ => SOLCLIENT_OK;
     sdk_errorInfo := fun _ => {| subCode := 0; responseCode := 0; errorStr := "" |};
     sdk_capable := fun _ => true;
     sdk_pending := fun n =>
       if Nat.eqb n 64 then repeat (FlowMessage flow_p some_message) 5
       else if Nat.eqb n 113 then repeat (FlowMessage dmqFlow_p some_message) 2
       else if Nat.eqb n 116 then repeat (FlowMessage flow_p some_message) 3
       else [];
     sig_gotCtlC := fun _ => false |}.

Definition user_only : commonOptions :=
  common_initCommandOptions sample_stack 2 0 sample_headers.

Definition expected_run : Z * vars * list event :=
  run_sample as_expected sample_headers user_only 0 (initial_vars 7 7).

Definition two_on_dmq_run : Z * vars * list event :=
  run_sample two_on_dmq sample_headers user_only 0 (initial_vars 7 7).

End TtlTerms.

(** ** Sample runs of flowControlQueue.c *)

Module FlowSamples.
Import CStr Sdk Run Common Terms FlowControlQueue FlowTerms Obs.

Definition message_5 : message := {| getMsgId_rc := SOLCLIENT_OK; getMsgId_msgId := 5 |}.
Definition message_7 : message := {| getMsgId_rc := SOLCLIENT_OK; getMsgId_msgId := 7 |}.

(** The tenth iteration ends and message 5 arrives: the sample is paused
    and withholds message 5.  ([publishCount] is a local of [main] that
    is not initialised where it is declared; here it starts at 9.) *)
Definition paused_with_5 : vars :=
  run_actions [CountAndToggle (calm message) 0%nat; Deliver (calm message) message_5 0%nat]
    (initial_vars 9).

(** Options with a user name only, and a run in which nothing fails,
    nothing is delivered and the loop is left after one iteration. *)
Definition user_only : commonOptions :=
  common_initCommandOptions sample_stack 2 0 sample_headers.

Definition calm_run : (label + bool) * vars * list event :=
  main_body (calm message) sample_headers "uuid" (SOLCLIENT_QUEUE_TEMP_DESTINATION, "tmp")
    user_only 1%nat 0%nat (initial_vars 0).

(** A state the sample is in when the callback is overtaken by [main]:
    message 5 arrives while the flag is clear and the slot empty, the
    callback has tested the flag and the slot, [main] ends its twentieth
    iteration (nothing to acknowledge, the flag is set), and the callback
    then stores 5. *)
Definition overtaken_with_5 : vars :=
  {| flow_receiving := 1; unackedMsgId := 5; publishCount := 20 |}.

End FlowSamples.

(** ** common_parseCommandOptions: what the properties speak of *)

Module OptionTerms.
Import CStr Sdk Run Common Terms.

(** A C string: no NUL inside. *)
Fixpoint no_nul (s : string) : bool :=
  match s with
  | EmptyString => true
  | String c s' => negb (is_nul c) && no_nul s'
  end.

(** The array the argument of an option is copied to with [strncpy]. *)
Definition copied_to (c : ascii) : option (commonOptions -> buffer) :=
  if Ascii.eqb c "a" then Some cacheName
  else if Ascii.eqb c "c" then Some targetHost
  else if Ascii.eqb c "R" then Some replayStartLocation
  else if Ascii.eqb c "t" then Some destinationName
  else if Ascii.eqb c "p" then Some password
  else None.

(** An array without any NUL: reading it as a C string runs past its
    end. *)
Definition unterminated (b : buffer) : bool :=
  forallb (fun c => negb (is_nul c)) b.

(** The line that reports a missing user name. *)
Definition missing_cu : event :=
  EvPrintf "Missing required parameter '--cu'\n" [].

(** Options with arrays of 8 characters, to run the parser on. *)
Definition small_options : commonOptions :=
  {| targetHost := junk 8; username := junk 8; password := junk 8; vpn := junk 8;
     cacheName := junk 8; replayStartLocation := junk 8;
     usingTopic := true; usingAD := false; destinationName := junk 8;
     numMsgsToSend := 1; msgRate := 1; gdWindow := 0; logLevel := 0;
     usingDurable := false; enableCompression := false; useGSS := false;
     requiredFields := 2; optionalFields := 0 |}.

End OptionTerms.

(** ** common.c: common_publishMessage *)

Module CommonPublish.
Import CStr Sdk Run Common.
Local Open Scope prog_scope.

(** A function whose label is reached with the value it returns: a jump
    carries that value. *)
Definition catch {G L A} (body : prog G A A) : prog G L A :=
  fun t g =>
    match body t g with
    | (inl a, g1, es1) => (inr a, g1, es1)
    | (inr a, g1, es1) => (inr a, g1, es1)
    end.

Section Helpers.
Context {G D : Type}.
Variable E : env D.
Variable callback : D -> prog G unit unit.

(** [common_publishMessage]; a jump to its label [freeMessage] carries
    [rc]. *)
Definition common_publishMessage {L} (topic_p : string)
    (deliveryMode : solClient_deliveryMode_t) : prog G L solClient_returnCode_t :=
  solClient_log SOLCLIENT_LOG_DEBUG "common_publishMessage() called.\n" [];;
  let* rc := call E callback solClient_msg_alloc in
  if negb (is_OK rc) then
    common_handleError E rc "solClient_msg_alloc()";;
    ret rc
  else
    let* rc :=
      catch
        (let* rc := call E callback (solClient_msg_setDeliveryMode deliveryMode) in
         when (negb (is_OK rc))
           (common_handleError E rc "solClient_msg_setDeliveryMode()";;
            goto rc);;
         let* rc := call E callback
                      (solClient_msg_setDestination SOLCLIENT_TOPIC_DESTINATION topic_p) in
         when (negb (is_OK rc))
           (common_handleError E rc "solClient_msg_setDestination()";;
            goto rc);;
         let* rc := call E callback solClient_session_sendMsg in
         when (negb (is_OK rc))
           (common_handleError E rc "solClient_session_sendMsg()";;
            goto rc);;
         ret rc) in
    let* rcFreeMsg := call E callback solClient_msg_free in
    when (negb (is_OK rcFreeMsg))
      (common_handleError E rcFreeMsg "solClient_msg_free()");;
    ret rc.

End Helpers.

End CommonPublish.

(** ** What a piece of code shows of itself *)

Module Behaviour.
Import Sdk Run Obs.

(** An SDK call with the code it returned. *)
Definition answer : Type := (api_call * solClient_returnCode_t)%type.

Definition answer_of (e : event) : option answer :=
  match e with
  | EvCall c rc => Some (c, rc)
  | _ => None
  end.

(** The SDK calls of a trace with what they returned, in order. *)
Definition answers (es : list event) : list answer := omap answer_of es.

(** An event the selector [sel] does not keep. *)
Definition unseen {X} (sel : event -> option X) (e : event) : bool :=
  match sel e with
  | None => true
  | Some _ => false
  end.

(** Callbacks that add nothing [sel] keeps. *)
Definition quiet {G D X} (sel : event -> option X) (callback : D -> prog G unit unit) : Prop :=
  forall d, confined (unseen sel) (fun _ _ => True) (callback d).

(** Whenever and on whatever variables it runs, the way the code ends and
    what it adds to the trace, seen through [sel], satisfy [Q]. *)
Definition shows {G L A X} (sel : event -> option X) (Q : L + A -> list X -> Prop)
    (p : prog G L A) : Prop :=
  forall t g, Q (outcome (p t g)) (omap sel (events (p t g))).

(** The code ends normally with a value that satisfies [V], having added
    [l0]. *)
Definition ends {L A X} (l0 : list X) (V : A -> Prop) : L + A -> list X -> Prop :=
  fun r l => l = l0 /\ exists a, r = inr a /\ V a.

(** The code jumps to [lab], having added nothing. *)
Definition jumps_to {L A X} (lab : L) : L + A -> list X -> Prop :=
  fun r l => r = inl lab /\ l = [].

(** [Q1], and if the code ended normally with [a], then [Q2 a]. *)
Definition and_then {L A B X} (Q1 : L + A -> list X -> Prop)
    (Q2 : A -> L + B -> list X -> Prop) : L + B -> list X -> Prop :=
  fun r l =>
    (exists lab, r = inl lab /\ Q1 (inl lab) l)
    \/ (exists a l1 l2, Q1 (inr a) l1 /\ Q2 a r l2 /\ l = l1 ++ l2).

(** The body of a [catch] satisfies [Q]. *)
Definition caught {L A X} (Q : A + A -> list X -> Prop) : L + A -> list X -> Prop :=
  fun r l =>
    exists r0, Q r0 l /\ r = inr (match r0 with inl a => a | inr a => a end).

(** The body of a [block] satisfies [Q]. *)
Definition blocked {L L' X} (Q : L' + unit -> list X -> Prop) : L + unit -> list X -> Prop :=
  fun r l => r = inr tt /\ exists r0, Q r0 l.

(** An SDK call is made and returns some code. *)
Definition asks {L X} (sel : event -> option X) (c : api_call)
    : L + solClient_returnCode_t -> list X -> Prop :=
  fun r l => exists rc, r = inr rc /\ l = omap sel [EvCall c rc].

(** A shared variable is read and has some value. *)
Definition reads {L X} (sel : event -> option X) (v : shared_var)
    : L + Z -> list X -> Prop :=
  fun r l => exists z, r = inr z /\ l = omap sel [EvLoad v z].

Definition is_alloc_OK (a : answer) : bool :=
  match a with
  | (solClient_msg_alloc, SOLCLIENT_OK) => true
  | _ => false
  end.

Definition is_msg_free (a : answer) : bool :=
  match a with
  | (solClient_msg_free, _) => true
  | _ => false
  end.

(** Callbacks that do nothing, and an SDK that refuses to send. *)
Definition idle {G} (d : unit) : prog G unit unit := ret tt.

Definition send_fails : env unit :=
  {| sdk_rc := fun _ c =>
       match c with
       | solClient_session_sendMsg => SOLCLIENT_NOT_READY
       | _ => SOLCLIENT_OK
       end;
     sdk_errorInfo := fun _ => {| subCode := 0; responseCode := 0; errorStr := "" |};
     sdk_capable := fun _ => true;
     sdk_pending := fun _ => [];
     sig_gotCtlC := fun _ => false |}.

End Behaviour.

(** ** Error reports, cleanup and waiting: what the properties speak of *)

Module Reports.
Import CStr Sdk Run Common Obs Behaviour.

(** What [common_handleError] reports: the text and the code it was
    given. *)
Definition report : Type := (string * solClient_returnCode_t)%type.

Definition report_of (e : event) : option report :=
  match e with
  | EvLog SOLCLIENT_LOG_ERROR _ (AStr s :: AReturnCodeToString rc :: _) => Some (s, rc)
  | _ => None
  end.

(** The SDK calls and the error reports of a trace. *)
Definition call_or_report (e : event) : option (answer + report) :=
  match answer_of e with
  | Some a => Some (inl a)
  | None =>
      match report_of e with
      | Some r => Some (inr r)
      | None => None
      end
  end.

(** The calls the cleanup code makes, and the texts it reports their
    failures with. *)
Definition is_cleanup_call (c : api_call) : bool :=
  match c with
  | solClient_flow_destroy _
  | solClient_session_endpointDeprovision _ _
  | solClient_session_disconnect
  | solClient_cleanup => true
  | _ => false
  end.

Definition is_cleanup_name (s : string) : bool :=
  existsb (String.eqb s)
    [ "solClient_flow_destroy()"; "solClient_session_endpointDeprovision()";
      "common_deleteQueue()"; "solClient_session_disconnect()"; "solClient_cleanup()" ].

Definition cleanup_step (e : event) : option (answer + report) :=
  match e with
  | EvCall c rc => if is_cleanup_call c then Some (inl (c, rc)) else None
  | _ =>
      match report_of e with
      | Some (s, rc) => if is_cleanup_name s then Some (inr (s, rc)) else None
      | None => None
      end
  end.

(** A call that is made and, unless it returned SOLCLIENT_OK, reported
    under [name]. *)
Definition attempted (c : api_call) (name : string) (rc : solClient_returnCode_t)
    : list (answer + report) :=
  inl (c, rc) :: (if is_OK rc then [] else [inr (name, rc)]).

(** The code makes call [c] and reports its failure under [name]. *)
Definition attempts {L} (c : api_call) (name : string)
    : L + unit -> list (answer + report) -> Prop :=
  fun r l => exists rc, r = inr tt /\ l = attempted c name rc.

(** The deletion of a queue by [common_deleteQueue] and its caller: only
    SOLCLIENT_FAIL is reported, by both. *)
Definition deletion (queueName_p : string) (rc : solClient_returnCode_t)
    : list (answer + report) :=
  inl (solClient_session_endpointDeprovision (deleteQueue_props queueName_p) provision_flags,
       rc)
  :: (if is_FAIL rc
      then [ inr ("solClient_session_endpointDeprovision()", rc);
             inr ("common_deleteQueue()", rc) ]
      else []).

(** The code makes call [c] or not; when it does, its failure is
    reported under [name]. *)
Definition may_attempt {L} (c : api_call) (name : string)
    : L + unit -> list (answer + report) -> Prop :=
  fun r l => r = inr tt /\ (l = [] \/ exists rc, l = attempted c name rc).

Definition deletes {L} (queueName_p : string)
    : L + unit -> list (answer + report) -> Prop :=
  fun r l => exists rc, r = inr tt /\ l = deletion queueName_p rc.

(** The reads of [flowRxMsgCounter] and the sleeps of a trace. *)
Definition wait_event (e : event) : option (Z + Z) :=
  match e with
  | EvLoad flowRxMsgCounter z => Some (inl z)
  | EvSleepUs us => Some (inr us)
  | _ => None
  end.

(** A wait for [expected] with [left] sleeps to go: reads of the counter
    separated by sleeps of 250 microseconds; every read but the last gives
    something else than [expected], and the last gives [expected] unless
    no sleep is left. *)
Fixpoint waited (expected : Z) (left : nat) (l : list (Z + Z)) : Prop :=
  match l with
  | [inl z] => z = expected \/ left = O
  | inl z :: inr us :: l' =>
      z <> expected /\ us = 250
      /\ match left with
         | O => False
         | S left' => waited expected left' l'
         end
  | _ => False
  end.

(** The sleeps of such a wait. *)
Definition sleeps (l : list (Z + Z)) : list Z :=
  omap (fun x => match x with inr us => Some us | inl _ => None end) l.

(** An SDK that answers every call with SOLCLIENT_NOT_READY. *)
Definition not_ready : env unit :=
  {| sdk_rc := fun _ _ => SOLCLIENT_NOT_READY;
     sdk_errorInfo := fun _ => {| subCode := 0; responseCode := 0; errorStr := "" |};
     sdk_capable := fun _ => true;
     sdk_pending := fun _ => [];
     sig_gotCtlC := fun _ => false |}.

(** The events for which the callbacks of common.c print the error
    information of the SDK: the cases of their [switch] that call
    [solClient_getLastErrorInfo]. *)
Definition is_error_session_event (e : solClient_session_event_t) : bool :=
  match e with
  | SOLCLIENT_SESSION_EVENT_DOWN_ERROR
  | SOLCLIENT_SESSION_EVENT_CONNECT_FAILED_ERROR
  | SOLCLIENT_SESSION_EVENT_REJECTED_MSG_ERROR
  | SOLCLIENT_SESSION_EVENT_SUBSCRIPTION_ERROR
  | SOLCLIENT_SESSION_EVENT_RX_MSG_TOO_BIG_ERROR
  | SOLCLIENT_SESSION_EVENT_TE_UNSUBSCRIBE_ERROR
  | SOLCLIENT_SESSION_EVENT_PROVISION_ERROR => true
  | _ => false
  end.

Definition is_error_flow_event (e : solClient_flow_event_t) : bool :=
  match e with
  | SOLCLIENT_FLOW_EVENT_DOWN_ERROR
  | SOLCLIENT_FLOW_EVENT_BIND_FAILED_ERROR
  | SOLCLIENT_FLOW_EVENT_REJECTED_MSG_ERROR => true
  | _ => false
  end.

(** [main] of messageTTLAndDeadMessageQueue, started with [-u bob], when
    every SDK call fails. *)
Definition failed_run : run_result (Z * MessageTTL.vars * list event) :=
  MessageTTL.main (failing MessageTTL.delivery) Terms.sample_headers Terms.sample_atoi
    Terms.sample_strtol "messageTTLAndDeadMessageQueue" [("u"%char, "bob")]
    Terms.sample_stack (MessageTTL.initial_vars 0 0).

End Reports.

(* ================================================================== *)
(** * Part II: properties                                              *)
(* ================================================================== *)

(** ** Facts about runs *)

Module RunFacts.
Import Sdk Run Obs.
Local Open Scope prog_scope.

Lemma bind_inl {G L A B} (m : prog G L A) (k : A -> prog G L B) t g l g1 es1 :
  m t g = (inl l, g1, es1) -> bind m k t g = (inl l, g1, es1).
Proof. intros H. unfold bind. rewrite H. reflexivity. Qed.

Lemma bind_inr {G L A B} (m : prog G L A) (k : A -> prog G L B) t g a g1 es1 :
  m t g = (inr a, g1, es1) ->
  bind m k t g =
    (outcome (k a (t + length es1)%nat g1),
     vars_after (k a (t + length es1)%nat g1),
     es1 ++ events (k a (t + length es1)%nat g1)).
Proof.
  intros H. unfold bind. rewrite H.
  destruct (k a (t + length es1)%nat g1) as [[r g2] es2]. reflexivity.
Qed.

Section Confined.
Context {G L : Type}.
Variable P : event -> bool.
Variable R : G -> G -> Prop.
Hypothesis R_refl : forall g, R g g.
Hypothesis R_trans : forall g1 g2 g3, R g1 g2 -> R g2 g3 -> R g1 g3.

Lemma confined_ret {A} (a : A) : confined P R (ret a : prog G L A).
Proof. intros t g. split; [reflexivity | apply R_refl]. Qed.

Lemma confined_goto {A} (l : L) : confined P R (goto l : prog G L A).
Proof. intros t g. split; [reflexivity | apply R_refl]. Qed.

Lemma confined_bind {A B} (m : prog G L A) (k : A -> prog G L B) :
  confined P R m -> (forall a, confined P R (k a)) -> confined P R (bind m k).
Proof.
  intros Hm Hk t g. unfold bind.
  destruct (Hm t g) as [Pm Rm].
  destruct (m t g) as [[[l | a] g1] es1]; unfold events, vars_after in *; simpl in *; auto.
  destruct (Hk a (t + length es1)%nat g1) as [Pk Rk].
  destruct (k a (t + length es1)%nat g1) as [[r g2] es2];
    unfold events, vars_after in *; simpl in *.
  split; [rewrite forallb_app, Pm, Pk; reflexivity | eapply R_trans; eassumption].
Qed.

Lemma confined_emit (e : event) : P e = true -> confined P R (emit e : prog G L unit).
Proof.
  intros He t g. split; [unfold events; simpl; rewrite He; reflexivity | apply R_refl].
Qed.

Lemma confined_printf (fmt : string) (args : list arg) :
  P (EvPrintf fmt args) = true -> confined P R (printf fmt args : prog G L unit).
Proof. apply confined_emit. Qed.

Lemma confined_log (level : solClient_log_level_t) (fmt : string) (args : list arg) :
  P (EvLog level fmt args) = true ->
  confined P R (solClient_log level fmt args : prog G L unit).
Proof. apply confined_emit. Qed.

Lemma confined_now : confined P R (now : prog G L nat).
Proof. intros t g. split; [reflexivity | apply R_refl]. Qed.

Lemma confined_get : confined P R (get : prog G L G).
Proof. intros t g. split; [reflexivity | apply R_refl]. Qed.

Lemma confined_modify (f : G -> G) :
  (forall g, R g (f g)) -> confined P R (modify f : prog G L unit).
Proof. intros Hf t g. split; [reflexivity | apply Hf]. Qed.

Lemma confined_when (b : bool) (p : prog G L unit) :
  confined P R p -> confined P R (when b p).
Proof. intros Hp. destruct b; simpl; auto using confined_ret. Qed.

End Confined.

Section ConfinedBlock.
Context {G L L' : Type}.
Variable P : event -> bool.
Variable R : G -> G -> Prop.

Lemma confined_block (body : prog G L' unit) :
  confined P R body -> confined P R (block body : prog G L unit).
Proof.
  intros Hb t g. specialize (Hb t g). unfold block.
  destruct (body t g) as [[r g1] es1]. exact Hb.
Qed.

End ConfinedBlock.

Section ConfinedEnv.
Context {G D L : Type}.
Variable P : event -> bool.
Variable R : G -> G -> Prop.
Hypothesis R_refl : forall g, R g g.
Hypothesis R_trans : forall g1 g2 g3, R g1 g2 -> R g2 g3 -> R g1 g3.
Variable E : env D.

Lemma confined_sdk (c : api_call) :
  (forall rc, P (EvCall c rc) = true) -> confined P R (sdk E c : prog G L _).
Proof.
  intros Hc t g. split; [unfold events; simpl; rewrite Hc; reflexivity | apply R_refl].
Qed.

Lemma confined_getLastErrorInfo :
  confined P R (solClient_getLastErrorInfo E : prog G L _).
Proof. intros t g. split; [reflexivity | apply R_refl]. Qed.

Variable callback : D -> prog G unit unit.
Hypothesis callback_confined : forall d, confined P R (callback d).

Lemma confined_deliver (ds : list D) :
  confined P R (deliver callback ds : prog G L unit).
Proof.
  induction ds as [| d ds IH]; simpl.
  - apply confined_ret; assumption.
  - apply confined_bind; try assumption;
      [apply confined_block, callback_confined | intros _; exact IH].
Qed.

Lemma confined_sync : confined P R (sync E callback : prog G L unit).
Proof.
  unfold sync. apply confined_bind; try assumption;
    [apply confined_now; assumption | intros n; apply confined_deliver].
Qed.

Lemma confined_call (c : api_call) :
  (forall rc, P (EvCall c rc) = true) -> confined P R (call E callback c : prog G L _).
Proof.
  intros Hc. unfold call. apply confined_bind; try assumption;
    [apply confined_sync | intros _; apply confined_sdk, Hc].
Qed.

Lemma confined_load (v : shared_var) (read : G -> Z) :
  (forall z, P (EvLoad v z) = true) ->
  confined P R (load E callback v read : prog G L _).
Proof.
  intros Hv. unfold load.
  apply confined_bind; try assumption; [apply confined_sync | intros _].
  apply confined_bind; try assumption; [apply confined_get; assumption | intros g].
  apply confined_bind; try assumption;
    [apply confined_emit; auto | intros _; apply confined_ret; assumption].
Qed.

Lemma confined_sleepInUs (us : Z) :
  P (EvSleepUs us) = true -> confined P R (sleepInUs E callback us : prog G L _).
Proof.
  intros Hs. unfold sleepInUs. apply confined_bind; try assumption;
    [apply confined_sync | intros _; apply confined_emit; auto].
Qed.

Lemma confined_sleepInSec (s : Z) :
  P (EvSleepSec s) = true -> confined P R (sleepInSec E callback s : prog G L _).
Proof.
  intros Hs. unfold sleepInSec. apply confined_bind; try assumption;
    [apply confined_sync | intros _; apply confined_emit; auto].
Qed.

Lemma confined_gotCtlC : confined P R (gotCtlC E callback : prog G L _).
Proof.
  unfold gotCtlC. apply confined_bind; try assumption; [apply confined_sync | intros _].
  apply confined_bind; try assumption;
    [apply confined_now; assumption | intros n; apply confined_ret; assumption].
Qed.

Lemma confined_isCapable :
  (forall b, P (EvIsCapable b) = true) ->
  confined P R (solClient_session_isCapable E callback : prog G L _).
Proof.
  intros Hb. unfold solClient_session_isCapable.
  apply confined_bind; try assumption; [apply confined_sync | intros _].
  apply confined_bind; try assumption; [apply confined_now; assumption | intros n].
  apply confined_bind; try assumption;
    [apply confined_emit; auto | intros _; apply confined_ret; assumption].
Qed.

End ConfinedEnv.

(** Code that cannot jump ends normally. *)
Lemma exec_then_ret {G A B} (p : prog G Empty_set A) (b : B) t (g : G) :
  outcome (exec (bind p (fun _ => ret b)) t g) = b.
Proof.
  unfold exec, bind. destruct (p t g) as [[[[] | a] g1] es1]. reflexivity.
Qed.

End RunFacts.

(** ** Run equations of the primitives *)

Module Step.
Import Sdk Run Obs RunFacts.
Local Open Scope prog_scope.

Section Step.
Context {G D : Type}.
Variable E : env D.
Variable callback : D -> prog G unit unit.

Lemma deliver_outcome {L} (ds : list D) t g :
  outcome (deliver callback ds t g : (L + unit) * G * list event) = inr tt.
Proof.
  revert t g. induction ds as [| d ds IH]; intros t g; simpl; [reflexivity |].
  unfold bind, block. destruct (callback d t g) as [[r g1] es1].
  specialize (IH (t + length es1)%nat g1).
  destruct (deliver callback ds (t + length es1)%nat g1) as [[r2 g2] es2].
  exact IH.
Qed.

Lemma sync_outcome {L} t g :
  outcome (sync E callback t g : (L + unit) * G * list event) = inr tt.
Proof.
  unfold sync, bind, now. simpl. rewrite Nat.add_0_r.
  pose proof (@deliver_outcome L (sdk_pending E t) t g) as Hd.
  destruct (deliver callback (sdk_pending E t) t g) as [[r g1] es1]. exact Hd.
Qed.

Local Abbreviation synced_vars := (synced_vars E callback).
Local Abbreviation synced_events := (synced_events E callback).

Lemma deliver_any_label {L L'} (ds : list D) t g :
  vars_after (deliver callback ds t g : (L + unit) * G * list event)
    = vars_after (deliver callback ds t g : (L' + unit) * G * list event)
  /\ events (deliver callback ds t g : (L + unit) * G * list event)
    = events (deliver callback ds t g : (L' + unit) * G * list event).
Proof.
  revert t g. induction ds as [| d ds IH]; intros t g; simpl; [auto |].
  unfold bind, block. destruct (callback d t g) as [[r g1] es1].
  specialize (IH (t + length es1)%nat g1).
  pose proof (@deliver_outcome L ds (t + length es1)%nat g1) as H1.
  pose proof (@deliver_outcome L' ds (t + length es1)%nat g1) as H2.
  destruct (deliver callback ds (t + length es1)%nat g1 : (L + unit) * G * list event)
    as [[r2 g2] es2].
  destruct (deliver callback ds (t + length es1)%nat g1 : (L' + unit) * G * list event)
    as [[r3 g3] es3].
  unfold outcome, vars_after, events in *. simpl in *. destruct IH as [-> ->]. auto.
Qed.

Lemma sync_run {L} t g :
  (sync E callback t g : (L + unit) * G * list event)
    = (inr tt, synced_vars t g, synced_events t g).
Proof.
  pose proof (@sync_outcome L t g) as Ho.
  unfold synced_vars, synced_events.
  assert (Hv : vars_after (sync E callback t g : (L + unit) * G * list event)
               = vars_after (sync E callback t g : (unit + unit) * G * list event)
               /\ events (sync E callback t g : (L + unit) * G * list event)
               = events (sync E callback t g : (unit + unit) * G * list event)).
  { unfold sync, bind, now. simpl. rewrite Nat.add_0_r.
    pose proof (@deliver_any_label L unit (sdk_pending E t) t g) as Hd.
    destruct (deliver callback (sdk_pending E t) t g : (L + unit) * G * list event)
      as [[r g1] es1].
    destruct (deliver callback (sdk_pending E t) t g : (unit + unit) * G * list event)
      as [[r' g1'] es1'].
    exact Hd. }
  destruct Hv as [<- <-].
  destruct (sync E callback t g : (L + unit) * G * list event) as [[r g1] es1].
  unfold outcome, vars_after, events in *. simpl in *. subst r. reflexivity.
Qed.

Lemma call_run {L} (c : api_call) t g :
  let es := synced_events t g in
  let rc := sdk_rc E (t + length es)%nat c in
  (call E callback c t g : (L + _) * G * list event)
    = (inr rc, synced_vars t g, es ++ [EvCall c rc]).
Proof.
  intros es rc. unfold call. rewrite (bind_inr _ _ _ _ _ _ _ (sync_run t g)).
  unfold sdk, bind, now, emit, ret, outcome, vars_after, events. simpl.
  reflexivity.
Qed.

Lemma load_run {L} (v : shared_var) (read : G -> Z) t g :
  let z := read (synced_vars t g) in
  (load E callback v read t g : (L + _) * G * list event)
    = (inr z, synced_vars t g, synced_events t g ++ [EvLoad v z]).
Proof.
  intros z. unfold load. rewrite (bind_inr _ _ _ _ _ _ _ (sync_run t g)).
  unfold bind, get, emit, ret, outcome, vars_after, events. simpl. reflexivity.
Qed.

Lemma sleepInUs_run {L} (us : Z) t g :
  (sleepInUs E callback us t g : (L + _) * G * list event)
    = (inr tt, synced_vars t g, synced_events t g ++ [EvSleepUs us]).
Proof.
  unfold sleepInUs. rewrite (bind_inr _ _ _ _ _ _ _ (sync_run t g)). reflexivity.
Qed.

Lemma sleepInSec_run {L} (s : Z) t g :
  (sleepInSec E callback s t g : (L + _) * G * list event)
    = (inr tt, synced_vars t g, synced_events t g ++ [EvSleepSec s]).
Proof.
  unfold sleepInSec. rewrite (bind_inr _ _ _ _ _ _ _ (sync_run t g)). reflexivity.
Qed.

Lemma gotCtlC_run {L} t g :
  (gotCtlC E callback t g : (L + _) * G * list event)
    = (inr (sig_gotCtlC E (t + length (synced_events t g))%nat),
       synced_vars t g, synced_events t g).
Proof.
  unfold gotCtlC. rewrite (bind_inr _ _ _ _ _ _ _ (sync_run t g)).
  unfold bind, now, ret, outcome, vars_after, events. simpl.
  rewrite app_nil_r. reflexivity.
Qed.

Lemma isCapable_run {L} t g :
  let b := sdk_capable E (t + length (synced_events t g))%nat in
  (solClient_session_isCapable E callback t g : (L + _) * G * list event)
    = (inr b, synced_vars t g, synced_events t g ++ [EvIsCapable b]).
Proof.
  intros b. unfold solClient_session_isCapable.
  rewrite (bind_inr _ _ _ _ _ _ _ (sync_run t g)).
  unfold bind, now, emit, ret, outcome, vars_after, events. simpl.
  reflexivity.
Qed.

End Step.

End Step.

(** ** common.c: the session and queue helpers *)

Module CommonFacts.
Import CStr Sdk Run Common Obs RunFacts Step.
Local Open Scope prog_scope.

Section Helpers.
Context {G D : Type}.
Variable E : env D.

(** What [common_handleError] does: one ERROR line for the SDK's logger
    and the reset of the error record. *)
Lemma common_handleError_run {L} (rc : solClient_returnCode_t) (s : string) t (g : G) :
  let errorInfo := sdk_errorInfo E t in
  @common_handleError G D E L rc s t g =
    (inr tt, g,
     [ EvLog SOLCLIENT_LOG_ERROR
         ("%s - ReturnCode=\" +:+ dq +:+ "%s\" +:+ dq +:+ ", SubCode=\" +:+ dq +:+ "%s\" +:+ dq
            +:+ ", ResponseCode=%d, Info=\" +:+ dq +:+ "%s\" +:+ dq)
         [ AStr s; AReturnCodeToString rc; ASubCodeToString (subCode errorInfo);
           AInt (responseCode errorInfo); AStr (errorStr errorInfo) ];
       EvResetLastErrorInfo ]).
Proof. reflexivity. Qed.

Lemma confined_handleError {L} (P : event -> bool) (R : G -> G -> Prop)
    (rc : solClient_returnCode_t) (s : string) :
  (forall g, R g g) ->
  (forall fmt args, P (EvLog SOLCLIENT_LOG_ERROR fmt args) = true) ->
  P EvResetLastErrorInfo = true ->
  confined P R (@common_handleError G D E L rc s).
Proof.
  intros Hrefl Hlog Hreset t g. rewrite common_handleError_run.
  unfold events, vars_after. simpl. rewrite Hlog, Hreset. auto.
Qed.

Variable callback : D -> prog G unit unit.

(** The first SDK call [common_createAndConnectSession] makes creates the
    Session with [sessionProps]. *)
Lemma createAndConnectSession_first_call {L} (commonOpts : commonOptions) t (g : G) :
  exists rc rest,
    events (@common_createAndConnectSession G D E callback L commonOpts t g) =
      synced_events E callback t g
      ++ EvCall (solClient_session_create (sessionProps commonOpts)) rc :: rest.
Proof.
  unfold common_createAndConnectSession.
  rewrite (bind_inr _ _ _ _ _ _ _ (call_run E callback _ t g)).
  unfold events at 1. simpl. rewrite <- List.app_assoc. simpl.
  eexists _, _. reflexivity.
Qed.

Variable H : headers.

(** [common_createQueue] makes one SDK call. *)
Lemma common_createQueue_run {L} (queueName_p : string) t (g : G) :
  let es := synced_events E callback t g in
  let c := solClient_session_endpointProvision (createQueue_props H queueName_p)
             provision_flags in
  let rc := sdk_rc E (t + length es)%nat c in
  @common_createQueue G D E H callback L queueName_p t g =
    (inr (if is_FAIL rc then rc else SOLCLIENT_OK),
     synced_vars E callback t g,
     es ++ EvCall c rc
        :: (if is_FAIL rc
            then events (@common_handleError G D E L rc
                           "solClient_session_endpointProvision()"
                           (t + length (es ++ [EvCall c rc]))%nat
                           (synced_vars E callback t g))
            else [])).
Proof.
  intros es c rc. unfold common_createQueue.
  rewrite (bind_inr _ _ _ _ _ _ _ (call_run E callback _ t g)).
  fold es c rc. destruct (is_FAIL rc).
  - rewrite common_handleError_run. unfold outcome, vars_after, events. simpl.
    rewrite <- List.app_assoc. reflexivity.
  - unfold outcome, vars_after, events. simpl.
    rewrite <- List.app_assoc. reflexivity.
Qed.

Lemma common_deleteQueue_run {L} (queueName_p : string) t (g : G) :
  let es := synced_events E callback t g in
  let c := solClient_session_endpointDeprovision (deleteQueue_props queueName_p)
             provision_flags in
  let rc := sdk_rc E (t + length es)%nat c in
  @common_deleteQueue G D E callback L queueName_p t g =
    (inr (if is_FAIL rc then rc else SOLCLIENT_OK),
     synced_vars E callback t g,
     es ++ EvCall c rc
        :: (if is_FAIL rc
            then events (@common_handleError G D E L rc
                           "solClient_session_endpointDeprovision()"
                           (t + length (es ++ [EvCall c rc]))%nat
                           (synced_vars E callback t g))
            else [])).
Proof.
  intros es c rc. unfold common_deleteQueue.
  rewrite (bind_inr _ _ _ _ _ _ _ (call_run E callback _ t g)).
  fold es c rc. destruct (is_FAIL rc).
  - rewrite common_handleError_run. unfold outcome, vars_after, events. simpl.
    rewrite <- List.app_assoc. reflexivity.
  - unfold outcome, vars_after, events. simpl.
    rewrite <- List.app_assoc. reflexivity.
Qed.

End Helpers.

(** Steps of the confinement proofs: the rule for the statement at hand,
    with [side] for what it asks of the events and the variables and [cb]
    for the callbacks that run at a synchronisation point. *)
Ltac confined_basic cb side :=
  first
    [ apply confined_call; [solve [side] | solve [side] | solve [cb] | solve [side]]
    | apply confined_load; [solve [side] | solve [side] | solve [cb] | solve [side]]
    | apply confined_sleepInUs; [solve [side] | solve [side] | solve [cb] | solve [side]]
    | apply confined_sleepInSec; [solve [side] | solve [side] | solve [cb] | solve [side]]
    | apply confined_gotCtlC; [solve [side] | solve [side] | solve [cb]]
    | apply confined_isCapable; [solve [side] | solve [side] | solve [cb] | solve [side]]
    | apply confined_handleError; [solve [side] | solve [side] | solve [side]]
    | apply confined_sdk; [solve [side] | solve [side]]
    | apply confined_getLastErrorInfo; solve [side]
    | apply confined_printf; [solve [side] | solve [side]]
    | apply confined_log; [solve [side] | solve [side]]
    | apply confined_emit; [solve [side] | solve [side]]
    | apply confined_modify; solve [side]
    | apply confined_now; solve [side]
    | apply confined_get; solve [side]
    | apply confined_ret; solve [side]
    | apply confined_goto; solve [side]
    | apply confined_when; [solve [side] | ]
    | apply confined_block
    | apply confined_bind; [solve [side] | | intros ?]
    | match goal with
      | |- confined _ _ (if ?b then _ else _) => destruct b
      | |- confined _ _ (match ?x with _ => _ end) => destruct x
      end ].

Section ConfinedHelpers.
Context {G D L : Type}.
Variable P : event -> bool.
Variable R : G -> G -> Prop.
Hypothesis R_refl : forall g, R g g.
Hypothesis R_trans : forall g1 g2 g3, R g1 g2 -> R g2 g3 -> R g1 g3.
Variable E : env D.
Variable callback : D -> prog G unit unit.
Hypothesis callback_confined : forall d, confined P R (callback d).
Hypothesis P_error : forall fmt args, P (EvLog SOLCLIENT_LOG_ERROR fmt args) = true.
Hypothesis P_reset : P EvResetLastErrorInfo = true.

Lemma confined_printCCSMPversion :
  (forall rc, P (EvCall solClient_version_get rc) = true) ->
  (forall fmt args, P (EvPrintf fmt args) = true) ->
  confined P R (@common_printCCSMPversion G D E callback L).
Proof.
  intros P_call P_printf. unfold common_printCCSMPversion.
  repeat confined_basic ltac:(apply callback_confined) ltac:(first [assumption | intros; auto]).
Qed.

Lemma confined_createAndConnectSession (commonOpts : commonOptions) :
  (forall props rc, P (EvCall (solClient_session_create props) rc) = true) ->
  (forall rc, P (EvCall solClient_session_connect rc) = true) ->
  confined P R (@common_createAndConnectSession G D E callback L commonOpts).
Proof.
  intros P_create P_connect. unfold common_createAndConnectSession.
  repeat confined_basic ltac:(apply callback_confined) ltac:(first [assumption | intros; auto]).
Qed.

Lemma confined_createQueue (H : headers) (queueName_p : string) :
  (forall props flags rc,
      P (EvCall (solClient_session_endpointProvision props flags) rc) = true) ->
  confined P R (@common_createQueue G D E H callback L queueName_p).
Proof.
  intros P_call. unfold common_createQueue.
  repeat confined_basic ltac:(apply callback_confined) ltac:(first [assumption | intros; auto]).
Qed.

Lemma confined_deleteQueue (queueName_p : string) :
  (forall props flags rc,
      P (EvCall (solClient_session_endpointDeprovision props flags) rc) = true) ->
  confined P R (@common_deleteQueue G D E callback L queueName_p).
Proof.
  intros P_call. unfold common_deleteQueue.
  repeat confined_basic ltac:(apply callback_confined) ltac:(first [assumption | intros; auto]).
Qed.

End ConfinedHelpers.

Ltac confined_step cb side :=
  first
    [ apply confined_printCCSMPversion;
        [solve [side] | solve [side] | solve [cb] | solve [side] | solve [side]]
    | apply confined_createAndConnectSession;
        [solve [side] | solve [side] | solve [cb] | solve [side] | solve [side]
        | solve [side] | solve [side]]
    | apply confined_createQueue;
        [solve [side] | solve [side] | solve [cb] | solve [side] | solve [side]
        | solve [side]]
    | apply confined_deleteQueue;
        [solve [side] | solve [side] | solve [cb] | solve [side] | solve [side]
        | solve [side]]
    | confined_basic cb side ].

Ltac confined_with cb side := repeat confined_step cb side.

(** C9: whatever the options, the Session is created with certificate
    validation disabled, with connect retries and reconnect retries "3",
    and with compression level "9" when compression is enabled and "0"
    otherwise; each property name occurs once in the array, and this
    array is what [common_createAndConnectSession] passes to
    [solClient_session_create], its first SDK call. *)
Theorem session_properties_hard_coded :
  forall (commonOpts : commonOptions),
    let props := sessionProps commonOpts in
    prop_value (Macro "SOLCLIENT_SESSION_PROP_SSL_VALIDATE_CERTIFICATE") props
      = Some (Macro "SOLCLIENT_PROP_DISABLE_VAL")
    /\ prop_value (Macro "SOLCLIENT_SESSION_PROP_CONNECT_RETRIES") props = Some (Str "3")
    /\ prop_value (Macro "SOLCLIENT_SESSION_PROP_RECONNECT_RETRIES") props = Some (Str "3")
    /\ prop_value (Macro "SOLCLIENT_SESSION_PROP_COMPRESSION_LEVEL") props
         = Some (Str (if enableCompression commonOpts then "9" else "0"))
    /\ NoDup (prop_names props)
    /\ (forall (G D L : Type) (E : env D) (callback : D -> prog G unit unit) t (g : G),
          exists rc rest,
            events (@common_createAndConnectSession G D E callback L commonOpts t g) =
              synced_events E callback t g
              ++ EvCall (solClient_session_create props) rc :: rest).
Proof.
  intros commonOpts props. subst props. unfold sessionProps.
  repeat apply conj.
  1-4: destruct (is_nul (first_char (targetHost commonOpts)));
       destruct (is_nul (first_char (vpn commonOpts)));
       destruct (useGSS commonOpts); reflexivity.
  - destruct (is_nul (first_char (targetHost commonOpts)));
      destruct (is_nul (first_char (vpn commonOpts)));
      destruct (useGSS commonOpts); simpl;
      compute_done.
  - intros. apply createAndConnectSession_first_call.
Qed.

(** C10: a queue is provisioned with delete permission and, unless its
    name is COMMON_DMQ_NAME, with respects-message-TTL enabled; for the
    dead message queue that property is not in the array at all.  The
    provisioning call carries the flag that ignores already-exists errors,
    and it is the one SDK call [common_createQueue] makes. *)
Theorem createQueue_properties :
  forall (H : headers) (queueName_p : string),
    let props := createQueue_props H queueName_p in
    prop_value (Macro "SOLCLIENT_ENDPOINT_PROP_PERMISSION") props
      = Some (Macro "SOLCLIENT_ENDPOINT_PERM_DELETE")
    /\ prop_value (Macro "SOLCLIENT_ENDPOINT_PROP_NAME") props = Some (Str queueName_p)
    /\ prop_value (Macro "SOLCLIENT_ENDPOINT_PROP_RESPECTS_MSG_TTL") props
         = (if String.eqb queueName_p (COMMON_DMQ_NAME H)
            then None else Some (Macro "SOLCLIENT_PROP_ENABLE_VAL"))
    /\ prop_names props
         = [ Macro "SOLCLIENT_ENDPOINT_PROP_ID"; Macro "SOLCLIENT_ENDPOINT_PROP_NAME";
             Macro "SOLCLIENT_ENDPOINT_PROP_PERMISSION" ]
           ++ (if String.eqb queueName_p (COMMON_DMQ_NAME H)
               then [] else [Macro "SOLCLIENT_ENDPOINT_PROP_RESPECTS_MSG_TTL"])
    /\ In "SOLCLIENT_PROVISION_FLAGS_IGNORE_EXIST_ERRORS" provision_flags
    /\ (forall (G D L : Type) (E : env D) (callback : D -> prog G unit unit) t (g : G),
          calls_of (events (@common_createQueue G D E H callback L queueName_p t g)) =
            calls_of (synced_events E callback t g)
            ++ [solClient_session_endpointProvision props provision_flags]).
Proof.
  intros H queueName_p props. subst props. unfold createQueue_props.
  repeat apply conj.
  1-4: destruct (String.eqb queueName_p (COMMON_DMQ_NAME H)); reflexivity.
  - simpl. auto.
  - intros. rewrite common_createQueue_run. unfold events at 1. simpl.
    unfold calls_of. rewrite omap_app. simpl.
    destruct (is_FAIL _); reflexivity.
Qed.

End CommonFacts.

(** ** What a piece of code shows of itself *)

Module ShowsFacts.
Import CStr Sdk Run Common CommonPublish Obs Behaviour RunFacts Step CommonFacts.
Local Open Scope prog_scope.

Section Shows.
Context {G L X : Type}.
Variable sel : event -> option X.

Lemma shows_ret {A} (a : A) : shows sel (ends [] (eq a)) (ret a : prog G L A).
Proof. intros t g. split; [reflexivity | exists a; auto]. Qed.

Lemma shows_goto {A} (lab : L) : shows sel (jumps_to lab) (goto lab : prog G L A).
Proof. intros t g. split; reflexivity. Qed.

Lemma shows_bind {A B} (Q1 : L + A -> list X -> Prop) (Q2 : A -> L + B -> list X -> Prop)
    (m : prog G L A) (k : A -> prog G L B) :
  shows sel Q1 m -> (forall a, shows sel (Q2 a) (k a)) ->
  shows sel (and_then Q1 Q2) (bind m k).
Proof.
  intros Hm Hk t g. specialize (Hm t g). unfold bind.
  destruct (m t g) as [[[lab | a] g1] es1]; unfold outcome, events in *; simpl in *.
  - left. exists lab. auto.
  - specialize (Hk a (t + length es1)%nat g1).
    destruct (k a (t + length es1)%nat g1) as [[r g2] es2]. simpl in *.
    right. exists a, (omap sel es1), (omap sel es2). rewrite omap_app. auto.
Qed.

Lemma shows_emit (e : event) :
  shows sel (ends (omap sel [e]) (fun _ => True)) (emit e : prog G L unit).
Proof. intros t g. split; [reflexivity | exists tt; auto]. Qed.

Lemma shows_modify (f : G -> G) :
  shows sel (ends [] (fun _ => True)) (modify f : prog G L unit).
Proof. intros t g. split; [reflexivity | exists tt; auto]. Qed.

Lemma shows_get : shows sel (ends [] (fun _ => True)) (get : prog G L G).
Proof. intros t g. split; [reflexivity | exists g; auto]. Qed.

Lemma shows_if {A} (b : bool) (Q1 Q2 : L + A -> list X -> Prop) (p q : prog G L A) :
  shows sel Q1 p -> shows sel Q2 q ->
  shows sel (fun r l => if b then Q1 r l else Q2 r l) (if b then p else q).
Proof. intros Hp Hq. destruct b; assumption. Qed.

Lemma shows_when (b : bool) (Q : L + unit -> list X -> Prop) (p : prog G L unit) :
  shows sel Q p ->
  shows sel (fun r l => if b then Q r l else ends [] (fun _ => True) r l) (when b p).
Proof.
  intros Hp. destruct b; [exact Hp |]. intros t g. split; [reflexivity | exists tt; auto].
Qed.

Lemma shows_catch {A} (Q : A + A -> list X -> Prop) (body : prog G A A) :
  shows sel Q body -> shows sel (caught Q) (catch body : prog G L A).
Proof.
  intros Hb t g. specialize (Hb t g). unfold catch.
  destruct (body t g) as [[[a | a] g1] es1]; unfold outcome, events in *; simpl in *;
    eexists; split; [exact Hb | reflexivity | exact Hb | reflexivity].
Qed.

Lemma shows_block {L'} (Q : L' + unit -> list X -> Prop) (body : prog G L' unit) :
  shows sel Q body -> shows sel (blocked Q) (block body : prog G L unit).
Proof.
  intros Hb t g. specialize (Hb t g). unfold block.
  destruct (body t g) as [[r g1] es1]. unfold outcome, events in *; simpl in *.
  split; [reflexivity | exists r; exact Hb].
Qed.

Lemma unseen_omap (es : list event) :
  forallb (unseen sel) es = true -> omap sel es = [].
Proof.
  induction es as [| e es IH]; [reflexivity |]. simpl. intros Hes.
  apply andb_prop in Hes. destruct Hes as [He Hes]. unfold unseen in He.
  destruct (sel e); [discriminate | auto].
Qed.

End Shows.

Section ShowsEnv.
Context {G D L X : Type}.
Variable sel : event -> option X.
Variable E : env D.

Hypothesis log_unseen : forall level fmt args, sel (EvLog level fmt args) = None.
Hypothesis reset_unseen : sel EvResetLastErrorInfo = None.

Lemma shows_handleError (rc : solClient_returnCode_t) (s : string) :
  shows sel (ends [] (fun _ => True)) (@common_handleError G D E L rc s).
Proof.
  intros t g. rewrite common_handleError_run. unfold outcome, events. simpl.
  rewrite log_unseen, reset_unseen. split; [reflexivity | exists tt; auto].
Qed.

(** What [common_handleError] adds when [sel] keeps the error line but
    not what the SDK says about the error. *)
Lemma shows_handleError_as (rc : solClient_returnCode_t) (s : string) (x : list X) :
  (forall fmt a3 a4 a5,
      omap sel [ EvLog SOLCLIENT_LOG_ERROR fmt [AStr s; AReturnCodeToString rc; a3; a4; a5];
                 EvResetLastErrorInfo ] = x) ->
  shows sel (ends x (fun _ => True)) (@common_handleError G D E L rc s).
Proof.
  intros Hx t g. rewrite common_handleError_run. unfold outcome, events.
  simpl fst. simpl snd. rewrite Hx. split; [reflexivity | exists tt; auto].
Qed.

Lemma shows_sdk (c : api_call) : shows sel (asks sel c) (sdk E c : prog G L _).
Proof. intros t g. eexists. split; reflexivity. Qed.

Variable callback : D -> prog G unit unit.
Hypothesis callback_quiet : quiet sel callback.

Lemma synced_unseen t g : omap sel (synced_events E callback t g) = [].
Proof.
  apply unseen_omap.
  apply (confined_sync (L := unit) _ _ (fun _ => I) (fun _ _ _ _ _ => I) E callback
           callback_quiet t g).
Qed.

Lemma shows_call (c : api_call) :
  shows sel (asks sel c) (call E callback c : prog G L _).
Proof.
  intros t g. rewrite call_run. unfold outcome, events. simpl fst. simpl snd.
  rewrite omap_app, synced_unseen. eexists. split; reflexivity.
Qed.

Lemma shows_load (v : shared_var) (read : G -> Z) :
  shows sel (reads sel v) (load E callback v read : prog G L _).
Proof.
  intros t g. rewrite load_run. unfold outcome, events. simpl fst. simpl snd.
  rewrite omap_app, synced_unseen. eexists. split; reflexivity.
Qed.

Lemma shows_sleepInUs (us : Z) :
  shows sel (ends (omap sel [EvSleepUs us]) (fun _ => True))
    (sleepInUs E callback us : prog G L _).
Proof.
  intros t g. rewrite sleepInUs_run. unfold outcome, events. simpl fst. simpl snd.
  rewrite omap_app, synced_unseen. split; [reflexivity | exists tt; auto].
Qed.

Lemma shows_sleepInSec (s : Z) :
  shows sel (ends (omap sel [EvSleepSec s]) (fun _ => True))
    (sleepInSec E callback s : prog G L _).
Proof.
  intros t g. rewrite sleepInSec_run. unfold outcome, events. simpl fst. simpl snd.
  rewrite omap_app, synced_unseen. split; [reflexivity | exists tt; auto].
Qed.

Lemma shows_gotCtlC :
  shows sel (ends [] (fun _ => True)) (gotCtlC E callback : prog G L _).
Proof.
  intros t g. rewrite gotCtlC_run. unfold outcome, events. simpl fst. simpl snd.
  rewrite synced_unseen. split; [reflexivity | eexists; auto].
Qed.

End ShowsEnv.

(** Code without labels ends normally. *)
Lemma shows_exec {G A X} (sel : event -> option X) (Q : Empty_set + A -> list X -> Prop)
    (p : prog G Empty_set A) t g :
  shows sel Q p -> Q (inr (outcome (exec p t g))) (omap sel (events (exec p t g))).
Proof.
  intros Hp. specialize (Hp t g). unfold exec.
  destruct (p t g) as [[[[] | a] g1] es1]. exact Hp.
Qed.

Lemma shows_unseen {G A X} (sel : event -> option X) (p : prog G Empty_set A) :
  confined (unseen sel) (fun _ _ => True) p -> shows sel (ends [] (fun _ => True)) p.
Proof.
  intros Hp t g. destruct (Hp t g) as [Hes _].
  split; [apply unseen_omap, Hes |].
  destruct (p t g) as [[[[] | a] g1] es1]. exists a. auto.
Qed.

(** One step of a proof of [shows]: the rule for the statement at hand;
    [cb] proves that the callbacks are quiet. *)
Ltac shows_step cb :=
  first
    [ apply shows_ret
    | apply shows_goto
    | apply shows_handleError; [reflexivity | reflexivity]
    | eapply shows_handleError_as; intros; cbn; reflexivity
    | apply shows_sdk
    | apply shows_call; solve [cb]
    | apply shows_load; solve [cb]
    | apply shows_sleepInUs; solve [cb]
    | apply shows_sleepInSec; solve [cb]
    | apply shows_gotCtlC; solve [cb]
    | apply shows_emit
    | apply shows_modify
    | apply shows_get
    | eapply shows_when
    | eapply shows_catch
    | eapply shows_block
    | eapply shows_if
    | eapply shows_bind; [| intros ?] ].

Ltac shows_with cb := repeat shows_step cb.

(** Every way through what [shows] has established: the hypothesis [H]
    is taken apart, the first part of a sequence before the rest. *)
Ltac tidy :=
  repeat match goal with
         | H : inl _ = inr _ |- _ => discriminate H
         | H : inr _ = inl _ |- _ => discriminate H
         | H : inr _ = inr _ |- _ => injection H as H
         | H : inl _ = inl _ |- _ => injection H as H
         | H : True |- _ => clear H
         | a : unit |- _ => destruct a
         | H : ?x = ?x |- _ => clear H
         | H : ?x = _ |- _ => is_var x; subst x
         | H : _ = ?x |- _ => is_var x; subst x
         end.

Ltac way H :=
  cbv beta in H;
  lazymatch type of H with
  | and_then _ _ _ _ =>
      let lab := fresh "lab" in
      let a := fresh "a" in
      let l1 := fresh "l" in
      let l2 := fresh "l" in
      let H1 := fresh "H" in
      let Hr := fresh "Hr" in
      let Hl := fresh "Hl" in
      destruct H as [(lab & Hr & H) | (a & l1 & l2 & H1 & H & Hl)];
      [ way H; tidy | way H1; tidy; way H; tidy ]
  | asks _ _ _ _ =>
      let rc := fresh "rc" in destruct H as (rc & ? & ?); tidy
  | ends _ _ _ _ =>
      let a := fresh "a" in destruct H as (? & a & ? & ?); tidy
  | reads _ _ _ _ =>
      let z := fresh "z" in destruct H as (z & ? & ?); tidy
  | jumps_to _ _ _ => destruct H as (? & ?); tidy
  | caught _ _ _ =>
      let r0 := fresh "r" in
      let Hr := fresh "Hr" in
      destruct H as (r0 & H & Hr); way H; tidy
  | blocked _ _ _ =>
      let r0 := fresh "r" in
      let Hr := fresh "Hr" in
      destruct H as (Hr & r0 & H); way H; tidy
  | (if ?b then _ else _) _ _ => destruct b eqn:?; way H
  | if ?b then _ else _ => destruct b eqn:?; way H
  | _ => idtac
  end.

Lemma not_OK (rc : solClient_returnCode_t) : negb (is_OK rc) = false -> rc = SOLCLIENT_OK.
Proof. destruct rc; simpl; intros; congruence. Qed.

Lemma not_OK_true (rc : solClient_returnCode_t) : negb (is_OK rc) = true -> rc <> SOLCLIENT_OK.
Proof. destruct rc; simpl; intros; congruence. Qed.

End ShowsFacts.

(** ** common_parseUsernameAndVpn *)

Module ParseFacts.
Import CStr Sdk Run Common Terms.

Lemma store_lt (b : buffer) (i : nat) (c : ascii) :
  (i < length b)%nat -> store b i c = Some (<[i := c]> b).
Proof.
  intros Hi. unfold store. destruct (Nat.ltb_spec i (length b)); [reflexivity | lia].
Qed.

Lemma plain_String (c : ascii) (s : string) :
  plain (String c s) = true ->
  Ascii.eqb c "@" = false /\ is_nul c = false /\ plain s = true.
Proof.
  simpl. unfold plain_char. intros Hp.
  apply andb_true_iff in Hp as [Hc Hs]. apply andb_true_iff in Hc as [H1 H2].
  apply negb_true_iff in H1, H2. auto.
Qed.

(** A buffer that starts with the characters of [s] followed by NUL holds
    the C string [s]. *)
Lemma cstr_prefix (s : string) : forall b : buffer,
  plain s = true ->
  take (String.length s) b = list_ascii_of_string s ->
  b !! String.length s = Some NUL ->
  cstr b = s.
Proof.
  induction s as [| c s IH]; intros b Hp Ht Hn.
  - destruct b as [| x b]; [discriminate |]. simpl in Hn. injection Hn as ->. reflexivity.
  - destruct b as [| x b]; [discriminate |]. simpl in Ht, Hn. injection Ht as -> Ht.
    apply plain_String in Hp as (_ & Hnul & Hp). simpl. rewrite Hnul.
    f_equal. apply IH; assumption.
Qed.

Lemma take_S_insert (b : buffer) (i : nat) (c : ascii) :
  (i < length b)%nat -> take (S i) (<[i := c]> b) = take i b ++ [c].
Proof.
  intros Hi. rewrite (take_S_r _ _ c) by (apply list_lookup_insert_eq; exact Hi).
  rewrite take_insert_ge by lia. reflexivity.
Qed.

Section Segment.
Variable vpnLen : nat.

(** Plain characters written into the username array while there is room. *)
Lemma parse_chars_username (s : string) : forall (st : parse_state) (i : nat),
  plain s = true ->
  p_dest st = at_outUsername i ->
  (String.length s <= p_remaining st)%nat ->
  (i + String.length s <= length (p_outUsername st))%nat ->
  exists b,
    parse_chars vpnLen s st =
      Some {| p_outUsername := b; p_outVpn := p_outVpn st;
              p_dest := at_outUsername (i + String.length s);
              p_remaining := p_remaining st - String.length s |}
    /\ length b = length (p_outUsername st)
    /\ take (i + String.length s) b = take i (p_outUsername st) ++ list_ascii_of_string s.
Proof.
  induction s as [| c s IH]; intros st i Hp Hd Hr Hl; simpl in *.
  - exists (p_outUsername st). rewrite Nat.add_0_r, Nat.sub_0_r, app_nil_r.
    destruct st; simpl in *; subst; auto.
  - apply plain_String in Hp as (Hat & Hnul & Hp). rewrite Hnul.
    unfold parse_char. rewrite Hat.
    destruct (p_remaining st) as [| r] eqn:Hrem; [lia |]. simpl.
    unfold store_at. rewrite Hd. rewrite store_lt by lia. simpl.
    edestruct (IH {| p_outUsername := <[i := c]> (p_outUsername st);
                     p_outVpn := p_outVpn st;
                     p_dest := at_outUsername (S i); p_remaining := r |} (S i))
      as (b & Hb & Hlen & Htake); simpl; try reflexivity; try assumption; try lia.
    { rewrite length_insert. lia. }
    exists b. simpl in Hb, Hlen, Htake. rewrite Hb. rewrite length_insert in Hlen.
    replace (i + S (String.length s))%nat with (S i + String.length s)%nat by lia.
    split; [reflexivity | split; [assumption |]].
    change (S i + String.length s)%nat with (S (i + String.length s)).
    rewrite Htake, take_S_insert by lia. rewrite <- List.app_assoc. reflexivity.
Qed.

(** The same for the VPN array. *)
Lemma parse_chars_vpn (s : string) : forall (st : parse_state) (i : nat),
  plain s = true ->
  p_dest st = at_outVpn i ->
  (String.length s <= p_remaining st)%nat ->
  (i + String.length s <= length (p_outVpn st))%nat ->
  exists b,
    parse_chars vpnLen s st =
      Some {| p_outUsername := p_outUsername st; p_outVpn := b;
              p_dest := at_outVpn (i + String.length s);
              p_remaining := p_remaining st - String.length s |}
    /\ length b = length (p_outVpn st)
    /\ take (i + String.length s) b = take i (p_outVpn st) ++ list_ascii_of_string s.
Proof.
  induction s as [| c s IH]; intros st i Hp Hd Hr Hl; simpl in *.
  - exists (p_outVpn st). rewrite Nat.add_0_r, Nat.sub_0_r, app_nil_r.
    destruct st; simpl in *; subst; auto.
  - apply plain_String in Hp as (Hat & Hnul & Hp). rewrite Hnul.
    unfold parse_char. rewrite Hat.
    destruct (p_remaining st) as [| r] eqn:Hrem; [lia |]. simpl.
    unfold store_at. rewrite Hd. rewrite store_lt by lia. simpl.
    edestruct (IH {| p_outUsername := p_outUsername st;
                     p_outVpn := <[i := c]> (p_outVpn st);
                     p_dest := at_outVpn (S i); p_remaining := r |} (S i))
      as (b & Hb & Hlen & Htake); simpl; try reflexivity; try assumption; try lia.
    { rewrite length_insert. lia. }
    exists b. simpl in Hb, Hlen, Htake. rewrite Hb. rewrite length_insert in Hlen.
    replace (i + S (String.length s))%nat with (S i + String.length s)%nat by lia.
    split; [reflexivity | split; [assumption |]].
    change (S i + String.length s)%nat with (S (i + String.length s)).
    rewrite Htake, take_S_insert by lia. rewrite <- List.app_assoc. reflexivity.
Qed.

(** The loop over a concatenation, when the first part has no NUL. *)
Lemma parse_chars_app (s1 s2 : string) : forall st : parse_state,
  plain s1 = true ->
  parse_chars vpnLen (s1 +:+ s2) st =
    match parse_chars vpnLen s1 st with
    | Some st' => parse_chars vpnLen s2 st'
    | None => None
    end.
Proof.
  induction s1 as [| c s1 IH]; intros st Hp; simpl.
  - reflexivity.
  - apply plain_String in Hp as (_ & Hnul & Hp). rewrite Hnul.
    destruct (parse_char vpnLen c st) as [st' |]; [apply IH; assumption | reflexivity].
Qed.

End Segment.

(** The NUL that ends a segment of [n] characters. *)
Lemma terminated (b : buffer) (n : nat) (s : string) :
  plain s = true -> n = String.length s -> (n < length b)%nat ->
  take n b = list_ascii_of_string s ->
  cstr (<[n := NUL]> b) = s.
Proof.
  intros Hp -> Hlt Ht. apply cstr_prefix; [assumption | |].
  - rewrite take_insert_ge by lia. exact Ht.
  - apply list_lookup_insert_eq. exact Hlt.
Qed.

(** [common_parseUsernameAndVpn] on names that fit their arrays. *)
Lemma parseUsernameAndVpn_fits (user ns : string) (outUsername outVpn : buffer) :
  plain user = true -> plain ns = true ->
  (String.length user < length outUsername)%nat ->
  (String.length ns < length outVpn)%nat ->
  (exists u,
      common_parseUsernameAndVpn user outUsername (length outUsername)
        outVpn (length outVpn) = Some (u, outVpn)
      /\ cstr u = user)
  /\ (exists u v,
      common_parseUsernameAndVpn (user +:+ "@" +:+ ns) outUsername (length outUsername)
        outVpn (length outVpn) = Some (u, v)
      /\ cstr u = user /\ cstr v = ns).
Proof.
  intros Hu Hn Hlu Hln.
  set (st0 := {| p_outUsername := outUsername; p_outVpn := outVpn;
                 p_dest := at_outUsername 0; p_remaining := length outUsername |}).
  destruct (parse_chars_username (length outVpn) user st0 0)
    as (b & Hb & Hlen & Htake); simpl; try reflexivity; try assumption; try lia.
  simpl in Hb, Hlen, Htake.
  split.
  - unfold common_parseUsernameAndVpn. fold st0. rewrite Hb. simpl.
    rewrite store_lt by lia.
    eexists. split; [reflexivity |]. apply terminated; auto; lia.
  - unfold common_parseUsernameAndVpn. fold st0.
    rewrite parse_chars_app by assumption. rewrite Hb. simpl.
    unfold parse_char. simpl. rewrite store_lt by lia. simpl.
    destruct (parse_chars_vpn (length outVpn) ns
                {| p_outUsername := <[String.length user := NUL]> b; p_outVpn := outVpn;
                   p_dest := at_outVpn 0; p_remaining := length outVpn |} 0)
      as (b2 & Hb2 & Hlen2 & Htake2); simpl; try reflexivity; try assumption; try lia.
    simpl in Hb2, Hlen2, Htake2. change ("" +:+ ns) with ns. rewrite Hb2. simpl.
    rewrite store_lt by lia.
    eexists _, _. split; [reflexivity |].
    split; apply terminated; auto; lia.
Qed.

(** C5, amended: for a [--cu] argument whose user part and namespace part
    are each shorter than the array they go to, a string without ['@'] is
    stored NUL-terminated as the username and the VPN array is left as it
    was; a string [user@namespace] with one ['@'] leaves [user] in the
    username array and [namespace] in the VPN array, both NUL-terminated.
    [rc] is not touched. *)
Theorem cu_option_within_bounds :
  forall (H : headers) (atoi : string -> Z) (strtol : string -> Z * string)
         (commonOpt : commonOptions) (rc : Z) (user ns : string),
    plain user = true -> plain ns = true ->
    (String.length user < length (username commonOpt))%nat ->
    (String.length ns < length (vpn commonOpt))%nat ->
    (exists u,
        parse_option H atoi strtol "u" user commonOpt rc
          = Some (set_username_vpn u (vpn commonOpt) commonOpt, rc)
        /\ cstr u = user)
    /\ (exists u v,
        parse_option H atoi strtol "u" (user +:+ "@" +:+ ns) commonOpt rc
          = Some (set_username_vpn u v commonOpt, rc)
        /\ cstr u = user /\ cstr v = ns).
Proof.
  intros H atoi strtol commonOpt rc user ns Hu Hn Hlu Hln.
  destruct (parseUsernameAndVpn_fits user ns (username commonOpt) (vpn commonOpt)
              Hu Hn Hlu Hln) as [(u & Hr & Hc) (u' & v' & Hr' & Hcu & Hcv)].
  split.
  - exists u. unfold parse_option. simpl. rewrite Hr. auto.
  - exists u', v'. unfold parse_option. simpl. rewrite Hr'. auto.
Qed.

Lemma cu_option_within_bounds_witness :
  (exists u,
      parse_option sample_headers sample_atoi sample_strtol "u" "bob"
        (common_initCommandOptions sample_stack 2 0 sample_headers) 1
        = Some (set_username_vpn u
                  (vpn (common_initCommandOptions sample_stack 2 0 sample_headers))
                  (common_initCommandOptions sample_stack 2 0 sample_headers), 1)
      /\ cstr u = "bob")
  /\ (exists u v,
      parse_option sample_headers sample_atoi sample_strtol "u" ("bob" +:+ "@" +:+ "vpn1")
        (common_initCommandOptions sample_stack 2 0 sample_headers) 1
        = Some (set_username_vpn u v
                  (common_initCommandOptions sample_stack 2 0 sample_headers), 1)
      /\ cstr u = "bob" /\ cstr v = "vpn1").
Proof.
  apply (cu_option_within_bounds sample_headers sample_atoi sample_strtol
           (common_initCommandOptions sample_stack 2 0 sample_headers) 1 "bob" "vpn1");
    [reflexivity | reflexivity | vm_compute; lia | vm_compute; lia].
Defined.

(** C5 as stated fails: after [--cu a@old --cu bob] the second argument
    has no ['@'], yet the VPN is not the empty string. *)
Lemma cu_without_at_keeps_vpn :
  exists commonOpt rc,
    parse_options sample_headers sample_atoi sample_strtol
      [("u"%char, "a@old"); ("u"%char, "bob")]
      (common_initCommandOptions sample_stack 2 0 sample_headers) 1
      = Some (commonOpt, rc)
    /\ cstr (username commonOpt) = "bob"
    /\ cstr (vpn commonOpt) = "old"
    /\ cstr (vpn commonOpt) <> "".
Proof.
  eexists _, _. split; [vm_compute; reflexivity |].
  split; [reflexivity | split; [reflexivity | discriminate]].
Qed.

(** A name as long as the array: the terminating NUL is written one past
    the end of the array. *)
Example username_as_long_as_array :
  common_parseUsernameAndVpn "bobbobbo" (zeroed 8) 8 (zeroed 8) 8 = None
  /\ common_parseUsernameAndVpn "bobbobb" (zeroed 8) 8 (zeroed 8) 8
       = Some (list_ascii_of_string "bobbobb" ++ [NUL], zeroed 8).
Proof. split; reflexivity. Qed.

End ParseFacts.

(** ** Exit status *)

Module ExitFacts.
Import CStr Sdk Run Common Terms Obs RunFacts.
Local Open Scope prog_scope.

Section Parser.
Variable H : headers.
Variable atoi : string -> Z.
Variable strtol : string -> Z * string.

Lemma parse_option_rc (c : ascii) (optarg : string) (o o' : commonOptions) (rc rc' : Z) :
  parse_option H atoi strtol c optarg o rc = Some (o', rc') ->
  rc' = if rejected_option H atoi strtol (c, optarg) then 0 else rc.
Proof.
  unfold parse_option, rejected_option. simpl.
  repeat match goal with
         | |- context [Ascii.eqb c ?x] => destruct (Ascii.eqb c x)
         end;
    try (intros Heq; injection Heq as _ <-; reflexivity).
  - destruct (parse_log_level H strtol optarg) as [level ok]. simpl.
    intros Heq; injection Heq as _ <-. destruct ok; reflexivity.
  - destruct (common_parseUsernameAndVpn _ _ _ _ _) as [[u v] |]; [| discriminate].
    intros Heq; injection Heq as _ <-. reflexivity.
Qed.

Lemma parse_options_rc (opts : list (ascii * string)) :
  forall (o o' : commonOptions) (rc rc' : Z),
    parse_options H atoi strtol opts o rc = Some (o', rc') ->
    rc' = if existsb (rejected_option H atoi strtol) opts then 0 else rc.
Proof.
  induction opts as [| [c optarg] opts IH]; intros o o' rc rc'; simpl.
  - intros Heq; injection Heq as _ <-. reflexivity.
  - destruct (parse_option H atoi strtol c optarg o rc) as [[o1 rc1] |] eqn:Hopt;
      [| discriminate].
    intros Hrest. apply IH in Hrest. apply parse_option_rc in Hopt. subst rc1 rc'.
    destruct (rejected_option H atoi strtol (c, optarg)); simpl; [| reflexivity].
    destruct (existsb _ opts); reflexivity.
Qed.

(** What [common_parseCommandOptions] returns: 0 on a usage error, 1
    otherwise. *)
Lemma parseCommandOptions_rc (argv0 : string) (opts : list (ascii * string))
    (o o' : commonOptions) (desc : option string) (rc : Z) (printed : list event) :
  common_parseCommandOptions H atoi strtol argv0 opts o desc = Some (rc, o', printed) ->
  rc = if usage_error H atoi strtol opts o' then 0 else 1.
Proof.
  unfold common_parseCommandOptions, usage_error.
  destruct (parse_options H atoi strtol opts o 1) as [[o1 rc1] |] eqn:Hp; [| discriminate].
  intros Heq; injection Heq as <- <- _.
  apply parse_options_rc in Hp. subst rc1.
  destruct (existsb _ opts); destruct (any_missing H o1); reflexivity.
Qed.

End Parser.

Lemma exec_bind_outcome {G A B} (p : prog G Empty_set A) (k : A -> prog G Empty_set B)
    (b : B) :
  (forall a t g, outcome (exec (k a) t g) = b) ->
  forall t (g : G), outcome (exec (bind p k) t g) = b.
Proof.
  intros Hk t g. unfold exec, bind.
  destruct (p t g) as [[[[] | a] g1] es1].
  specialize (Hk a (t + length es1)%nat g1). unfold exec in Hk.
  destruct (k a (t + length es1)%nat g1) as [[[[] | b'] g2] es2]. exact Hk.
Qed.

Ltac returns_0 :=
  repeat (first [ apply exec_bind_outcome; intros | reflexivity ]).

(** The code at the labels of each sample returns 0. *)
Lemma FlowControlQueue_from_label_0 (E : env message) (l : FlowControlQueue.label) t g :
  outcome (exec (FlowControlQueue.from_label E l) t g) = 0.
Proof. revert t g. destruct l; unfold FlowControlQueue.from_label; returns_0. Qed.

Lemma MessageTTL_from_label_0 (E : env MessageTTL.delivery) (H : headers)
    (l : MessageTTL.label) t g :
  outcome (exec (MessageTTL.from_label E H l) t g) = 0.
Proof. revert t g. destruct l; unfold MessageTTL.from_label; returns_0. Qed.

Lemma AdPubAck_from_label_0 (E : env AdPubAck.eventInfo) (l : AdPubAck.label) t g :
  outcome (exec (AdPubAck.from_label E l) t g) = 0.
Proof. revert t g. destruct l; unfold AdPubAck.from_label; returns_0. Qed.

Lemma with_labels_outcome {G L A} (body : prog G L unit) (fallthrough : L)
    (from : L -> prog G Empty_set A) (a : A) :
  (forall l t g, outcome (exec (from l) t g) = a) ->
  forall t (g : G), outcome (with_labels body fallthrough from t g) = a.
Proof.
  intros Hfrom t g. unfold with_labels.
  destruct (body t g) as [[r g1] es1].
  match goal with |- context [exec (from ?l) ?t' ?g'] =>
    specialize (Hfrom l t' g'); destruct (exec (from l) t' g') as [[a' g2] es2] end.
  exact Hfrom.
Qed.

Lemma PerfADSub_main_start_status (H : headers) (atoi : string -> Z)
    (strtol : string -> Z * string) (argv0 : string) (opts : list (ascii * string))
    (positional : list string) (stack : commonOptions) r es :
  PerfADSub.main_start H atoi strtol argv0 opts positional stack = Finished (r, es) ->
  exists rc commandOpts printed,
    common_parseCommandOptions H atoi strtol argv0 opts
      (common_initCommandOptions stack (PerfADSub.required_params H)
         (PerfADSub.optional_params H) H) (Some PerfADSub.positionalParms)
      = Some (rc, commandOpts, printed)
    /\ rc = (if usage_error H atoi strtol opts commandOpts then 0 else 1)
    /\ (if (rc =? 0) || unknown_mode positional
        then r = inl 1
        else exists mode, r = inr (commandOpts, mode)).
Proof.
  unfold PerfADSub.main_start.
  destruct (common_parseCommandOptions _ _ _ _ _ _ _) as [[[rc o] printed] |] eqn:Hp;
    [| discriminate].
  pose proof (parseCommandOptions_rc _ _ _ _ _ _ _ _ _ _ Hp) as Hrc.
  intros Hrun. cbv zeta in Hrun.
  exists rc, o, printed. split; [reflexivity |]. split; [exact Hrc |].
  destruct (rc =? 0); [injection Hrun as <- _; reflexivity |].
  destruct positional as [| mode rest]; cbn [orb unknown_mode] in *.
  - injection Hrun as <- _. eauto.
  - destruct (String.eqb "te" mode); [injection Hrun as <- _; simpl; eauto |].
    destruct (String.eqb "queue" mode); [injection Hrun as <- _; simpl; eauto |].
    destruct (String.eqb "sub" mode); injection Hrun as <- _; simpl; eauto.
Qed.




End ExitFacts.

(** ** flowControlQueue.c *)

Module FlowFacts.
Import CStr Sdk Run Common Terms FlowControlQueue FlowTerms Obs FlowSamples RunFacts Step
  CommonFacts.
Local Open Scope prog_scope.

Lemma vars_after_bind_inl {G L A B} (m : prog G L A) (k : A -> prog G L B) t g l g1 es1 :
  m t g = (inl l, g1, es1) -> vars_after (bind m k t g) = g1.
Proof. intros Hm. rewrite (bind_inl _ _ _ _ _ _ _ Hm). reflexivity. Qed.

Lemma vars_after_bind_inr {G L A B} (m : prog G L A) (k : A -> prog G L B) t g a g1 es1 :
  m t g = (inr a, g1, es1) ->
  vars_after (bind m k t g) = vars_after (k a (t + length es1)%nat g1).
Proof. intros Hm. rewrite (bind_inr _ _ _ _ _ _ _ Hm). reflexivity. Qed.

Lemma delivered_refl g : delivered g g.
Proof. unfold delivered. auto. Qed.

Lemma delivered_trans g1 g2 g3 : delivered g1 g2 -> delivered g2 g3 -> delivered g1 g3.
Proof.
  unfold delivered. intros (F1 & C1 & S1) (F2 & C2 & S2).
  repeat apply conj; try congruence.
  intros Hf. rewrite S2, S1; congruence.
Qed.

Lemma leads_to_refl g : leads_to g g.
Proof. exists []. reflexivity. Qed.

Lemma leads_to_trans g1 g2 g3 : leads_to g1 g2 -> leads_to g2 g3 -> leads_to g1 g3.
Proof.
  intros [a1 ->] [a2 ->]. exists (a1 ++ a2). unfold run_actions.
  rewrite fold_left_app. reflexivity.
Qed.

Lemma leads_to_act g a : leads_to g (act g a).
Proof. exists [a]. reflexivity. Qed.

(** *** The receive callback *)

Section Callback.
Variable E : env message.
Variable msg_p : message.

(** The callback adds only events that [P] allows, as long as [P] allows
    what it prints, its two SDK calls and the error log. *)
Lemma callback_events (P : event -> bool) :
  (forall fmt args, P (EvPrintf fmt args) = true) ->
  (forall rc, P (EvCall solClient_msg_dump rc) = true) ->
  (forall msgId rc, P (EvCall (solClient_flow_sendAck msgId) rc) = true) ->
  (forall fmt args, P (EvLog SOLCLIENT_LOG_ERROR fmt args) = true) ->
  P EvResetLastErrorInfo = true ->
  confined P (fun _ _ => True) (flowMsgCallbackFunc E msg_p).
Proof.
  intros P1 P2 P3 P4 P5. unfold flowMsgCallbackFunc.
  confined_with idtac ltac:(first [assumption | intros; auto]).
Qed.

Lemma callback_delivered t g :
  delivered g (vars_after (flowMsgCallbackFunc E msg_p t g)).
Proof.
  unfold flowMsgCallbackFunc, bind, when, printf, emit, sdk, now, get, modify, ret, goto.
  destruct (is_OK (getMsgId_rc msg_p)); simpl;
    destruct (is_OK (sdk_rc E _ solClient_msg_dump)); simpl;
    try apply delivered_refl.
  destruct (flow_receiving g =? 0) eqn:Hf; simpl.
  - destruct (unackedMsgId g =? 0); simpl;
      unfold delivered; simpl; repeat apply conj; auto; lia.
  - destruct (is_OK (sdk_rc E _ (solClient_flow_sendAck _))); simpl; apply delivered_refl.
Qed.

(** A delivery that is processed while the flag is set: the message is
    acknowledged and nothing is kept. *)
Lemma callback_acks t g :
  dump_succeeds E -> getMsgId_rc msg_p = SOLCLIENT_OK -> flow_receiving g <> 0 ->
  calls_of (events (flowMsgCallbackFunc E msg_p t g))
    = [solClient_msg_dump; solClient_flow_sendAck (getMsgId_msgId msg_p)]
  /\ vars_after (flowMsgCallbackFunc E msg_p t g) = g.
Proof.
  intros Hdump Hid Hf.
  unfold flowMsgCallbackFunc, bind, when, printf, emit, sdk, now, get, modify, ret, goto.
  rewrite Hid. simpl. rewrite Hdump. simpl.
  apply Z.eqb_neq in Hf. rewrite Hf. simpl.
  destruct (is_OK (sdk_rc E _ (solClient_flow_sendAck _))); simpl; auto.
Qed.

(** A delivery that is processed while the flag is clear: no
    acknowledgement, the ID goes into the slot, and the diagnostic is
    printed when the slot was taken. *)
Lemma callback_withholds t g :
  dump_succeeds E -> getMsgId_rc msg_p = SOLCLIENT_OK -> flow_receiving g = 0 ->
  flowMsgCallbackFunc E msg_p t g =
    (inr tt, set_unackedMsgId (getMsgId_msgId msg_p) g,
     [ EvPrintf "Received message on flow. (Message ID: %lld).\n"
         [AInt (getMsgId_msgId msg_p)];
       EvCall solClient_msg_dump SOLCLIENT_OK ]
     ++ (if unackedMsgId g =? 0 then []
         else [diagnostic (getMsgId_msgId msg_p) (unackedMsgId g)])).
Proof.
  intros Hdump Hid Hf.
  unfold flowMsgCallbackFunc, bind, when, printf, emit, sdk, now, get, modify, ret, goto.
  rewrite Hid. simpl. rewrite Hdump. simpl. rewrite Hf. simpl.
  destruct (unackedMsgId g =? 0); reflexivity.
Qed.

(** While the flag is clear the callback sends no acknowledgement,
    whatever the SDK answers. *)
Lemma callback_silent_while_paused t g :
  flow_receiving g = 0 ->
  forallb (fun e => negb (is_sendAck e)) (events (flowMsgCallbackFunc E msg_p t g)) = true.
Proof.
  intros Hf.
  unfold flowMsgCallbackFunc, bind, when, printf, emit, sdk, now, get, modify, ret, goto.
  destruct (is_OK (getMsgId_rc msg_p)); simpl;
    destruct (is_OK (sdk_rc E _ solClient_msg_dump)); simpl; try reflexivity.
  rewrite Hf. simpl. destruct (unackedMsgId g =? 0); reflexivity.
Qed.

End Callback.

(** *** The end of a publish iteration *)

Section Toggle.
Variable E : env message.

Lemma count_and_toggle_between t g :
  Z.rem (int_incr (publishCount g)) 10 <> 0 ->
  count_and_toggle E t g = (inr tt, set_publishCount (int_incr (publishCount g)) g, []).
Proof.
  intros Hr. apply Z.eqb_neq in Hr.
  unfold count_and_toggle, bind, modify, get. simpl. rewrite Hr. reflexivity.
Qed.

Lemma count_and_toggle_pauses t g :
  Z.rem (int_incr (publishCount g)) 10 = 0 -> flow_receiving g <> 0 ->
  count_and_toggle E t g =
    (inr tt, set_flow_receiving 0 (set_publishCount (int_incr (publishCount g)) g), []).
Proof.
  intros Hr Hf. apply Z.eqb_eq in Hr. apply Z.eqb_neq in Hf.
  unfold count_and_toggle, bind, modify, get. simpl. rewrite Hr, Hf. reflexivity.
Qed.

Lemma callback_confined_delivered (msg_p : message) :
  confined (fun _ => true) delivered (flowMsgCallbackFunc E msg_p).
Proof.
  intros t g. split; [| apply callback_delivered].
  apply forallb_forall. reflexivity.
Qed.

(** The deliveries of a synchronisation point. *)
Lemma synced_delivered t g :
  delivered g (synced_vars E (flowMsgCallbackFunc E) t g).
Proof.
  apply (confined_sync (L := unit) (fun _ => true) delivered delivered_refl delivered_trans E
           (flowMsgCallbackFunc E) callback_confined_delivered t g).
Qed.

(** The rest of [count_and_toggle] once the counter is incremented. *)
Lemma count_and_toggle_counted t g :
  let g1 := set_publishCount (int_incr (publishCount g)) g in
  count_and_toggle E t g =
    when (Z.rem (publishCount g1) 10 =? 0)
      (if negb (flow_receiving g1 =? 0) then modify (set_flow_receiving 0)
       else
         when (negb (unackedMsgId g1 =? 0))
           (let* rc := call E (flowMsgCallbackFunc E)
                         (solClient_flow_sendAck (unackedMsgId g1)) in
            when (negb (is_OK rc))
              (common_handleError E rc "solClient_flow_sendAck()");;
            modify (set_unackedMsgId 0));;
         modify (set_flow_receiving 1)) t g1.
Proof.
  intros g1. unfold count_and_toggle.
  unfold bind at 1, modify at 1. unfold bind at 1, get at 1.
  cbn [length]. rewrite !Nat.add_0_r. fold g1.
  match goal with |- context [when ?b ?p t g1] => destruct (when b p t g1) as [[r g2] es2] end.
  reflexivity.
Qed.

Lemma count_and_toggle_resumes t g :
  Z.rem (int_incr (publishCount g)) 10 = 0 -> flow_receiving g = 0 ->
  let r := count_and_toggle E t g in
  flow_receiving (vars_after r) = 1 /\ unackedMsgId (vars_after r) = 0
  /\ publishCount (vars_after r) = int_incr (publishCount g)
  /\ (unackedMsgId g <> 0 ->
      exists rc, In (EvCall (solClient_flow_sendAck (unackedMsgId g)) rc) (events r))
  /\ (unackedMsgId g = 0 -> events r = []).
Proof.
  intros Hr Hf r. subst r. apply Z.eqb_eq in Hr.
  rewrite count_and_toggle_counted.
  cbn [publishCount flow_receiving unackedMsgId set_publishCount]. rewrite Hr, Hf.
  cbn [Z.eqb negb when].
  destruct (unackedMsgId g =? 0) eqn:Hs.
  - apply Z.eqb_eq in Hs. cbn. repeat apply conj; auto. intros; congruence.
  - apply Z.eqb_neq in Hs. cbn [negb when].
    set (g1 := set_publishCount (int_incr (publishCount g)) g).
    unfold bind. rewrite (call_run E (flowMsgCallbackFunc E) _ t g1).
    set (es := synced_events E (flowMsgCallbackFunc E) t g1).
    set (rc := sdk_rc E (t + length es)%nat (solClient_flow_sendAck (unackedMsgId g))).
    destruct (synced_delivered t g1) as (_ & Hc & _).
    destruct (is_OK rc); cbn;
      (split; [reflexivity |]; split; [reflexivity |]; split; [rewrite Hc; reflexivity |];
       split; [intros _; exists rc; rewrite !in_app_iff; simpl; auto | intros; congruence]).
Qed.

(** What the end of an iteration does to the counter and the flag. *)
Lemma count_and_toggle_effect t g :
  let g' := vars_after (count_and_toggle E t g) in
  let n := int_incr (publishCount g) in
  publishCount g' = n
  /\ flow_receiving g' =
       (if Z.rem n 10 =? 0 then if flow_receiving g =? 0 then 1 else 0
        else flow_receiving g).
Proof.
  intros g' n. subst g' n.
  destruct (Z.rem (int_incr (publishCount g)) 10 =? 0) eqn:Hr.
  - apply Z.eqb_eq in Hr. destruct (flow_receiving g =? 0) eqn:Hf.
    + apply Z.eqb_eq in Hf.
      destruct (count_and_toggle_resumes t g Hr Hf) as (F & S & C & _). auto.
    + apply Z.eqb_neq in Hf. rewrite (count_and_toggle_pauses t g Hr Hf).
      unfold vars_after. simpl. auto.
  - apply Z.eqb_neq in Hr. rewrite (count_and_toggle_between t g Hr).
    unfold vars_after. simpl. auto.
Qed.

End Toggle.

(** *** The flag and the counter *)

Lemma div10_succ n :
  0 <= n -> (n + 1) / 10 = if (n + 1) mod 10 =? 0 then n / 10 + 1 else n / 10.
Proof.
  intros Hn.
  pose proof (Z.div_mod n 10 ltac:(lia)) as H1.
  pose proof (Z.div_mod (n + 1) 10 ltac:(lia)) as H2.
  pose proof (Z.mod_pos_bound n 10 ltac:(lia)) as B1.
  pose proof (Z.mod_pos_bound (n + 1) 10 ltac:(lia)) as B2.
  destruct ((n + 1) mod 10 =? 0) eqn:Hm; [apply Z.eqb_eq in Hm | apply Z.eqb_neq in Hm]; lia.
Qed.

Lemma flag_after_succ n :
  0 <= n ->
  flag_after (n + 1) =
    if Z.rem (n + 1) 10 =? 0 then if flag_after n =? 0 then 1 else 0 else flag_after n.
Proof.
  intros Hn. unfold flag_after.
  rewrite Z.rem_mod_nonneg by lia. rewrite (div10_succ n Hn).
  destruct ((n + 1) mod 10 =? 0); [| reflexivity].
  rewrite Z.even_add. simpl (Z.even 1).
  destruct (Z.even (n / 10)); reflexivity.
Qed.

Lemma in_step_delivered g g' :
  delivered g g' -> in_step g -> in_step g'.
Proof.
  unfold delivered, in_step. intros (F & C & _) [Hn Hg]. rewrite F, C. auto.
Qed.

Lemma in_step_count_and_toggle E t g :
  in_step g -> publishCount g < INT_MAX ->
  let g' := vars_after (count_and_toggle E t g) in
  in_step g' /\ publishCount g' = publishCount g + 1.
Proof.
  intros [Hn Hg] Hmax g'.
  destruct (count_and_toggle_effect E t g) as (C & F). fold g' in C, F.
  assert (Hi : int_incr (publishCount g) = publishCount g + 1).
  { unfold int_incr. destruct (publishCount g =? INT_MAX) eqn:He; [| reflexivity].
    apply Z.eqb_eq in He. lia. }
  rewrite Hi in C, F. split; [| exact C].
  split; [lia |]. rewrite F, C, Hg. symmetry. apply flag_after_succ, Hn.
Qed.

(** *** The sample as a whole *)

Lemma delivery_step_refl g : delivery_step g g.
Proof. split; [apply delivered_refl | apply leads_to_refl]. Qed.

Lemma delivery_step_trans g1 g2 g3 :
  delivery_step g1 g2 -> delivery_step g2 g3 -> delivery_step g1 g3.
Proof.
  intros [D1 L1] [D2 L2].
  split; [eapply delivered_trans | eapply leads_to_trans]; eassumption.
Qed.

Lemma flowProps_configured (usingDurable : bool) (queueName : string) :
  client_ack_window_1 (flowProps usingDurable queueName) = true.
Proof. reflexivity. Qed.

Ltac expected :=
  first [ exact delivery_step_refl | exact delivery_step_trans
        | exact leads_to_refl | exact leads_to_trans
        | intros; reflexivity
        | intros; apply flowProps_configured ].

Section Sample.
Variable E : env message.
Variable H : headers.
Variable uuid : string.
Variable flowDestination : solClient_destinationType_t * string.

Lemma callback_confined (msg_p : message) :
  confined expected_event delivery_step (flowMsgCallbackFunc E msg_p).
Proof.
  intros t g. split.
  - apply (callback_events E msg_p expected_event); intros; reflexivity.
  - split; [apply callback_delivered | apply (leads_to_act g (Deliver E msg_p t))].
Qed.

Lemma callback_confined_leads_to (msg_p : message) :
  confined expected_event leads_to (flowMsgCallbackFunc E msg_p).
Proof. intros t g. destruct (callback_confined msg_p t g) as [HP [_ HR]]. auto. Qed.

Lemma bind_flow_confined (commandOpts : commonOptions) :
  confined expected_event delivery_step (bind_flow E H uuid commandOpts).
Proof.
  unfold bind_flow. confined_with ltac:(apply callback_confined) expected.
Qed.

Lemma build_and_send_confined (usingDurable : bool) (queueName : string) :
  confined expected_event delivery_step
    (build_and_send E flowDestination usingDurable queueName).
Proof.
  unfold build_and_send. confined_with ltac:(apply callback_confined) expected.
Qed.

Lemma count_and_toggle_events :
  confined expected_event (fun _ _ => True) (count_and_toggle E).
Proof.
  unfold count_and_toggle.
  confined_with ltac:(intros ? ? ?; split; [apply (callback_confined _ _ _) | exact I])
                ltac:(first [intros; reflexivity | intros; exact I]).
Qed.

Lemma count_and_toggle_confined :
  confined expected_event leads_to (count_and_toggle E).
Proof.
  intros t g. split; [apply count_and_toggle_events |].
  apply (leads_to_act g (CountAndToggle E t)).
Qed.

Ltac sample_step :=
  first [ apply count_and_toggle_confined
        | confined_step ltac:(apply callback_confined_leads_to) expected ].

Lemma publish_once_confined (usingDurable : bool) (queueName : string) :
  confined expected_event leads_to
    (publish_once E flowDestination usingDurable queueName).
Proof.
  unfold publish_once.
  apply confined_bind; [exact leads_to_trans | | intros _].
  - intros t g.
    destruct (build_and_send_confined usingDurable queueName t g) as [HP [_ HR]]. auto.
  - repeat sample_step.
Qed.

Lemma publish_loop_confined (fuel : nat) (usingDurable : bool) (queueName : string) :
  confined expected_event leads_to
    (publish_loop E flowDestination fuel usingDurable queueName).
Proof.
  induction fuel as [| fuel IH]; simpl.
  - repeat sample_step.
  - apply confined_bind; [exact leads_to_trans | repeat sample_step | intros stop].
    destruct stop; [repeat sample_step |].
    apply confined_bind; [exact leads_to_trans | apply publish_once_confined | intros _].
    exact IH.
Qed.

Lemma publishing_confined (commandOpts : commonOptions) (queueName : string) (fuel : nat) :
  confined expected_event leads_to
    (publishing E flowDestination commandOpts queueName fuel).
Proof.
  unfold publishing.
  apply confined_bind; [exact leads_to_trans | repeat sample_step | intros _].
  apply confined_bind; [exact leads_to_trans | | intros _].
  { apply confined_modify. intros g. apply (leads_to_act g ResetCount). }
  apply confined_bind; [exact leads_to_trans | apply publish_loop_confined | intros left].
  repeat sample_step.
Qed.

Lemma main_body_confined (commandOpts : commonOptions) (fuel : nat) :
  confined expected_event leads_to
    (main_body E H uuid flowDestination commandOpts fuel).
Proof.
  unfold main_body.
  apply confined_bind; [exact leads_to_trans | | intros queueName].
  - intros t g. destruct (bind_flow_confined commandOpts t g) as [HP [_ HR]]. auto.
  - apply publishing_confined.
Qed.

Lemma from_label_confined (l : label) :
  confined expected_event leads_to (from_label E l).
Proof.
  destruct l; unfold from_label, at_cleanupFlow, at_sessionConnected, at_cleanup;
    repeat sample_step.
Qed.

(** The flag stays in step with the counter through the publish loop. *)
Lemma publish_once_in_step (usingDurable : bool) (queueName : string) t g :
  in_step g -> publishCount g < INT_MAX ->
  let g' := vars_after (publish_once E flowDestination usingDurable queueName t g) in
  in_step g' /\ publishCount g' <= publishCount g + 1.
Proof.
  intros Hg Hmax. unfold publish_once, bind.
  destruct (build_and_send_confined usingDurable queueName t g) as [_ [HD _]].
  destruct (build_and_send E flowDestination usingDurable queueName t g)
    as [[[l | []] g1] es1]; unfold vars_after in *; simpl in *.
  - split; [eapply in_step_delivered; eassumption |]. destruct HD as (_ & -> & _). lia.
  - assert (H1 : in_step g1) by (eapply in_step_delivered; eassumption).
    assert (C1 : publishCount g1 = publishCount g) by apply HD.
    destruct (in_step_count_and_toggle E (t + length es1)%nat g1 H1 ltac:(lia)) as [H2 C2].
    destruct (count_and_toggle E (t + length es1)%nat g1) as [[[l | []] g2] es2];
      unfold vars_after in *; simpl in *; [split; [assumption | lia] |].
    rewrite sleepInUs_run. simpl.
    pose proof (synced_delivered E (t + length es1 + length es2)%nat g2) as HD2.
    split; [eapply in_step_delivered; eassumption |].
    destruct HD2 as (_ & -> & _). lia.
Qed.

Lemma publish_loop_in_step (fuel : nat) (usingDurable : bool) (queueName : string) :
  forall t g,
    in_step g -> publishCount g + Z.of_nat fuel <= INT_MAX ->
    let g' := vars_after (publish_loop E flowDestination fuel usingDurable queueName t g) in
    in_step g' /\ publishCount g' <= publishCount g + Z.of_nat fuel.
Proof.
  induction fuel as [| fuel IH]; intros t g Hg Hmax; simpl publish_loop.
  - unfold vars_after. simpl. split; [assumption | lia].
  - unfold bind at 1. rewrite gotCtlC_run.
    set (es := synced_events E (flowMsgCallbackFunc E) t g).
    pose proof (synced_delivered E t g) as HD.
    set (g1 := synced_vars E (flowMsgCallbackFunc E) t g) in *.
    assert (H1 : in_step g1) by (eapply in_step_delivered; eassumption).
    assert (C1 : publishCount g1 = publishCount g) by apply HD.
    destruct (sig_gotCtlC E (t + length es)%nat).
    + unfold vars_after. simpl. split; [assumption | lia].
    + unfold bind.
      destruct (publish_once_in_step usingDurable queueName (t + length es)%nat g1 H1
                  ltac:(lia)) as [H2 C2].
      destruct (publish_once E flowDestination usingDurable queueName (t + length es)%nat g1)
        as [[[l | []] g2] es2]; unfold vars_after in *; simpl in *;
        [split; [assumption | lia] |].
      destruct (IH (t + length es + length es2)%nat g2 H2 ltac:(lia)) as [H3 C3].
      destruct (publish_loop E flowDestination fuel usingDurable queueName
                  (t + length es + length es2)%nat g2) as [[r g3] es3].
      simpl in *. split; [assumption | lia].
Qed.

Lemma publishing_in_step (commandOpts : commonOptions) (queueName : string) (fuel : nat) t g :
  flow_receiving g = 1 -> Z.of_nat fuel <= INT_MAX ->
  let g' := vars_after (publishing E flowDestination commandOpts queueName fuel t g) in
  in_step g' /\ publishCount g' <= Z.of_nat fuel.
Proof.
  intros Hf Hmax. unfold publishing.
  rewrite (vars_after_bind_inr _ _ t g tt g [_] eq_refl).
  rewrite (vars_after_bind_inr _ _ _ g tt (set_publishCount 0 g) [] eq_refl).
  set (g0 := set_publishCount 0 g).
  match goal with |- context [bind _ _ ?t0 g0] => generalize t0 end. intros t0.
  assert (H0 : in_step g0) by (split; [simpl; lia | simpl; rewrite Hf; reflexivity]).
  destruct (publish_loop_in_step fuel (usingDurable commandOpts) queueName t0 g0 H0
              ltac:(simpl; lia)) as [H1 C1].
  change (publishCount g0) with 0 in C1.
  destruct (publish_loop E flowDestination fuel (usingDurable commandOpts) queueName t0 g0)
    as [[[l | left] g1] es1] eqn:Hloop; unfold vars_after in H1, C1; simpl in H1, C1.
  - rewrite (vars_after_bind_inl _ _ _ _ _ _ _ Hloop). split; [assumption | lia].
  - rewrite (vars_after_bind_inr _ _ _ _ _ _ _ Hloop).
    destruct left.
    + pose proof (synced_delivered E (t0 + length es1)%nat g1) as HD.
      match goal with
      | |- context [vars_after ?r] =>
          assert (Hv : vars_after r
                       = synced_vars E (flowMsgCallbackFunc E) (t0 + length es1)%nat g1)
      end.
      { unfold bind. rewrite gotCtlC_run. destruct (sig_gotCtlC E _); reflexivity. }
      rewrite Hv.
      split; [eapply in_step_delivered; eassumption | destruct HD as (_ & -> & _); lia].
    + unfold vars_after. simpl. split; [assumption | lia].
Qed.

End Sample.

Lemma forallb_weaken {A} (P Q : A -> bool) (l : list A) :
  (forall x, P x = true -> Q x = true) -> forallb P l = true -> forallb Q l = true.
Proof.
  intros HPQ HP. apply forallb_forall. intros x Hx.
  apply HPQ. revert x Hx. apply forallb_forall, HP.
Qed.

Lemma expected_creates_flow e : expected_event e = true -> creates_flow_as_configured e = true.
Proof. unfold expected_event. intros He. apply andb_prop in He. tauto. Qed.

Lemma expected_no_stop_or_start e : expected_event e = true -> negb (is_stop_or_start e) = true.
Proof. unfold expected_event. intros He. apply andb_prop in He. tauto. Qed.

(** *** The messages the publish loop counts *)

Import Behaviour ShowsFacts.

Lemma sent_app es1 es2 : sent (es1 ++ es2) = sent es1 + sent es2.
Proof. unfold sent. rewrite omap_app, length_app. lia. Qed.

Lemma sent_unseen es : forallb (unseen sent_message) es = true -> sent es = 0.
Proof. intros Hes. unfold sent. rewrite (unseen_omap _ _ Hes). reflexivity. Qed.

Section Counting.
Variable E : env message.
Variable flowDestination : solClient_destinationType_t * string.

Lemma callback_sends_nothing : quiet sent_message (flowMsgCallbackFunc E).
Proof. intros msg_p. apply callback_events; intros; reflexivity. Qed.

Lemma synced_sends_nothing t g : sent (synced_events E (flowMsgCallbackFunc E) t g) = 0.
Proof.
  unfold sent. rewrite (synced_unseen sent_message E _ callback_sends_nothing). reflexivity.
Qed.

(** The first part of an iteration publishes one message when it ends
    normally; when it jumps it has published none, or one whose
    [solClient_msg_free] failed. *)
Lemma build_and_send_sent (usingDurable : bool) (queueName : string) t g :
  let r := build_and_send E flowDestination usingDurable queueName t g in
  (outcome r = inr tt /\ sent (events r) = 1)
  \/ (exists l, outcome r = inl l
        /\ (sent (events r) = 0 \/ (sent (events r) = 1 /\ l = cleanupFlow))).
Proof.
  assert (Hs : exists Q,
             shows sent_message Q (build_and_send E flowDestination usingDurable queueName)
             /\ forall r l, Q r l ->
                  (r = inr tt /\ l = [tt])
                  \/ (exists lab, r = inl lab
                        /\ (l = [] \/ (l = [tt] /\ lab = cleanupFlow)))).
  { destruct usingDurable; eexists;
      (split;
       [ unfold build_and_send; shows_with ltac:(exact callback_sends_nothing)
       | intros r l HQ; way HQ;
         repeat match goal with
                | H : negb (is_OK _) = false |- _ => apply not_OK in H; subst
                | H : negb (is_OK ?rc) = true |- _ =>
                    destruct rc; try discriminate H; clear H
                end;
         simpl; eauto 10 ]). }
  destruct Hs as (Q & HQ & Hall). intros r. subst r.
  specialize (Hall _ _ (HQ t g)). unfold sent.
  destruct Hall as [[Hr Hl] | (lab & Hr & [Hl | [Hl Hlab]])]; rewrite Hl; simpl; eauto 10.
Qed.

(** The end of an iteration ends normally and publishes nothing. *)
Lemma count_and_toggle_quiet t g :
  outcome (count_and_toggle E t g) = inr tt /\ sent (events (count_and_toggle E t g)) = 0.
Proof.
  assert (Hs : exists Q,
             shows sent_message Q (count_and_toggle E)
             /\ forall r l, Q r l -> r = inr tt /\ l = []).
  { eexists. split.
    - unfold count_and_toggle. shows_with ltac:(exact callback_sends_nothing).
    - intros r l HQ. way HQ. all: auto. }
  destruct Hs as (Q & HQ & Hall). specialize (Hall _ _ (HQ t g)).
  unfold sent. destruct Hall as [-> ->]. auto.
Qed.

(** One iteration of the publish loop: when it ends normally one message
    was published, the counter is one up and the flag was switched if
    the new count is a multiple of ten; when it jumps, counter and flag
    are as before. *)
Lemma publish_once_counts (usingDurable : bool) (queueName : string) t g :
  let r := publish_once E flowDestination usingDurable queueName t g in
  let g' := vars_after r in
  let n := int_incr (publishCount g) in
  (outcome r = inr tt ->
   sent (events r) = 1
   /\ publishCount g' = n
   /\ flow_receiving g' =
        (if Z.rem n 10 =? 0 then if flow_receiving g =? 0 then 1 else 0
         else flow_receiving g))
  /\ (forall l, outcome r = inl l ->
      publishCount g' = publishCount g /\ flow_receiving g' = flow_receiving g
      /\ (sent (events r) = 0 \/ (sent (events r) = 1 /\ l = cleanupFlow))).
Proof.
  intros r g' n. subst r g' n. unfold publish_once, bind.
  destruct (build_and_send_confined E flowDestination usingDurable queueName t g)
    as [_ [(F1 & C1 & _) _]].
  pose proof (build_and_send_sent usingDurable queueName t g) as Hsent.
  destruct (build_and_send E flowDestination usingDurable queueName t g)
    as [[[l | []] g1] es1]; unfold outcome, vars_after, events in *; simpl in *.
  - split; [discriminate |]. intros l' Hl'. injection Hl' as <-.
    destruct Hsent as [[Hr _] | (l' & Hr & Hs)]; [discriminate |].
    injection Hr as <-. auto.
  - assert (Hs1 : sent es1 = 1).
    { destruct Hsent as [[_ Hs] | (l' & Hr & _)]; [exact Hs | discriminate]. }
    destruct (count_and_toggle_effect E (t + length es1)%nat g1) as (C2 & F2).
    destruct (count_and_toggle_quiet (t + length es1)%nat g1) as [Ho2 Hs2].
    destruct (count_and_toggle E (t + length es1)%nat g1) as [[r2 g2] es2];
      unfold outcome, vars_after, events in *; simpl in *. subst r2.
    rewrite sleepInUs_run. simpl.
    destruct (synced_delivered E (t + length es1 + length es2)%nat g2) as (F3 & C3 & _).
    split; [| discriminate]. intros _.
    rewrite !sent_app, Hs1, Hs2, synced_sends_nothing.
    split; [reflexivity |]. rewrite F3, C3, C2, F2, C1, F1. auto.
Qed.

Lemma int_incr_below n : n < INT_MAX -> int_incr n = n + 1.
Proof.
  intros Hn. unfold int_incr. destruct (n =? INT_MAX) eqn:He; [| reflexivity].
  apply Z.eqb_eq in He. lia.
Qed.

Lemma sent_nonneg es : 0 <= sent es.
Proof. unfold sent. lia. Qed.

(** The publish loop: the counter is the number of messages published
    since it started, unless the loop was left because the last message
    could not be freed, and the flag is in step with it. *)
Lemma publish_loop_counts (fuel : nat) (usingDurable : bool) (queueName : string) :
  forall t g,
    in_step g -> publishCount g + Z.of_nat fuel <= INT_MAX ->
    let r := publish_loop E flowDestination fuel usingDurable queueName t g in
    let g' := vars_after r in
    in_step g'
    /\ sent (events r) <= Z.of_nat fuel
    /\ (publishCount g' = publishCount g + sent (events r)
        \/ (outcome r = inl cleanupFlow
            /\ publishCount g' + 1 = publishCount g + sent (events r)))
    /\ (outcome r = inr false -> sent (events r) = Z.of_nat fuel).
Proof.
  induction fuel as [| fuel IH]; intros t g Hg Hmax; simpl publish_loop.
  - unfold outcome, vars_after, events. simpl. change (sent []) with 0.
    split; [exact Hg |]. split; [lia |]. split; [left; lia | reflexivity].
  - unfold bind at 1. rewrite gotCtlC_run.
    set (es := synced_events E (flowMsgCallbackFunc E) t g).
    pose proof (synced_delivered E t g) as HD.
    pose proof (synced_sends_nothing t g) as Hes. fold es in Hes.
    set (g1 := synced_vars E (flowMsgCallbackFunc E) t g) in *.
    assert (H1 : in_step g1) by (eapply in_step_delivered; eassumption).
    destruct HD as (F1 & C1 & _).
    destruct (sig_gotCtlC E (t + length es)%nat).
    + unfold outcome, vars_after, events. simpl. rewrite app_nil_r, Hes.
      split; [exact H1 |]. split; [lia |]. split; [left; lia | discriminate].
    + unfold bind.
      destruct (publish_once_counts usingDurable queueName (t + length es)%nat g1)
        as [Hok Hjump].
      destruct (publish_once E flowDestination usingDurable queueName (t + length es)%nat g1)
        as [[[l | []] g2] es2]; unfold outcome, vars_after, events in *; simpl in *.
      * destruct (Hjump l eq_refl) as (C2 & F2 & Hs2).
        assert (H2 : in_step g2).
        { destruct H1 as [Hn Hf]. split; [rewrite C2; exact Hn | rewrite F2, C2; exact Hf]. }
        rewrite sent_app, Hes.
        split; [exact H2 |]. split; [lia |].
        split; [| discriminate].
        destruct Hs2 as [Hs2 | [Hs2 ->]]; rewrite Hs2; [left | right; split; auto]; lia.
      * destruct (Hok eq_refl) as (Hs2 & C2 & F2).
        rewrite (int_incr_below (publishCount g1)) in C2, F2 by lia.
        assert (H2 : in_step g2).
        { destruct H1 as [Hn Hf]. split; [lia |].
          rewrite F2, C2, Hf. symmetry. apply flag_after_succ, Hn. }
        destruct (IH (t + length es + length es2)%nat g2 H2 ltac:(lia))
          as (H3 & Hle & Hc & Hrun).
        destruct (publish_loop E flowDestination fuel usingDurable queueName
                    (t + length es + length es2)%nat g2) as [[r3 g3] es3].
        unfold outcome, vars_after, events in *. simpl in *.
        rewrite !sent_app, Hes, Hs2.
        split; [exact H3 |]. split; [lia |].
        split; [destruct Hc as [Hc | [Hc1 Hc2]]; [left | right; split; auto]; lia |].
        intros Hr. specialize (Hrun Hr). lia.
Qed.

Lemma sent_cons_unseen e es : unseen sent_message e = true -> sent (e :: es) = sent es.
Proof.
  unfold sent, unseen. simpl. destruct (sent_message e); [discriminate | reflexivity].
Qed.

(** What follows the loop when it was left through its test. *)
Lemma after_loop_run t g :
  exists es',
    ((let* c := gotCtlC E (flowMsgCallbackFunc E) in
      when c (printf "Got Ctrl-C, cleaning up\n" []));;
     ret true) t g
    = (inr true : label + bool, synced_vars E (flowMsgCallbackFunc E) t g, es')
    /\ sent es' = 0.
Proof.
  unfold bind. rewrite gotCtlC_run.
  pose proof (synced_sends_nothing t g) as Hes.
  destruct (sig_gotCtlC E _); simpl; eexists; (split; [reflexivity |]);
    rewrite ?app_nil_r, ?sent_app, Hes; reflexivity.
Qed.

Lemma publishing_counts (commandOpts : commonOptions) (queueName : string) (fuel : nat) t g :
  flow_receiving g = 1 -> Z.of_nat fuel <= INT_MAX ->
  let r := publishing E flowDestination commandOpts queueName fuel t g in
  let g' := vars_after r in
  in_step g'
  /\ (publishCount g' = sent (events r)
      \/ (outcome r = inl cleanupFlow /\ publishCount g' + 1 = sent (events r)))
  /\ (outcome r = inr false -> publishCount g' = Z.of_nat fuel).
Proof.
  intros Hf Hmax. unfold publishing.
  rewrite (bind_inr _ _ t g tt g [_] eq_refl).
  rewrite (bind_inr _ _ _ g tt (set_publishCount 0 g) [] eq_refl).
  set (g0 := set_publishCount 0 g).
  match goal with |- context [bind _ _ ?t0 g0] => generalize t0 end. intros t0.
  assert (H0 : in_step g0) by (split; [simpl; lia | simpl; rewrite Hf; reflexivity]).
  destruct (publish_loop_counts fuel (usingDurable commandOpts) queueName t0 g0 H0
              ltac:(simpl; lia)) as (H1 & Hle & Hc & Hrun).
  change (publishCount g0) with 0 in Hc.
  destruct (publish_loop E flowDestination fuel (usingDurable commandOpts) queueName t0 g0)
    as [[[l | left] g1] es1] eqn:Hloop;
    unfold outcome, vars_after, events in H1, Hle, Hc, Hrun; simpl in H1, Hle, Hc, Hrun.
  - rewrite (bind_inl _ _ _ _ _ _ _ Hloop).
    unfold outcome, vars_after, events. cbn [fst snd app].
    rewrite sent_cons_unseen by reflexivity.
    split; [exact H1 |]. split; [| discriminate].
    destruct Hc as [Hc | [Hc1 Hc2]]; [left | right; split; auto]; lia.
  - rewrite (bind_inr _ _ _ _ _ _ _ Hloop). cbv beta.
    destruct Hc as [Hc | [Hc1 _]]; [| discriminate].
    destruct left.
    + destruct (after_loop_run (t0 + length es1)%nat g1) as (es' & Htail & Hs').
      rewrite Htail.
      destruct (synced_delivered E (t0 + length es1)%nat g1) as (F & C & S).
      unfold outcome, vars_after, events. cbn [fst snd app].
      rewrite sent_cons_unseen by reflexivity. rewrite !sent_app, Hs'.
      split; [eapply in_step_delivered;
                [split; [exact F | split; [exact C | exact S]] | exact H1] |].
      split; [left; lia | discriminate].
    + unfold bind, ret. unfold outcome, vars_after, events. cbn [fst snd app length].
      rewrite sent_cons_unseen by reflexivity. rewrite !app_nil_r.
      split; [exact H1 |]. split; [left; lia |].
      intros _. specialize (Hrun eq_refl). lia.
Qed.

End Counting.

(** *** Acknowledgements while the sample is paused *)

Section Paused.
Variable E : env message.

(** While the flag is clear the context thread sends no
    acknowledgement, however many messages it hands to the callback. *)
Lemma deliver_silent_while_paused (ds : list message) : forall t g,
  flow_receiving g = 0 ->
  forallb (fun e => negb (is_sendAck e))
    (events (deliver (flowMsgCallbackFunc E) ds t g : (unit + unit) * vars * list event))
  = true.
Proof.
  induction ds as [| d ds IH]; intros t g Hf; [reflexivity |].
  simpl deliver. unfold bind, block.
  pose proof (callback_silent_while_paused E d t g Hf) as Hd.
  destruct (callback_delivered E d t g) as (F & _ & _).
  destruct (flowMsgCallbackFunc E d t g) as [[r g1] es1].
  unfold events, vars_after in *. simpl in *.
  specialize (IH (t + length es1)%nat g1 ltac:(congruence)).
  destruct (deliver (flowMsgCallbackFunc E) ds (t + length es1)%nat g1) as [[r2 g2] es2].
  simpl in *. rewrite forallb_app, Hd, IH. reflexivity.
Qed.

Lemma synced_silent_while_paused t g :
  flow_receiving g = 0 ->
  List.filter is_sendAck (synced_events E (flowMsgCallbackFunc E) t g) = [].
Proof.
  intros Hf. unfold synced_events, sync, bind, now. simpl. rewrite Nat.add_0_r.
  pose proof (deliver_silent_while_paused (sdk_pending E t) t g Hf) as Hd.
  destruct (deliver (flowMsgCallbackFunc E) (sdk_pending E t) t g) as [[r g1] es1].
  unfold events in *. simpl in *. revert Hd.
  induction es1 as [| e es IH]; [reflexivity |]. simpl. intros Hd.
  apply andb_prop in Hd. destruct Hd as [He Hes].
  destruct (is_sendAck e); [discriminate He | apply IH, Hes].
Qed.

(** The acknowledgements of the end of an iteration: one, for the ID in
    the slot, when the iteration is a tenth one, the flag is clear and
    the slot is taken; none otherwise. *)
Lemma count_and_toggle_acks t g :
  exists rc,
    List.filter is_sendAck (events (count_and_toggle E t g)) =
      if (Z.rem (int_incr (publishCount g)) 10 =? 0) && (flow_receiving g =? 0)
         && negb (unackedMsgId g =? 0)
      then [EvCall (solClient_flow_sendAck (unackedMsgId g)) rc]
      else [].
Proof.
  destruct (Z.rem (int_incr (publishCount g)) 10 =? 0) eqn:Hr;
    [apply Z.eqb_eq in Hr | apply Z.eqb_neq in Hr].
  2: { exists SOLCLIENT_OK. rewrite (count_and_toggle_between E t g Hr). reflexivity. }
  destruct (flow_receiving g =? 0) eqn:Hf;
    [apply Z.eqb_eq in Hf | apply Z.eqb_neq in Hf].
  2: { exists SOLCLIENT_OK. rewrite (count_and_toggle_pauses E t g Hr Hf). reflexivity. }
  rewrite count_and_toggle_counted.
  cbn [publishCount flow_receiving unackedMsgId set_publishCount].
  apply Z.eqb_eq in Hr. rewrite Hr, Hf. cbn [Z.eqb negb when andb].
  destruct (unackedMsgId g =? 0) eqn:Hs; cbn [negb when].
  - exists SOLCLIENT_OK. reflexivity.
  - set (g1 := set_publishCount (int_incr (publishCount g)) g).
    unfold bind. rewrite (call_run E (flowMsgCallbackFunc E) _ t g1).
    pose proof (synced_silent_while_paused t g1 Hf) as Hsil.
    set (es := synced_events E (flowMsgCallbackFunc E) t g1) in *.
    set (rc := sdk_rc E (t + length es)%nat (solClient_flow_sendAck (unackedMsgId g))).
    exists rc.
    destruct (is_OK rc); cbn; rewrite ?app_nil_r, !List.filter_app, Hsil; reflexivity.
Qed.

End Paused.

(** C1 (amended): the Flow is created with client acknowledgement and a
    window of one message, and [main] creates no Flow otherwise.  The
    slot [unackedMsgId] is the only record of a withheld message: a
    delivery changes nothing else, and the slot only while the flag is
    clear.  A delivery whose message dump and message-ID lookup succeed
    and that arrives while the flag is clear puts its own ID into the
    slot and prints the diagnostic exactly when the slot was taken, so
    that the ID that was there is forgotten.  When [main] ends an
    iteration it acknowledges at most one message, the one in the slot:
    the sample never has more than one withheld message to account
    for. *)
Theorem withheld_messages_within_window :
  forall (E : env message) (H : headers) (uuid : string)
         (flowDestination : solClient_destinationType_t * string)
         (commandOpts : commonOptions) (fuel : nat) (msg_p : message) (t : nat) (g : vars),
    (forall usingDurable queueName,
        prop_value (Macro "SOLCLIENT_FLOW_PROP_ACKMODE") (flowProps usingDurable queueName)
          = Some (Macro "SOLCLIENT_FLOW_PROP_ACKMODE_CLIENT")
        /\ max_unacked (flowProps usingDurable queueName) = Some 1)
    /\ forallb creates_flow_as_configured
         (events (main_body E H uuid flowDestination commandOpts fuel t g)) = true
    /\ delivered g (vars_after (flowMsgCallbackFunc E msg_p t g))
    /\ (flow_receiving g = 0 -> dump_succeeds E -> getMsgId_rc msg_p = SOLCLIENT_OK ->
        flowMsgCallbackFunc E msg_p t g =
          (inr tt, set_unackedMsgId (getMsgId_msgId msg_p) g,
           [ EvPrintf "Received message on flow. (Message ID: %lld).\n"
               [AInt (getMsgId_msgId msg_p)];
             EvCall solClient_msg_dump SOLCLIENT_OK ]
           ++ (if unackedMsgId g =? 0 then []
               else [diagnostic (getMsgId_msgId msg_p) (unackedMsgId g)])))
    /\ (exists rc,
          List.filter is_sendAck (events (count_and_toggle E t g)) =
            if (Z.rem (int_incr (publishCount g)) 10 =? 0) && (flow_receiving g =? 0)
               && negb (unackedMsgId g =? 0)
            then [EvCall (solClient_flow_sendAck (unackedMsgId g)) rc]
            else [])
    /\ (length (List.filter is_sendAck (events (count_and_toggle E t g))) <= 1)%nat.
Proof.
  intros E H uuid flowDestination commandOpts fuel msg_p t g.
  destruct (main_body_confined E H uuid flowDestination commandOpts fuel t g) as [HP _].
  split; [intros usingDurable queueName; split; reflexivity |].
  split; [exact (forallb_weaken _ _ _ expected_creates_flow HP) |].
  split; [apply callback_delivered |].
  split; [intros Hf Hdump Hid; apply callback_withholds; assumption |].
  destruct (count_and_toggle_acks E t g) as [rc Hacks].
  split; [exists rc; exact Hacks |].
  rewrite Hacks. destruct (_ && _); simpl; lia.
Qed.

(** The state [paused_with_5] and the Flow of the calm run. *)
Example paused_with_5_value :
  paused_with_5 = {| flow_receiving := 0; unackedMsgId := 5; publishCount := 10 |}.
Proof. reflexivity. Qed.

Example calm_run_creates_flow :
  In (solClient_session_createFlow (flowProps false "uuid") flow_p)
     (calls_of (events calm_run)).
Proof. vm_compute. tauto. Qed.

(** C1 as stated fails: message 7 arrives while message 5 is withheld,
    but [solClient_msg_dump] fails; the callback returns before it looks
    at the slot, so no diagnostic is printed and the slot still holds 5.
    It also fails for a message that is processed while 5 is in the slot
    and the flag is set: message 7 is acknowledged at once, without a
    diagnostic, and the slot still holds 5. *)
Lemma withheld_delivery_without_diagnostic :
  (reachable paused_with_5
   /\ unackedMsgId paused_with_5 = 5
   /\ ~ In (diagnostic 7 5)
          (events (flowMsgCallbackFunc (failing message) message_7 0%nat paused_with_5))
   /\ forallb (fun e => negb (is_stdout e))
        (skipn 1 (events (flowMsgCallbackFunc (failing message) message_7 0%nat paused_with_5)))
      = true
   /\ unackedMsgId
        (vars_after (flowMsgCallbackFunc (failing message) message_7 0%nat paused_with_5)) = 5)
  /\ (unackedMsgId overtaken_with_5 = 5
      /\ ~ In (diagnostic 7 5)
             (events (flowMsgCallbackFunc (calm message) message_7 0%nat overtaken_with_5))
      /\ calls_of (events (flowMsgCallbackFunc (calm message) message_7 0%nat overtaken_with_5))
         = [solClient_msg_dump; solClient_flow_sendAck 7]
      /\ unackedMsgId
           (vars_after (flowMsgCallbackFunc (calm message) message_7 0%nat overtaken_with_5))
         = 5).
Proof.
  split.
  - split.
    { exists 9.
      exists [CountAndToggle (calm message) 0%nat; Deliver (calm message) message_5 0%nat].
      reflexivity. }
    split; [reflexivity |].
    split; [| split; reflexivity].
    vm_compute. intros [Hd | [Hd | [Hd | [Hd | []]]]]; discriminate Hd.
  - split; [reflexivity |].
    split; [| split; reflexivity].
    vm_compute. intros [Hd | [Hd | [Hd | [Hd | []]]]]; discriminate Hd.
Qed.

(** C6 (amended): every tenth iteration of the publish loop toggles
    [flow_receiving]: an iteration that ends normally has published one
    message, counted it and switched the flag if the new count is a
    multiple of ten, so that through the whole publish section the
    counter is the number of messages published and the flag is set
    exactly while that number is in 0..9, 20..29, ...; while the flag is
    set the callback acknowledges every delivered message whose dump and
    ID lookup succeed; while it is clear the callback sends no
    acknowledgement and keeps the ID in the slot; the toggle back
    acknowledges the withheld ID, if any, and clears the slot.  The
    sample never calls [solClient_flow_stop] or [solClient_flow_start]. *)
Theorem acknowledgements_alternate_every_ten :
  forall (E : env message) (H : headers) (uuid : string)
         (flowDestination : solClient_destinationType_t * string)
         (commandOpts : commonOptions) (queueName : string) (fuel : nat)
         (msg_p : message) (l : label) (t : nat) (g : vars),
    (let g' := vars_after (count_and_toggle E t g) in
     let n := int_incr (publishCount g) in
     publishCount g' = n
     /\ flow_receiving g' =
          (if Z.rem n 10 =? 0 then if flow_receiving g =? 0 then 1 else 0
           else flow_receiving g))
    /\ (let r := publish_once E flowDestination (usingDurable commandOpts) queueName t g in
        let n := int_incr (publishCount g) in
        (outcome r = inr tt ->
         sent (events r) = 1
         /\ publishCount (vars_after r) = n
         /\ flow_receiving (vars_after r) =
              (if Z.rem n 10 =? 0 then if flow_receiving g =? 0 then 1 else 0
               else flow_receiving g))
        /\ (forall l', outcome r = inl l' ->
            publishCount (vars_after r) = publishCount g
            /\ flow_receiving (vars_after r) = flow_receiving g
            /\ (sent (events r) = 0 \/ (sent (events r) = 1 /\ l' = cleanupFlow))))
    /\ (flow_receiving g = 1 -> Z.of_nat fuel <= INT_MAX ->
        let r := publishing E flowDestination commandOpts queueName fuel t g in
        in_step (vars_after r)
        /\ (publishCount (vars_after r) = sent (events r)
            \/ (outcome r = inl cleanupFlow
                /\ publishCount (vars_after r) + 1 = sent (events r)))
        /\ (outcome r = inr false -> publishCount (vars_after r) = Z.of_nat fuel))
    /\ (flow_receiving g <> 0 -> dump_succeeds E -> getMsgId_rc msg_p = SOLCLIENT_OK ->
        calls_of (events (flowMsgCallbackFunc E msg_p t g))
          = [solClient_msg_dump; solClient_flow_sendAck (getMsgId_msgId msg_p)]
        /\ vars_after (flowMsgCallbackFunc E msg_p t g) = g)
    /\ (flow_receiving g = 0 ->
        forallb (fun e => negb (is_sendAck e)) (events (flowMsgCallbackFunc E msg_p t g))
          = true
        /\ (dump_succeeds E -> getMsgId_rc msg_p = SOLCLIENT_OK ->
            vars_after (flowMsgCallbackFunc E msg_p t g)
              = set_unackedMsgId (getMsgId_msgId msg_p) g))
    /\ (flow_receiving g = 0 -> Z.rem (int_incr (publishCount g)) 10 = 0 ->
        let r := count_and_toggle E t g in
        flow_receiving (vars_after r) = 1 /\ unackedMsgId (vars_after r) = 0
        /\ (unackedMsgId g <> 0 ->
            exists rc, In (EvCall (solClient_flow_sendAck (unackedMsgId g)) rc) (events r))
        /\ (unackedMsgId g = 0 -> events r = []))
    /\ forallb (fun e => negb (is_stop_or_start e))
         (events (main_body E H uuid flowDestination commandOpts fuel t g)) = true
    /\ forallb (fun e => negb (is_stop_or_start e)) (events (from_label E l t g)) = true
    /\ forallb (fun e => negb (is_stop_or_start e)) (events (flowMsgCallbackFunc E msg_p t g))
       = true.
Proof.
  intros E H uuid flowDestination commandOpts queueName fuel msg_p l t g.
  split; [apply count_and_toggle_effect |].
  split; [apply publish_once_counts |].
  split.
  { intros Hf Hmax.
    apply (publishing_counts E flowDestination commandOpts queueName fuel t g Hf Hmax). }
  split; [intros Hf Hdump Hid; apply callback_acks; assumption |].
  split.
  { intros Hf. split; [apply callback_silent_while_paused, Hf |].
    intros Hdump Hid. rewrite (callback_withholds E msg_p t g Hdump Hid Hf). reflexivity. }
  split.
  { intros Hf Hr r.
    destruct (count_and_toggle_resumes E t g Hr Hf) as (F & S & _ & A & N). auto. }
  split.
  { apply (forallb_weaken _ _ _ expected_no_stop_or_start).
    apply (main_body_confined E H uuid flowDestination commandOpts fuel t g). }
  split.
  { apply (forallb_weaken _ _ _ expected_no_stop_or_start).
    apply (from_label_confined E l t g). }
  apply (forallb_weaken _ _ _ expected_no_stop_or_start).
  apply (callback_confined E msg_p t g).
Qed.

(** The flag through the first thirty messages. *)
Example flag_after_values :
  map flag_after [0; 9; 10; 19; 20; 29] = [1; 1; 0; 0; 1; 1].
Proof. reflexivity. Qed.

(** The twentieth iteration ends while message 5 is withheld. *)
Example toggle_back_acknowledges_5 :
  calls_of (events (count_and_toggle (calm message) 0%nat (set_publishCount 19 paused_with_5)))
    = [solClient_flow_sendAck 5]
  /\ vars_after (count_and_toggle (calm message) 0%nat (set_publishCount 19 paused_with_5))
     = {| flow_receiving := 1; unackedMsgId := 0; publishCount := 20 |}.
Proof. split; reflexivity. Qed.

(** C6 as stated fails: the flag is set and message 7 is delivered, but
    [solClient_msg_dump] fails; the callback returns after the dump and
    the message is not acknowledged. *)
Lemma delivery_not_processed_not_acked :
  flow_receiving (initial_vars 0) = 1
  /\ calls_of (events (flowMsgCallbackFunc (failing message) message_7 0%nat (initial_vars 0)))
     = [solClient_msg_dump]
  /\ forallb (fun e => negb (is_sendAck e))
       (events (flowMsgCallbackFunc (failing message) message_7 0%nat (initial_vars 0))) = true.
Proof. repeat split. Qed.

End FlowFacts.

(** ** messageReplay.c *)

Module ReplayFacts.
Import CStr Sdk Run Common MessageReplay ReplayTerms Obs RunFacts Step CommonFacts.
Local Open Scope prog_scope.

(** *** Code that keeps a relation between variables and events *)

Section Obeys.
Context {G D : Type}.
Variable Q : G -> list event -> G -> Prop.
Hypothesis Q_refl : forall g, Q g [] g.
Hypothesis Q_trans :
  forall g1 es1 g2 es2 g3, Q g1 es1 g2 -> Q g2 es2 g3 -> Q g1 (es1 ++ es2) g3.
Variable E : env D.
Variable callback : D -> prog G unit unit.
Hypothesis callback_obeys : forall d, obeys Q (callback d).

Lemma obeys_deliver {L} (ds : list D) : obeys Q (deliver callback ds : prog G L unit).
Proof.
  induction ds as [| d ds IH]; intros t g; simpl; [apply Q_refl |].
  unfold bind, block. pose proof (callback_obeys d t g) as Hd.
  destruct (callback d t g) as [[r g1] es1].
  specialize (IH (t + length es1)%nat g1).
  destruct (deliver callback ds (t + length es1)%nat g1) as [[r2 g2] es2].
  unfold events, vars_after in *. simpl in *. eapply Q_trans; eassumption.
Qed.

Lemma synced_obeys t g :
  Q g (synced_events E callback t g) (synced_vars E callback t g).
Proof.
  unfold synced_events, synced_vars, sync, bind, now. simpl. rewrite Nat.add_0_r.
  pose proof (@obeys_deliver unit (sdk_pending E t) t g) as Hd.
  destruct (deliver callback (sdk_pending E t) t g) as [[r g1] es1]. exact Hd.
Qed.

End Obeys.

(** *** The receive callback *)

Lemma received_app es1 es2 : received (es1 ++ es2) = received es1 + received es2.
Proof. unfold received. rewrite List.filter_app, List.length_app. lia. Qed.

Lemma received_nonneg es : 0 <= received es.
Proof. unfold received. lia. Qed.

Lemma counts_messages_refl g : counts_messages g [] g.
Proof. unfold counts_messages, received. simpl. lia. Qed.

Lemma counts_messages_trans g1 es1 g2 es2 g3 :
  counts_messages g1 es1 g2 -> counts_messages g2 es2 g3 ->
  counts_messages g1 (es1 ++ es2) g3.
Proof.
  unfold counts_messages. rewrite received_app. intros H1 H2 Hmax.
  pose proof (received_nonneg es1). pose proof (received_nonneg es2).
  rewrite H2; rewrite H1; lia.
Qed.

Section Callback.
Variable E : env direct_message.
Variable msg_p : direct_message.

(** One message: the counter goes up by one and one line reports it. *)
Lemma callback_counts_one t g :
  vars_after (messageReceiveCallback E msg_p t g)
    = {| v_msgReceived_s := int_incr (v_msgReceived_s g) |}
  /\ received (events (messageReceiveCallback E msg_p t g)) = 1.
Proof.
  unfold messageReceiveCallback, bind, when, printf, emit, sdk, now, get, modify, ret, goto.
  simpl.
  destruct (is_OK (sdk_rc E _ solClient_msg_dump)); simpl; [| split; reflexivity].
  destruct (is_OK (sdk_rc E _ solClient_msg_getSmfPtr)); simpl; [| split; reflexivity].
  destruct (is_OK (sdk_rc E _ solClient_session_sendSmf)); simpl; split; reflexivity.
Qed.

Lemma callback_counts : obeys counts_messages (messageReceiveCallback E msg_p).
Proof.
  intros t g. unfold counts_messages.
  destruct (callback_counts_one t g) as [-> ->].
  unfold int_incr. simpl. intros Hmax.
  destruct (v_msgReceived_s g =? INT_MAX) eqn:He; [apply Z.eqb_eq in He; lia | reflexivity].
Qed.

Lemma callback_no_sleep :
  confined (fun e => negb (is_sleep e)) (fun _ _ => True) (messageReceiveCallback E msg_p).
Proof.
  unfold messageReceiveCallback.
  confined_with idtac ltac:(first [intros; reflexivity | intros; exact I]).
Qed.

End Callback.

(** *** The wait loop *)

Section Wait.
Variable E : env direct_message.
Context {L : Type}.

Local Abbreviation wait := (@wait_for_100 E L).
Local Abbreviation synced_vars := (synced_vars E (messageReceiveCallback E)).
Local Abbreviation synced_events := (synced_events E (messageReceiveCallback E)).

(** One evaluation of the loop test. *)
Lemma wait_step (fuel : nat) t g :
  let g1 := synced_vars t g in
  let es1 := synced_events t g ++ [EvLoad msgReceived_s (v_msgReceived_s g1)] in
  wait (S fuel) t g =
    if v_msgReceived_s g1 <? 100
    then (outcome (wait fuel (t + length es1)%nat g1),
          vars_after (wait fuel (t + length es1)%nat g1),
          es1 ++ events (wait fuel (t + length es1)%nat g1))
    else (inr true, g1, es1).
Proof.
  intros g1 es1. simpl wait_for_100.
  rewrite (bind_inr _ _ _ _ _ _ _ (load_run E (messageReceiveCallback E) _ _ t g)).
  fold g1 es1. destruct (v_msgReceived_s g1 <? 100); [reflexivity |].
  unfold outcome, vars_after, events. simpl. rewrite app_nil_r. reflexivity.
Qed.

Lemma wait_no_sleep (fuel : nat) :
  confined (fun e => negb (is_sleep e)) (fun _ _ => True) (wait fuel).
Proof.
  induction fuel as [| fuel IH]; simpl.
  - confined_with idtac ltac:(first [intros; reflexivity | intros; exact I]).
  - apply confined_bind; [auto | | intros n].
    + confined_with ltac:(apply callback_no_sleep)
                    ltac:(first [intros; reflexivity | intros; exact I]).
    + destruct (n <? 100); [exact IH |].
      confined_with idtac ltac:(first [intros; reflexivity | intros; exact I]).
Qed.

Lemma wait_counts (fuel : nat) : obeys counts_messages (wait fuel).
Proof.
  induction fuel as [| fuel IH]; intros t g.
  - apply counts_messages_refl.
  - rewrite wait_step.
    pose proof (synced_obeys counts_messages counts_messages_refl counts_messages_trans E
                  (messageReceiveCallback E) (callback_counts E) t g) as Hs.
    set (g1 := synced_vars t g) in *.
    set (es1 := synced_events t g ++ [EvLoad msgReceived_s (v_msgReceived_s g1)]).
    assert (H1 : counts_messages g es1 g1).
    { unfold es1. rewrite <- (app_nil_r (synced_events t g)) in Hs.
      unfold counts_messages in *. rewrite received_app in *.
      change (received [EvLoad msgReceived_s (v_msgReceived_s g1)]) with 0.
      change (received []) with 0 in Hs. exact Hs. }
    destruct (v_msgReceived_s g1 <? 100); unfold events, vars_after; simpl; [| exact H1].
    eapply counts_messages_trans; [exact H1 | apply IH].
Qed.

Lemma synced_no_loads t g : loads_of msgReceived_s (synced_events t g) = [].
Proof.
  assert (Hc : forall d, confined (fun e => match e with EvLoad _ _ => false | _ => true end)
                           (fun _ _ => True) (messageReceiveCallback E d)).
  { intros d. unfold messageReceiveCallback.
    confined_with idtac ltac:(first [intros; reflexivity | intros; exact I]). }
  destruct (confined_sync (L := unit) _ _ (fun _ => I) (fun _ _ _ _ _ => I) E _ Hc t g)
    as [HP _].
  fold (synced_events t g) in HP. revert HP.
  induction (synced_events t g) as [| e es IH]; [reflexivity |].
  simpl. intros HP. apply andb_prop in HP. destruct HP as [He Hes].
  unfold loads_of in *. simpl. destruct e; try discriminate He; auto.
Qed.

(** The loop is left exactly when a read of the counter gives 100 or
    more. *)
Lemma wait_outcome (fuel : nat) t g :
  (outcome (wait fuel t g) = inr true \/ outcome (wait fuel t g) = inr false)
  /\ (outcome (wait fuel t g) = inr true <->
      exists z, In z (loads_of msgReceived_s (events (wait fuel t g))) /\ 100 <= z)
  /\ (outcome (wait fuel t g) = inr true -> 100 <= v_msgReceived_s (vars_after (wait fuel t g)))
  /\ (outcome (wait fuel t g) = inr false -> (0 < fuel)%nat ->
      v_msgReceived_s (vars_after (wait fuel t g)) < 100).
Proof.
  revert t g. induction fuel as [| fuel IH]; intros t g.
  - unfold outcome, vars_after, events. simpl.
    repeat apply conj; auto; try (intros; discriminate); try lia.
    intros (z & [] & _).
  - rewrite wait_step.
    set (g1 := synced_vars t g).
    set (es1 := synced_events t g ++ [EvLoad msgReceived_s (v_msgReceived_s g1)]).
    destruct (IH (t + length es1)%nat g1) as (Hb & Hiff & Hge & Hlt).
    assert (Hloads : loads_of msgReceived_s es1 = [v_msgReceived_s g1]).
    { unfold es1, loads_of. rewrite omap_app. fold (loads_of msgReceived_s (synced_events t g)).
      rewrite synced_no_loads. reflexivity. }
    destruct (v_msgReceived_s g1 <? 100) eqn:Hn;
      [apply Z.ltb_lt in Hn | apply Z.ltb_ge in Hn];
      unfold outcome, vars_after, events in *; simpl in *.
    + split; [exact Hb |]. split; [| split; [exact Hge |]].
      * rewrite Hiff. unfold loads_of in *. rewrite omap_app, Hloads.
        split; intros (z & Hz & Hle); exists z; (split; [| exact Hle]).
        -- right. exact Hz.
        -- destruct Hz as [<- | Hz]; [lia | exact Hz].
      * intros Hf _. destruct fuel as [| fuel']; [simpl; exact Hn |].
        apply Hlt; [exact Hf | lia].
    + split; [left; reflexivity |]. split; [| split; [intros _; exact Hn | discriminate]].
      split; [intros _ | reflexivity].
      exists (v_msgReceived_s g1). split; [rewrite Hloads; left; reflexivity | exact Hn].
Qed.

(** More evaluations of the test do not change a run that has left the
    loop. *)
Lemma wait_more_fuel (fuel fuel' : nat) t g :
  (fuel <= fuel')%nat -> outcome (wait fuel t g) = inr true ->
  wait fuel' t g = wait fuel t g.
Proof.
  revert fuel' t g. induction fuel as [| fuel IH]; intros fuel' t g Hle Ho;
    [discriminate Ho |].
  destruct fuel' as [| fuel']; [lia |].
  rewrite !wait_step in *.
  destruct (v_msgReceived_s (synced_vars t g) <? 100); [| reflexivity].
  unfold outcome in Ho at 1. simpl in Ho.
  rewrite (IH fuel' _ _ ltac:(lia) Ho). reflexivity.
Qed.

(** With nothing delivered the loop does nothing but read the counter. *)
Lemma wait_silent (fuel : nat) t g :
  silent E -> v_msgReceived_s g < 100 ->
  wait fuel t g = (inr false, g, repeat (EvLoad msgReceived_s (v_msgReceived_s g)) fuel).
Proof.
  intros Hs Hg. revert t. induction fuel as [| fuel IH]; intros t; [reflexivity |].
  rewrite wait_step.
  assert (Hv : synced_vars t g = g /\ synced_events t g = []).
  { unfold Obs.synced_vars, Obs.synced_events, sync, bind, now. simpl. rewrite Hs. auto. }
  destruct Hv as [-> ->]. apply Z.ltb_lt in Hg. rewrite Hg.
  rewrite IH. reflexivity.
Qed.

End Wait.

(** *** The messages received during the wait *)

Section Deliveries.
Variable E : env direct_message.
Context {L : Type}.

Local Abbreviation wait := (@wait_for_100 E L).
Local Abbreviation synced_vars := (synced_vars E (messageReceiveCallback E)).
Local Abbreviation synced_events := (synced_events E (messageReceiveCallback E)).

(** Every message handed to the callback is received. *)
Lemma deliver_received (ds : list direct_message) : forall t g,
  received (events (deliver (messageReceiveCallback E) ds t g
                    : (unit + unit) * vars * list event))
    = Z.of_nat (length ds).
Proof.
  induction ds as [| d ds IH]; intros t g; [reflexivity |].
  simpl deliver. unfold bind, block.
  destruct (callback_counts_one E d t g) as [_ H1].
  destruct (messageReceiveCallback E d t g) as [[r g1] es1].
  specialize (IH (t + length es1)%nat g1).
  destruct (deliver (messageReceiveCallback E) ds (t + length es1)%nat g1) as [[r2 g2] es2].
  unfold events in *. simpl in *. rewrite received_app, H1, IH. lia.
Qed.

Lemma synced_received t g :
  received (synced_events t g) = Z.of_nat (length (sdk_pending E t)).
Proof.
  unfold Obs.synced_events, sync, bind, now. simpl. rewrite Nat.add_0_r.
  pose proof (deliver_received (sdk_pending E t) t g) as Hd.
  destruct (deliver (messageReceiveCallback E) (sdk_pending E t) t g) as [[r g1] es1].
  exact Hd.
Qed.

(** The messages that are pending at the first read are received during
    the wait. *)
Lemma wait_receives_pending (fuel : nat) t g :
  (0 < fuel)%nat ->
  Z.of_nat (length (sdk_pending E t)) <= received (events (wait fuel t g)).
Proof.
  intros Hf. destruct fuel as [| fuel]; [lia |]. rewrite wait_step.
  destruct (_ <? 100); unfold events; simpl;
    rewrite !received_app, synced_received;
    pose proof (received_nonneg (snd (wait fuel
      (t + length (synced_events t g ++
                   [EvLoad msgReceived_s (v_msgReceived_s (synced_vars t g))]))%nat
      (synced_vars t g))));
    change (received [EvLoad msgReceived_s (v_msgReceived_s (synced_vars t g))]) with 0; lia.
Qed.

(** A hundred messages by the first read end the wait there. *)
Lemma wait_ends_at_first_read (fuel : nat) t g :
  (0 < fuel)%nat ->
  v_msgReceived_s g + Z.of_nat (length (sdk_pending E t)) <= INT_MAX ->
  100 <= v_msgReceived_s g + Z.of_nat (length (sdk_pending E t)) ->
  outcome (wait fuel t g) = inr true
  /\ loads_of msgReceived_s (events (wait fuel t g))
     = [v_msgReceived_s g + Z.of_nat (length (sdk_pending E t))].
Proof.
  intros Hf Hmax Hge. destruct fuel as [| fuel]; [lia |]. rewrite wait_step.
  pose proof (synced_obeys counts_messages counts_messages_refl counts_messages_trans E
                (messageReceiveCallback E) (callback_counts E) t g) as Hs.
  unfold counts_messages in Hs. rewrite synced_received in Hs. specialize (Hs Hmax).
  fold (synced_vars t g) in Hs. rewrite Hs.
  destruct (_ <? 100) eqn:Hn; [apply Z.ltb_lt in Hn; lia |].
  unfold outcome, events. simpl. split; [reflexivity |].
  unfold loads_of. rewrite omap_app. fold (loads_of msgReceived_s (synced_events t g)).
  rewrite (synced_no_loads E). reflexivity.
Qed.

End Deliveries.


(** A hundred messages end the wait at the first read; ninety-nine do
    not end it. *)
Example wait_ends_after_100 :
  @wait_for_100 (delivers_at_start 100) Empty_set 1%nat 0%nat initial_vars
    = (inr true, {| v_msgReceived_s := 100 |},
       events (@wait_for_100 (delivers_at_start 100) Empty_set 1%nat 0%nat initial_vars))
  /\ loads_of msgReceived_s
       (events (@wait_for_100 (delivers_at_start 100) Empty_set 1%nat 0%nat initial_vars)) = [100].
Proof. split; vm_compute; reflexivity. Qed.

Example wait_goes_on_after_99 :
  outcome (@wait_for_100 (delivers_at_start 99) Empty_set 50%nat 0%nat initial_vars) = inr false
  /\ loads_of msgReceived_s
       (events (@wait_for_100 (delivers_at_start 99) Empty_set 50%nat 0%nat initial_vars))
     = repeat 99 50%nat.
Proof. split; vm_compute; reflexivity. Qed.

End ReplayFacts.

(** ** adPubAck.c *)

Module AckFacts.
Import CStr Sdk Run Common Terms AdPubAck AckTerms Obs RunFacts Step CommonFacts.
Local Open Scope prog_scope.

(** *** Creation of an entry *)

Lemma new_correlation_entry_eq {L} (loop : Z) t g :
  let a := brk g in
  let g1 := set_brk (S a) (set_heap (<[a := fresh_entry loop]> (heap g)) g) in
  let g2 := match msgMemoryListTail_p g with
            | Some _ => write_entry (msgMemoryListTail_p g) (set_next_p (Some a)) g1
            | None => g1
            end in
  let g3 := match msgMemoryListHead_p g with
            | None => set_head (Some a) g2
            | Some _ => g2
            end in
  @new_correlation_entry L loop t g = (inr a, set_tail (Some a) g3, [EvMalloc a]).
Proof.
  unfold new_correlation_entry, bind, get, emit, modify, when, ret. simpl.
  destruct (msgMemoryListTail_p g) as [b |] eqn:Ht; simpl.
  - unfold write_entry. simpl.
    destruct (<[brk g:=_]> (heap g) !! b) as [e |]; simpl;
      rewrite ?Ht; destruct (msgMemoryListHead_p g) as [h |] eqn:Hh; simpl;
      rewrite ?Hh; reflexivity.
  - destruct (msgMemoryListHead_p g) as [h |] eqn:Hh; simpl; rewrite ?Hh; reflexivity.
Qed.

Lemma new_correlation_entry_run {L} (loop : Z) t g :
  msgMemoryListTail_p g <> Some (brk g) ->
  let a := brk g in
  let r := @new_correlation_entry L loop t g in
  outcome r = inr a
  /\ events r = [EvMalloc a]
  /\ heap (vars_after r) !! a = Some (fresh_entry loop)
  /\ msgMemoryListTail_p (vars_after r) = Some a
  /\ msgMemoryListHead_p (vars_after r)
     = match msgMemoryListHead_p g with None => Some a | Some h => Some h end
  /\ (forall b e, msgMemoryListTail_p g = Some b -> heap g !! b = Some e ->
      heap (vars_after r) !! b = Some (set_next_p (Some a) e)).
Proof.
  intros Hfresh a r. subst a r. rewrite new_correlation_entry_eq.
  unfold outcome, events, vars_after. simpl.
  split; [reflexivity |]. split; [reflexivity |].
  destruct (msgMemoryListTail_p g) as [b |] eqn:Ht.
  - assert (Hb : b <> brk g) by congruence.
    unfold write_entry. simpl. rewrite lookup_insert_ne by congruence.
    destruct (heap g !! b) as [e |] eqn:Hb'; simpl;
      destruct (msgMemoryListHead_p g) as [h |] eqn:Hh; simpl.
    all: split; [rewrite ?lookup_insert_ne by congruence; apply lookup_insert_eq |].
    all: split; [reflexivity |]; split; [rewrite ?Hh; reflexivity |].
    all: intros b' e' Hb1 Hb2; inversion Hb1; subst b'; try congruence.
    all: rewrite lookup_insert_eq; congruence.
  - destruct (msgMemoryListHead_p g) as [h |] eqn:Hh; simpl.
    all: split; [apply lookup_insert_eq |].
    all: split; [reflexivity |]; split; [rewrite ?Hh; reflexivity |]; intros; discriminate.
Qed.

(** *** The event callback *)

Section Callback.
Variable E : env eventInfo.

Lemma callback_acknowledgement (a : nat) (e : messageCorrelationStruct_t) t g :
  heap g !! a = Some e ->
  adPubAck_eventCallback E (SOLCLIENT_SESSION_EVENT_ACKNOWLEDGEMENT, Some a) t g =
    (inr tt, set_heap (<[a := set_flags true true e]> (heap g)) g,
     [ EvLog SOLCLIENT_LOG_INFO "adPubAck_eventCallback() called - %s\n"
         [ASessionEventToString SOLCLIENT_SESSION_EVENT_ACKNOWLEDGEMENT];
       EvPrintf "adPubAck_eventCallback() correlation info - ID: %i\n" [AInt (msgId e)] ]).
Proof.
  intros Ha.
  unfold adPubAck_eventCallback, bind, solClient_log, printf, emit, get, modify,
    correlation_msgId, write_entry.
  simpl. rewrite Ha. simpl. rewrite Ha. reflexivity.
Qed.

Lemma callback_rejected (a : nat) (e : messageCorrelationStruct_t) t g :
  heap g !! a = Some e ->
  let errorInfo_p := sdk_errorInfo E t in
  adPubAck_eventCallback E (SOLCLIENT_SESSION_EVENT_REJECTED_MSG_ERROR, Some a) t g =
    (inr tt, set_heap (<[a := set_flags true false e]> (heap g)) g,
     [ EvPrintf
         "adPubAck_eventCallback() called - %s; subCode %s, responseCode %d, reason %s\n"
         [ ASessionEventToString SOLCLIENT_SESSION_EVENT_REJECTED_MSG_ERROR;
           ASubCodeToString (subCode errorInfo_p);
           AInt (responseCode errorInfo_p);
           AStr (errorStr errorInfo_p) ];
       EvPrintf "adPubAck_eventCallback() correlation info - ID: %i\n" [AInt (msgId e)] ]).
Proof.
  intros Ha.
  unfold adPubAck_eventCallback, bind, solClient_getLastErrorInfo, now, ret, printf, emit,
    get, modify, correlation_msgId, write_entry.
  simpl. rewrite Ha. simpl. rewrite Ha. reflexivity.
Qed.

(** Every other event leaves the entries alone. *)
Lemma callback_other (sessionEvent : solClient_session_event_t) (correlation_p : option nat)
    t g :
  sessionEvent <> SOLCLIENT_SESSION_EVENT_ACKNOWLEDGEMENT ->
  sessionEvent <> SOLCLIENT_SESSION_EVENT_REJECTED_MSG_ERROR ->
  vars_after (adPubAck_eventCallback E (sessionEvent, correlation_p) t g) = g.
Proof.
  intros H1 H2. destruct sessionEvent; try congruence; reflexivity.
Qed.

Lemma callback_reports_acked (eventInfo_p : eventInfo) :
  confined reports_acked (fun _ _ => True) (adPubAck_eventCallback E eventInfo_p).
Proof.
  destruct eventInfo_p as [sessionEvent correlation_p].
  unfold adPubAck_eventCallback.
  destruct sessionEvent; simpl;
    confined_with idtac ltac:(first [intros; reflexivity | intros; exact I]).
Qed.

End Callback.

(** *** The freeing loops *)

Section Freeing.
Variable E : env eventInfo.
Context {L : Type}.

Local Abbreviation synced_vars := (synced_vars E (adPubAck_eventCallback E)).
Local Abbreviation synced_events := (synced_events E (adPubAck_eventCallback E)).

(** The shared body: the line for entry [e], the message is freed, then
    the entry at [p]. *)
Lemma free_head_run (p : nat) (e : messageCorrelationStruct_t) t g :
  let g1 := match next_p e with
            | None => set_tail None (set_head None g)
            | Some _ => set_head (next_p e) g
            end in
  let gs := synced_vars (t + 1)%nat g1 in
  let es := synced_events (t + 1)%nat g1 in
  let rc := sdk_rc E (t + 1 + length es)%nat solClient_msg_free in
  @free_head E L p e t g =
    (inr tt, set_heap (delete p (heap gs)) gs,
     freeing_line e :: es ++ [EvCall solClient_msg_free rc; EvFree p]).
Proof.
  intros g1 gs es rc. unfold free_head.
  unfold bind at 1, printf at 1, emit at 1. unfold bind at 1, modify at 1.
  unfold bind at 1.
  assert (Hw : when (bool_decide (next_p e = None)) (modify (set_tail None))
                 (t + length [EvPrintf freeing_fmt
                                [AInt (msgId e); AInt_of_BOOL (isAcked e);
                                 AInt_of_BOOL (isAccepted e)]] + length (@nil event))%nat
                 (set_head (next_p e) g)
               = (inr tt : L + unit, g1, [])).
  { subst g1. destruct (next_p e); reflexivity. }
  rewrite Hw. cbn [length app]. rewrite !Nat.add_0_r.
  unfold bind at 1. rewrite (call_run E (adPubAck_eventCallback E) _ (t + 1)%nat g1).
  fold gs es rc. unfold bind, modify, emit. simpl.
  rewrite <- List.app_assoc. reflexivity.
Qed.

Lemma free_head_reports_acked (p : nat) (e : messageCorrelationStruct_t) :
  isAcked e = true ->
  confined reports_acked (fun _ _ => True) (@free_head E L p e).
Proof.
  intros He. unfold free_head.
  confined_with ltac:(apply callback_reports_acked)
                ltac:(first [intros; rewrite ?He; reflexivity | intros; exact I]).
Qed.

Lemma free_while_acked_reports_acked (fuel : nat) :
  confined reports_acked (fun _ _ => True) (@free_while_acked E L fuel).
Proof.
  induction fuel as [| fuel IH].
  - simpl. confined_with idtac ltac:(first [intros; reflexivity | intros; exact I]).
  - simpl. apply confined_bind; [auto | apply confined_get; auto | intros g].
    destruct (msgMemoryListHead_p g) as [p |]; [| apply confined_ret; auto].
    destruct (heap g !! p) as [e |]; [| apply confined_modify; auto].
    destruct (isAcked e) eqn:He; [| apply confined_ret; auto].
    apply confined_bind; [auto | apply free_head_reports_acked, He | intros _; exact IH].
Qed.

(** Nothing is freed while the head of the list is not acknowledged. *)
Lemma free_while_acked_stops (fuel : nat) (p : nat) (e : messageCorrelationStruct_t) t g :
  msgMemoryListHead_p g = Some p -> heap g !! p = Some e -> isAcked e = false ->
  @free_while_acked E L fuel t g = (inr tt, g, []).
Proof.
  intros Hh Hp He. destruct fuel; simpl; unfold bind, get; simpl;
    rewrite Hh, Hp, He; reflexivity.
Qed.

(** An acknowledged head is reported and freed. *)
Lemma free_while_acked_frees (fuel : nat) (p : nat) (e : messageCorrelationStruct_t) t g :
  msgMemoryListHead_p g = Some p -> heap g !! p = Some e -> isAcked e = true ->
  exists rest,
    events (@free_while_acked E L (S fuel) t g) = freeing_line e :: rest
    /\ In (EvFree p) rest.
Proof.
  intros Hh Hp He. simpl. unfold bind at 1, get at 1. rewrite Hh, Hp, He.
  cbn [length]. rewrite Nat.add_0_r.
  rewrite (bind_inr _ _ _ _ _ _ _ (free_head_run p e t g)).
  unfold events at 1. simpl. eexists. split; [reflexivity |].
  rewrite <- !List.app_assoc. rewrite !in_app_iff. simpl. auto.
Qed.

(** The loop at the label [cleanup] frees the head whatever its flags. *)
Lemma free_all_frees (fuel : nat) (p : nat) (e : messageCorrelationStruct_t) t g :
  msgMemoryListHead_p g = Some p -> heap g !! p = Some e ->
  exists rest,
    events (@free_all E L (S fuel) t g) = freeing_line e :: rest
    /\ In (EvFree p) rest.
Proof.
  intros Hh Hp. simpl. unfold bind at 1, get at 1. rewrite Hh, Hp.
  cbn [length]. rewrite Nat.add_0_r.
  rewrite (bind_inr _ _ _ _ _ _ _ (free_head_run p e t g)).
  unfold events at 1. simpl. eexists. split; [reflexivity |].
  rewrite <- !List.app_assoc. rewrite !in_app_iff. simpl. auto.
Qed.

(** The callbacks keep the set of live entries. *)
Lemma same_entries_refl g : same_entries g g.
Proof. reflexivity. Qed.

Lemma same_entries_trans g1 g2 g3 :
  same_entries g1 g2 -> same_entries g2 g3 -> same_entries g1 g3.
Proof. unfold same_entries. congruence. Qed.

Lemma write_entry_same_entries (p : option nat)
    (f : messageCorrelationStruct_t -> messageCorrelationStruct_t) g :
  same_entries g (write_entry p f g).
Proof.
  unfold same_entries, write_entry. destruct p as [a |]; [| reflexivity].
  destruct (heap g !! a) as [e |] eqn:Ha; [| reflexivity].
  simpl. apply dom_insert_lookup_L. rewrite Ha. eauto.
Qed.

Lemma callback_same_entries (eventInfo_p : eventInfo) :
  confined (fun _ => true) same_entries (adPubAck_eventCallback E eventInfo_p).
Proof.
  destruct eventInfo_p as [sessionEvent correlation_p].
  unfold adPubAck_eventCallback.
  destruct sessionEvent; simpl;
    confined_with idtac
      ltac:(first [ exact same_entries_refl | exact same_entries_trans
                  | intros; reflexivity
                  | intros; apply write_entry_same_entries ]).
Qed.

Lemma synced_same_entries t g : same_entries g (synced_vars t g).
Proof.
  apply (confined_sync (L := unit) (fun _ => true) same_entries same_entries_refl
           same_entries_trans E _ callback_same_entries t g).
Qed.

Lemma same_entries_size g g' : same_entries g g' -> size (heap g') = size (heap g).
Proof.
  unfold same_entries. intros Hd.
  rewrite <- (size_dom (D := gset nat) (heap g')), Hd. apply size_dom.
Qed.

Lemma same_entries_live g g' p :
  same_entries g g' -> is_Some (heap g !! p) -> is_Some (heap g' !! p).
Proof.
  unfold same_entries. intros Hd Hp.
  apply (elem_of_dom (D := gset nat)). rewrite Hd. apply elem_of_dom, Hp.
Qed.

(** One entry less after the body of a freeing loop. *)
Lemma free_head_size (p : nat) (e e' : messageCorrelationStruct_t) t g :
  heap g !! p = Some e' ->
  S (size (heap (vars_after (@free_head E L p e t g)))) = size (heap g).
Proof.
  intros Hp. rewrite free_head_run. unfold vars_after. simpl.
  set (g1 := match next_p e with
             | None => set_tail None (set_head None g)
             | Some _ => set_head (next_p e) g
             end).
  assert (H1 : same_entries g g1) by (subst g1; destruct (next_p e); reflexivity).
  pose proof (same_entries_trans _ _ _ H1 (synced_same_entries (t + 1)%nat g1)) as Hs.
  assert (Hlive : is_Some (heap (synced_vars (t + 1)%nat g1) !! p)).
  { eapply same_entries_live; [exact Hs | rewrite Hp; eauto]. }
  rewrite (map_size_delete_Some _ _ Hlive), (same_entries_size _ _ Hs).
  destruct (size (heap g)) as [| n] eqn:Hn; [| reflexivity].
  apply map_size_empty_inv in Hn. rewrite Hn, lookup_empty in Hp. discriminate.
Qed.

(** The number of live entries is enough fuel for the freeing loops. *)
Lemma free_while_acked_fuel (fuel : nat) :
  forall fuel' t g,
    (size (heap g) <= fuel)%nat -> (size (heap g) <= fuel')%nat ->
    @free_while_acked E L fuel t g = @free_while_acked E L fuel' t g.
Proof.
  induction fuel as [| fuel IH]; intros fuel' t g Hf Hf'.
  - assert (Hs : heap g = ∅) by (apply map_size_empty_inv; lia).
    destruct fuel'; simpl; unfold bind, get; simpl;
      destruct (msgMemoryListHead_p g) as [p |]; try reflexivity;
      rewrite Hs, lookup_empty; reflexivity.
  - destruct fuel' as [| fuel'].
    + assert (Hs : heap g = ∅) by (apply map_size_empty_inv; lia).
      simpl; unfold bind, get; simpl;
        destruct (msgMemoryListHead_p g) as [p |]; try reflexivity;
        rewrite Hs, lookup_empty; reflexivity.
    + simpl. unfold bind at 1 3, get at 1 2. cbn [length]. rewrite !Nat.add_0_r.
      destruct (msgMemoryListHead_p g) as [p |]; [| reflexivity].
      destruct (heap g !! p) as [e |] eqn:Hp; [| reflexivity].
      destruct (isAcked e); [| reflexivity].
      pose proof (free_head_size p e e t g Hp) as Hsize.
      unfold bind.
      destruct (@free_head E L p e t g) as [[[l | []] g1] es1]; [reflexivity |].
      unfold vars_after in Hsize. simpl in Hsize.
      rewrite (IH fuel' (t + length es1)%nat g1) by lia. reflexivity.
Qed.

Lemma live_size (p : nat) (e : messageCorrelationStruct_t) (g : vars) :
  heap g !! p = Some e -> exists n, size (heap g) = S n.
Proof.
  intros Hp. destruct (size (heap g)) as [| n] eqn:Hs; [| eauto].
  apply map_size_empty_inv in Hs. rewrite Hs in Hp. rewrite lookup_empty in Hp. discriminate.
Qed.

Lemma process_acks_eq t g :
  @process_acks E L t g = @free_while_acked E L (size (heap g)) t g.
Proof.
  unfold process_acks, bind, get. cbn [length]. rewrite Nat.add_0_r.
  destruct (@free_while_acked E L (size (heap g)) t g) as [[r g1] es1]. reflexivity.
Qed.

Lemma free_remaining_eq t g :
  @free_remaining E L t g = @free_all E L (size (heap g)) t g.
Proof.
  unfold free_remaining, bind, get. cbn [length]. rewrite Nat.add_0_r.
  destruct (@free_all E L (size (heap g)) t g) as [[r g1] es1]. reflexivity.
Qed.

End Freeing.

(** One message, acknowledged or rejected during the pause after the
    send: the entry is freed in the publish loop with the flags the
    callback gave it. *)
Example acknowledged_then_freed :
  In (EvMalloc 1) (events acknowledged_run)
  /\ In (solClient_msg_setCorrelationTagPtr 1) (calls_of (events acknowledged_run))
  /\ List.filter is_freeing_line (events acknowledged_run)
     = [EvPrintf freeing_fmt [AInt 0; AInt 1; AInt 1]]
  /\ List.filter is_freeing_line (events rejected_run)
     = [EvPrintf freeing_fmt [AInt 0; AInt 1; AInt 0]]
  /\ forallb reports_acked (events acknowledged_run) = true.
Proof. vm_compute. tauto. Qed.


End AckFacts.

(** ** adPubAck.c: the list of correlation entries *)

Module ListFacts.
Import CStr Sdk Run Common Terms AdPubAck AckTerms ListTerms Obs RunFacts Step CommonFacts
  AckFacts.
Local Open Scope prog_scope.

(** *** What the callbacks change *)

Lemma flags_only_refl g : flags_only g g.
Proof. repeat split. Qed.

Lemma flags_only_trans g1 g2 g3 : flags_only g1 g2 -> flags_only g2 g3 -> flags_only g1 g3.
Proof.
  intros (H1 & H2 & H3 & H4) (H1' & H2' & H3' & H4'). unfold flags_only.
  repeat split; congruence.
Qed.

Lemma set_undefined_flags_only g : flags_only g (set_undefined g).
Proof. repeat split. Qed.

Lemma write_flags_only (p : option nat) (acked accepted : bool) g :
  flags_only g (write_entry p (set_flags acked accepted) g).
Proof.
  unfold write_entry. destruct p as [a |]; [| apply set_undefined_flags_only].
  destruct (heap g !! a) as [e |] eqn:Ha; [| apply set_undefined_flags_only].
  unfold flags_only, nexts. simpl. repeat split.
  rewrite fmap_insert. simpl. apply insert_id. rewrite lookup_fmap, Ha. reflexivity.
Qed.

Lemma callback_flags_only (E : env eventInfo) (eventInfo_p : eventInfo) :
  confined (fun _ => true) flags_only (adPubAck_eventCallback E eventInfo_p).
Proof.
  destruct eventInfo_p as [sessionEvent correlation_p].
  unfold adPubAck_eventCallback.
  destruct sessionEvent; simpl;
    confined_with idtac
      ltac:(first [ exact flags_only_refl | exact flags_only_trans
                  | intros; reflexivity
                  | intros; apply write_flags_only
                  | intros; apply set_undefined_flags_only
                  | intros; apply flags_only_refl ]).
Qed.

Lemma synced_flags_only (E : env eventInfo) t g :
  flags_only g (synced_vars E (adPubAck_eventCallback E) t g).
Proof.
  apply (confined_sync (L := unit) (fun _ => true) flags_only flags_only_refl
           flags_only_trans E _ (callback_flags_only E) t g).
Qed.

Lemma holds_flags_only g g' ps : flags_only g g' -> holds g ps -> holds g' ps.
Proof.
  intros (Hh & Ht & Hb & Hn) (H1 & H2 & H3 & H4 & H5 & H6). unfold holds.
  rewrite Hn, Hh, Ht. repeat split; auto.
  eapply Forall_impl; [exact H6 | intros p Hp; simpl in *; rewrite Hb; exact Hp].
Qed.

Lemma well_formed_flags_only g g' : flags_only g g' -> well_formed g -> well_formed g'.
Proof. intros Hf [ps Hps]. exists ps. eapply holds_flags_only; eassumption. Qed.

Lemma all_freed_flags_only g g' : flags_only g g' -> all_freed g -> all_freed g'.
Proof.
  intros (Hh & Ht & Hb & Hn) (H1 & H2 & H3). unfold all_freed.
  rewrite Hh, Ht. repeat split; auto.
  unfold nexts in Hn. rewrite H1, fmap_empty in Hn. apply fmap_empty_inv in Hn. exact Hn.
Qed.

(** *** Code that keeps a property of the variables *)

Lemma forallb_any (es : list event) : forallb (fun _ => true) es = true.
Proof. induction es; auto. Qed.

Lemma keeps_intro {L A} (P : vars -> Prop) (p : prog vars L A) :
  (forall t g, P g -> P (vars_after (p t g))) -> keeps P p.
Proof. intros Hp t g. split; [apply forallb_any | apply Hp]. Qed.

Lemma keeps_elim {L A} (P : vars -> Prop) (p : prog vars L A) t g :
  keeps P p -> P g -> P (vars_after (p t g)).
Proof. intros Hp. apply (Hp t g). Qed.

Lemma callback_keeps (E : env eventInfo) (P : vars -> Prop) (eventInfo_p : eventInfo) :
  (forall g g', flags_only g g' -> P g -> P g') ->
  keeps P (adPubAck_eventCallback E eventInfo_p).
Proof.
  intros HP. apply keeps_intro. intros t g.
  apply HP. apply (callback_flags_only E eventInfo_p t g).
Qed.

(** The steps of [main] that do not touch the variables keep every
    property the callbacks keep. *)
Ltac keeps_with HP :=
  confined_with ltac:(intros; apply callback_keeps; exact HP)
                ltac:(first [ solve [intros; auto] | intros; eauto ]).

(** *** The list as entries are appended and freed *)

Lemma linked_insert_other (n : gmap nat (option nat)) (ps : list nat) (a : nat)
    (x : option nat) :
  a ∉ ps -> linked n ps -> linked (<[a := x]> n) ps.
Proof.
  induction ps as [| p ps IH]; simpl; [auto |].
  intros Ha [Hp Hl]. apply not_elem_of_cons in Ha as [Hne Ha].
  split; [rewrite lookup_insert_ne by congruence; exact Hp | apply IH; assumption].
Qed.

Lemma linked_delete_other (n : gmap nat (option nat)) (ps : list nat) (a : nat) :
  a ∉ ps -> linked n ps -> linked (delete a n) ps.
Proof.
  induction ps as [| p ps IH]; simpl; [auto |].
  intros Ha [Hp Hl]. apply not_elem_of_cons in Ha as [Hne Ha].
  split; [rewrite lookup_delete_ne by congruence; exact Hp | apply IH; assumption].
Qed.

(** A new entry [a] after the last entry [b]. *)
Lemma linked_snoc (n : gmap nat (option nat)) (ps : list nat) (a b : nat) :
  NoDup ps -> a ∉ ps -> last ps = Some b -> linked n ps ->
  linked (<[b := Some a]> (<[a := None]> n)) (ps ++ [a]).
Proof.
  induction ps as [| p ps IH]; [discriminate |].
  intros Hnd Ha Hlast [Hp Hl].
  apply NoDup_cons in Hnd as [Hp_notin Hnd].
  apply not_elem_of_cons in Ha as [Hne Ha].
  destruct ps as [| q ps].
  - simpl in Hlast. injection Hlast as <-. simpl.
    split; [apply lookup_insert_eq |].
    split; [| exact I].
    rewrite lookup_insert_ne by congruence. apply lookup_insert_eq.
  - change (last (p :: q :: ps)) with (last (q :: ps)) in Hlast.
    assert (Hb : b ∈ q :: ps) by (apply last_Some_elem_of; exact Hlast).
    assert (Hpb : p <> b) by (intros ->; contradiction).
    change ((p :: q :: ps) ++ [a]) with (p :: (q :: ps) ++ [a]).
    split.
    + rewrite !lookup_insert_ne by congruence. exact Hp.
    + apply IH; auto.
Qed.

Lemma holds_live g ps p :
  holds g ps -> p ∈ ps -> exists e, heap g !! p = Some e.
Proof.
  intros (_ & Hdom & _) Hp.
  assert (Hin : p ∈ dom (nexts g)) by (rewrite Hdom; apply elem_of_list_to_set; exact Hp).
  apply elem_of_dom in Hin as [x Hx]. unfold nexts in Hx. rewrite lookup_fmap in Hx.
  destruct (heap g !! p) as [e |]; [eauto | discriminate].
Qed.

Lemma holds_fresh g ps : holds g ps -> brk g ∉ ps.
Proof.
  intros (_ & _ & _ & _ & _ & Hlt) Hin.
  rewrite Forall_forall in Hlt. specialize (Hlt _ Hin). lia.
Qed.

(** The block that allocates an entry appends it to the list. *)
Lemma new_entry_holds {L} (loop : Z) t g ps :
  holds g ps ->
  holds (vars_after (@new_correlation_entry L loop t g)) (ps ++ [brk g]).
Proof.
  intros Hholds. pose proof (holds_fresh _ _ Hholds) as Hfresh.
  pose proof Hholds as (Hnd & Hdom & Hl & Hh & Ht & Hlt).
  rewrite new_correlation_entry_eq. unfold vars_after. simpl.
  assert (Hlt' : Forall (fun p => (p < S (brk g))%nat) (ps ++ [brk g])).
  { apply Forall_app. split; [| repeat constructor].
    eapply Forall_impl; [exact Hlt | intros; simpl in *; lia]. }
  assert (Hnd' : NoDup (ps ++ [brk g])).
  { apply NoDup_app. repeat split; [exact Hnd | | apply NoDup_singleton].
    intros x Hx Hx'. apply list_elem_of_singleton in Hx'. subst x. contradiction. }
  destruct ps as [| p0 ps0] eqn:Hps.
  - simpl in Hh, Ht. rewrite Ht, Hh. unfold holds, nexts. simpl.
    rewrite fmap_insert. simpl.
    repeat split; auto.
    + rewrite dom_insert_L. fold (nexts g). rewrite Hdom. reflexivity.
    + apply lookup_insert_eq.
  - rewrite <- Hps in *.
    assert (Hlast : exists b, last ps = Some b).
    { subst ps. destruct (last (p0 :: ps0)) as [b |] eqn:Hb; [eauto |].
      apply last_None in Hb. discriminate. }
    destruct Hlast as [b Hb]. rewrite Hb in Ht.
    assert (Hbin : b ∈ ps) by (apply last_Some_elem_of; exact Hb).
    destruct (holds_live g ps b Hholds Hbin) as [e He].
    assert (Hba : b <> brk g) by (intros ->; contradiction).
    rewrite Ht. unfold write_entry. simpl.
    rewrite lookup_insert_ne by congruence. rewrite He. simpl.
    assert (Hhead : exists h, head ps = Some h) by (subst ps; simpl; eauto).
    destruct Hhead as [h Hhd]. rewrite Hhd in Hh. rewrite Hh.
    unfold holds, nexts. simpl. rewrite !fmap_insert. simpl.
    fold (nexts g).
    repeat split; auto.
    + rewrite !dom_insert_L, Hdom, list_to_set_app_L. simpl.
      assert (Hbset : b ∈ (list_to_set ps : gset nat))
        by (apply elem_of_list_to_set; exact Hbin).
      apply set_eq. intros x.
      rewrite !elem_of_union, !elem_of_singleton, elem_of_empty.
      split; [intros [-> | [-> | Hx]] | intros [Hx | [-> | []]]]; auto.
    + apply linked_snoc; auto.
    + rewrite Hh, <- Hhd, Hps. reflexivity.
    + rewrite last_snoc. reflexivity.
Qed.

Section Freeing.
Variable E : env eventInfo.
Context {L : Type}.

(** The body of the freeing loops takes the head off the list. *)
Lemma free_head_holds (p : nat) (e : messageCorrelationStruct_t) (ps : list nat) t g :
  holds g (p :: ps) -> heap g !! p = Some e ->
  holds (vars_after (@free_head E L p e t g)) ps.
Proof.
  intros (Hnd & Hdom & [Hp Hl] & Hh & Ht & Hlt) He.
  apply NoDup_cons in Hnd as [Hnotin Hnd].
  assert (Hnext : next_p e = head ps).
  { unfold nexts in Hp. rewrite lookup_fmap, He in Hp. simpl in Hp. congruence. }
  rewrite free_head_run. unfold vars_after. simpl.
  set (g1 := match next_p e with
             | None => set_tail None (set_head None g)
             | Some _ => set_head (next_p e) g
             end).
  assert (H1 : msgMemoryListHead_p g1 = head ps /\ msgMemoryListTail_p g1 = last ps
               /\ brk g1 = brk g /\ nexts g1 = nexts g).
  { subst g1. destruct (next_p e) as [q |] eqn:Hq.
    - simpl. repeat split; auto. rewrite Ht, last_cons.
      destruct ps as [| q' ps']; [discriminate |].
      destruct (last (q' :: ps')) eqn:Hlast; [reflexivity |].
      apply last_None in Hlast. discriminate.
    - simpl. destruct ps; [auto | discriminate]. }
  destruct H1 as (Hh1 & Ht1 & Hb1 & Hn1).
  destruct (synced_flags_only E (t + 1)%nat g1) as (Hhs & Hts & Hbs & Hns).
  set (gs := synced_vars E (adPubAck_eventCallback E) (t + 1)%nat g1) in *.
  unfold holds, nexts. simpl. rewrite fmap_delete. fold (nexts gs).
  rewrite Hns, Hn1, Hhs, Hts, Hh1, Ht1.
  repeat split; auto.
  - rewrite dom_delete_L, Hdom. simpl.
    assert (Hnot : p ∉ (list_to_set ps : gset nat))
      by (rewrite elem_of_list_to_set; exact Hnotin).
    apply set_eq. intros x.
    rewrite elem_of_difference, elem_of_union, !elem_of_singleton.
    split.
    + intros [[-> | Hx] Hne]; [exfalso; apply Hne; reflexivity | exact Hx].
    + intros Hx. split; [right; exact Hx | intros ->; contradiction].
  - apply linked_delete_other; assumption.
  - apply Forall_cons in Hlt as [_ Hlt].
    eapply Forall_impl; [exact Hlt | intros q Hq; simpl in *; rewrite Hbs, Hb1; exact Hq].
Qed.

Lemma holds_nil_all_freed g : holds g [] -> all_freed g.
Proof.
  intros (_ & Hdom & _ & Hh & Ht & _). unfold all_freed. repeat split; auto.
  simpl in Hdom. apply dom_empty_inv_L in Hdom. unfold nexts in Hdom.
  apply fmap_empty_inv in Hdom. exact Hdom.
Qed.

(** The loop at the label [cleanup] frees the whole list. *)
Lemma free_all_holds (fuel : nat) : forall (ps : list nat) t g,
  holds g ps -> (length ps <= fuel)%nat ->
  holds (vars_after (@free_all E L fuel t g)) [].
Proof.
  induction fuel as [| fuel IH]; intros ps t g Hps Hlen.
  - destruct ps; [| simpl in Hlen; lia].
    destruct Hps as (H1 & H2 & H3 & Hh & H5 & H6) eqn:Heq. clear Heq.
    simpl. unfold bind, get. simpl. rewrite Hh. simpl.
    unfold holds. auto.
  - destruct ps as [| p ps].
    + destruct Hps as (H1 & H2 & H3 & Hh & H5 & H6) eqn:Heq. clear Heq.
      simpl. unfold bind, get. simpl. rewrite Hh. simpl. unfold holds. auto.
    + destruct (holds_live g (p :: ps) p Hps) as [e He];
        [apply elem_of_cons; left; reflexivity |].
      pose proof Hps as (_ & _ & _ & Hh & _).
      simpl. unfold bind at 1, get at 1. simpl in Hh. rewrite Hh, He.
      cbn [length]. rewrite Nat.add_0_r.
      pose proof (free_head_holds p e ps t g Hps He) as Hnext.
      unfold bind. destruct (@free_head E L p e t g) as [[[l | []] g1] es1] eqn:Hfh.
      * rewrite free_head_run in Hfh. discriminate.
      * unfold vars_after in Hnext. simpl in Hnext.
        specialize (IH ps (t + length es1)%nat g1 Hnext ltac:(simpl in Hlen; lia)).
        destruct (@free_all E L fuel (t + length es1)%nat g1) as [[r g2] es2].
        exact IH.
Qed.

(** The housekeeping loop leaves a list. *)
Lemma free_while_acked_well_formed (fuel : nat) : forall t g,
  well_formed g -> well_formed (vars_after (@free_while_acked E L fuel t g)).
Proof.
  induction fuel as [| fuel IH]; intros t g Hwf.
  - simpl. unfold bind, get. simpl.
    destruct (msgMemoryListHead_p g) as [p |]; [| exact Hwf].
    destruct (heap g !! p) as [e |]; [| destruct Hwf as [ps Hps]; exists ps; exact Hps].
    destruct (isAcked e); exact Hwf.
  - simpl. unfold bind at 1, get at 1. cbn [length]. rewrite Nat.add_0_r.
    destruct (msgMemoryListHead_p g) as [p |] eqn:Hh; [| exact Hwf].
    destruct (heap g !! p) as [e |] eqn:He;
      [| destruct Hwf as [ps Hps]; exists ps; exact Hps].
    destruct (isAcked e); [| exact Hwf].
    destruct Hwf as [ps Hps].
    assert (Hps' : exists ps', ps = p :: ps').
    { destruct Hps as (_ & _ & _ & Hh' & _). rewrite Hh in Hh'.
      destruct ps as [| q ps']; [discriminate |]. simpl in Hh'. injection Hh' as ->. eauto. }
    destruct Hps' as [ps' ->].
    pose proof (free_head_holds p e ps' t g Hps He) as Hnext.
    unfold bind. destruct (@free_head E L p e t g) as [[[l | []] g1] es1] eqn:Hfh.
    + rewrite free_head_run in Hfh. discriminate.
    + unfold vars_after in Hnext. simpl in Hnext.
      specialize (IH (t + length es1)%nat g1 (ex_intro _ ps' Hnext)).
      destruct (@free_while_acked E L fuel (t + length es1)%nat g1) as [[r g2] es2].
      exact IH.
Qed.

End Freeing.

Lemma holds_length g ps : holds g ps -> length ps = size (heap g).
Proof.
  intros (Hnd & Hdom & _).
  rewrite <- (size_dom (D := gset nat) (heap g)).
  assert (Hd : dom (heap g) = dom (nexts g)) by (unfold nexts; rewrite dom_fmap_L; reflexivity).
  rewrite Hd, Hdom. symmetry. apply size_list_to_set. exact Hnd.
Qed.

Lemma well_formed_initial : well_formed initial_vars.
Proof.
  exists []. unfold holds, nexts, initial_vars. simpl. rewrite fmap_empty.
  repeat split; auto. constructor.
Qed.

(** *** The publish loop keeps the list *)

Section Sample.
Variable E : env eventInfo.
Variable H : headers.

Lemma well_formed_kept_by_callbacks :
  forall g g', flags_only g g' -> well_formed g -> well_formed g'.
Proof. exact well_formed_flags_only. Qed.

Lemma new_entry_keeps {L} (loop : Z) : keeps well_formed (@new_correlation_entry L loop).
Proof.
  apply keeps_intro. intros t g [ps Hps]. exists (ps ++ [brk g]).
  apply new_entry_holds, Hps.
Qed.

Lemma process_acks_keeps {L} : keeps well_formed (@process_acks E L).
Proof.
  apply keeps_intro. intros t g Hwf. rewrite process_acks_eq.
  apply free_while_acked_well_formed, Hwf.
Qed.

Ltac list_step :=
  first [ apply new_entry_keeps
        | apply process_acks_keeps
        | confined_step ltac:(intros; apply callback_keeps; exact well_formed_flags_only)
                        ltac:(first [ solve [intros; auto] | intros; eauto ]) ].

Lemma publish_once_keeps (loop : Z) : keeps well_formed (publish_once E H loop).
Proof. unfold publish_once, keeps. repeat list_step. Qed.

Lemma publish_loop_keeps (todo : nat) : forall loop,
  keeps well_formed (publish_loop E H todo loop).
Proof.
  induction todo as [| todo IH]; intros loop; simpl; unfold keeps in *.
  - repeat list_step.
  - repeat first [ apply IH | apply publish_once_keeps | list_step ].
Qed.

Lemma main_body_keeps (commandOpts : commonOptions) :
  keeps well_formed (main_body E H commandOpts).
Proof.
  unfold main_body, keeps.
  repeat first [ apply publish_loop_keeps | list_step ].
Qed.

End Sample.


Lemma from_label_frees (E : env eventInfo) (l : label) t (g : vars) :
  well_formed g -> l <> notInitialized ->
  all_freed (vars_after (exec (from_label E l) t g)).
Proof.
  intros Hwf Hl.
  assert (Hcleanup : forall t g, well_formed g ->
            all_freed (vars_after (at_cleanup E t g))).
  { clear. intros t g [ps Hps]. unfold at_cleanup.
    rewrite (FlowFacts.vars_after_bind_inr _ _ _ _ tt
               (vars_after (@free_remaining E Empty_set t g))
               (events (@free_remaining E Empty_set t g))).
    2: { destruct (@free_remaining E Empty_set t g) as [[[[] | []] g1] es1]. reflexivity. }
    assert (Hfreed : all_freed (vars_after (@free_remaining E Empty_set t g))).
    { rewrite free_remaining_eq. apply holds_nil_all_freed.
      apply (free_all_holds E _ ps); [exact Hps |].
      rewrite (holds_length _ _ Hps). lia. }
    revert Hfreed.
    generalize (vars_after (@free_remaining E Empty_set t g)).
    generalize (t + length (events (@free_remaining E Empty_set t g)))%nat.
    intros t' g'.
    apply (keeps_elim all_freed _ t' g').
    unfold keeps.
    confined_with ltac:(intros; apply callback_keeps; exact all_freed_flags_only)
                  ltac:(first [ solve [intros; auto] | intros; eauto ]). }
  assert (Hexec : forall (p : prog vars Empty_set unit) t g,
            vars_after (exec (p;; ret 0) t g) = vars_after (p t g)).
  { intros p t0 g0. unfold exec, bind, ret.
    destruct (p t0 g0) as [[[[] | []] g1] es1]. reflexivity. }
  destruct l; [| | contradiction]; unfold from_label.
  - change (at_sessionConnected E;; at_cleanup E;; ret 0)
      with (at_sessionConnected E;; (at_cleanup E;; ret 0)).
    unfold exec.
    destruct ((at_sessionConnected E;; at_cleanup E;; ret 0) t g)
      as [[[[] | z] g2] es2] eqn:Hrun.
    unfold vars_after. simpl.
    unfold bind at 1 in Hrun.
    pose proof (keeps_elim well_formed (at_sessionConnected E) t g) as Hk.
    destruct (at_sessionConnected E t g) as [[[[] | []] g1] es1].
    unfold vars_after in Hk. simpl in Hk.
    assert (Hwf1 : well_formed g1).
    { apply Hk; [| exact Hwf]. unfold at_sessionConnected, keeps.
      confined_with ltac:(intros; apply callback_keeps; exact well_formed_flags_only)
                    ltac:(first [ solve [intros; auto] | intros; eauto ]). }
    specialize (Hcleanup (t + length es1)%nat g1 Hwf1).
    pose proof (Hexec (at_cleanup E) (t + length es1)%nat g1) as He.
    unfold exec in He.
    destruct ((at_cleanup E;; ret 0) (t + length es1)%nat g1) as [[[[] | z'] g3] es3].
    unfold vars_after in He. simpl in He.
    injection Hrun as _ <- _. rewrite He. exact Hcleanup.
  - rewrite Hexec. apply Hcleanup, Hwf.
Qed.

(** *** Where [main] can jump *)

Section Jumps.
Context {G L : Type}.
Variable S : L -> bool.

Lemma jumps_run {A} (p : prog G L A) :
  (forall t g, exists a g1 es1, p t g = (inr a, g1, es1)) -> jumps_within S p.
Proof.
  intros Hp t g l Hl. destruct (Hp t g) as (a & g1 & es1 & Hr).
  rewrite Hr in Hl. discriminate Hl.
Qed.

Lemma jumps_goto {A} (l : L) : S l = true -> jumps_within S (goto l : prog G L A).
Proof. intros Hl t g l' Hl'. unfold goto, outcome in Hl'. simpl in Hl'. congruence. Qed.

Lemma jumps_bind {A B} (m : prog G L A) (k : A -> prog G L B) :
  jumps_within S m -> (forall a, jumps_within S (k a)) -> jumps_within S (bind m k).
Proof.
  intros Hm Hk t g l. unfold bind. specialize (Hm t g l).
  destruct (m t g) as [[[l1 | a] g1] es1].
  { intros Hl. apply Hm. unfold outcome in *. simpl in *. congruence. }
  specialize (Hk a (t + length es1)%nat g1 l).
  destruct (k a (t + length es1)%nat g1) as [[r g2] es2]. exact Hk.
Qed.

Lemma jumps_when_false (p : prog G L unit) : jumps_within S (when false p).
Proof. intros t g l Hl. discriminate Hl. Qed.

Lemma jumps_when (b : bool) (p : prog G L unit) :
  jumps_within S p -> jumps_within S (when b p).
Proof. destruct b; [auto | intros _; apply jumps_when_false]. Qed.

Lemma outcome_bind_inr {A B} (m : prog G L A) (k : A -> prog G L B) t g a g1 es1 :
  m t g = (inr a, g1, es1) ->
  outcome (bind m k t g) = outcome (k a (t + length es1)%nat g1).
Proof. intros Hm. rewrite (bind_inr _ _ _ _ _ _ _ Hm). reflexivity. Qed.

End Jumps.

Ltac jumps_step :=
  first
    [ apply jumps_run; intros ? ?;
      first [ rewrite call_run | rewrite sleepInSec_run | rewrite gotCtlC_run
            | rewrite common_handleError_run | rewrite new_correlation_entry_eq
            | rewrite free_head_run ];
      eexists _, _, _; reflexivity
    | apply jumps_when_false
    | apply jumps_when
    | apply jumps_goto; reflexivity
    | apply jumps_bind; [| intros ?]
    | match goal with
      | |- jumps_within _ (if ?b then _ else _) => destruct b
      | |- jumps_within _ (match ?x with _ => _ end) => destruct x
      end
    | apply jumps_run; intros ? ?; eexists _, _, _; reflexivity ].

Section Returning.
Variable E : env eventInfo.
Variable H : headers.

Lemma free_while_acked_jumps {L} (S : L -> bool) (fuel : nat) :
  jumps_within S (@free_while_acked E L fuel).
Proof.
  induction fuel as [| fuel IH]; simpl; repeat first [ apply IH | jumps_step ].
Qed.

Lemma process_acks_jumps {L} (S : L -> bool) : jumps_within S (@process_acks E L).
Proof.
  intros t g l. rewrite process_acks_eq. apply free_while_acked_jumps.
Qed.

Lemma publish_once_jumps (loop : Z) : jumps_within initialized (publish_once E H loop).
Proof. unfold publish_once. repeat first [ apply process_acks_jumps | jumps_step ]. Qed.

Lemma publish_loop_jumps (todo : nat) : forall loop,
  jumps_within initialized (publish_loop E H todo loop).
Proof.
  induction todo as [| todo IH]; intros loop; simpl;
    repeat first [ apply IH | apply publish_once_jumps | jumps_step ].
Qed.

(** [main] jumps to [notInitialized] from one place, before anything is
    allocated. *)
Lemma main_body_jumps_back (commandOpts : commonOptions) t g :
  outcome (main_body E H commandOpts t g) = inl notInitialized ->
  flags_only g (vars_after (main_body E H commandOpts t g)).
Proof.
  intros Hout. unfold main_body in *.
  pose proof (call_run (L := label) E (adPubAck_eventCallback E) solClient_initialize t g)
    as Hcall.
  cbv zeta in Hcall.
  rewrite (outcome_bind_inr _ _ _ _ _ _ _ Hcall) in Hout.
  rewrite (FlowFacts.vars_after_bind_inr _ _ _ _ _ _ _ Hcall).
  cbv beta in Hout |- *.
  match type of Hout with
  | context [is_OK ?rc] => destruct (is_OK rc) eqn:Hok
  end; cbn [negb] in Hout |- *.
  - exfalso.
    match type of Hout with
    | outcome (?K _ _) = _ => assert (Hj : jumps_within initialized K)
    end.
    { unfold common_printCCSMPversion, common_createAndConnectSession.
      repeat first [ apply publish_loop_jumps | jumps_step ]. }
    specialize (Hj _ _ _ Hout). discriminate Hj.
  - erewrite FlowFacts.vars_after_bind_inl; [| reflexivity].
    apply synced_flags_only.
Qed.

End Returning.

Lemma run_sample_all_freed (E : env eventInfo) (H : headers) (commandOpts : commonOptions) t :
  all_freed (vars_after (run_sample E H commandOpts t initial_vars)).
Proof.
  unfold run_sample, with_labels.
  pose proof (keeps_elim well_formed _ t initial_vars (main_body_keeps E H commandOpts)
                well_formed_initial) as Hwf.
  pose proof (main_body_jumps_back E H commandOpts t initial_vars) as Hback.
  destruct (main_body E H commandOpts t initial_vars) as [[r g1] es1].
  unfold vars_after, outcome in Hwf, Hback. simpl in Hwf, Hback.
  assert (Hfrom : forall l, l <> notInitialized ->
            all_freed (vars_after
              (let '(a, g2, es2) := exec (from_label E l) (t + length es1)%nat g1 in
               (a, g2, es1 ++ es2)))).
  { intros l Hl. pose proof (from_label_frees E l (t + length es1)%nat g1 Hwf Hl) as Hf.
    destruct (exec (from_label E l) (t + length es1)%nat g1) as [[a g2] es2]. exact Hf. }
  destruct r as [[] | []]; try (apply Hfrom; discriminate).
  apply (all_freed_flags_only initial_vars); [apply Hback; reflexivity |].
  repeat split.
Qed.

(** [main] of adPubAck never leaks a correlation entry: whatever the SDK
    answers, whatever events the callback is given and wherever [main]
    jumps to, every entry it allocated has been freed and both list
    pointers are NULL when it returns. *)
Theorem adPubAck_frees_every_entry :
  forall (E : env eventInfo) (H : headers) (commandOpts : commonOptions) t,
    all_freed (vars_after (run_sample E H commandOpts t initial_vars)).
Proof. exact run_sample_all_freed. Qed.

End ListFacts.

(** ** adPubAck.c: the life of a correlation entry *)

Module CorrelationFacts.
Import CStr Sdk Run Common Terms AdPubAck AckTerms ListTerms Obs Behaviour
  RunFacts Step CommonFacts ShowsFacts AckFacts ListFacts.
Local Open Scope prog_scope.

Section Sample.
Variable E : env eventInfo.
Variable H : headers.

(** *** The entry and the message it is for *)

Lemma callback_no_publish_step : quiet publish_step_of (adPubAck_eventCallback E).
Proof.
  intros [sessionEvent correlation_p]. unfold adPubAck_eventCallback.
  destruct sessionEvent; simpl;
    confined_with idtac ltac:(first [intros; reflexivity | intros; exact I]).
Qed.

Lemma shows_new_correlation_entry {L} (loop : Z) :
  shows publish_step_of (fun r l => exists p, r = inr p /\ l = [Created p])
    (@new_correlation_entry L loop).
Proof. intros t g. rewrite new_correlation_entry_eq. eexists. split; reflexivity. Qed.

Lemma free_while_acked_no_publish_step {L} (fuel : nat) :
  confined (unseen publish_step_of) (fun _ _ => True) (@free_while_acked E L fuel).
Proof.
  induction fuel as [| fuel IH]; simpl;
    repeat first
      [ exact IH
      | unfold free_head;
        confined_step ltac:(apply callback_no_publish_step)
                      ltac:(first [intros; reflexivity | intros; exact I]) ].
Qed.

Lemma shows_process_acks {L} :
  shows publish_step_of (ends [] (fun _ => True)) (@process_acks E L).
Proof.
  intros t g. rewrite process_acks_eq. split.
  - apply unseen_omap. apply (free_while_acked_no_publish_step (size (heap g)) t g).
  - pose proof (free_while_acked_jumps E (fun _ : L => false) (size (heap g)) t g) as Hj.
    destruct (outcome (@free_while_acked E L (size (heap g)) t g)) as [l | []] eqn:Ho.
    + specialize (Hj l eq_refl). discriminate Hj.
    + exists tt. auto.
Qed.

(** One iteration of the publish loop: the entry is allocated when the
    message is built and addressed, it is then set as the correlation
    tag of the message, and the message is sent only with its tag set. *)
Lemma publish_once_steps (loop : Z) t g :
  let l := omap publish_step_of (events (publish_once E H loop t g)) in
  l = []
  \/ exists p,
       (exists rc, rc <> SOLCLIENT_OK /\ l = [Created p; Tagged p rc])
       \/ (exists rc, l = [Created p; Tagged p SOLCLIENT_OK; Sent rc]).
Proof.
  assert (Hs : exists Q,
             shows publish_step_of Q (publish_once E H loop)
             /\ forall r l, Q r l ->
                  l = []
                  \/ exists p,
                       (exists rc, rc <> SOLCLIENT_OK /\ l = [Created p; Tagged p rc])
                       \/ (exists rc, l = [Created p; Tagged p SOLCLIENT_OK; Sent rc])).
  { eexists. split.
    - unfold publish_once.
      repeat first [ apply shows_new_correlation_entry
                   | apply shows_process_acks
                   | shows_step ltac:(exact callback_no_publish_step) ].
    - intros r l HQ. way HQ.
      all: repeat match goal with
                  | H : exists _, _ |- _ => destruct H as (? & ? & ?)
                  end; tidy.
      all: repeat match goal with
                  | H : negb (is_OK _) = false |- _ => apply not_OK in H; subst
                  | H : negb (is_OK _) = true |- _ => apply not_OK_true in H
                  end.
      all: simpl; eauto 10. }
  destruct Hs as (Q & HQ & Hall). intros l. subst l. exact (Hall _ _ (HQ t g)).
Qed.

(** *** The housekeeping loop inside the publish loop *)

Lemma new_correlation_entry_reports_acked {L} (loop : Z) :
  confined reports_acked (fun _ _ => True) (@new_correlation_entry L loop).
Proof.
  intros t g. rewrite new_correlation_entry_eq. split; [reflexivity | exact I].
Qed.

Lemma process_acks_reports_acked {L} :
  confined reports_acked (fun _ _ => True) (@process_acks E L).
Proof.
  intros t g. rewrite process_acks_eq. split; [| exact I].
  apply (free_while_acked_reports_acked E (size (heap g)) t g).
Qed.

Ltac acked_step :=
  first [ apply new_correlation_entry_reports_acked
        | apply process_acks_reports_acked
        | confined_step ltac:(apply callback_reports_acked)
                        ltac:(first [intros; reflexivity | intros; exact I]) ].

Lemma publish_once_reports_acked (loop : Z) :
  confined reports_acked (fun _ _ => True) (publish_once E H loop).
Proof. unfold publish_once. repeat acked_step. Qed.

Lemma publish_loop_reports_acked (todo : nat) : forall loop,
  confined reports_acked (fun _ _ => True) (publish_loop E H todo loop).
Proof.
  induction todo as [| todo IH]; intros loop; simpl;
    repeat first [ apply IH | apply publish_once_reports_acked | acked_step ].
Qed.

(** Every entry freed before [main] reaches the cleanup labels was
    acknowledged. *)
Lemma main_body_reports_acked (commandOpts : commonOptions) :
  confined reports_acked (fun _ _ => True) (main_body E H commandOpts).
Proof.
  unfold main_body. repeat first [ apply publish_loop_reports_acked | acked_step ].
Qed.

(** *** The loop at the label [cleanup] *)

Lemma callback_frees_nothing (eventInfo_p : eventInfo) :
  confined (fun e => negb (is_free e)) (fun _ _ => True) (adPubAck_eventCallback E eventInfo_p).
Proof.
  destruct eventInfo_p as [sessionEvent correlation_p]. unfold adPubAck_eventCallback.
  destruct sessionEvent; simpl;
    confined_with idtac ltac:(first [intros; reflexivity | intros; exact I]).
Qed.

Lemma synced_frees_nothing t g :
  List.filter is_free (synced_events E (adPubAck_eventCallback E) t g) = [].
Proof.
  destruct (confined_sync (L := unit) _ _ (fun _ => I) (fun _ _ _ _ _ => I) E _
              callback_frees_nothing t g) as [HP _].
  fold (synced_events E (adPubAck_eventCallback E) t g) in HP. revert HP.
  induction (synced_events E (adPubAck_eventCallback E) t g) as [| e es IH];
    [reflexivity |].
  simpl. intros HP. apply andb_prop in HP. destruct HP as [He Hes].
  destruct (is_free e); [discriminate He | apply IH, Hes].
Qed.

Lemma free_head_frees {L} (p : nat) (e : messageCorrelationStruct_t) t g :
  List.filter is_free (events (@free_head E L p e t g)) = [EvFree p].
Proof.
  rewrite free_head_run. unfold events, freeing_line. cbn [snd List.filter is_free].
  rewrite List.filter_app, synced_frees_nothing. reflexivity.
Qed.

(** The entries of the list are freed in order, each once. *)
Lemma free_all_frees_list {L} (fuel : nat) : forall (ps : list nat) t g,
  holds g ps -> (length ps <= fuel)%nat ->
  List.filter is_free (events (@free_all E L fuel t g)) = map EvFree ps.
Proof.
  induction fuel as [| fuel IH]; intros ps t g Hps Hlen.
  - destruct ps; [| simpl in Hlen; lia].
    pose proof Hps as (_ & _ & _ & Hh & _).
    simpl. unfold bind, get. simpl. simpl in Hh. rewrite Hh. reflexivity.
  - destruct ps as [| p ps].
    + pose proof Hps as (_ & _ & _ & Hh & _).
      simpl. unfold bind, get. simpl. simpl in Hh. rewrite Hh. reflexivity.
    + destruct (holds_live g (p :: ps) p Hps) as [e He];
        [apply elem_of_cons; left; reflexivity |].
      pose proof Hps as (_ & _ & _ & Hh & _).
      simpl free_all. unfold bind at 1, get at 1. simpl in Hh. rewrite Hh, He.
      cbn [length]. rewrite Nat.add_0_r.
      pose proof (free_head_holds E (L := L) p e ps t g Hps He) as Hnext.
      pose proof (@free_head_frees L p e t g) as Hfree.
      unfold bind. destruct (@free_head E L p e t g) as [[[l | []] g1] es1] eqn:Hfh.
      * rewrite free_head_run in Hfh. discriminate.
      * unfold vars_after, events in Hnext, Hfree. simpl in Hnext, Hfree.
        specialize (IH ps (t + length es1)%nat g1 Hnext ltac:(simpl in Hlen; lia)).
        destruct (@free_all E L fuel (t + length es1)%nat g1) as [[r g2] es2].
        unfold events in *. simpl in *. rewrite List.filter_app, Hfree, IH. reflexivity.
Qed.

Lemma free_remaining_frees_list {L} (ps : list nat) t g :
  holds g ps ->
  List.filter is_free (events (@free_remaining E L t g)) = map EvFree ps
  /\ all_freed (vars_after (@free_remaining E L t g)).
Proof.
  intros Hps. rewrite free_remaining_eq.
  assert (Hlen : (length ps <= size (heap g))%nat) by (rewrite (holds_length _ _ Hps); lia).
  split; [apply free_all_frees_list; assumption |].
  apply holds_nil_all_freed. apply (free_all_holds E _ ps); assumption.
Qed.

End Sample.


End CorrelationFacts.

(** ** messageTTLAndDeadMessageQueue.c *)

Module TtlFacts.
Import CStr Sdk Run Common Terms MessageTTL TtlTerms Obs RunFacts Step CommonFacts.
Local Open Scope prog_scope.

(** *** Events that only the end of a sequence can add *)

(** If [m] cannot add [e] and the sequence has added it, then [m] ended
    normally and the rest of the sequence added it. *)
Lemma bind_reaches {G L A B} (P : event -> bool) (R : G -> G -> Prop) (e : event)
    (m : prog G L A) (k : A -> prog G L B) t g :
  P e = false -> confined P R m -> In e (events (bind m k t g)) ->
  exists a g1 es1,
    m t g = (inr a, g1, es1) /\ forallb P es1 = true
    /\ In e (events (k a (t + length es1)%nat g1))
    /\ events (bind m k t g) = es1 ++ events (k a (t + length es1)%nat g1)
    /\ outcome (bind m k t g) = outcome (k a (t + length es1)%nat g1).
Proof.
  intros He Hm Hin. destruct (Hm t g) as [HP _].
  assert (Hnot : ~ In e (events (m t g))).
  { intros Hin'. rewrite forallb_forall in HP. specialize (HP e Hin'). congruence. }
  destruct (m t g) as [[[l | a] g1] es1] eqn:Hmt.
  - rewrite (bind_inl _ _ _ _ _ _ _ Hmt) in Hin. elim Hnot. exact Hin.
  - exists a, g1, es1. rewrite (bind_inr _ _ _ _ _ _ _ Hmt) in *.
    unfold events at 1 in Hin. simpl in Hin. apply in_app_or in Hin.
    destruct Hin as [Hin | Hin]; [elim Hnot; exact Hin |].
    repeat apply conj; auto.
Qed.

(** *** Code that ends normally when the SDK accepts every call *)

Section Settles.
Context {G D L X : Type}.
Variable sel : event -> option X.

Lemma settles_ret {A} (V : A -> Prop) (a : A) :
  V a -> settles sel [] V (ret a : prog G L A).
Proof. intros Ha t g. exists a. auto. Qed.

Lemma settles_bind {A B} (l1 l2 : list X) (V1 : A -> Prop) (V2 : B -> Prop)
    (m : prog G L A) (k : A -> prog G L B) :
  settles sel l1 V1 m -> (forall a, V1 a -> settles sel l2 V2 (k a)) ->
  settles sel (l1 ++ l2) V2 (bind m k).
Proof.
  intros Hm Hk t g. destruct (Hm t g) as (a & Ho & Ha & Hl).
  destruct (m t g) as [[r g1] es1] eqn:Hmt. unfold outcome, events in Ho, Hl.
  simpl in Ho, Hl. subst r.
  rewrite (bind_inr _ _ _ _ _ _ _ Hmt).
  destruct (Hk a Ha (t + length es1)%nat g1) as (b & Ho' & Hb & Hl').
  exists b. unfold outcome at 1, events at 1. simpl.
  rewrite omap_app, Hl, Hl'. auto.
Qed.

Lemma settles_done {A} (a : A) : settles sel [] (fun _ => True) (ret a : prog G L A).
Proof. apply settles_ret. exact I. Qed.

Lemma settles_as {A} (l l' : list X) (V : A -> Prop) (p : prog G L A) :
  settles sel l V p -> l = l' -> settles sel l' V p.
Proof. intros Hp <-. exact Hp. Qed.

Lemma settles_emit (e : event) :
  settles sel (omap sel [e]) (fun _ => True) (emit e : prog G L unit).
Proof. intros t g. exists tt. auto. Qed.

Lemma settles_modify (f : G -> G) :
  settles sel [] (fun _ => True) (modify f : prog G L unit).
Proof. intros t g. exists tt. auto. Qed.

Lemma settles_block {L'} (l : list X) (V : unit -> Prop) (body : prog G L' unit) :
  settles sel l V body -> settles sel l (fun _ => True) (block body : prog G L unit).
Proof.
  intros Hb t g. destruct (Hb t g) as (a & Ho & Ha & Hl). exists tt.
  unfold block. destruct (body t g) as [[r g1] es1]. auto.
Qed.

Variable E : env D.
Variable callback : D -> prog G unit unit.
Hypothesis callback_quiet :
  forall d, confined (fun e => bool_decide (sel e = None)) (fun _ _ => True) (callback d).

Lemma quiet_omap (es : list event) :
  forallb (fun e => bool_decide (sel e = None)) es = true -> omap sel es = [].
Proof.
  induction es as [| e es IH]; [reflexivity |]. simpl. intros Hes.
  apply andb_prop in Hes. destruct Hes as [He Hes].
  apply bool_decide_eq_true in He. rewrite He. auto.
Qed.

Lemma synced_quiet t g : omap sel (synced_events E callback t g) = [].
Proof.
  apply quiet_omap.
  apply (confined_sync (L := unit) _ _ (fun _ => I) (fun _ _ _ _ _ => I) E callback
           callback_quiet t g).
Qed.

Hypothesis E_obliging : obliging E.

Lemma settles_call (c : api_call) :
  settles sel (omap sel [EvCall c SOLCLIENT_OK]) (fun rc => rc = SOLCLIENT_OK)
    (call E callback c : prog G L _).
Proof.
  intros t g. rewrite call_run. rewrite E_obliging. exists SOLCLIENT_OK.
  unfold outcome, events. simpl fst. simpl snd.
  rewrite omap_app, synced_quiet. auto.
Qed.

End Settles.

(** *** The callbacks and the parts of [main] *)

Section Sample.
Variable E : env delivery.
Variable H : headers.

(** The callbacks only log and print lines with arguments. *)
Lemma callbacks_events (P : event -> bool) (d : delivery) :
  (forall level fmt args, P (EvLog level fmt args) = true) ->
  (forall fmt a args, P (EvPrintf fmt (a :: args)) = true) ->
  confined P (fun _ _ => True) (callbacks E d).
Proof.
  intros Plog Pprintf.
  destruct d as [[] msg_p | e | e]; simpl;
    [ unfold common_flowMessageReceiveCallback
    | unfold common_flowMessageReceiveCallback
    | unfold common_eventCallback; destruct e
    | unfold common_flowEventCallback; destruct e ];
    confined_with idtac ltac:(first [solve [auto] | intros; exact I]).
Qed.

(** A message on a Flow adds one to the counter of that Flow and to
    nothing else; events change no counter. *)
Lemma callbacks_count (d : delivery) t g :
  vars_after (callbacks E d t g) =
    match d with
    | FlowMessage flow_p _ => set_flowRxMsgCounter (int_incr (v_flowRxMsgCounter g)) g
    | FlowMessage dmqFlow_p _ => set_dmqRxMsgCounter (int_incr (v_dmqRxMsgCounter g)) g
    | _ => g
    end.
Proof.
  destruct d as [[] msg_p | e | e]; try reflexivity; destruct e; reflexivity.
Qed.

Lemma callbacks_plain (d : delivery) :
  confined plain_event (fun _ _ => True) (callbacks E d).
Proof. apply callbacks_events; intros; reflexivity. Qed.

Ltac plain :=
  confined_with ltac:(apply callbacks_plain)
                ltac:(first [intros; reflexivity | intros; exact I]).

Lemma publishMessageWithTTL_plain {L} (ttl : Z) (dmqe : bool) :
  confined plain_event (fun _ _ => True) (@publishMessageWithTTL E H L ttl dmqe).
Proof. unfold publishMessageWithTTL. plain. Qed.

Lemma publish_five_plain {L} (announce : bool) :
  confined plain_event (fun _ _ => True) (@publish_five E H L announce).
Proof.
  unfold publish_five.
  repeat first [ apply publishMessageWithTTL_plain
               | confined_step ltac:(apply callbacks_plain)
                               ltac:(first [intros; reflexivity | intros; exact I]) ].
Qed.

Lemma wait_flowRxMsgCounter_plain {L} (expected : Z) (left : nat) :
  confined plain_event (fun _ _ => True) (@wait_flowRxMsgCounter E L expected left).
Proof.
  induction left as [| left IH]; simpl.
  - plain.
  - apply confined_bind; [auto | plain | intros n].
    destruct (n =? expected); [plain |].
    apply confined_bind; [auto | plain | intros _; exact IH].
Qed.

Lemma when_goto_inr {G L} (b : bool) (p : prog G L unit) (l : L) t g a g1 es1 :
  when b (p;; goto l) t g = (inr a, g1, es1) -> b = false /\ g1 = g /\ es1 = [].
Proof.
  destruct b; simpl.
  - unfold bind. destruct (p t g) as [[[l' | []] g'] es']; discriminate.
  - unfold ret. intros Heq. inversion Heq. auto.
Qed.

Lemma is_OK_true (rc : solClient_returnCode_t) : is_OK rc = true -> rc = SOLCLIENT_OK.
Proof. destruct rc; simpl; congruence. Qed.

Lemma plain_no_dmq_load (es : list event) :
  forallb plain_event es = true -> loads_of dmqRxMsgCounter es = [].
Proof.
  induction es as [| e es IH]; [reflexivity |]. simpl. intros Hes.
  apply andb_prop in Hes. destruct Hes as [He Hes]. unfold loads_of in *. simpl.
  rewrite (IH Hes).
  destruct e; try reflexivity. destruct v; try reflexivity. discriminate He.
Qed.

Lemma synced_plain t g : forallb plain_event (synced_events E (callbacks E) t g) = true.
Proof.
  apply (confined_sync (L := unit) _ _ (fun _ => I) (fun _ _ _ _ _ => I) E _
           callbacks_plain t g).
Qed.

Ltac reach Hin a g1 es1 Hm HP :=
  let Hev := fresh "Hev" in
  let Hout := fresh "Hout" in
  apply (bind_reaches plain_event (fun _ _ => True) success_line) in Hin;
    [ destruct Hin as (a & g1 & es1 & Hm & HP & Hin & Hev & Hout);
      rewrite Hev, Hout; clear Hev Hout
    | reflexivity
    | first [ apply publish_five_plain | apply wait_flowRxMsgCounter_plain | plain ] ].

(** The success line at the end of the second round. *)
Lemma second_round_success t g :
  In success_line (events (second_round E H t g)) ->
  exists s0 t1 g1 s1 s2 s3 w s4,
    events (second_round E H t g) =
      s0 ++ EvCall (solClient_flow_stop flow_p) SOLCLIENT_OK
         :: EvPrintf "Resend 5 messages\n" []
         :: events (@publish_five E H label false t1 g1)
         ++ EvPrintf "Wait five seconds to allow messages to expire\n" []
         :: s1 ++ EvSleepSec 5
         :: s2 ++ EvLoad dmqRxMsgCounter 1
         :: s3 ++ EvCall (solClient_flow_start flow_p) SOLCLIENT_OK
         :: w ++ s4 ++ [EvLoad flowRxMsgCounter 3; success_line]
    /\ forallb plain_event (s0 ++ s1 ++ s2 ++ s3 ++ w ++ s4) = true
    /\ outcome (second_round E H t g) = inr tt.
Proof.
  intros Hin. unfold second_round in *.
  reach Hin rc g1 es1 Hm1 HP1.
  rewrite call_run in Hm1. injection Hm1 as Hrc Hg1 Hes1.
  reach Hin u2 g2 es2 Hm2 HP2.
  apply when_goto_inr in Hm2. destruct Hm2 as (Hb & -> & ->).
  apply negb_false_iff, is_OK_true in Hb.
  reach Hin u3 g3 es3 Hm3 HP3. injection Hm3 as Hu3 Hg3 Hes3.
  reach Hin u4 g4 es4 Hm4 HP4. injection Hm4 as Hu4 Hg4 Hes4.
  reach Hin u5 g5 es5 Hm5 HP5.
  reach Hin u6 g6 es6 Hm6 HP6. injection Hm6 as Hu6 Hg6 Hes6.
  reach Hin u7 g7 es7 Hm7 HP7.
  rewrite sleepInSec_run in Hm7. injection Hm7 as Hu7 Hg7 Hes7.
  apply (bind_reaches (fun e => negb (is_success_line e)) (fun _ _ => True) success_line)
    in Hin;
    [ | reflexivity
      | confined_with ltac:(intros d; apply callbacks_events; intros; reflexivity)
                      ltac:(first [intros; reflexivity | intros; exact I]) ].
  destruct Hin as (n & g8 & es8 & Hm8 & _ & Hin & Hev & Hout).
  rewrite Hev, Hout. clear Hev Hout.
  rewrite load_run in Hm8. injection Hm8 as Hn Hg8 Hes8.
  reach Hin u9 g9 es9 Hm9 HP9.
  apply when_goto_inr in Hm9. destruct Hm9 as (Hb9 & -> & ->).
  apply negb_false_iff, Z.eqb_eq in Hb9.
  reach Hin rc10 g10 es10 Hm10 HP10.
  rewrite call_run in Hm10. injection Hm10 as Hrc10 Hg10 Hes10.
  reach Hin u11 g11 es11 Hm11 HP11.
  apply when_goto_inr in Hm11. destruct Hm11 as (Hb11 & -> & ->).
  apply negb_false_iff, is_OK_true in Hb11.
  reach Hin u12 g12 es12 Hm12 HP12.
  reach Hin n13 g13 es13 Hm13 HP13.
  rewrite load_run in Hm13. injection Hm13 as Hn13 Hg13 Hes13.
  reach Hin u14 g14 es14 Hm14 HP14.
  apply when_goto_inr in Hm14. destruct Hm14 as (Hb14 & -> & ->).
  apply negb_false_iff, Z.eqb_eq in Hb14.
  assert (Hes5 : es5 = events (@publish_five E H label false
                                 (t + length es1 + length (@nil event) + length es3
                                  + length es4)%nat g4))
    by (rewrite Hm5; reflexivity).
  rewrite Hrc, Hb in Hes1. rewrite Hn, Hb9 in Hes8. rewrite Hrc10, Hb11 in Hes10.
  rewrite Hn13, Hb14 in Hes13.
  assert (HPs : forallb plain_event
                  (synced_events E (callbacks E) t g
                   ++ removelast es7 ++ removelast es8 ++ removelast es10 ++ es12
                   ++ removelast es13) = true).
  { rewrite <- Hes7, <- Hes8, <- Hes10, <- Hes13.
    rewrite !removelast_last, !forallb_app, !synced_plain, HP12. reflexivity. }
  rewrite <- Hes7, <- Hes8, <- Hes10, <- Hes13, !removelast_last in HPs.
  rewrite Hes5. rewrite <- Hes1, <- Hes3, <- Hes4, <- Hes6, <- Hes7, <- Hes8, <- Hes10, <- Hes13.
  eexists _, _, _, _, _, _, _, _.
  split; [| split; [exact HPs | reflexivity]].
  unfold events at 2. simpl snd.
  rewrite <- !List.app_assoc. simpl. reflexivity.
Qed.

(** When the SDK accepts every call, a message is published with the
    time to live and the eligibility asked for. *)
Lemma callbacks_quiet (d : delivery) :
  confined (fun e => bool_decide (ttl_setting e = None)) (fun _ _ => True) (callbacks E d).
Proof. apply callbacks_events; intros; reflexivity. Qed.

Ltac settle_one Hok :=
  lazymatch goal with
  | |- settles _ _ _ (bind _ _) =>
      eapply settles_bind;
        [ settle_one Hok
        | let a := fresh "a" in
          let Ha := fresh "Ha" in
          intros a Ha; cbv beta in Ha; try subst a; cbn [is_OK negb when]; settle_one Hok ]
  | |- _ =>
      first
        [ eapply (settles_call ttl_setting E (callbacks E) callbacks_quiet Hok)
        | eapply settles_emit
        | eapply settles_modify
        | eapply settles_done
        | eapply settles_block; settle_one Hok ]
  end.

Lemma publishMessageWithTTL_settles {L} (ttl : Z) (dmqe : bool) :
  obliging E ->
  settles ttl_setting [inl ttl; inr dmqe] (fun _ => True)
    (@publishMessageWithTTL E H L ttl dmqe).
Proof.
  intros Hok. unfold publishMessageWithTTL, solClient_log.
  eapply settles_as; [settle_one Hok | reflexivity].
Qed.

Ltac settle Hok :=
  lazymatch goal with
  | |- settles _ _ _ (bind _ _) =>
      eapply settles_bind;
        [ settle Hok
        | let a := fresh "a" in
          let Ha := fresh "Ha" in
          intros a Ha; cbv beta in Ha; try subst a; cbn [is_OK negb when]; settle Hok ]
  | |- settles _ _ _ (publishMessageWithTTL _ _ _ _) =>
      eapply (publishMessageWithTTL_settles _ _ Hok)
  | |- _ =>
      first
        [ eapply (settles_call ttl_setting E (callbacks E) callbacks_quiet Hok)
        | eapply settles_emit
        | eapply settles_modify
        | eapply settles_done
        | eapply settles_block; settle Hok ]
  end.

Lemma publish_five_settles {L} (announce : bool) :
  obliging E ->
  settles ttl_setting five_settings (fun _ => True) (@publish_five E H L announce).
Proof.
  intros Hok. unfold publish_five, printf.
  destruct announce; cbn [when]; (eapply settles_as; [settle Hok | reflexivity]).
Qed.

Lemma loads_of_app (v : shared_var) (es1 es2 : list event) :
  loads_of v (es1 ++ es2) = loads_of v es1 ++ loads_of v es2.
Proof. apply omap_app. Qed.

Lemma loads_of_dmq_around (before after : list event) (z : Z) :
  forallb plain_event before = true -> loads_of dmqRxMsgCounter after = [] ->
  loads_of dmqRxMsgCounter (before ++ EvLoad dmqRxMsgCounter z :: after) = [z].
Proof.
  intros Hb Ha. rewrite loads_of_app, (plain_no_dmq_load _ Hb).
  change (loads_of dmqRxMsgCounter (EvLoad dmqRxMsgCounter z :: after))
    with (z :: loads_of dmqRxMsgCounter after).
  rewrite Ha. reflexivity.
Qed.

Lemma second_round_loads t g :
  In success_line (events (second_round E H t g)) ->
  loads_of dmqRxMsgCounter (events (second_round E H t g)) = [1]
  /\ exists before,
      events (second_round E H t g) = before ++ [EvLoad flowRxMsgCounter 3; success_line].
Proof.
  intros Hin.
  destruct (second_round_success t g Hin)
    as (s0 & t1 & g1 & s1 & s2 & s3 & w & s4 & Hev & HP & _).
  rewrite Hev. rewrite !forallb_app in HP.
  apply andb_prop in HP. destruct HP as [H0 HP].
  apply andb_prop in HP. destruct HP as [H1 HP].
  apply andb_prop in HP. destruct HP as [H2 HP].
  apply andb_prop in HP. destruct HP as [H3 HP].
  apply andb_prop in HP. destruct HP as [Hw H4].
  pose proof (proj1 (@publish_five_plain label false t1 g1)) as Hpub.
  split.
  - set (before :=
           s0 ++ EvCall (solClient_flow_stop flow_p) SOLCLIENT_OK
              :: EvPrintf "Resend 5 messages\n" []
              :: events (@publish_five E H label false t1 g1)
              ++ EvPrintf "Wait five seconds to allow messages to expire\n" []
              :: s1 ++ EvSleepSec 5 :: s2).
    set (after :=
           s3 ++ EvCall (solClient_flow_start flow_p) SOLCLIENT_OK
              :: w ++ s4 ++ [EvLoad flowRxMsgCounter 3; success_line]).
    assert (Hsplit :
              s0 ++ EvCall (solClient_flow_stop flow_p) SOLCLIENT_OK
                 :: EvPrintf "Resend 5 messages\n" []
                 :: events (@publish_five E H label false t1 g1)
                 ++ EvPrintf "Wait five seconds to allow messages to expire\n" []
                 :: s1 ++ EvSleepSec 5
                 :: s2 ++ EvLoad dmqRxMsgCounter 1 :: after
              = before ++ EvLoad dmqRxMsgCounter 1 :: after).
    { unfold before. rewrite <- List.app_assoc. simpl. rewrite <- List.app_assoc. simpl.
      rewrite <- List.app_assoc. simpl. reflexivity. }
    rewrite Hsplit. apply loads_of_dmq_around.
    + unfold before. rewrite forallb_app, H0. simpl.
      rewrite forallb_app, Hpub. simpl. rewrite forallb_app, H1. simpl. exact H2.
    + unfold after.
      assert (Hplain : forallb plain_event
                         (s3 ++ EvCall (solClient_flow_start flow_p) SOLCLIENT_OK :: w ++ s4)
                       = true).
      { rewrite forallb_app, H3. simpl. rewrite forallb_app, Hw. exact H4. }
      replace (s3 ++ EvCall (solClient_flow_start flow_p) SOLCLIENT_OK
                  :: w ++ s4 ++ [EvLoad flowRxMsgCounter 3; success_line])
        with ((s3 ++ EvCall (solClient_flow_start flow_p) SOLCLIENT_OK :: w ++ s4)
              ++ [EvLoad flowRxMsgCounter 3; success_line]).
      * rewrite loads_of_app, (plain_no_dmq_load _ Hplain). reflexivity.
      * rewrite <- List.app_assoc. simpl. rewrite <- List.app_assoc. reflexivity.
  - eexists. rewrite !app_comm_cons, !List.app_assoc. reflexivity.
Qed.

(** Only the end of the second round prints the success line. *)
Lemma callbacks_no_success (d : delivery) :
  confined (fun e => negb (is_success_line e)) (fun _ _ => True) (callbacks E d).
Proof. apply callbacks_events; intros; reflexivity. Qed.

Ltac no_success :=
  confined_with ltac:(apply callbacks_no_success)
                ltac:(first [intros; reflexivity | intros; exact I]).

Lemma publish_five_no_success {L} (announce : bool) :
  confined (fun e => negb (is_success_line e)) (fun _ _ => True)
    (@publish_five E H L announce).
Proof. unfold publish_five, publishMessageWithTTL. no_success. Qed.

Lemma wait_flowRxMsgCounter_no_success {L} (expected : Z) (left : nat) :
  confined (fun e => negb (is_success_line e)) (fun _ _ => True)
    (@wait_flowRxMsgCounter E L expected left).
Proof.
  induction left as [| left IH]; simpl.
  - no_success.
  - apply confined_bind; [auto | no_success | intros n].
    destruct (n =? expected); [no_success |].
    apply confined_bind; [auto | no_success | intros _; exact IH].
Qed.

Lemma provision_no_success (commandOpts : commonOptions) :
  confined (fun e => negb (is_success_line e)) (fun _ _ => True) (provision E H commandOpts).
Proof. unfold provision, common_printCCSMPversion. no_success. Qed.

Lemma first_round_no_success :
  confined (fun e => negb (is_success_line e)) (fun _ _ => True) (first_round E H).
Proof.
  unfold first_round.
  repeat first [ apply publish_five_no_success
               | apply wait_flowRxMsgCounter_no_success
               | confined_step ltac:(apply callbacks_no_success)
                               ltac:(first [intros; reflexivity | intros; exact I]) ].
Qed.

Lemma from_label_no_success (l : label) :
  confined (fun e => negb (is_success_line e)) (fun _ _ => True) (from_label E H l).
Proof.
  destruct l; unfold from_label, at_sessionConnected, at_cleanup; no_success.
Qed.

(** A run of [main] that prints the success line has gone through the
    whole second round. *)
Lemma run_sample_success (commandOpts : commonOptions) t g :
  In success_line (events (run_sample E H commandOpts t g)) ->
  exists before t' g' after,
    events (run_sample E H commandOpts t g)
      = before ++ events (second_round E H t' g') ++ after
    /\ In success_line (events (second_round E H t' g')).
Proof.
  unfold run_sample, with_labels. intros Hin.
  destruct (main_body E H commandOpts t g) as [[r g1] es1] eqn:Hmain.
  set (l := match r with inl l => l | inr _ => sessionConnected end) in *.
  pose proof (from_label_no_success l (t + length es1)%nat g1) as [HP _].
  unfold exec in *.
  destruct (from_label E H l (t + length es1)%nat g1) as [[[[] | a] g2] es2].
  unfold events in Hin, HP |- *. simpl in Hin, HP |- *.
  apply in_app_or in Hin. destruct Hin as [Hin | Hin].
  2:{ rewrite forallb_forall in HP. specialize (HP _ Hin). discriminate HP. }
  assert (Hes1 : es1 = events (main_body E H commandOpts t g)) by (rewrite Hmain; reflexivity).
  rewrite Hes1 in Hin |- *. clear Hes1 Hmain. unfold main_body in *.
  apply (bind_reaches (fun e => negb (is_success_line e)) (fun _ _ => True) success_line)
    in Hin; [| reflexivity | apply provision_no_success].
  destruct Hin as (u1 & g3 & es3 & _ & _ & Hin & Hev & _). rewrite Hev. clear Hev.
  apply (bind_reaches (fun e => negb (is_success_line e)) (fun _ _ => True) success_line)
    in Hin; [| reflexivity | apply first_round_no_success].
  destruct Hin as (u2 & g4 & es4 & _ & _ & Hin & Hev & _). rewrite Hev. clear Hev.
  exists (es3 ++ es4), (t + length es3 + length es4)%nat, g4, es2.
  split; [rewrite <- !List.app_assoc; reflexivity | exact Hin].
Qed.

End Sample.


(** The run in which the appliance behaves as expected prints the
    success line; the one in which two messages reach the DMQ does not. *)
Example expected_run_succeeds :
  In success_line (events expected_run)
  /\ loads_of dmqRxMsgCounter (events expected_run) = [0; 1]
  /\ loads_of flowRxMsgCounter (events expected_run) = [0; 5; 5; 0; 3; 3]
  /\ ttl_settings (events expected_run) = five_settings ++ five_settings
  /\ outcome expected_run = 0.
Proof. vm_compute. tauto. Qed.

Example two_on_dmq_run_fails :
  existsb is_success_line (events two_on_dmq_run) = false
  /\ loads_of dmqRxMsgCounter (events two_on_dmq_run) = [0; 2]
  /\ In (EvLog SOLCLIENT_LOG_ERROR "%d messages received on DMQ, 1 messages expected"
           [AInt 2]) (events two_on_dmq_run).
Proof. vm_compute. tauto. Qed.

End TtlFacts.

(** ** common_parseCommandOptions and common_parseUsernameAndVpn: the
    arrays of the options *)

Module OptionFacts.
Import CStr Sdk Run Common Terms OptionTerms ParseFacts.

Lemma length_strncpy (n : nat) (src : string) : length (strncpy n src) = n.
Proof.
  unfold strncpy. rewrite length_take, length_app, length_replicate. lia.
Qed.

Lemma cstr_take_padded (s : string) : forall n m : nat,
  no_nul s = true -> (String.length s < n)%nat -> (0 < m)%nat ->
  cstr (take n (list_ascii_of_string s ++ replicate m NUL)) = s.
Proof.
  induction s as [| c s IH]; intros n m Hs Hn Hm; simpl in *.
  - destruct n as [| n]; [lia |]. destruct m as [| m]; [lia |]. reflexivity.
  - destruct n as [| n]; [lia |]. simpl.
    apply andb_true_iff in Hs as [Hc Hs]. apply negb_true_iff in Hc. rewrite Hc.
    f_equal. apply IH; [assumption | lia | assumption].
Qed.

Lemma cstr_strncpy (n : nat) (s : string) :
  no_nul s = true -> (String.length s < n)%nat -> cstr (strncpy n s) = s.
Proof.
  intros Hs Hn. unfold strncpy. apply cstr_take_padded; [assumption | assumption | lia].
Qed.

Lemma length_list_ascii (s : string) : length (list_ascii_of_string s) = String.length s.
Proof. induction s as [| c s IH]; simpl; [reflexivity | rewrite IH; reflexivity]. Qed.

Lemma strncpy_full (n : nat) (s : string) :
  (n <= String.length s)%nat -> strncpy n s = take n (list_ascii_of_string s).
Proof.
  intros Hn. unfold strncpy. apply take_app_le. rewrite length_list_ascii. exact Hn.
Qed.

Lemma no_nul_forallb (s : string) :
  no_nul s = true -> unterminated (list_ascii_of_string s) = true.
Proof.
  induction s as [| c s IH]; simpl; [reflexivity |].
  intros Hs. apply andb_true_iff in Hs as [Hc Hs]. rewrite Hc. simpl. apply IH, Hs.
Qed.

Lemma unterminated_take (n : nat) (b : buffer) :
  unterminated b = true -> unterminated (take n b) = true.
Proof.
  revert n. induction b as [| c b IH]; intros [| n]; simpl; try reflexivity.
  intros Hb. apply andb_true_iff in Hb as [Hc Hb]. rewrite Hc. simpl. apply IH, Hb.
Qed.

(** The five options whose argument is copied with [strncpy]. *)
Lemma copied_to_cases (c : ascii) (field : commonOptions -> buffer) :
  copied_to c = Some field ->
  (c = "a"%char /\ field = cacheName) \/ (c = "c"%char /\ field = targetHost)
  \/ (c = "R"%char /\ field = replayStartLocation)
  \/ (c = "t"%char /\ field = destinationName) \/ (c = "p"%char /\ field = password).
Proof.
  unfold copied_to.
  repeat match goal with
         | |- context [Ascii.eqb c ?x] =>
             let Hc := fresh "Hc" in
             destruct (Ascii.eqb c x) eqn:Hc;
             [apply Ascii.eqb_eq in Hc; intros Heq; injection Heq as <-; tauto |]
         end.
  discriminate.
Qed.

Lemma parse_option_copies (H : headers) (atoi : string -> Z) (strtol : string -> Z * string)
    (c : ascii) (field : commonOptions -> buffer) (optarg : string)
    (commonOpt : commonOptions) (rc : Z) :
  copied_to c = Some field ->
  exists commonOpt',
    parse_option H atoi strtol c optarg commonOpt rc = Some (commonOpt', rc)
    /\ field commonOpt' = strncpy (length (field commonOpt)) optarg.
Proof.
  intros Hc. apply copied_to_cases in Hc.
  destruct Hc as [[-> ->] | [[-> ->] | [[-> ->] | [[-> ->] | [-> ->]]]]];
    eexists; split; reflexivity.
Qed.

(** An option argument shorter than its array is stored as it is, NUL
    included: reading the array as a C string gives the argument back.
    [rc] is not touched and the array keeps its size. *)
Theorem string_option_round_trip :
  forall (H : headers) (atoi : string -> Z) (strtol : string -> Z * string)
         (c : ascii) (field : commonOptions -> buffer) (optarg : string)
         (commonOpt : commonOptions) (rc : Z),
    copied_to c = Some field ->
    no_nul optarg = true ->
    (String.length optarg < length (field commonOpt))%nat ->
    exists commonOpt',
      parse_option H atoi strtol c optarg commonOpt rc = Some (commonOpt', rc)
      /\ cstr (field commonOpt') = optarg
      /\ length (field commonOpt') = length (field commonOpt).
Proof.
  intros H atoi strtol c field optarg commonOpt rc Hc Hs Hn.
  destruct (parse_option_copies H atoi strtol c field optarg commonOpt rc Hc)
    as (o' & Hr & Hf).
  exists o'. rewrite Hf. split; [exact Hr |]. split.
  - apply cstr_strncpy; assumption.
  - apply length_strncpy.
Qed.

Lemma string_option_round_trip_witness :
  exists commonOpt',
    parse_option sample_headers sample_atoi sample_strtol "c" "10.1.1.1" sample_stack 1
      = Some (commonOpt', 1)
    /\ cstr (targetHost commonOpt') = "10.1.1.1"
    /\ length (targetHost commonOpt') = length (targetHost sample_stack).
Proof.
  apply (string_option_round_trip sample_headers sample_atoi sample_strtol
           "c" targetHost "10.1.1.1" sample_stack 1);
    [reflexivity | reflexivity | vm_compute; lia].
Defined.

(** An option argument at least as long as its array fills the array and
    leaves no room for the NUL: the array holds the first characters of
    the argument and is not terminated.  The parser does not report it. *)
Theorem string_option_unterminated :
  forall (H : headers) (atoi : string -> Z) (strtol : string -> Z * string)
         (c : ascii) (field : commonOptions -> buffer) (optarg : string)
         (commonOpt : commonOptions) (rc : Z),
    copied_to c = Some field ->
    no_nul optarg = true ->
    (length (field commonOpt) <= String.length optarg)%nat ->
    exists commonOpt',
      parse_option H atoi strtol c optarg commonOpt rc = Some (commonOpt', rc)
      /\ field commonOpt' = take (length (field commonOpt)) (list_ascii_of_string optarg)
      /\ unterminated (field commonOpt') = true.
Proof.
  intros H atoi strtol c field optarg commonOpt rc Hc Hs Hn.
  destruct (parse_option_copies H atoi strtol c field optarg commonOpt rc Hc)
    as (o' & Hr & Hf).
  exists o'. rewrite Hf, strncpy_full by exact Hn.
  split; [exact Hr |]. split; [reflexivity |].
  apply unterminated_take, no_nul_forallb, Hs.
Qed.

Lemma string_option_unterminated_witness :
  exists commonOpt',
    parse_option sample_headers sample_atoi sample_strtol "p" "password" small_options 1
      = Some (commonOpt', 1)
    /\ password commonOpt'
         = take (length (password small_options)) (list_ascii_of_string "password")
    /\ unterminated (password commonOpt') = true.
Proof.
  apply (string_option_unterminated sample_headers sample_atoi sample_strtol
           "p" password "password" small_options 1);
    [reflexivity | reflexivity | vm_compute; lia].
Defined.

(** *** A user name that does not fit *)

Section Overflow.
Variable vpnLen : nat.

(** Once the username array is full, [dest] stays one past its end. *)
Lemma parse_chars_fills_username (s : string) : forall (st : parse_state) (i : nat),
  plain s = true ->
  p_dest st = at_outUsername i ->
  (i <= length (p_outUsername st))%nat ->
  p_remaining st = (length (p_outUsername st) - i)%nat ->
  (p_remaining st <= String.length s)%nat ->
  match parse_chars vpnLen s st with
  | Some st' =>
      p_dest st' = at_outUsername (length (p_outUsername st'))
  | None => True
  end.
Proof.
  induction s as [| c s IH]; intros st i Hp Hd Hi Hr Hs; simpl in *.
  - rewrite Hd. f_equal. lia.
  - apply plain_String in Hp as (Hat & Hnul & Hp). rewrite Hnul.
    unfold parse_char. rewrite Hat.
    destruct (p_remaining st) as [| r] eqn:Hrem; simpl.
    + rewrite Hd. destruct i as [| j]; simpl; [exact I |].
      unfold store_at. rewrite store_lt by lia.
      apply (IH _ (S j)); simpl; try assumption; rewrite ?length_insert; lia.
    + unfold store_at. rewrite Hd. rewrite store_lt by lia. simpl.
      apply (IH _ (S i)); simpl; try assumption; try reflexivity;
        rewrite ?length_insert; lia.
Qed.

Lemma store_at_end (st : parse_state) (c : ascii) :
  p_dest st = at_outUsername (length (p_outUsername st)) ->
  store_at st (p_dest st) c = None.
Proof.
  intros ->. unfold store_at, store.
  destruct (Nat.ltb_spec (length (p_outUsername st)) (length (p_outUsername st)));
    [lia | reflexivity].
Qed.

Lemma parseUsernameAndVpn_overflow (user ns : string) (outUsername outVpn : buffer) :
  plain user = true ->
  (length outUsername <= String.length user)%nat ->
  common_parseUsernameAndVpn user outUsername (length outUsername) outVpn vpnLen = None
  /\ common_parseUsernameAndVpn (user +:+ "@" +:+ ns) outUsername (length outUsername)
       outVpn vpnLen = None.
Proof.
  intros Hu Hl.
  set (st0 := {| p_outUsername := outUsername; p_outVpn := outVpn;
                 p_dest := at_outUsername 0; p_remaining := length outUsername |}).
  pose proof (parse_chars_fills_username user st0 0 Hu) as Hfull.
  simpl in Hfull. specialize (Hfull eq_refl ltac:(lia) ltac:(lia) Hl).
  split.
  - unfold common_parseUsernameAndVpn. fold st0.
    destruct (parse_chars vpnLen user st0) as [st |]; [| reflexivity].
    rewrite store_at_end by exact Hfull. reflexivity.
  - unfold common_parseUsernameAndVpn. fold st0.
    rewrite parse_chars_app by assumption.
    destruct (parse_chars vpnLen user st0) as [st |]; [| reflexivity].
    simpl. unfold parse_char. simpl.
    rewrite store_at_end by exact Hfull. reflexivity.
Qed.

End Overflow.

(** A [--cu] argument whose user part has as many characters as the
    username array, or more, makes [common_parseUsernameAndVpn] write the
    terminating NUL one past the end of the array, with or without a
    namespace part: the behaviour of the parser is undefined. *)
Theorem cu_option_overflows :
  forall (H : headers) (atoi : string -> Z) (strtol : string -> Z * string)
         (commonOpt : commonOptions) (rc : Z) (user ns : string),
    plain user = true ->
    (length (username commonOpt) <= String.length user)%nat ->
    parse_option H atoi strtol "u" user commonOpt rc = None
    /\ parse_option H atoi strtol "u" (user +:+ "@" +:+ ns) commonOpt rc = None.
Proof.
  intros H atoi strtol commonOpt rc user ns Hu Hl.
  destruct (parseUsernameAndVpn_overflow (length (vpn commonOpt)) user ns
              (username commonOpt) (vpn commonOpt) Hu Hl) as [H1 H2].
  unfold parse_option. simpl. rewrite H1, H2. auto.
Qed.

Lemma cu_option_overflows_witness :
  parse_option sample_headers sample_atoi sample_strtol "u" "bobbobbo" small_options 1 = None
  /\ parse_option sample_headers sample_atoi sample_strtol "u"
       ("bobbobbo" +:+ "@" +:+ "vpn1") small_options 1 = None.
Proof.
  apply (cu_option_overflows sample_headers sample_atoi sample_strtol small_options 1
           "bobbobbo" "vpn1"); [reflexivity | vm_compute; lia].
Defined.

(** *** More than one ['@'] *)

(** With two ['@'] in the [--cu] argument the text between them is
    overwritten: the user name is what precedes the first ['@'] and the
    VPN name what follows the last. *)
Theorem cu_option_last_namespace_wins :
  forall (H : headers) (atoi : string -> Z) (strtol : string -> Z * string)
         (commonOpt : commonOptions) (rc : Z) (user ns1 ns2 : string),
    plain user = true -> plain ns1 = true -> plain ns2 = true ->
    (String.length user < length (username commonOpt))%nat ->
    (String.length ns1 < length (vpn commonOpt))%nat ->
    (String.length ns2 < length (vpn commonOpt))%nat ->
    exists u v,
      parse_option H atoi strtol "u" (user +:+ "@" +:+ ns1 +:+ "@" +:+ ns2) commonOpt rc
        = Some (set_username_vpn u v commonOpt, rc)
      /\ cstr u = user /\ cstr v = ns2.
Proof.
  intros H atoi strtol commonOpt rc user ns1 ns2 Hu Hn1 Hn2 Hlu Hl1 Hl2.
  set (outUsername := username commonOpt). set (outVpn := vpn commonOpt).
  fold outUsername in Hlu. fold outVpn in Hl1, Hl2.
  set (st0 := {| p_outUsername := outUsername; p_outVpn := outVpn;
                 p_dest := at_outUsername 0; p_remaining := length outUsername |}).
  destruct (parse_chars_username (length outVpn) user st0 0)
    as (b & Hb & Hlen & Htake); simpl; try reflexivity; try assumption; try lia.
  simpl in Hb, Hlen, Htake.
  destruct (parse_chars_vpn (length outVpn) ns1
              {| p_outUsername := <[String.length user := NUL]> b; p_outVpn := outVpn;
                 p_dest := at_outVpn 0; p_remaining := length outVpn |} 0)
    as (b1 & Hb1 & Hlen1 & Htake1); simpl; try reflexivity; try assumption; try lia.
  simpl in Hb1, Hlen1, Htake1.
  destruct (parse_chars_vpn (length outVpn) ns2
              {| p_outUsername := <[String.length user := NUL]> b;
                 p_outVpn := <[String.length ns1 := NUL]> b1;
                 p_dest := at_outVpn 0; p_remaining := length outVpn |} 0)
    as (b2 & Hb2 & Hlen2 & Htake2); simpl; try reflexivity; try assumption;
    rewrite ?length_insert; try lia.
  simpl in Hb2, Hlen2, Htake2. rewrite length_insert in Hlen2.
  assert (Hrun : common_parseUsernameAndVpn (user +:+ "@" +:+ ns1 +:+ "@" +:+ ns2)
                   outUsername (length outUsername) outVpn (length outVpn)
                 = Some (<[String.length user := NUL]> b, <[String.length ns2 := NUL]> b2)).
  { unfold common_parseUsernameAndVpn. fold st0.
    rewrite parse_chars_app by assumption. rewrite Hb.
    change ("@" +:+ ns1 +:+ "@" +:+ ns2) with (String "@" (ns1 +:+ "@" +:+ ns2)).
    cbn [parse_chars is_nul Ascii.eqb Bool.eqb NUL Ascii.zero andb].
    unfold parse_char. cbn [Ascii.eqb Bool.eqb andb p_dest store_at p_outUsername].
    rewrite store_lt by lia. cbn [p_outUsername p_outVpn].
    rewrite parse_chars_app by assumption. rewrite Hb1.
    change ("@" +:+ ns2) with (String "@" ns2).
    cbn [parse_chars is_nul Ascii.eqb Bool.eqb NUL Ascii.zero andb].
    unfold parse_char. cbn [Ascii.eqb Bool.eqb andb p_dest store_at p_outVpn Nat.add].
    rewrite store_lt by lia. cbn [p_outUsername p_outVpn].
    rewrite Hb2. cbn [p_dest store_at p_outVpn p_outUsername Nat.add].
    rewrite store_lt by lia. reflexivity. }
  exists (<[String.length user := NUL]> b), (<[String.length ns2 := NUL]> b2).
  split.
  - unfold parse_option. simpl. fold outUsername outVpn. rewrite Hrun. reflexivity.
  - split; apply terminated; auto; lia.
Qed.

Lemma cu_option_last_namespace_wins_witness :
  exists u v,
    parse_option sample_headers sample_atoi sample_strtol "u"
      ("bob" +:+ "@" +:+ "old" +:+ "@" +:+ "new") small_options 1
      = Some (set_username_vpn u v small_options, 1)
    /\ cstr u = "bob" /\ cstr v = "new".
Proof.
  apply (cu_option_last_namespace_wins sample_headers sample_atoi sample_strtol
           small_options 1 "bob" "old" "new");
    [reflexivity | reflexivity | reflexivity | vm_compute; lia | vm_compute; lia
    | vm_compute; lia].
Defined.

(** *** [--gss] and the user name *)

Section Gss.
Variable H : headers.
Variable atoi : string -> Z.
Variable strtol : string -> Z * string.

Lemma parse_option_useGSS (c : ascii) (optarg : string) (o o' : commonOptions) (rc rc' : Z) :
  parse_option H atoi strtol c optarg o rc = Some (o', rc') ->
  useGSS o' = (Ascii.eqb c "g" || useGSS o).
Proof.
  unfold parse_option.
  destruct (Ascii.eqb c "a") eqn:Ea.
  { apply Ascii.eqb_eq in Ea. subst c. intros Heq; injection Heq as <- _. reflexivity. }
  destruct (Ascii.eqb c "c") eqn:Ec.
  { apply Ascii.eqb_eq in Ec. subst c. intros Heq; injection Heq as <- _. reflexivity. }
  destruct (Ascii.eqb c "d") eqn:Ed.
  { apply Ascii.eqb_eq in Ed. subst c. intros Heq; injection Heq as <- _. reflexivity. }
  destruct (Ascii.eqb c "g") eqn:Eg.
  { intros Heq; injection Heq as <- _. reflexivity. }
  simpl.
  repeat match goal with
         | |- context [Ascii.eqb c ?x] => destruct (Ascii.eqb c x)
         end;
    try (intros Heq; injection Heq as <- _; reflexivity).
  - destruct (parse_log_level H strtol optarg) as [level ok].
    intros Heq; injection Heq as <- _. reflexivity.
  - destruct (common_parseUsernameAndVpn _ _ _ _ _) as [[u v] |]; [| discriminate].
    intros Heq; injection Heq as <- _. reflexivity.
Qed.

Lemma parse_options_useGSS (opts : list (ascii * string)) :
  forall (o o' : commonOptions) (rc rc' : Z),
    parse_options H atoi strtol opts o rc = Some (o', rc') ->
    useGSS o' = (existsb (fun opt => Ascii.eqb (fst opt) "g") opts || useGSS o).
Proof.
  induction opts as [| [c optarg] opts IH]; intros o o' rc rc'; simpl.
  - intros Heq; injection Heq as <- _. reflexivity.
  - destruct (parse_option H atoi strtol c optarg o rc) as [[o1 rc1] |] eqn:Hopt;
      [| discriminate].
    intros Hrest. apply IH in Hrest. apply parse_option_useGSS in Hopt.
    rewrite Hrest, Hopt.
    destruct (Ascii.eqb c "g"), (existsb _ opts), (useGSS o); reflexivity.
Qed.

Lemma missing_cu_not_usage (argv0 : string) (o : commonOptions) (desc : option string) :
  ~ In missing_cu (usage_printfs H argv0 o desc).
Proof.
  unfold usage_printfs, missing_cu. destruct desc; simpl; intros Hin;
    repeat (destruct Hin as [Hin | Hin]; [discriminate |]); exact Hin.
Qed.

End Gss.

(** With [--gss] (or [-g]) among the options, [useGSS] is set whatever
    else is on the command line, and an empty user name is not reported:
    the line that asks for [--cu] is never printed. *)
Theorem gss_waives_user_name :
  forall (H : headers) (atoi : string -> Z) (strtol : string -> Z * string)
         (argv0 : string) (opts : list (ascii * string)) (commonOpt commonOpt' : commonOptions)
         (positionalDesc : option string) (rc : Z) (printed : list event),
    existsb (fun opt => Ascii.eqb (fst opt) "g") opts = true ->
    common_parseCommandOptions H atoi strtol argv0 opts commonOpt positionalDesc
      = Some (rc, commonOpt', printed) ->
    useGSS commonOpt' = true
    /\ ~ In missing_cu printed.
Proof.
  intros H atoi strtol argv0 opts o o' desc rc printed Hg.
  unfold common_parseCommandOptions.
  destruct (parse_options H atoi strtol opts o 1) as [[o1 rc1] |] eqn:Hp; [| discriminate].
  intros Heq; injection Heq as <- <- <-.
  apply parse_options_useGSS in Hp. rewrite Hg in Hp. simpl in Hp.
  split; [exact Hp |].
  intros Hin. apply in_app_or in Hin as [Hin | Hin].
  - unfold missing_printfs in Hin.
    apply list_elem_of_In, list_elem_of_omap in Hin as (chk & Hin & Heq).
    unfold required_checks in Hin. rewrite Hp, andb_false_r in Hin.
    repeat (apply elem_of_cons in Hin as [-> | Hin]);
      [.. | apply elem_of_nil in Hin; exact Hin];
      simpl in Heq; try discriminate;
      destruct (required_missing _ _ _); discriminate.
  - destruct (_ =? 0); [| exact Hin].
    exact (missing_cu_not_usage H argv0 o1 desc Hin).
Qed.

Lemma gss_waives_user_name_witness :
  useGSS (set_useGSS true (common_initCommandOptions small_options 2 0 sample_headers)) = true
  /\ ~ In missing_cu [].
Proof.
  apply (gss_waives_user_name sample_headers sample_atoi sample_strtol "sample"
           [("g"%char, "")] (common_initCommandOptions small_options 2 0 sample_headers)
           (set_useGSS true (common_initCommandOptions small_options 2 0 sample_headers))
           None 1 []);
    [reflexivity | vm_compute; reflexivity].
Defined.

End OptionFacts.

(** ** common_publishMessage and publishMessageWithTTL *)

Module PublishFacts.
Import CStr Sdk Run Common CommonPublish Obs Behaviour RunFacts Step CommonFacts ShowsFacts.
Local Open Scope prog_scope.

Section PublishMessage.
Context {G D L : Type}.
Variable E : env D.
Variable callback : D -> prog G unit unit.
Hypothesis callback_quiet : quiet answer_of callback.

Lemma publishMessage_shows (topic_p : string) (deliveryMode : solClient_deliveryMode_t) :
  exists Q,
    shows answer_of Q (@common_publishMessage G D E callback L topic_p deliveryMode)
    /\ forall r l, Q r l ->
         exists rc, r = inr rc
           /\ (rc = SOLCLIENT_OK <->
               exists rcFreeMsg,
                 l = [ (solClient_msg_alloc, SOLCLIENT_OK);
                       (solClient_msg_setDeliveryMode deliveryMode, SOLCLIENT_OK);
                       (solClient_msg_setDestination SOLCLIENT_TOPIC_DESTINATION topic_p,
                        SOLCLIENT_OK);
                       (solClient_session_sendMsg, SOLCLIENT_OK);
                       (solClient_msg_free, rcFreeMsg) ])
           /\ (rc <> SOLCLIENT_OK ->
               exists c, In (c, rc) l /\ c <> solClient_msg_free)
           /\ length (List.filter is_msg_free l) = length (List.filter is_alloc_OK l)
           /\ (length (List.filter is_alloc_OK l) <= 1)%nat.
Proof.
  eexists. split.
  - unfold common_publishMessage. shows_with ltac:(exact callback_quiet).
  - intros r l HQ. way HQ.
    all: repeat match goal with
                | H : negb (is_OK _) = false |- _ => apply not_OK in H; subst
                | H : negb (is_OK _) = true |- _ => apply not_OK_true in H
                end.
    all: simpl.
    all: eexists; split; [reflexivity |].
    all: split;
      [ split;
        [ intros Hok; first [contradiction | eexists; reflexivity]
        | intros (rf & Heq); first [reflexivity | discriminate Heq
                                   | injection Heq; intros; subst; contradiction] ] |].
    all: split;
      [ intros Hne; first [contradiction | eexists; split; [simpl; eauto 10 | discriminate]] |].
    all: repeat match goal with
                | |- context [match ?rc with SOLCLIENT_OK => _ | _ => _ end] =>
                    destruct rc; try contradiction
                end.
    all: simpl; split; first [reflexivity | lia].
Qed.

End PublishMessage.

Lemma idle_quiet {G X} (sel : event -> option X) : quiet sel (@idle G).
Proof. intros d t g. split; [reflexivity | exact I]. Qed.

(** [common_publishMessage] returns SOLCLIENT_OK exactly when
    [solClient_msg_alloc], [solClient_msg_setDeliveryMode],
    [solClient_msg_setDestination] and [solClient_session_sendMsg] were
    made in this order, with the topic and delivery mode given, and
    each returned SOLCLIENT_OK; what [solClient_msg_free] returns then is
    not reported.  Any other code it returns is the code of a call that
    failed, never that of [solClient_msg_free]. *)
Theorem publishMessage_result :
  forall (G D L : Type) (E : env D) (callback : D -> prog G unit unit)
         (topic_p : string) (deliveryMode : solClient_deliveryMode_t) t (g : G),
    quiet answer_of callback ->
    let r := @common_publishMessage G D E callback L topic_p deliveryMode t g in
    exists rc,
      outcome r = inr rc
      /\ (rc = SOLCLIENT_OK <->
          exists rcFreeMsg,
            answers (events r) =
              [ (solClient_msg_alloc, SOLCLIENT_OK);
                (solClient_msg_setDeliveryMode deliveryMode, SOLCLIENT_OK);
                (solClient_msg_setDestination SOLCLIENT_TOPIC_DESTINATION topic_p,
                 SOLCLIENT_OK);
                (solClient_session_sendMsg, SOLCLIENT_OK);
                (solClient_msg_free, rcFreeMsg) ])
      /\ (rc <> SOLCLIENT_OK ->
          exists c, In (c, rc) (answers (events r)) /\ c <> solClient_msg_free).
Proof.
  intros G D L E callback topic_p deliveryMode t g Hq r.
  destruct (@publishMessage_shows G D L E callback Hq topic_p deliveryMode) as (Q & HQ & Hall).
  destruct (Hall _ _ (HQ t g)) as (rc & Hr & Hok & Hfail & _).
  exists rc. auto.
Qed.

Lemma publishMessage_result_witness :
  let r := @common_publishMessage unit unit send_fails idle unit "my/sample/topic"
             SOLCLIENT_DELIVERY_MODE_DIRECT 0%nat tt in
  exists rc,
    outcome r = inr rc
    /\ (rc = SOLCLIENT_OK <->
        exists rcFreeMsg,
          answers (events r) =
            [ (solClient_msg_alloc, SOLCLIENT_OK);
              (solClient_msg_setDeliveryMode SOLCLIENT_DELIVERY_MODE_DIRECT, SOLCLIENT_OK);
              (solClient_msg_setDestination SOLCLIENT_TOPIC_DESTINATION "my/sample/topic",
               SOLCLIENT_OK);
              (solClient_session_sendMsg, SOLCLIENT_OK);
              (solClient_msg_free, rcFreeMsg) ])
    /\ (rc <> SOLCLIENT_OK ->
        exists c, In (c, rc) (answers (events r)) /\ c <> solClient_msg_free).
Proof.
  apply (publishMessage_result unit unit unit send_fails idle "my/sample/topic"
           SOLCLIENT_DELIVERY_MODE_DIRECT 0%nat tt).
  intros d t g. split; reflexivity.
Defined.

(** [common_publishMessage] frees the message it allocated, whatever
    fails in between: it makes as many [solClient_msg_free] calls as
    [solClient_msg_alloc] calls that returned SOLCLIENT_OK, at most one. *)
Theorem publishMessage_frees_its_message :
  forall (G D L : Type) (E : env D) (callback : D -> prog G unit unit)
         (topic_p : string) (deliveryMode : solClient_deliveryMode_t) t (g : G),
    quiet answer_of callback ->
    let l := answers (events (@common_publishMessage G D E callback L topic_p
                                deliveryMode t g)) in
    length (List.filter is_msg_free l) = length (List.filter is_alloc_OK l)
    /\ (length (List.filter is_alloc_OK l) <= 1)%nat.
Proof.
  intros G D L E callback topic_p deliveryMode t g Hq l.
  destruct (@publishMessage_shows G D L E callback Hq topic_p deliveryMode) as (Q & HQ & Hall).
  destruct (Hall _ _ (HQ t g)) as (rc & _ & _ & _ & Hfree). exact Hfree.
Qed.

Lemma publishMessage_frees_its_message_witness :
  let l := answers (events (@common_publishMessage unit unit send_fails idle unit
                              "my/sample/topic" SOLCLIENT_DELIVERY_MODE_DIRECT 0%nat tt)) in
  length (List.filter is_msg_free l) = length (List.filter is_alloc_OK l)
  /\ (length (List.filter is_alloc_OK l) <= 1)%nat.
Proof.
  apply (publishMessage_frees_its_message unit unit unit send_fails idle "my/sample/topic"
           SOLCLIENT_DELIVERY_MODE_DIRECT 0%nat tt).
  intros d t g. split; reflexivity.
Defined.

(** *** messageTTLAndDeadMessageQueue.c: publishMessageWithTTL *)

Lemma ttl_callbacks_quiet (E : env MessageTTL.delivery) :
  quiet answer_of (MessageTTL.callbacks E).
Proof. intros d. apply TtlFacts.callbacks_events; intros; reflexivity. Qed.

(** [publishMessageWithTTL] frees the message it allocated, whatever
    fails in between: it makes as many [solClient_msg_free] calls as
    [solClient_msg_alloc] calls that returned SOLCLIENT_OK, at most one,
    and [solClient_msg_free] is then its last SDK call. *)
Theorem publishMessageWithTTL_frees_its_message :
  forall (E : env MessageTTL.delivery) (H : headers) (L : Type) (ttl : Z) (dmqe : bool)
         t (g : MessageTTL.vars),
    let l := answers (events (@MessageTTL.publishMessageWithTTL E H L ttl dmqe t g)) in
    length (List.filter is_msg_free l) = length (List.filter is_alloc_OK l)
    /\ (length (List.filter is_alloc_OK l) <= 1)%nat
    /\ (In (solClient_msg_alloc, SOLCLIENT_OK) l ->
        exists rc, last l = Some (solClient_msg_free, rc)).
Proof.
  intros E H L ttl dmqe t g l.
  assert (Hs : exists Q, shows answer_of Q (@MessageTTL.publishMessageWithTTL E H L ttl dmqe)
                 /\ forall r l, Q r l ->
                      length (List.filter is_msg_free l) = length (List.filter is_alloc_OK l)
                      /\ (length (List.filter is_alloc_OK l) <= 1)%nat
                      /\ (In (solClient_msg_alloc, SOLCLIENT_OK) l ->
                          exists rc, last l = Some (solClient_msg_free, rc))).
  { eexists. split.
    - unfold MessageTTL.publishMessageWithTTL. shows_with ltac:(apply ttl_callbacks_quiet).
    - intros r0 l0 HQ. way HQ.
      all: repeat match goal with
                  | H : negb (is_OK _) = false |- _ => apply not_OK in H; subst
                  | H : negb (is_OK _) = true |- _ => apply not_OK_true in H
                  end.
      all: simpl.
      all: repeat match goal with
                  | |- context [match ?rc with SOLCLIENT_OK => _ | _ => _ end] =>
                      destruct rc; try contradiction
                  end.
      all: simpl; repeat apply conj; try reflexivity; try lia.
      all: intros Hin; first [eexists; reflexivity | exfalso];
        repeat (destruct Hin as [Hin | Hin]; [congruence |]); exact Hin. }
  destruct Hs as (Q & HQ & Hall). exact (Hall _ _ (HQ t g)).
Qed.

End PublishFacts.

(** ** HelloWorldWebPub.c *)

Module HelloWorldFacts.
Import CStr Sdk Run Common Obs Behaviour RunFacts Step ShowsFacts.
Local Open Scope prog_scope.

(** [main] of HelloWorldWebPub returns 0 or -1.  It returns 0 exactly
    when it has called [solClient_cleanup]: on every failure it returns
    without cleaning up.  When it returns 0, every SDK call before
    [solClient_cleanup] returned SOLCLIENT_OK. *)
Theorem HelloWorldWebPub_cleans_up_on_success_only :
  forall (E : env unit) (argv : list string),
    let r := HelloWorldWebPub.main E argv in
    (fst r = 0 \/ fst r = -1)
    /\ (fst r = 0 <-> In solClient_cleanup (map fst (answers (snd r))))
    /\ (fst r = 0 ->
        forall c rc, In (c, rc) (answers (snd r)) -> c <> solClient_cleanup ->
                     rc = SOLCLIENT_OK).
Proof.
  intros E argv r.
  assert (Hs : exists Q, shows answer_of Q (HelloWorldWebPub.main_body E argv)
                 /\ forall r l, Q r l ->
                      let status := match r with inl s => s | inr s => s end in
                      (status = 0 \/ status = -1)
                      /\ (status = 0 <-> In solClient_cleanup (map fst l))
                      /\ (status = 0 ->
                          forall c rc, In (c, rc) l -> c <> solClient_cleanup ->
                                       rc = SOLCLIENT_OK)).
  { eexists. split.
    - unfold HelloWorldWebPub.main_body, HelloWorldWebPub.expect_OK.
      shows_with ltac:(intros d t g; split; reflexivity).
    - intros r0 l0 HQ. way HQ.
      all: repeat match goal with
                  | H : negb (is_OK _) = false |- _ => apply not_OK in H; subst
                  | H : negb (is_OK _) = true |- _ => apply not_OK_true in H
                  end.
      all: simpl.
      all: repeat apply conj.
      all: try solve [first [left; reflexivity | right; reflexivity]].
      all: intros Hst; try discriminate Hst; try reflexivity.
      all: try solve [repeat (first [left; reflexivity | right])].
      all: try solve [exfalso;
                      repeat (destruct Hst as [Hst | Hst]; [discriminate Hst |]);
                      exact Hst].
      all: intros c rc' Hin Hc;
        repeat (destruct Hin as [Hin | Hin];
                [injection Hin as <- <-; first [reflexivity | congruence] |]);
        contradiction. }
  destruct Hs as (Q & HQ & Hall). specialize (Hall _ _ (HQ 0%nat tt)).
  subst r. unfold HelloWorldWebPub.main.
  destruct (HelloWorldWebPub.main_body E argv 0%nat tt) as [[[s | s] g] es];
    unfold outcome, events in Hall; simpl in *; exact Hall.
Qed.

End HelloWorldFacts.

(** ** Error reports, cleanup and waiting *)

Module ReportFacts.
Import CStr Sdk Run Common CommonPublish Obs Behaviour Reports RunFacts Step CommonFacts
  ShowsFacts.
Local Open Scope prog_scope.

Lemma omap_unseen {X} (sel : event -> option X) (es : list event) :
  omap sel es = [] -> forallb (unseen sel) es = true.
Proof.
  induction es as [| e es IH]; [reflexivity |]. simpl. unfold unseen at 1.
  destruct (sel e); [discriminate | exact IH].
Qed.

(** Callbacks are quiet when they show nothing. *)
Lemma quiet_of_shows {G D X} (sel : event -> option X) (callback : D -> prog G unit unit) :
  (forall d, shows sel (fun _ l => l = []) (callback d)) -> quiet sel callback.
Proof. intros Hs d t g. split; [apply omap_unseen, Hs | exact I]. Qed.

Lemma shows_weaken {G L A X} (sel : event -> option X) (Q Q' : L + A -> list X -> Prop)
    (p : prog G L A) :
  shows sel Q p -> (forall r l, Q r l -> Q' r l) -> shows sel Q' p.
Proof. intros Hp HQ t g. apply HQ, Hp. Qed.

(** A sequence may be regrouped. *)
Lemma bind_assoc {G L A B C} (m : prog G L A) (k : A -> prog G L B) (h : B -> prog G L C)
    t g :
  bind m (fun a => bind (k a) h) t g = bind (bind m k) h t g.
Proof.
  unfold bind. destruct (m t g) as [[[l | a] g1] es1]; [reflexivity |].
  destruct (k a (t + length es1)%nat g1) as [[[l | b] g2] es2]; [reflexivity |].
  rewrite length_app, Nat.add_assoc.
  destruct (h b (t + length es1 + length es2)%nat g2) as [[r g3] es3].
  rewrite List.app_assoc. reflexivity.
Qed.

Lemma shows_regrouped {G L A B C X} (sel : event -> option X)
    (Q : L + C -> list X -> Prop)
    (m : prog G L A) (k : A -> prog G L B) (h : B -> prog G L C) :
  shows sel Q (bind (bind m k) h) -> shows sel Q (bind m (fun a => bind (k a) h)).
Proof. intros Hs t g. rewrite bind_assoc. apply Hs. Qed.

Ltac is_OK_cases :=
  repeat match goal with
         | H : negb (is_OK _) = false |- _ => apply not_OK in H; subst
         | H : negb (is_OK ?rc) = true |- _ =>
             apply negb_true_iff in H
         end.

(** *** messageReplay.c: what the receive callback reports *)

(** The calls and error reports of [messageReceiveCallback] are one of
    four: the dump fails and is reported with its code; the dump succeeds
    and [solClient_msg_getSmfPtr] fails, or both succeed and
    [solClient_session_sendSmf] fails, and the failure is reported with
    the code of the dump, SOLCLIENT_OK, not with the code of the call
    that failed; or the three calls succeed and nothing is reported. *)
Theorem replay_callback_reports_code_of_dump :
  forall (E : env MessageReplay.direct_message) (msg_p : MessageReplay.direct_message)
         t (g : MessageReplay.vars),
    let l := omap call_or_report (events (MessageReplay.messageReceiveCallback E msg_p t g)) in
    (exists rc, rc <> SOLCLIENT_OK
       /\ l = [ inl (solClient_msg_dump, rc); inr ("solClient_msg_dump()", rc) ])
    \/ (exists rc, rc <> SOLCLIENT_OK
       /\ l = [ inl (solClient_msg_dump, SOLCLIENT_OK); inl (solClient_msg_getSmfPtr, rc);
                inr ("Unable to extract SMF from received message", SOLCLIENT_OK) ])
    \/ (exists rc, rc <> SOLCLIENT_OK
       /\ l = [ inl (solClient_msg_dump, SOLCLIENT_OK);
                inl (solClient_msg_getSmfPtr, SOLCLIENT_OK);
                inl (solClient_session_sendSmf, rc);
                inr ("Unable to send SMF from received message", SOLCLIENT_OK) ])
    \/ l = [ inl (solClient_msg_dump, SOLCLIENT_OK);
             inl (solClient_msg_getSmfPtr, SOLCLIENT_OK);
             inl (solClient_session_sendSmf, SOLCLIENT_OK) ].
Proof.
  intros E msg_p t g l.
  assert (Hs : exists Q,
             shows call_or_report Q (MessageReplay.messageReceiveCallback E msg_p)
             /\ forall r l, Q r l ->
                  (exists rc, rc <> SOLCLIENT_OK
                     /\ l = [ inl (solClient_msg_dump, rc); inr ("solClient_msg_dump()", rc) ])
                  \/ (exists rc, rc <> SOLCLIENT_OK
                     /\ l = [ inl (solClient_msg_dump, SOLCLIENT_OK);
                              inl (solClient_msg_getSmfPtr, rc);
                              inr ("Unable to extract SMF from received message",
                                   SOLCLIENT_OK) ])
                  \/ (exists rc, rc <> SOLCLIENT_OK
                     /\ l = [ inl (solClient_msg_dump, SOLCLIENT_OK);
                              inl (solClient_msg_getSmfPtr, SOLCLIENT_OK);
                              inl (solClient_session_sendSmf, rc);
                              inr ("Unable to send SMF from received message",
                                   SOLCLIENT_OK) ])
                  \/ l = [ inl (solClient_msg_dump, SOLCLIENT_OK);
                           inl (solClient_msg_getSmfPtr, SOLCLIENT_OK);
                           inl (solClient_session_sendSmf, SOLCLIENT_OK) ]).
  { eexists. split.
    - unfold MessageReplay.messageReceiveCallback. shows_with fail.
    - intros r0 l0 HQ. way HQ.
      all: repeat match goal with
                  | H : negb (is_OK _) = false |- _ => apply not_OK in H; subst
                  | H : negb (is_OK _) = true |- _ => apply not_OK_true in H
                  end.
      all: simpl.
      all: first [ left; eexists; split; [eassumption | reflexivity]
                 | right; left; eexists; split; [eassumption | reflexivity]
                 | right; right; left; eexists; split; [eassumption | reflexivity]
                 | right; right; right; reflexivity ]. }
  destruct Hs as (Q & HQ & Hall). exact (Hall _ _ (HQ t g)).
Qed.

(** *** common.c: the queue helpers report SOLCLIENT_FAIL only *)

(** [common_createQueue] and [common_deleteQueue] make one SDK call.
    They report its failure and return its code only when that code is
    SOLCLIENT_FAIL; any other code, SOLCLIENT_NOT_READY for one, is taken
    for success: nothing is reported and SOLCLIENT_OK is returned. *)
Theorem queue_helpers_fail_on_FAIL_only :
  forall (G D L : Type) (E : env D) (H : headers) (callback : D -> prog G unit unit)
         (queueName_p : string) t (g : G),
    quiet call_or_report callback ->
    let created := @common_createQueue G D E H callback L queueName_p t g in
    let deleted := @common_deleteQueue G D E callback L queueName_p t g in
    (exists rc,
        omap call_or_report (events created) =
          inl (solClient_session_endpointProvision (createQueue_props H queueName_p)
                 provision_flags, rc)
          :: (if is_FAIL rc then [inr ("solClient_session_endpointProvision()", rc)] else [])
        /\ outcome created = inr (if is_FAIL rc then SOLCLIENT_FAIL else SOLCLIENT_OK))
    /\ (exists rc,
        omap call_or_report (events deleted) =
          inl (solClient_session_endpointDeprovision (deleteQueue_props queueName_p)
                 provision_flags, rc)
          :: (if is_FAIL rc then [inr ("solClient_session_endpointDeprovision()", rc)] else [])
        /\ outcome deleted = inr (if is_FAIL rc then SOLCLIENT_FAIL else SOLCLIENT_OK)).
Proof.
  intros G D L E H callback queueName_p t g Hq created deleted. split.
  - subst created. rewrite common_createQueue_run. unfold outcome, events.
    simpl fst. simpl snd. rewrite omap_app, (synced_unseen _ E callback Hq).
    set (rc := sdk_rc E _ _). exists rc. destruct rc; split; reflexivity.
  - subst deleted. rewrite common_deleteQueue_run. unfold outcome, events.
    simpl fst. simpl snd. rewrite omap_app, (synced_unseen _ E callback Hq).
    set (rc := sdk_rc E _ _). exists rc. destruct rc; split; reflexivity.
Qed.

Lemma queue_helpers_fail_on_FAIL_only_witness :
  let created := @common_createQueue unit unit not_ready Terms.sample_headers idle unit
                   "my_sample_queue" 0%nat tt in
  let deleted := @common_deleteQueue unit unit not_ready idle unit
                   "my_sample_queue" 0%nat tt in
  (exists rc,
      omap call_or_report (events created) =
        inl (solClient_session_endpointProvision
               (createQueue_props Terms.sample_headers "my_sample_queue")
               provision_flags, rc)
        :: (if is_FAIL rc then [inr ("solClient_session_endpointProvision()", rc)] else [])
      /\ outcome created = inr (if is_FAIL rc then SOLCLIENT_FAIL else SOLCLIENT_OK))
  /\ (exists rc,
      omap call_or_report (events deleted) =
        inl (solClient_session_endpointDeprovision (deleteQueue_props "my_sample_queue")
               provision_flags, rc)
        :: (if is_FAIL rc then [inr ("solClient_session_endpointDeprovision()", rc)] else [])
      /\ outcome deleted = inr (if is_FAIL rc then SOLCLIENT_FAIL else SOLCLIENT_OK)).
Proof.
  apply (queue_helpers_fail_on_FAIL_only unit unit unit not_ready Terms.sample_headers idle
           "my_sample_queue" 0%nat tt).
  intros d t g. split; reflexivity.
Defined.

(** *** The cleanup code of the samples *)

Section Cleanup.
Context {G D L : Type}.
Variable E : env D.
Variable callback : D -> prog G unit unit.
Hypothesis callback_quiet : quiet cleanup_step callback.

(** A cleanup call whose failure is reported. *)
Lemma shows_attempt (c : api_call) (name : string) :
  is_cleanup_call c = true -> is_cleanup_name name = true ->
  shows cleanup_step (attempts c name)
    (let* rc := call E callback c in
     when (negb (is_OK rc)) (common_handleError E rc name) : prog G L unit).
Proof.
  intros Hc Hn t g. rewrite (bind_inr _ _ _ _ _ _ _ (call_run E callback c t g)).
  set (rc := sdk_rc E _ c). exists rc.
  unfold outcome, events. simpl fst. simpl snd.
  rewrite !omap_app, (synced_unseen _ E callback callback_quiet).
  unfold attempted. destruct (is_OK rc); simpl; rewrite Hc; [auto |].
  rewrite Hn. auto.
Qed.

(** The deletion of a queue by [common_deleteQueue], as its caller
    reports it. *)
Lemma shows_deletion (queueName_p : string) :
  shows cleanup_step (deletes queueName_p)
    (let* rc := common_deleteQueue E callback queueName_p in
     when (negb (is_OK rc)) (common_handleError E rc "common_deleteQueue()") : prog G L unit).
Proof.
  intros t g. rewrite (bind_inr _ _ _ _ _ _ _ (common_deleteQueue_run E callback _ t g)).
  set (rc := sdk_rc E _ _). exists rc.
  unfold outcome, events. simpl fst. simpl snd.
  rewrite !omap_app, (synced_unseen _ E callback callback_quiet).
  unfold deletion. destruct rc; simpl; auto.
Qed.

(** The destruction of a Flow whose handle is not NULL. *)
Lemma shows_destroy (flag : G -> bool) (clear : G -> G) (f : flow_handle) :
  shows cleanup_step (may_attempt (solClient_flow_destroy f) "solClient_flow_destroy()")
    (let* g := get in
     when (flag g)
       (let* rc := call E callback (solClient_flow_destroy f) in
        modify clear;;
        when (negb (is_OK rc)) (common_handleError E rc "solClient_flow_destroy()"))
     : prog G L unit).
Proof.
  assert (Hs : exists Q,
             shows cleanup_step Q
               (let* g := get in
                when (flag g)
                  (let* rc := call E callback (solClient_flow_destroy f) in
                   modify clear;;
                   when (negb (is_OK rc))
                     (common_handleError E rc "solClient_flow_destroy()"))
                : prog G L unit)
             /\ forall r l, Q r l ->
                  may_attempt (solClient_flow_destroy f) "solClient_flow_destroy()" r l).
  { eexists. split; [shows_with ltac:(exact callback_quiet) |].
    intros r l HQ. way HQ.
    all: repeat match goal with
                | H : negb (is_OK ?rc) = _ |- _ =>
                    destruct (is_OK rc) eqn:?; simpl in H; try discriminate H; clear H
                end.
    all: split; [reflexivity |].
    all: first [ left; reflexivity
               | right;
                 match goal with
                 | H : is_OK ?rc = _ |- _ =>
                     exists rc; unfold attempted; rewrite H; reflexivity
                 end ]. }
  destruct Hs as (Q & HQ & Hall). intros t g. apply Hall, HQ.
Qed.

(** The same steps, followed by more code. *)
Lemma shows_attempt_then {B} (c : api_call) (name : string)
    (Q : L + B -> list (answer + report) -> Prop) (rest : prog G L B) :
  is_cleanup_call c = true -> is_cleanup_name name = true ->
  shows cleanup_step Q rest ->
  shows cleanup_step (and_then (attempts c name) (fun _ => Q))
    (let* rc := call E callback c in
     when (negb (is_OK rc)) (common_handleError E rc name);;
     rest).
Proof.
  intros Hc Hn Hrest.
  apply (shows_regrouped cleanup_step _ (call E callback c)
           (fun rc => when (negb (is_OK rc)) (common_handleError E rc name))
           (fun _ => rest)).
  apply shows_bind; [apply shows_attempt; assumption | intros _; exact Hrest].
Qed.

Lemma shows_deletion_then {B} (queueName_p : string)
    (Q : L + B -> list (answer + report) -> Prop) (rest : prog G L B) :
  shows cleanup_step Q rest ->
  shows cleanup_step (and_then (deletes queueName_p) (fun _ => Q))
    (let* rc := common_deleteQueue E callback queueName_p in
     when (negb (is_OK rc)) (common_handleError E rc "common_deleteQueue()");;
     rest).
Proof.
  intros Hrest.
  apply (shows_regrouped cleanup_step _ (common_deleteQueue E callback queueName_p)
           (fun rc => when (negb (is_OK rc)) (common_handleError E rc "common_deleteQueue()"))
           (fun _ => rest)).
  apply shows_bind; [apply shows_deletion | intros _; exact Hrest].
Qed.

Lemma shows_destroy_then {B} (flag : G -> bool) (clear : G -> G) (f : flow_handle)
    (Q : L + B -> list (answer + report) -> Prop) (rest : prog G L B) :
  shows cleanup_step Q rest ->
  shows cleanup_step
    (and_then (may_attempt (solClient_flow_destroy f) "solClient_flow_destroy()")
       (fun _ => Q))
    (let* g := get in
     when (flag g)
       (let* rc := call E callback (solClient_flow_destroy f) in
        modify clear;;
        when (negb (is_OK rc)) (common_handleError E rc "solClient_flow_destroy()"));;
     rest).
Proof.
  intros Hrest.
  apply (shows_regrouped cleanup_step _ get
           (fun g => when (flag g)
                       (let* rc := call E callback (solClient_flow_destroy f) in
                        modify clear;;
                        when (negb (is_OK rc))
                          (common_handleError E rc "solClient_flow_destroy()")))
           (fun _ => rest)).
  apply shows_bind; [apply shows_destroy | intros _; exact Hrest].
Qed.

End Cleanup.

Ltac open_attempts :=
  repeat match goal with
         | H : attempts _ _ _ _ |- _ => destruct H as (? & ? & ?)
         | H : deletes _ _ _ |- _ => destruct H as (? & ? & ?)
         | H : may_attempt _ _ _ _ |- _ => destruct H as (? & [? | (? & ?)])
         end;
  tidy.

(** The callbacks of the samples add no cleanup call and no report of
    one. *)
Lemma flow_callback_quiet (E : env message) :
  quiet cleanup_step (FlowControlQueue.flowMsgCallbackFunc E).
Proof.
  intros msg_p. unfold FlowControlQueue.flowMsgCallbackFunc.
  confined_with idtac ltac:(first [intros; reflexivity | intros; exact I]).
Qed.

Lemma ack_callback_quiet (E : env AdPubAck.eventInfo) :
  quiet cleanup_step (AdPubAck.adPubAck_eventCallback E).
Proof.
  intros [sessionEvent correlation_p]. unfold AdPubAck.adPubAck_eventCallback.
  destruct sessionEvent; simpl;
    confined_with idtac ltac:(first [intros; reflexivity | intros; exact I]).
Qed.

Lemma ttl_callbacks_unseen (E : env MessageTTL.delivery) :
  quiet cleanup_step (MessageTTL.callbacks E).
Proof.
  intros d.
  destruct d as [[] msg_p | e | e]; simpl;
    [ unfold common_flowMessageReceiveCallback
    | unfold common_flowMessageReceiveCallback
    | unfold common_eventCallback; destruct e
    | unfold common_flowEventCallback; destruct e ];
    confined_with idtac ltac:(first [intros; reflexivity | intros; exact I]).
Qed.

(** What the cleanup code of flowControlQueue shows of its cleanup calls. *)
Lemma flowControlQueue_cleanup_shows (E : env message) (l : FlowControlQueue.label) :
  exists Q,
  shows cleanup_step Q (FlowControlQueue.from_label E l)
  /\ forall r0 l0, Q r0 l0 ->
       r0 = inr 0
       /\ exists rc1 rc2 rc3,
            l0 =
              match l with
              | FlowControlQueue.cleanupFlow =>
                  attempted (solClient_flow_destroy flow_p)
                    "solClient_flow_destroy()" rc1
                  ++ attempted solClient_session_disconnect
                       "solClient_session_disconnect()" rc2
                  ++ attempted solClient_cleanup "solClient_cleanup()" rc3
              | FlowControlQueue.sessionConnected =>
                  attempted solClient_session_disconnect
                    "solClient_session_disconnect()" rc2
                  ++ attempted solClient_cleanup "solClient_cleanup()" rc3
              | FlowControlQueue.cleanup =>
                  attempted solClient_cleanup "solClient_cleanup()" rc3
              | FlowControlQueue.notInitialized => []
              end.
Proof.
  destruct l; eexists;
    (split;
     [ unfold FlowControlQueue.from_label, FlowControlQueue.at_cleanupFlow,
         FlowControlQueue.at_sessionConnected, FlowControlQueue.at_cleanup;
       repeat first [ apply shows_attempt;
                        [apply flow_callback_quiet | reflexivity | reflexivity]
                    | shows_step fail ]
     | intros r0 l0 HQ; way HQ; open_attempts ]).
  all: split; [reflexivity |].
  all: rewrite ?app_nil_r.
  - eexists _, _, _. reflexivity.
  - exists SOLCLIENT_OK. eexists _, _. reflexivity.
  - exists SOLCLIENT_OK, SOLCLIENT_OK. eexists. reflexivity.
  - exists SOLCLIENT_OK, SOLCLIENT_OK, SOLCLIENT_OK. reflexivity.
Qed.

(** The cleanup code of flowControlQueue, from whatever label it is
    entered: the Flow is destroyed, the Session disconnected and the API
    cleaned up, in this order and whatever each call returns; a call that
    does not return SOLCLIENT_OK is reported and the next one is made all
    the same.  [main] then returns 0. *)
Theorem flowControlQueue_cleanup_runs_to_the_end :
  forall (E : env message) (l : FlowControlQueue.label) t (g : FlowControlQueue.vars),
    let r := exec (FlowControlQueue.from_label E l) t g in
    outcome r = 0
    /\ exists rc1 rc2 rc3,
         omap cleanup_step (events r) =
           match l with
           | FlowControlQueue.cleanupFlow =>
               attempted (solClient_flow_destroy flow_p) "solClient_flow_destroy()" rc1
               ++ attempted solClient_session_disconnect "solClient_session_disconnect()" rc2
               ++ attempted solClient_cleanup "solClient_cleanup()" rc3
           | FlowControlQueue.sessionConnected =>
               attempted solClient_session_disconnect "solClient_session_disconnect()" rc2
               ++ attempted solClient_cleanup "solClient_cleanup()" rc3
           | FlowControlQueue.cleanup =>
               attempted solClient_cleanup "solClient_cleanup()" rc3
           | FlowControlQueue.notInitialized => []
           end.
Proof.
  intros E l t g r.
  destruct (flowControlQueue_cleanup_shows E l) as (Q & HQ & Hall).
  destruct (Hall _ _ (shows_exec _ _ _ t g HQ)) as (Ho & Hl).
  split; [injection Ho as Ho; exact Ho | exact Hl].
Qed.

(** *** adPubAck.c *)

Section AckCleanup.
Variable E : env AdPubAck.eventInfo.

Lemma free_head_unseen (p : nat) (e : AdPubAck.messageCorrelationStruct_t) :
  confined (unseen cleanup_step) (fun _ _ => True) (@AdPubAck.free_head E Empty_set p e).
Proof.
  unfold AdPubAck.free_head.
  confined_with ltac:(apply ack_callback_quiet)
                ltac:(first [intros; reflexivity | intros; exact I]).
Qed.

Lemma free_all_unseen (fuel : nat) :
  confined (unseen cleanup_step) (fun _ _ => True) (@AdPubAck.free_all E Empty_set fuel).
Proof.
  induction fuel as [| fuel IH]; simpl.
  - confined_with idtac ltac:(first [intros; reflexivity | intros; exact I]).
  - apply confined_bind; [auto | apply confined_get; auto | intros g].
    destruct (AdPubAck.msgMemoryListHead_p g) as [p |]; [| apply confined_ret; auto].
    destruct (AdPubAck.heap g !! p) as [e |]; [| apply confined_modify; auto].
    apply confined_bind; [auto | apply free_head_unseen | intros _; exact IH].
Qed.

Lemma free_remaining_unseen :
  shows cleanup_step (ends [] (fun _ => True)) (@AdPubAck.free_remaining E Empty_set).
Proof.
  apply shows_unseen. unfold AdPubAck.free_remaining.
  apply confined_bind; [auto | apply confined_get; auto | intros g; apply free_all_unseen].
Qed.

End AckCleanup.

(** What the cleanup code of adPubAck shows of its cleanup calls. *)
Lemma adPubAck_cleanup_shows (E : env AdPubAck.eventInfo) (l : AdPubAck.label) :
  exists Q,
  shows cleanup_step Q (AdPubAck.from_label E l)
  /\ forall r0 l0, Q r0 l0 ->
       r0 = inr 0
       /\ exists rc1 rc2,
            l0 =
              match l with
              | AdPubAck.sessionConnected =>
                  attempted solClient_session_disconnect
                    "solClient_session_disconnect()" rc1
                  ++ attempted solClient_cleanup "solClient_cleanup()" rc2
              | AdPubAck.cleanup =>
                  attempted solClient_cleanup "solClient_cleanup()" rc2
              | AdPubAck.notInitialized => []
              end.
Proof.
  destruct l; eexists;
    (split;
     [ unfold AdPubAck.from_label, AdPubAck.at_sessionConnected, AdPubAck.at_cleanup;
       repeat first [ apply shows_attempt;
                        [apply ack_callback_quiet | reflexivity | reflexivity]
                    | apply free_remaining_unseen
                    | shows_step fail ]
     | intros r0 l0 HQ; way HQ; open_attempts ]).
  all: split; [reflexivity |].
  all: rewrite ?app_nil_r.
  - eexists _, _. reflexivity.
  - exists SOLCLIENT_OK. eexists. reflexivity.
  - exists SOLCLIENT_OK, SOLCLIENT_OK. reflexivity.
Qed.

(** The cleanup code of adPubAck, from whatever label it is entered: the
    Session is disconnected and the API cleaned up, in this order and
    whatever each call returns; a call that does not return SOLCLIENT_OK
    is reported and the next one is made all the same.  [main] then
    returns 0. *)
Theorem adPubAck_cleanup_runs_to_the_end :
  forall (E : env AdPubAck.eventInfo) (l : AdPubAck.label) t (g : AdPubAck.vars),
    let r := exec (AdPubAck.from_label E l) t g in
    outcome r = 0
    /\ exists rc1 rc2,
         omap cleanup_step (events r) =
           match l with
           | AdPubAck.sessionConnected =>
               attempted solClient_session_disconnect "solClient_session_disconnect()" rc1
               ++ attempted solClient_cleanup "solClient_cleanup()" rc2
           | AdPubAck.cleanup =>
               attempted solClient_cleanup "solClient_cleanup()" rc2
           | AdPubAck.notInitialized => []
           end.
Proof.
  intros E l t g r.
  destruct (adPubAck_cleanup_shows E l) as (Q & HQ & Hall).
  destruct (Hall _ _ (shows_exec _ _ _ t g HQ)) as (Ho & Hl).
  split; [injection Ho as Ho; exact Ho | exact Hl].
Qed.

(** *** messageTTLAndDeadMessageQueue.c *)

(** What the cleanup code of messageTTLAndDeadMessageQueue shows of its cleanup
    calls. *)
Lemma messageTTL_cleanup_shows (E : env MessageTTL.delivery) (H : headers) (l : MessageTTL.label) :
  exists Q,
  shows cleanup_step Q (MessageTTL.from_label E H l)
  /\ forall r0 l0, Q r0 l0 ->
       r0 = inr 0
       /\ exists flows dmqFlows rc1 rc2 rc3 rc4,
            l0 =
              match l with
              | MessageTTL.sessionConnected =>
                  flows ++ dmqFlows
                  ++ deletion (COMMON_TESTQ H) rc1
                  ++ deletion (COMMON_DMQ_NAME H) rc2
                  ++ attempted solClient_session_disconnect
                       "solClient_session_disconnect()" rc3
                  ++ attempted solClient_cleanup "solClient_cleanup()" rc4
              | MessageTTL.cleanup =>
                  attempted solClient_cleanup "solClient_cleanup()" rc4
              | MessageTTL.notInitialized => []
              end
            /\ (flows = []
                \/ exists rc, flows = attempted (solClient_flow_destroy flow_p)
                                        "solClient_flow_destroy()" rc)
            /\ (dmqFlows = []
                \/ exists rc,
                    dmqFlows = attempted (solClient_flow_destroy dmqFlow_p)
                                 "solClient_flow_destroy()" rc).
Proof.
  destruct l; eexists;
    (split;
     [ unfold MessageTTL.from_label, MessageTTL.at_sessionConnected, MessageTTL.at_cleanup;
       repeat first [ apply shows_attempt;
                        [apply ttl_callbacks_unseen | reflexivity | reflexivity]
                    | eapply shows_deletion_then; [apply ttl_callbacks_unseen |]
                    | eapply shows_destroy_then; [apply ttl_callbacks_unseen |]
                    | shows_step fail ]
     | intros r0 l0 HQ; way HQ; open_attempts ]).
  all: split; [reflexivity |].
  all: rewrite <- ?List.app_assoc, ?app_nil_r.
  all: first
    [ exists [], [], SOLCLIENT_OK, SOLCLIENT_OK, SOLCLIENT_OK, SOLCLIENT_OK;
      split; [reflexivity |]; split; left; reflexivity
    | exists [], [], SOLCLIENT_OK, SOLCLIENT_OK, SOLCLIENT_OK; eexists;
      split; [reflexivity |]; split; left; reflexivity
    | solve [eexists _, _, _, _, _, _; split; [reflexivity |]; split; eauto] ].
Qed.

(** The cleanup code of messageTTLAndDeadMessageQueue entered at
    [sessionConnected]: each of the two Flows is destroyed at most once,
    then the two queues are deleted, the Session is disconnected and the
    API cleaned up, in this order and whatever each call returns.  A
    queue deletion is reported only when it returns SOLCLIENT_FAIL, and
    then twice; every other call that does not return SOLCLIENT_OK is
    reported once.  Entered at [cleanup], the code only cleans up the
    API.  [main] then returns 0. *)
Theorem messageTTL_cleanup_runs_to_the_end :
  forall (E : env MessageTTL.delivery) (H : headers) (l : MessageTTL.label)
         t (g : MessageTTL.vars),
    let r := exec (MessageTTL.from_label E H l) t g in
    outcome r = 0
    /\ exists flows dmqFlows rc1 rc2 rc3 rc4,
         omap cleanup_step (events r) =
           match l with
           | MessageTTL.sessionConnected =>
               flows ++ dmqFlows
               ++ deletion (COMMON_TESTQ H) rc1 ++ deletion (COMMON_DMQ_NAME H) rc2
               ++ attempted solClient_session_disconnect "solClient_session_disconnect()" rc3
               ++ attempted solClient_cleanup "solClient_cleanup()" rc4
           | MessageTTL.cleanup =>
               attempted solClient_cleanup "solClient_cleanup()" rc4
           | MessageTTL.notInitialized => []
           end
         /\ (flows = []
             \/ exists rc, flows = attempted (solClient_flow_destroy flow_p)
                                     "solClient_flow_destroy()" rc)
         /\ (dmqFlows = []
             \/ exists rc, dmqFlows = attempted (solClient_flow_destroy dmqFlow_p)
                                        "solClient_flow_destroy()" rc).
Proof.
  intros E H l t g r.
  destruct (messageTTL_cleanup_shows E H l) as (Q & HQ & Hall).
  destruct (Hall _ _ (shows_exec _ _ _ t g HQ)) as (Ho & Hl).
  split; [injection Ho as Ho; exact Ho | exact Hl].
Qed.

(** *** The waits of messageTTLAndDeadMessageQueue.c *)

(** The sleeps of a wait: at most [left], each of 250 microseconds. *)
Lemma waited_sleeps (expected : Z) (left : nat) : forall l : list (Z + Z),
  waited expected left l ->
  (length (sleeps l) <= left)%nat /\ Forall (eq 250) (sleeps l).
Proof.
  induction left as [| left IH]; intros l Hw;
    destruct l as [| [z | us] [| [z' | us'] l']]; simpl in Hw; try contradiction.
  - simpl. split; [lia | constructor].
  - destruct Hw as (_ & _ & []).
  - simpl. split; [lia | constructor].
  - destruct Hw as (_ & -> & Hw). destruct (IH l' Hw) as [Hlen Hall].
    simpl. split; [lia | constructor; auto].
Qed.

Lemma wait_shows (E : env MessageTTL.delivery) {L} (expected : Z) (left : nat) :
  shows wait_event (fun r l => r = inr tt /\ waited expected left l)
    (@MessageTTL.wait_flowRxMsgCounter E L expected left).
Proof.
  assert (Hq : quiet wait_event (MessageTTL.callbacks E)).
  { intros d. apply TtlFacts.callbacks_events; intros; reflexivity. }
  induction left as [| left IH]; simpl.
  - assert (Hs : exists Q,
               shows wait_event Q
                 (let* n := load E (MessageTTL.callbacks E) flowRxMsgCounter
                              MessageTTL.v_flowRxMsgCounter in
                  if n =? expected then ret tt else ret tt : prog _ L unit)
               /\ forall r l, Q r l -> r = inr tt /\ waited expected 0 l).
    { eexists. split; [shows_with ltac:(exact Hq) |].
      intros r l HQ. way HQ; simpl; auto. }
    destruct Hs as (Q & HQ & Hall). intros t g. apply Hall, HQ.
  - assert (Hs : exists Q,
               shows wait_event Q
                 (let* n := load E (MessageTTL.callbacks E) flowRxMsgCounter
                              MessageTTL.v_flowRxMsgCounter in
                  if n =? expected then ret tt
                  else
                    sleepInUs E (MessageTTL.callbacks E) 250;;
                    MessageTTL.wait_flowRxMsgCounter E expected left : prog _ L unit)
               /\ forall r l, Q r l -> r = inr tt /\ waited expected (S left) l).
    { eexists. split.
      - eapply shows_bind; [apply shows_load; exact Hq | intros n].
        eapply shows_if; [apply shows_ret |].
        eapply shows_bind; [apply shows_sleepInUs; exact Hq | intros ?; exact IH].
      - intros r l HQ. way HQ.
        all: repeat match goal with
                    | H : _ /\ _ |- _ => destruct H
                    end; tidy.
        + simpl. split; [reflexivity | left; apply Z.eqb_eq; assumption].
        + split; [reflexivity |]. simpl.
          repeat split; auto. apply Z.eqb_neq. assumption. }
    destruct Hs as (Q & HQ & Hall). intros t g. apply Hall, HQ.
Qed.

(** A wait for the queue counter ends normally.  It reads the counter,
    and as long as the value is not the expected one and fewer than
    [left] sleeps were made it sleeps 250 microseconds and reads again:
    at most [left] sleeps, that is 2 milliseconds for the [left = 8] of
    [main], whatever is delivered meanwhile. *)
Theorem wait_for_queue_counter_is_bounded :
  forall (E : env MessageTTL.delivery) (L : Type) (expected : Z) (left : nat)
         t (g : MessageTTL.vars),
    let r := @MessageTTL.wait_flowRxMsgCounter E L expected left t g in
    outcome r = inr tt
    /\ waited expected left (omap wait_event (events r))
    /\ (length (sleeps (omap wait_event (events r))) <= left)%nat
    /\ Forall (eq 250) (sleeps (omap wait_event (events r))).
Proof.
  intros E L expected left t g r.
  destruct (@wait_shows E L expected left t g) as [Ho Hw].
  split; [exact Ho |]. split; [exact Hw |]. exact (waited_sleeps _ _ _ Hw).
Qed.

End ReportFacts.

(** ** Handled errors: where they are reported and what follows *)

Module ErrorFacts.
Import CStr Sdk Run Common CommonPublish Obs Behaviour Reports RunFacts Step
  CommonFacts ShowsFacts ReportFacts.
Local Open Scope prog_scope.

(** [main] with its labels is its body followed by the code from the
    label the body has reached. *)
Lemma with_labels_run {G L A} (body : prog G L unit) (fallthrough : L)
    (from : L -> prog G Empty_set A) t g :
  let b := body t g in
  let reached := match outcome b with inl l => l | inr _ => fallthrough end in
  let c := exec (from reached) (t + length (events b))%nat (vars_after b) in
  with_labels body fallthrough from t g = (outcome c, vars_after c, events b ++ events c).
Proof.
  unfold with_labels. destruct (body t g) as [[r g1] es1].
  unfold outcome, vars_after, events. cbn [fst snd].
  destruct (exec _ _ _) as [[a g2] es2]. reflexivity.
Qed.



End ErrorFacts.
